(** * The measurement-record reader of Stim (stim/io/measure_record_reader.cc)

    A shallow embedding of the five streaming decoders (01, B8, HITS, R8 and
    DETS), of the two lexer helpers they share and of the default
    [read_bits_into_bytes], followed by the properties the specification
    states about them.

    Conventions of the embedding:
    - a [FILE *] opened for reading is the list of bytes still to be read;
      [getc] pops one byte or answers [EOF] (-1), as the C function does;
    - [int] values (the result of [getc]) are [Z]; [size_t] and [uint64_t]
      values are [Z] in [0, 2^64) with the wrap-around of every addition
      written out ([wrap64]); [uint8_t] values wrap at 2^8 ([wrap8]);
    - a C++ exception is the [Throw] branch of [result]; the value names the
      [throw] statement that raised it;
    - every method takes the object's fields as a record and returns the
      updated record. *)

From Stdlib Require Import ZArith Lia Bool.
From Stdlib.Strings Require Import Byte.
From stdpp Require Import base option list.

Local Open Scope Z_scope.

(** ** Machine integers *)

Definition wrap64 (z : Z) : Z := z mod 2 ^ 64.
Definition wrap8 (z : Z) : Z := z mod 2 ^ 8.

(** ** Exceptions *)

(** One constructor per [throw] statement of the source (and one for a failed
    [assert]); the comment gives the start of the message. *)
Inductive exn : Set :=
| KeywordNotFound        (* runtime_error: Failed to find expected string *)
| IntegerTooBig          (* runtime_error: Integer value read from file was too big *)
| ShotTooLong            (* invalid_argument: A shot contained more bits than expected *)
| PastEndOfFile          (* out_of_range: Attempt to read past end-of-file *)
| PastEndOfRecord        (* out_of_range: Attempt to read past end-of-record *)
| ExpectedZeroOrOne      (* runtime_error: Expected '0' or '1' *)
| LineTooLong            (* runtime_error: Line was too long for input file in 01 format *)
| RecordEndedEarly       (* invalid_argument: Record data (in 01 format) ended early *)
| RecordDidNotEnd        (* invalid_argument: Record data (in 01 format) did not end *)
| ReadPastEndOfBuffer    (* invalid_argument: Read past end of buffer. *)
| HitsIntegerExpected    (* runtime_error: Integer didn't start immediately ... *)
| HitsSeparatorExpected  (* runtime_error: 'hits' format requires integers to be followed by ... *)
| HitsValueTooBig        (* runtime_error: Bits per record is ... but got a hit value ... *)
| R8ReadPastEnd          (* invalid_argument: Read past end-of-record. *)
| R8BufferPastEnd        (* invalid_argument: Attempted to read past end-of-record. *)
| R8EndedOnContinuation  (* invalid_argument: r8 data ended on a continuation (a 0xFF byte) *)
| R8NoTerminatorAtEof    (* invalid_argument: r8 data ended too early ... before the input ended. *)
| R8NoTerminatorAtData   (* invalid_argument: r8 data ended too early ... before any additional data. *)
| R8JumpPastEnd          (* invalid_argument: r8 data encoded a jump past the expected end *)
| DetsSpaceExpected      (* invalid_argument: DETS values must be separated by spaces. *)
| DetsBadPrefix          (* invalid_argument: Unrecognized DETS prefix *)
| DetsIntegerExpected    (* invalid_argument: DETS prefix ... wasn't not followed by an integer. *)
| DetsValueTooBig        (* invalid_argument: Got ... but expected num values of that type is ... *)
| AssertionFailed        (* assert(...) evaluated to false *)
| LoopBudgetExhausted.   (* never raised: see the [_budget] lemmas *)

Inductive result (A : Type) : Type :=
| Ok (a : A)
| Throw (e : exn).
Arguments Ok {A} a.
Arguments Throw {A} e.

#[global] Instance result_ret : MRet result := fun _ a => Ok a.
#[global] Instance result_bind : MBind result := fun _ _ f r =>
  match r with
  | Ok a => f a
  | Throw e => Throw e
  end.

Definition is_ok {A} (r : result A) : bool :=
  match r with Ok _ => true | Throw _ => false end.

(** ** The byte source *)

Definition EOF : Z := -1.

Definition byte_val (b : byte) : Z := Z.of_N (Byte.to_N b).

Definition getc (inp : list byte) : Z * list byte :=
  match inp with
  | [] => (EOF, [])
  | b :: rest => (byte_val b, rest)
  end.

(** [size_t fread(ptr, 1, n, in)]: copies up to [n] bytes to the start of
    [out] and answers how many there were. *)
Definition fread (n : Z) (inp : list byte) (out : list Z) : Z * list Z * list byte :=
  let got := take (Z.to_nat n) inp in
  (Z.of_nat (length got),
   (byte_val <$> got) ++ drop (length got) out,
   drop (Z.to_nat n) inp).

(** Character constants. *)
Definition ch_newline : Z := 10.
Definition ch_space : Z := 32.
Definition ch_comma : Z := 44.
Definition ch_0 : Z := 48.
Definition ch_1 : Z := 49.
Definition ch_9 : Z := 57.
Definition ch_D : Z := 68.
Definition ch_L : Z := 76.
Definition ch_M : Z := 77.

Definition isdigit (c : Z) : bool := (ch_0 <=? c) && (c <=? ch_9).

(** ** Lexer helpers *)

(** The [for (char c : keyword)] loop of [maybe_consume_keyword]. *)
Fixpoint consume_keyword_chars (keyword : list Z) (next : Z) (inp : list byte)
  : result (Z * list byte) :=
  match keyword with
  | [] => Ok (next, inp)
  | c :: keyword' =>
      if negb (c =? next) then Throw KeywordNotFound
      else let '(next', inp') := getc inp in
           consume_keyword_chars keyword' next' inp'
  end.

(** Answers (found, next, rest of the input). *)
Definition maybe_consume_keyword (inp : list byte) (keyword : list Z)
  : result (bool * Z * list byte) :=
  let '(next, inp) := getc inp in
  if next =? EOF then Ok (false, next, inp)
  else '(next, inp) ← consume_keyword_chars keyword next inp;
       Ok (true, next, inp).

(** The [while (isdigit(next))] loop of [read_uint64]. Every round but the
    last reads a byte that exists, so the input list is its own budget; at
    the end of the input [getc] answers [EOF], which is no digit. *)
Fixpoint read_uint64_digits (value next : Z) (inp : list byte)
  : result (Z * Z * list byte) :=
  if isdigit next then
    let prev_value := value in
    let value := wrap64 (value * 10) in
    let value := wrap64 (value + (next - ch_0)) in
    if value <? prev_value then Throw IntegerTooBig
    else match inp with
         | [] => Ok (value, EOF, [])
         | b :: inp' => read_uint64_digits value (byte_val b) inp'
         end
  else Ok (value, next, inp).

(** Answers (found, value, next, rest of the input); [value] is meaningful
    only when [found]. *)
Definition read_uint64 (inp : list byte) (next : Z) (include_next : bool)
  : result (bool * Z * Z * list byte) :=
  let '(next, inp) := if include_next then (next, inp) else getc inp in
  if negb (isdigit next) then Ok (false, 0, next, inp)
  else '(value, next, inp) ← read_uint64_digits 0 next inp;
       Ok (true, value, next, inp).

(** ** The reader contract *)

(** The virtual methods of [MeasureRecordReader]. [read_bits_into_bytes]
    takes the output range as the list of the bytes it holds and answers the
    number of bits read, the bytes after the call and the new state. *)
Class MeasureRecordReader (S : Type) := {
  start_record : S -> result (bool * S);
  next_record : S -> result (bool * S);
  read_bit : S -> result (bool * S);
  is_end_of_record : S -> result bool;
  current_result_type : S -> Z;
  read_bits_into_bytes : S -> list Z -> result (Z * list Z * S);
}.

(** The base-class implementation [MeasureRecordReader::read_bits_into_bytes],
    over the three virtual methods it calls. *)
Section Default.
Context {S : Type}.
Variable read_bit_ : S -> result (bool * S).
Variable is_end_of_record_ : S -> result bool.
Variable current_result_type_ : S -> Z.

(** [for (size_t k = 0; k < 8; k++)], with [todo] rounds to go. The first
    component of the answer tells whether the [return n] inside the loop
    was taken. *)
Fixpoint default_bits_loop (todo : nat) (result_type k b n : Z) (st : S)
  : result (bool * Z * Z * S) :=
  match todo with
  | O => Ok (false, b, n, st)
  | Datatypes.S todo' =>
      '(bit, st) ← read_bit_ st;
      let b := wrap8 (Z.lor b (Z.shiftl (Z.b2z bit) k)) in
      let n := wrap64 (n + 1) in
      e ← is_end_of_record_ st;
      if e || negb (current_result_type_ st =? result_type)
      then Ok (true, b, n, st)
      else default_bits_loop todo' result_type (k + 1) b n st
  end.

(** [for (uint8_t &b : out_buffer)]. *)
Fixpoint default_bytes_loop (out : list Z) (result_type n : Z) (st : S)
  : result (Z * list Z * S) :=
  match out with
  | [] => Ok (n, [], st)
  | _ :: out' =>
      '(returned, b, n, st) ← default_bits_loop 8 result_type 0 0 n st;
      if returned : bool then Ok (n, b :: out', st)
      else '(n, out', st) ← default_bytes_loop out' result_type n st;
           Ok (n, b :: out', st)
  end.

Definition default_read_bits_into_bytes (st : S) (out_buffer : list Z)
  : result (Z * list Z * S) :=
  e ← is_end_of_record_ st;
  if e : bool then Ok (0, out_buffer, st)
  else default_bytes_loop out_buffer (current_result_type_ st) 0 st.
End Default.

(** [MeasureRecordReader::current_result_type]. *)
Definition default_current_result_type {S : Type} (_ : S) : Z := ch_M.

(** [n] calls of a [read_bit] in a row: the bits and the last state. *)
Fixpoint read_bits {S : Type} (rb : S -> result (bool * S)) (n : nat) (st : S)
  : result (list bool * S) :=
  match n with
  | O => Ok ([], st)
  | Datatypes.S n' =>
      '(bit, st) ← rb st;
      '(bits, st) ← read_bits rb n' st;
      Ok (bit :: bits, st)
  end.

(** ** R8 format *)

Module MeasureRecordReaderFormatR8.

Record state := mk {
  inp : list byte;
  bits_per_record : Z;
  position : Z;
  have_seen_terminal_1 : bool;
  buffered_0s : Z;
  buffered_1s : Z;
}.

(** Modelled from the spec: the class declaration (measure_record_reader.h)
    is not among the sources. The constructor's initialiser list sets [in]
    and [bits_per_record] only; the other fields start as the reader state
    of section 4.6 before any byte is read: nothing buffered, no terminator
    seen, position 0 (the assertions of [maybe_buffer_data] require the
    two counters to be 0 at the first [start_record]). *)
Definition make (inp : list byte) (bits_per_record : Z) : state :=
  mk inp bits_per_record 0 false 0 0.

Definition is_end_of_record (st : state) : bool :=
  (position st =? bits_per_record st) && have_seen_terminal_1 st.

(** The [do ... while (r == 0xFF)] loop of [maybe_buffer_data]; [None] is
    its [return false]. *)
Fixpoint count_zeroes (inp : list byte) (buffered_0s position : Z)
  : result (option (Z * list byte)) :=
  match inp with
  | [] =>
      if (buffered_0s =? 0) && (position =? 0) then Ok None
      else Throw R8EndedOnContinuation
  | b :: inp' =>
      let r := byte_val b in
      let buffered_0s := wrap64 (buffered_0s + r) in
      if r =? 255 then count_zeroes inp' buffered_0s position
      else Ok (Some (buffered_0s, inp'))
  end.

Definition maybe_buffer_data (st : state) : result (bool * state) :=
  let m := bits_per_record st in
  if negb (buffered_0s st =? 0) then Throw AssertionFailed
  else if negb (buffered_1s st =? 0) then Throw AssertionFailed
  else if is_end_of_record st then Throw R8BufferPastEnd
  else
    r ← count_zeroes (inp st) (buffered_0s st) (position st);
    match r with
    | None =>
        Ok (false, mk [] m (position st) (have_seen_terminal_1 st) 0 (buffered_1s st))
    | Some (b0, inp) =>
        let b1 := 1 in
        let total_data := wrap64 (wrap64 (position st + b0) + b1) in
        if total_data =? m then
          let '(t, inp) := getc inp in
          if t =? EOF then Throw R8NoTerminatorAtEof
          else if negb (t =? 0) then Throw R8NoTerminatorAtData
          else Ok (true, mk inp m (position st) true b0 b1)
        else if total_data =? wrap64 (m + 1) then
          Ok (true, mk inp m (position st) true b0 0)
        else if total_data >? wrap64 (m + 1) then Throw R8JumpPastEnd
        else Ok (true, mk inp m (position st) (have_seen_terminal_1 st) b0 b1)
    end.

(** [assert(maybe_buffer_data())]: the assertion is evaluated, and fails
    when the call answers false. *)
Definition assert_maybe_buffer_data (st : state) : result state :=
  '(ok, st) ← maybe_buffer_data st;
  if ok : bool then Ok st else Throw AssertionFailed.

Definition read_bit (st : state) : result (bool * state) :=
  st ← (if (buffered_0s st =? 0) && (buffered_1s st =? 0)
        then assert_maybe_buffer_data st else Ok st);
  if negb (buffered_0s st =? 0) then
    Ok (false, mk (inp st) (bits_per_record st) (wrap64 (position st + 1))
                  (have_seen_terminal_1 st) (wrap64 (buffered_0s st - 1))
                  (buffered_1s st))
  else if negb (buffered_1s st =? 0) then
    Ok (true, mk (inp st) (bits_per_record st) (wrap64 (position st + 1))
                 (have_seen_terminal_1 st) (buffered_0s st)
                 (wrap64 (buffered_1s st - 1)))
  else Throw R8ReadPastEnd.

Definition start_record (st : state) : result (bool * state) :=
  maybe_buffer_data
    (mk (inp st) (bits_per_record st) 0 false (buffered_0s st) (buffered_1s st)).

(** [while (!is_end_of_record()) read_bit();]. Every round moves [position]
    one step towards [bits_per_record], which bounds the rounds. *)
Fixpoint skip_bits (budget : nat) (st : state) : result state :=
  if is_end_of_record st then Ok st
  else match budget with
       | O => Throw LoopBudgetExhausted
       | S budget' => '(_, st) ← read_bit st; skip_bits budget' st
       end.

Definition next_record (st : state) : result (bool * state) :=
  st ← skip_bits (Z.to_nat (bits_per_record st - position st)) st;
  start_record st.

(** The inner [for (size_t k = 0; k < 8; k++)] of the override. *)
Fixpoint bits_loop (todo : nat) (k b n : Z) (st : state)
  : result (bool * Z * Z * state) :=
  match todo with
  | O => Ok (false, b, n, st)
  | S todo' =>
      st ← (if (buffered_0s st =? 0) && (buffered_1s st =? 0)
               && negb (have_seen_terminal_1 st)
            then assert_maybe_buffer_data st else Ok st);
      if is_end_of_record st then Ok (true, b, n, st)
      else '(bit, st) ← read_bit st;
           let b := wrap8 (Z.lor b (Z.shiftl (Z.b2z bit) k)) in
           bits_loop todo' (k + 1) b (wrap64 (n + 1)) st
  end.

Fixpoint bytes_loop (out : list Z) (n : Z) (st : state)
  : result (Z * list Z * state) :=
  match out with
  | [] => Ok (n, [], st)
  | _ :: out' =>
      if buffered_0s st >=? 8 then
        let st := mk (inp st) (bits_per_record st) (wrap64 (position st + 8))
                     (have_seen_terminal_1 st) (wrap64 (buffered_0s st - 8))
                     (buffered_1s st) in
        '(n, out', st) ← bytes_loop out' (wrap64 (n + 8)) st;
        Ok (n, 0 :: out', st)
      else
        '(returned, b, n, st) ← bits_loop 8 0 0 n st;
        if returned : bool then Ok (n, b :: out', st)
        else '(n, out', st) ← bytes_loop out' n st;
             Ok (n, b :: out', st)
  end.

Definition read_bits_into_bytes (st : state) (out_buffer : list Z)
  : result (Z * list Z * state) :=
  bytes_loop out_buffer 0 st.

#[global] Instance reader : MeasureRecordReader state :=
  Build_MeasureRecordReader state
    start_record next_record read_bit (fun st => Ok (is_end_of_record st))
    default_current_result_type read_bits_into_bytes.

End MeasureRecordReaderFormatR8.

(** ** 01 format *)

Module MeasureRecordReaderFormat01.

Record state := mk {
  inp : list byte;
  payload : Z;
  position : Z;
  bits_per_record : Z;
}.

Definition make (inp : list byte) (bits_per_record : Z) : state :=
  mk inp ch_newline bits_per_record bits_per_record.

Definition read_bit (st : state) : result (bool * state) :=
  if payload st =? EOF then Throw PastEndOfFile
  else if (payload st =? ch_newline) || (position st >=? bits_per_record st)
  then Throw PastEndOfRecord
  else if negb (payload st =? ch_0) && negb (payload st =? ch_1)
  then Throw ExpectedZeroOrOne
  else
    let bit := payload st =? ch_1 in
    let '(c, inp) := getc (inp st) in
    Ok (bit, mk inp c (wrap64 (position st + 1)) (bits_per_record st)).

Definition start_record (st : state) : result (bool * state) :=
  let '(c, inp) := getc (inp st) in
  Ok (negb (c =? EOF), mk inp c 0 (bits_per_record st)).

(** The [while (payload != EOF && payload != '\n')] loop of [next_record];
    [position++ > bits_per_record] compares the value before the
    increment. At the end of the input [getc] answers [EOF] and the loop
    stops, so the input list bounds the rounds. *)
Fixpoint skip_line (inp : list byte) (payload position m : Z)
  : result (Z * Z * list byte) :=
  if negb (payload =? EOF) && negb (payload =? ch_newline) then
    if position >? m then Throw LineTooLong
    else match inp with
         | [] => Ok (EOF, wrap64 (position + 1), [])
         | b :: inp' => skip_line inp' (byte_val b) (wrap64 (position + 1)) m
         end
  else Ok (payload, position, inp).

Definition next_record (st : state) : result (bool * state) :=
  '(c, pos, inp) ← skip_line (inp st) (payload st) (position st) (bits_per_record st);
  start_record (mk inp c pos (bits_per_record st)).

Definition is_end_of_record (st : state) : result bool :=
  let payload_ended := (payload st =? EOF) || (payload st =? ch_newline) in
  let expected_end := position st >=? bits_per_record st in
  if payload_ended && negb expected_end then Throw RecordEndedEarly
  else if negb payload_ended && expected_end then Throw RecordDidNotEnd
  else Ok payload_ended.

Definition read_bits_into_bytes : state -> list Z -> result (Z * list Z * state) :=
  default_read_bits_into_bytes read_bit is_end_of_record default_current_result_type.

#[global] Instance reader : MeasureRecordReader state :=
  Build_MeasureRecordReader state
    start_record next_record read_bit is_end_of_record
    default_current_result_type read_bits_into_bytes.

End MeasureRecordReaderFormat01.

(** ** B8 format *)

Module MeasureRecordReaderFormatB8.

Record state := mk {
  inp : list byte;
  bits_per_record : Z;
  payload : Z;
  bits_available : Z;
  position : Z;
}.

Definition make (inp : list byte) (bits_per_record : Z) : state :=
  mk inp bits_per_record 0 0 bits_per_record.

Definition maybe_update_payload (st : state) : state :=
  if bits_available st >? 0 then st
  else
    let '(c, inp) := getc (inp st) in
    mk inp (bits_per_record st) c
       (if negb (c =? EOF) then 8 else bits_available st) (position st).

Definition is_end_of_record (st : state) : bool :=
  position st >=? bits_per_record st.

Definition read_bit (st : state) : result (bool * state) :=
  if position st >=? bits_per_record st then Throw PastEndOfRecord
  else
    let st := maybe_update_payload st in
    if payload st =? EOF then Throw PastEndOfFile
    else
      let b := negb (Z.land (payload st) 1 =? 0) in
      Ok (b, mk (inp st) (bits_per_record st) (Z.shiftr (payload st) 1)
                (wrap8 (bits_available st - 1)) (wrap64 (position st + 1))).

Definition start_record (st : state) : result (bool * state) :=
  let st := maybe_update_payload (mk (inp st) (bits_per_record st) 0 0 0) in
  Ok (negb (payload st =? EOF), st).

(** [while (!is_end_of_record()) read_bit();]: at most
    [bits_per_record - position] rounds. *)
Fixpoint skip_bits (budget : nat) (st : state) : result state :=
  if is_end_of_record st then Ok st
  else match budget with
       | O => Throw LoopBudgetExhausted
       | S budget' => '(_, st) ← read_bit st; skip_bits budget' st
       end.

Definition next_record (st : state) : result (bool * state) :=
  st ← skip_bits (Z.to_nat (bits_per_record st - position st)) st;
  start_record st.

Definition read_bits_into_bytes (st : state) (out_buffer : list Z)
  : result (Z * list Z * state) :=
  if position st >=? bits_per_record st then Ok (0, out_buffer, st)
  else if bits_available st >? 0 then
    default_read_bits_into_bytes
      read_bit (fun st => Ok (is_end_of_record st)) default_current_result_type
      st out_buffer
  else
    let n_bits := Z.min (wrap64 (8 * Z.of_nat (length out_buffer)))
                        (wrap64 (bits_per_record st - position st)) in
    let n_bytes := wrap64 (n_bits + 7) / 8 in
    let '(n_bytes, out_buffer, inp) := fread n_bytes (inp st) out_buffer in
    let n_bits := Z.min (wrap64 (8 * n_bytes)) n_bits in
    Ok (n_bits, out_buffer,
        mk inp (bits_per_record st) (payload st) (bits_available st)
           (wrap64 (position st + n_bits))).

#[global] Instance reader : MeasureRecordReader state :=
  Build_MeasureRecordReader state
    start_record next_record read_bit (fun st => Ok (is_end_of_record st))
    default_current_result_type read_bits_into_bytes.

End MeasureRecordReaderFormatB8.

(** ** The bit buffer of the HITS and DETS readers *)

(** Modelled from the spec: [simd_bits] is not among the sources. The buffer
    is the row of bits of the record ("an eagerly materialised bit buffer of
    width m"): [clear] zeroes it, [buffer[k]] reads bit k and
    [buffer[k] ^= true] toggles it. Both readers check the index against the
    width before they touch the buffer. *)
Abbreviation bit_buffer := (list bool).

Definition buffer_new (n_bits : Z) : bit_buffer := replicate (Z.to_nat n_bits) false.
Definition buffer_clear (buffer : bit_buffer) : bit_buffer :=
  replicate (length buffer) false.
Definition buffer_get (buffer : bit_buffer) (k : Z) : bool :=
  default false (buffer !! Z.to_nat k).
Definition buffer_toggle (buffer : bit_buffer) (k : Z) : bit_buffer :=
  alter (fun b => xorb b true) (Z.to_nat k) buffer.

(** ** HITS format *)

Module MeasureRecordReaderFormatHits.

Record state := mk {
  inp : list byte;
  bits_per_record : Z;
  buffer : bit_buffer;
  position_in_buffer : Z;
}.

Definition make (inp : list byte) (bits_per_record : Z) : state :=
  mk inp bits_per_record (buffer_new bits_per_record) bits_per_record.

Definition read_bit (st : state) : result (bool * state) :=
  if position_in_buffer st >=? bits_per_record st then Throw ReadPastEndOfBuffer
  else Ok (buffer_get (buffer st) (position_in_buffer st),
           mk (inp st) (bits_per_record st) (buffer st)
              (wrap64 (position_in_buffer st + 1))).

(** The [while (c != '\n')] loop of [start_record]. A round that does not
    throw has read at least one byte, so one round more than there are
    bytes is budget enough ([hits_loop_budget]). *)
Fixpoint hits_loop (budget : nat) (m c : Z) (is_first : bool)
    (buffer : bit_buffer) (inp : list byte) : result (bit_buffer * list byte) :=
  if c =? ch_newline then Ok (buffer, inp)
  else match budget with
       | O => Throw LoopBudgetExhausted
       | S budget' =>
           '(found, value, c, inp) ← read_uint64 inp c is_first;
           if negb found then Throw HitsIntegerExpected
           else if negb (c =? ch_comma) && negb (c =? ch_newline)
           then Throw HitsSeparatorExpected
           else if value >=? m then Throw HitsValueTooBig
           else hits_loop budget' m c false (buffer_toggle buffer value) inp
       end.

Definition start_record (st : state) : result (bool * state) :=
  let '(c, inp) := getc (inp st) in
  if c =? EOF
  then Ok (false, mk inp (bits_per_record st) (buffer st) (position_in_buffer st))
  else
    '(buffer, inp) ← hits_loop (S (length inp)) (bits_per_record st) c true
                               (buffer_clear (buffer st)) inp;
    Ok (true, mk inp (bits_per_record st) buffer 0).

Definition next_record (st : state) : result (bool * state) := start_record st.

Definition is_end_of_record (st : state) : bool :=
  position_in_buffer st >=? bits_per_record st.

Definition read_bits_into_bytes : state -> list Z -> result (Z * list Z * state) :=
  default_read_bits_into_bytes
    read_bit (fun st => Ok (is_end_of_record st)) default_current_result_type.

#[global] Instance reader : MeasureRecordReader state :=
  Build_MeasureRecordReader state
    start_record next_record read_bit (fun st => Ok (is_end_of_record st))
    default_current_result_type read_bits_into_bytes.

End MeasureRecordReaderFormatHits.

(** ** DETS format *)

Module MeasureRecordReaderFormatDets.

Record state := mk {
  inp : list byte;
  buffer : bit_buffer;
  position_in_buffer : Z;
  m_bits_per_record : Z;
  d_bits_per_record : Z;
  l_bits_per_record : Z;
}.

(** [m_bits_per_record + d_bits_per_record + l_bits_per_record]. *)
Definition width (m d l : Z) : Z := wrap64 (wrap64 (m + d) + l).

Definition make (inp : list byte) (m d l : Z) : state :=
  mk inp (buffer_new (width m d l)) (width m d l) m d l.

Definition read_bit (st : state) : result (bool * state) :=
  if position_in_buffer st
     >=? width (m_bits_per_record st) (d_bits_per_record st) (l_bits_per_record st)
  then Throw ReadPastEndOfBuffer
  else Ok (buffer_get (buffer st) (position_in_buffer st),
           mk (inp st) (buffer st) (wrap64 (position_in_buffer st + 1))
              (m_bits_per_record st) (d_bits_per_record st) (l_bits_per_record st)).

Definition shot : list Z := [115; 104; 111; 116].

(** [while (c == ' ') c = getc(in);] *)
Fixpoint skip_spaces (c : Z) (inp : list byte) : Z * list byte :=
  if c =? ch_space then
    match inp with
    | [] => (EOF, [])
    | b :: inp' => skip_spaces (byte_val b) inp'
    end
  else (c, inp).

(** The [while (true)] loop of [start_record]. A round that neither breaks
    nor throws has read the prefix's number, at least one byte
    ([dets_loop_budget]). *)
Fixpoint dets_loop (budget : nat) (m d l c : Z)
    (buffer : bit_buffer) (inp : list byte) : result (bit_buffer * list byte) :=
  let had_spacing := c =? ch_space in
  let '(c, inp) := skip_spaces c inp in
  if (c =? ch_newline) || (c =? EOF) then Ok (buffer, inp)
  else if negb had_spacing then Throw DetsSpaceExpected
  else
    let prefix := c in
    os ← (if prefix =? ch_M then Ok (0, m)
          else if prefix =? ch_D then Ok (m, d)
          else if prefix =? ch_L then Ok (wrap64 (m + d), l)
          else Throw DetsBadPrefix);
    let '(offset, size) := os in
    '(found, number, c, inp) ← read_uint64 inp c false;
    if negb found then Throw DetsIntegerExpected
    else if number >=? size then Throw DetsValueTooBig
    else match budget with
         | O => Throw LoopBudgetExhausted
         | S budget' =>
             dets_loop budget' m d l c
                       (buffer_toggle buffer (wrap64 (offset + number))) inp
         end.

Definition start_record (st : state) : result (bool * state) :=
  '(found, c, inp) ← maybe_consume_keyword (inp st) shot;
  if negb found
  then Ok (false, mk inp (buffer st) (position_in_buffer st)
                     (m_bits_per_record st) (d_bits_per_record st)
                     (l_bits_per_record st))
  else
    '(buffer, inp) ← dets_loop (length inp) (m_bits_per_record st)
                               (d_bits_per_record st) (l_bits_per_record st) c
                               (buffer_clear (buffer st)) inp;
    Ok (true, mk inp buffer 0 (m_bits_per_record st) (d_bits_per_record st)
                 (l_bits_per_record st)).

Definition next_record (st : state) : result (bool * state) := start_record st.

Definition is_end_of_record (st : state) : bool :=
  position_in_buffer st
  =? width (m_bits_per_record st) (d_bits_per_record st) (l_bits_per_record st).

(** The function of the position and the three widths that the method
    computes. *)
Definition result_type_at (position_in_buffer m d l : Z) : Z :=
  if (position_in_buffer <? m) && negb (m =? 0) then ch_M
  else if (position_in_buffer <? wrap64 (m + d)) && negb (d =? 0) then ch_D
  else if negb (l =? 0) then ch_L
  else if negb (d =? 0) then ch_D
  else ch_M.

Definition current_result_type (st : state) : Z :=
  result_type_at (position_in_buffer st) (m_bits_per_record st)
                 (d_bits_per_record st) (l_bits_per_record st).

Definition read_bits_into_bytes : state -> list Z -> result (Z * list Z * state) :=
  default_read_bits_into_bytes
    read_bit (fun st => Ok (is_end_of_record st)) current_result_type.

#[global] Instance reader : MeasureRecordReader state :=
  Build_MeasureRecordReader state
    start_record next_record read_bit (fun st => Ok (is_end_of_record st))
    current_result_type read_bits_into_bytes.

End MeasureRecordReaderFormatDets.

(** ** Reading a whole stream *)

(** The row-major loop of [MeasureRecordReader::read_records_into],
    [while (rec < max_shots && start_record())]: the rows of the table from
    row [rec] on are the byte buffers [rows], which bound [max_shots] as
    [num_major_bits_padded] does. The answer is the number of records read so
    far, the rows after the call and the last state. (The column-major entry
    transposes the table around this loop.) *)
Fixpoint read_records_loop `{MeasureRecordReader T}
    (rows : list (list Z)) (rec max_shots : Z) (st : T)
  : result (Z * list (list Z) * T) :=
  match rows with
  | [] => Ok (rec, [], st)
  | row :: rows' =>
      if negb (rec <? max_shots) then Ok (rec, rows, st)
      else
        '(started, st) ← start_record st;
        if negb started then Ok (rec, rows, st)
        else
          '(_, row, st) ← read_bits_into_bytes st row;
          e ← is_end_of_record st;
          if negb e then Throw ShotTooLong
          else '(rec, rows', st) ← read_records_loop rows' (wrap64 (rec + 1)) max_shots st;
               Ok (rec, row :: rows', st)
  end.

Definition read_records_into `{MeasureRecordReader T}
    (rows : list (list Z)) (max_shots : Z) (st : T)
  : result (Z * list (list Z) * T) :=
  read_records_loop rows 0 (Z.min max_shots (Z.of_nat (length rows))) st.

(** ** The streams of the specification's scenarios *)

Module Scenarios.

(** The record 0,0,1,0,1 as the writer frames it: the runs 2 and 1, then
    the run 0 of the one-bit past the end. *)
Definition r8_00101 : list byte := [x02; x01; x00].
(** The stream of the specification's scenario. *)
Definition r8_0010101 : list byte := [x02; x01; x01; x00].
(** Five zeroes: one run of 5 before the one-bit past the end. *)
Definition r8_00000 : list byte := [x05].
Definition r8_00000_then_00 : list byte := [x05; x00].

(** "010\n111\n", "01\n" and "0101\n" for the 01 reader with m = 3. *)
Definition f01_two_records : list byte := [x30; x31; x30; x0a; x31; x31; x31; x0a].
Definition f01_short_record : list byte := [x30; x31; x0a].
Definition f01_long_record : list byte := [x30; x31; x30; x31; x0a].

(** "shot M0 D2 L0\n" for the DETS reader with (m, d, l) = (2, 3, 1), and the
    state of that reader after [start_record]. *)
Definition dets_m0_d2_l0 : list byte :=
  [x73; x68; x6f; x74; x20; x4d; x30; x20; x44; x32; x20; x4c; x30; x0a].
Definition dets_m0_d2_l0_started : MeasureRecordReaderFormatDets.state :=
  MeasureRecordReaderFormatDets.mk [] [true; false; false; false; true; true] 0 2 3 1.

(** "0,3,3,5\n\n" for the HITS reader with m = 8, and its first line as
    numerals. *)
Definition hits_0_3_3_5 : list byte :=
  [x30; x2c; x33; x2c; x33; x2c; x35; x0a; x0a].
Definition hits_0_3_3_5_tokens : list (list byte) := [[x30]; [x33]; [x33]; [x35]].

(** The B8 scenario {0x2A, 0x03, 0xFF, 0x00} with m = 10, after
    [start_record]: the first byte is in [payload]. *)
Definition b8_two_records_started : MeasureRecordReaderFormatB8.state :=
  MeasureRecordReaderFormatB8.mk [x03; xff; x00] 10 42 8 0.

(** "shot M0 D2 L0" with no newline after it, and the stream {0x2A} for a
    B8 reader with m = 16. *)
Definition dets_m0_d2_l0_cut : list byte :=
  [x73; x68; x6f; x74; x20; x4d; x30; x20; x44; x32; x20; x4c; x30].
Definition b8_half_record : list byte := [x2a].

End Scenarios.

(** ** Vocabulary of the statements *)

(** The order M < D < L of the result types. *)
Definition result_type_rank (c : Z) : Z :=
  if c =? ch_M then 0 else if c =? ch_D then 1 else 2.

(** The value of a byte whose bits, lowest first, are [bits]. *)
Fixpoint pack_byte (bits : list bool) : Z :=
  match bits with
  | [] => 0
  | bit :: bits' => 2 * pack_byte bits' + Z.b2z bit
  end.

(** The eight bits of a byte, lowest first, and the bits of a row of bytes in
    the order [read_bits_into_bytes] fills them. *)
Definition byte_bits (b : Z) : list bool :=
  (fun k => Z.testbit b (Z.of_nat k)) <$> seq 0 8.
Definition bytes_to_bits (out : list Z) : list bool := out ≫= byte_bits.

(** [packed bits out out']: writing [bits] over the row [out], eight to a
    byte and the last byte zero above its bits, gives [out']. *)
Inductive packed : list bool -> list Z -> list Z -> Prop :=
| packed_none out : packed [] out out
| packed_last bits b out :
    (1 <= length bits <= 8)%nat ->
    packed bits (b :: out) (pack_byte bits :: out)
| packed_more bits8 bits b out out' :
    length bits8 = 8%nat ->
    packed bits out out' ->
    packed (bits8 ++ bits) (b :: out) (pack_byte bits8 :: out').

(** The number of bytes that [n] bits take. *)
Definition bytes_for (n : nat) : nat := ((n + 7) / 8)%nat.

(** What a call that starts a record shows of the byte source: the flag it
    answers and the bytes it leaves unread. *)
Definition hits_flag_and_rest (r : result (bool * MeasureRecordReaderFormatHits.state))
  : result (bool * list byte) :=
  '(started, st) ← r; Ok (started, MeasureRecordReaderFormatHits.inp st).
Definition dets_flag_and_rest (r : result (bool * MeasureRecordReaderFormatDets.state))
  : result (bool * list byte) :=
  '(started, st) ← r; Ok (started, MeasureRecordReaderFormatDets.inp st).

(** Decimal numerals as they stand in a HITS or DETS line: a numeral is a
    non-empty run of digit bytes (leading zeroes allowed); its value is the
    number it denotes. *)
Definition is_digit_byte (b : byte) : Prop := isdigit (byte_val b) = true.
Definition numeral (t : list byte) : Prop := t <> [] /\ Forall is_digit_byte t.
Definition digits_value (v : Z) (t : list byte) : Z :=
  fold_left (fun v b => 10 * v + (byte_val b - ch_0)) t v.
Definition decimal_value (t : list byte) : Z := digits_value 0 t.

(** The first byte after a numeral is no digit. *)
Definition stops (after : list byte) : Prop := isdigit (getc after).1 = false.

(** How often the index [k] occurs among [indices]. *)
Definition occurrences (k : Z) (indices : list Z) : nat :=
  length (filter (fun v => v = k) indices).

(** A HITS line: the numerals, commas between them, a newline at the end. *)
Fixpoint hits_line (tokens : list (list byte)) : list byte :=
  match tokens with
  | [] => [x0a]
  | t :: tokens' =>
      t ++ match tokens' with
           | [] => [x0a]
           | _ :: _ => x2c :: hits_line tokens'
           end
  end.

(** What follows a numeral of a HITS line. *)
Definition hits_tail (tokens : list (list byte)) : list byte :=
  match tokens with
  | [] => [x0a]
  | _ :: _ => x2c :: hits_line tokens
  end.

(** A DETS line: the keyword, then tokens of one or more spaces, a section
    prefix and a numeral, then any spaces and the newline. *)
Inductive dets_section : Set := SecM | SecD | SecL.

#[global] Instance dets_section_eq_dec : EqDecision dets_section.
Proof. solve_decision. Defined.

Definition section_prefix (s : dets_section) : byte :=
  match s with SecM => x4d | SecD => x44 | SecL => x4c end.
Definition section_offset (m d : Z) (s : dets_section) : Z :=
  match s with SecM => 0 | SecD => m | SecL => m + d end.
Definition section_size (m d l : Z) (s : dets_section) : Z :=
  match s with SecM => m | SecD => d | SecL => l end.

Record dets_token := mk_token {
  tok_more_spaces : nat;      (* the spaces before the prefix, less one *)
  tok_section : dets_section;
  tok_digits : list byte;
}.

Definition dets_token_bytes (t : dets_token) : list byte :=
  replicate (S (tok_more_spaces t)) x20 ++ section_prefix (tok_section t) :: tok_digits t.

(** The line after its keyword. *)
Definition dets_tokens_line (tokens : list dets_token) (trailing : nat) : list byte :=
  (tokens ≫= dets_token_bytes) ++ replicate trailing x20 ++ [x0a].
Definition dets_line (tokens : list dets_token) (trailing : nat) : list byte :=
  [x73; x68; x6f; x74] ++ dets_tokens_line tokens trailing.

(** The same up to the end of its last token and the spaces after it, and
    the line cut there by the end of the stream. *)
Definition dets_tokens_run (tokens : list dets_token) (trailing : nat) : list byte :=
  (tokens ≫= dets_token_bytes) ++ replicate trailing x20.
Definition dets_line_at_eof (tokens : list dets_token) (trailing : nat) : list byte :=
  [x73; x68; x6f; x74] ++ dets_tokens_run tokens trailing.

(** What ends a DETS line for the reader: the newline, or the end of the
    stream. *)
Definition line_end (ending : list byte) : Prop :=
  ending = [] \/ exists rest, ending = x0a :: rest.

(** The bit of the buffer that a token names, and how often the index [k]
    of section [s] occurs among the tokens. *)
Definition dets_position (m d : Z) (t : dets_token) : Z :=
  section_offset m d (tok_section t) + decimal_value (tok_digits t).
Definition token_occurrences (s : dets_section) (k : Z) (tokens : list dets_token) : nat :=
  length (filter (fun t => tok_section t = s /\ decimal_value (tok_digits t) = k) tokens).
Definition dets_token_ok (m d l : Z) (t : dets_token) : Prop :=
  numeral (tok_digits t)
  /\ decimal_value (tok_digits t) < section_size m d l (tok_section t).

(** Draining by bulk reads: one [read_bits_into_bytes] for each output range
    of [outs], the bits each call reports gathered in order. *)
Fixpoint read_bits_in_calls {T : Type}
    (rbib : T -> list Z -> result (Z * list Z * T))
    (outs : list (list Z)) (st : T) : result (list bool * T) :=
  match outs with
  | [] => Ok ([], st)
  | out :: outs' =>
      '(n, out', st) ← rbib st out;
      '(bits, st) ← read_bits_in_calls rbib outs' st;
      Ok (take (Z.to_nat n) (bytes_to_bits out') ++ bits, st)
  end.

(** A record that [read_bit] reads to its end: from the state,
    [is_end_of_record] answers, [read_bit] answers a bit whenever the answer
    is false, and after finitely many bits the answer is true. *)
Inductive drains {T : Type} (rb : T -> result (bool * T)) (ie : T -> result bool)
  : T -> Prop :=
| drains_end st : ie st = Ok true -> drains rb ie st
| drains_bit st bit st1 :
    ie st = Ok false -> rb st = Ok (bit, st1) -> drains rb ie st1 ->
    drains rb ie st.

(** [drains] decided within a number of bits. *)
Fixpoint drains_within {T : Type} (rb : T -> result (bool * T))
    (ie : T -> result bool) (budget : nat) (st : T) : bool :=
  match ie st with
  | Ok true => true
  | Ok false =>
      match budget with
      | O => false
      | S budget' =>
          match rb st with
          | Ok (_, st1) => drains_within rb ie budget' st1
          | Throw _ => false
          end
      end
  | Throw _ => false
  end.

(** Where the default loop takes its [return n]: at the end of the record or
    of the section. *)
Definition default_stop {S : Type} (ie : S -> result bool) (crt : S -> Z)
    (result_type : Z) (st : S) : Prop :=
  exists e, ie st = Ok e /\ e || negb (crt st =? result_type) = true.

(** An output range whose bit count is a [size_t]. *)
Definition small_range (out : list Z) : Prop := 8 * Z.of_nat (length out) < 2 ^ 64.

(** What holds of an R8 reader between calls once a record has been started
    on a stream short enough for its run counters (under 2^56 bytes): the
    buffered run ends inside the record, on its last position exactly when
    the terminal one has been seen. *)
Definition r8_inv (st : MeasureRecordReaderFormatR8.state) : Prop :=
  let m := MeasureRecordReaderFormatR8.bits_per_record st in
  let total := MeasureRecordReaderFormatR8.position st
               + MeasureRecordReaderFormatR8.buffered_0s st
               + MeasureRecordReaderFormatR8.buffered_1s st in
  0 <= MeasureRecordReaderFormatR8.position st
  /\ 0 <= MeasureRecordReaderFormatR8.buffered_0s st
  /\ 0 <= MeasureRecordReaderFormatR8.buffered_1s st <= 1
  /\ 255 * Z.of_nat (length (MeasureRecordReaderFormatR8.inp st)) + m + 1 < 2 ^ 64
  /\ (if MeasureRecordReaderFormatR8.have_seen_terminal_1 st
      then total = m else total < m).

(** What [maybe_buffer_data] needs of the state it starts from. *)
Definition buffer_ready (st : MeasureRecordReaderFormatR8.state) : Prop :=
  let m := MeasureRecordReaderFormatR8.bits_per_record st in
  0 <= MeasureRecordReaderFormatR8.position st <= m
  /\ 255 * Z.of_nat (length (MeasureRecordReaderFormatR8.inp st)) + m + 1 < 2 ^ 64
  /\ (MeasureRecordReaderFormatR8.have_seen_terminal_1 st = true ->
      MeasureRecordReaderFormatR8.position st = m).

(** A B8 reader whose counters are [size_t] values. *)
Definition b8_inv (st : MeasureRecordReaderFormatB8.state) : Prop :=
  0 <= MeasureRecordReaderFormatB8.position st
  /\ MeasureRecordReaderFormatB8.bits_per_record st < 2 ^ 64.

(** Two B8 states that no call tells apart: the same input, width and
    position, and, while the record lasts, the same buffered bits. *)
Definition b8_equiv (st1 st2 : MeasureRecordReaderFormatB8.state) : Prop :=
  MeasureRecordReaderFormatB8.inp st1 = MeasureRecordReaderFormatB8.inp st2
  /\ MeasureRecordReaderFormatB8.bits_per_record st1
     = MeasureRecordReaderFormatB8.bits_per_record st2
  /\ MeasureRecordReaderFormatB8.position st1 = MeasureRecordReaderFormatB8.position st2
  /\ (MeasureRecordReaderFormatB8.position st1
      < MeasureRecordReaderFormatB8.bits_per_record st1 ->
      (MeasureRecordReaderFormatB8.bits_available st1 >? 0)
      = (MeasureRecordReaderFormatB8.bits_available st2 >? 0)
      /\ (0 < MeasureRecordReaderFormatB8.bits_available st1 ->
          MeasureRecordReaderFormatB8.bits_available st1
          = MeasureRecordReaderFormatB8.bits_available st2
          /\ MeasureRecordReaderFormatB8.payload st1
             = MeasureRecordReaderFormatB8.payload st2)).

(** ** Vocabulary of the further properties *)

(** A record of the 01 format as text: one character for each bit. *)
Definition f01_char (bit : bool) : byte := if bit then x31 else x30.
Definition f01_line (bits : list bool) : list byte := f01_char <$> bits.

(** A record of the R8 format as bytes: the record followed by a one-bit is
    cut into runs of zeroes that end with a one; a run of [n] zeroes is
    written as [n / 255] bytes 0xFF (255 zeroes and no one yet) and a last
    byte [n mod 255]. *)
Definition byte_of_Z (z : Z) : byte := default x00 (Byte.of_N (Z.to_N z)).
Definition r8_run (n : nat) : list byte :=
  replicate (n / 255) xff ++ [byte_of_Z (Z.of_nat (n mod 255))].
Definition r8_stream (runs : list nat) : list byte := runs ≫= r8_run.
Definition r8_bits (runs : list nat) : list bool :=
  runs ≫= (fun n => replicate n false ++ [true]).

(** The runs of [bits] followed by a one-bit, [run] zeroes having been seen
    since the last one. *)
Fixpoint r8_runs (bits : list bool) (run : nat) : list nat :=
  match bits with
  | [] => [run]
  | true :: bits' => run :: r8_runs bits' 0
  | false :: bits' => r8_runs bits' (S run)
  end.
Definition r8_encode (bits : list bool) : list byte := r8_stream (r8_runs bits 0).

(** The record that a reader holds, as [read_bit] and [is_end_of_record]
    deliver it: [record_bits rb ie st bits st'] when [read_bit] gives [bits]
    from [st] on, [is_end_of_record] being false before each of them and
    true in [st'], the state behind the last one. *)
Inductive record_bits {T : Type} (rb : T -> result (bool * T)) (ie : T -> result bool)
  : T -> list bool -> T -> Prop :=
| record_bits_end st : ie st = Ok true -> record_bits rb ie st [] st
| record_bits_bit st bit st1 bits st' :
    ie st = Ok false -> rb st = Ok (bit, st1) -> record_bits rb ie st1 bits st' ->
    record_bits rb ie st (bit :: bits) st'.

(** The records that a reader delivers one after the other: [start_record]
    answers true for each, and [st'] is the state behind the last one. *)
Inductive stream_records `{MeasureRecordReader T} : T -> list (list bool) -> T -> Prop :=
| stream_records_nil st : stream_records st [] st
| stream_records_cons st st0 bits st1 records st' :
    start_record st = Ok (true, st0) ->
    record_bits read_bit is_end_of_record st0 bits st1 ->
    stream_records st1 records st' ->
    stream_records st (bits :: records) st'.

(** Rows of a table with a record written over each of the first ones. *)
Inductive packed_rows : list (list bool) -> list (list Z) -> list (list Z) -> Prop :=
| packed_rows_nil rows : packed_rows [] rows rows
| packed_rows_cons bits records row rows row' rows' :
    packed bits row row' -> packed_rows records rows rows' ->
    packed_rows (bits :: records) (row :: rows) (row' :: rows').

(** A row that has room for a record. *)
Definition row_fits (bits : list bool) (row : list Z) : Prop :=
  Z.of_nat (length bits) <= 8 * Z.of_nat (length row) /\ small_range row.

(** Records of the 01 format as the text of a file: a line for each. *)
Definition f01_text (records : list (list bool)) : list byte :=
  records ≫= (fun bits => f01_line bits ++ [x0a]).

(** ** The factory *)

(** The values of [SampleFormat] that the [switch] of
    [MeasureRecordReader::make] names (the enumeration is declared in another
    file); [SAMPLE_FORMAT_other] stands for any value it does not name, which
    takes the [default] branch. *)
Inductive SampleFormat : Set :=
| SAMPLE_FORMAT_01
| SAMPLE_FORMAT_B8
| SAMPLE_FORMAT_DETS
| SAMPLE_FORMAT_HITS
| SAMPLE_FORMAT_PTB64
| SAMPLE_FORMAT_R8
| SAMPLE_FORMAT_other.

Definition is_dets (input_format : SampleFormat) : bool :=
  match input_format with SAMPLE_FORMAT_DETS => true | _ => false end.

(** The [throw] statements of [make]; the comment gives the message. *)
Inductive make_error : Set :=
| OnlyDetsHasDetectionEvents  (* Only DETS format support detection event records *)
| OnlyDetsHasObservables      (* Only DETS format support logical observable records *)
| Ptb64Incompatible           (* SAMPLE_FORMAT_PTB64 incompatible with SingleMeasurementRecord *)
| FormatNotRecognized.        (* Sample format not recognized by SingleMeasurementRecord *)

(** What a [std::unique_ptr<MeasureRecordReader>] points to: a reader of one
    of the five classes. *)
Inductive reader_object : Type :=
| Reader01 (st : MeasureRecordReaderFormat01.state)
| ReaderB8 (st : MeasureRecordReaderFormatB8.state)
| ReaderDets (st : MeasureRecordReaderFormatDets.state)
| ReaderHits (st : MeasureRecordReaderFormatHits.state)
| ReaderR8 (st : MeasureRecordReaderFormatR8.state).

(** [MeasureRecordReader::make]. *)
Definition MeasureRecordReader_make (inp : list byte) (input_format : SampleFormat)
    (n_measurements n_detection_events n_logical_observables : Z)
  : make_error + reader_object :=
  if negb (is_dets input_format) && negb (n_detection_events =? 0)
  then inl OnlyDetsHasDetectionEvents
  else if negb (is_dets input_format) && negb (n_logical_observables =? 0)
  then inl OnlyDetsHasObservables
  else match input_format with
       | SAMPLE_FORMAT_01 =>
           inr (Reader01 (MeasureRecordReaderFormat01.make inp n_measurements))
       | SAMPLE_FORMAT_B8 =>
           inr (ReaderB8 (MeasureRecordReaderFormatB8.make inp n_measurements))
       | SAMPLE_FORMAT_DETS =>
           inr (ReaderDets (MeasureRecordReaderFormatDets.make
                              inp n_measurements n_detection_events
                              n_logical_observables))
       | SAMPLE_FORMAT_HITS =>
           inr (ReaderHits (MeasureRecordReaderFormatHits.make inp n_measurements))
       | SAMPLE_FORMAT_PTB64 => inl Ptb64Incompatible
       | SAMPLE_FORMAT_R8 =>
           inr (ReaderR8 (MeasureRecordReaderFormatR8.make inp n_measurements))
       | SAMPLE_FORMAT_other => inl FormatNotRecognized
       end.

(** A virtual call on the object: the method of its class, which answers an
    object of the same class. *)
Definition with_state {S A : Type} (wrap : S -> reader_object) (r : result (A * S))
  : result (A * reader_object) :=
  '(a, st) ← r; Ok (a, wrap st).

#[global] Instance reader_object_reader : MeasureRecordReader reader_object :=
  Build_MeasureRecordReader reader_object
    (fun r => match r with
              | Reader01 st => with_state Reader01 (start_record st)
              | ReaderB8 st => with_state ReaderB8 (start_record st)
              | ReaderDets st => with_state ReaderDets (start_record st)
              | ReaderHits st => with_state ReaderHits (start_record st)
              | ReaderR8 st => with_state ReaderR8 (start_record st)
              end)
    (fun r => match r with
              | Reader01 st => with_state Reader01 (next_record st)
              | ReaderB8 st => with_state ReaderB8 (next_record st)
              | ReaderDets st => with_state ReaderDets (next_record st)
              | ReaderHits st => with_state ReaderHits (next_record st)
              | ReaderR8 st => with_state ReaderR8 (next_record st)
              end)
    (fun r => match r with
              | Reader01 st => with_state Reader01 (read_bit st)
              | ReaderB8 st => with_state ReaderB8 (read_bit st)
              | ReaderDets st => with_state ReaderDets (read_bit st)
              | ReaderHits st => with_state ReaderHits (read_bit st)
              | ReaderR8 st => with_state ReaderR8 (read_bit st)
              end)
    (fun r => match r with
              | Reader01 st => is_end_of_record st
              | ReaderB8 st => is_end_of_record st
              | ReaderDets st => is_end_of_record st
              | ReaderHits st => is_end_of_record st
              | ReaderR8 st => is_end_of_record st
              end)
    (fun r => match r with
              | Reader01 st => current_result_type st
              | ReaderB8 st => current_result_type st
              | ReaderDets st => current_result_type st
              | ReaderHits st => current_result_type st
              | ReaderR8 st => current_result_type st
              end)
    (fun r out => match r with
                  | Reader01 st => with_state Reader01 (read_bits_into_bytes st out)
                  | ReaderB8 st => with_state ReaderB8 (read_bits_into_bytes st out)
                  | ReaderDets st => with_state ReaderDets (read_bits_into_bytes st out)
                  | ReaderHits st => with_state ReaderHits (read_bits_into_bytes st out)
                  | ReaderR8 st => with_state ReaderR8 (read_bits_into_bytes st out)
                  end).

(** ** Tables of records *)

(** Rows of a table with a record written into each of the first ones,
    [written bits row row'] saying what the row of a record holds
    afterwards. *)
Inductive filled_rows (written : list bool -> list Z -> list Z -> Prop)
  : list (list bool) -> list (list Z) -> list (list Z) -> Prop :=
| filled_rows_nil rows : filled_rows written [] rows rows
| filled_rows_cons bits records row rows row' rows' :
    written bits row row' -> filled_rows written records rows rows' ->
    filled_rows written (bits :: records) (row :: rows) (row' :: rows').

(** The record of m bits that the bytes of a B8 record hold. *)
Definition b8_record (m : nat) (bytes : list byte) : list bool :=
  take m (bytes_to_bits (byte_val <$> bytes)).

(** Records of the R8 format as the bytes of a file. *)
Definition r8_text (records : list (list bool)) : list byte := records ≫= r8_encode.

(** A row after the bulk read of the R8 reader has written a record into
    it: the record packed, and packed with a zero bit behind it when the row
    has room for one more bit. *)
Definition r8_written (bits : list bool) (row row' : list Z) : Prop :=
  ((length bits = 8 * length row)%nat /\ packed bits row row')
  \/ ((length bits < 8 * length row)%nat /\ packed (bits ++ [false]) row row').

(** An R8 reader on a stream that its run counters can hold. *)
Definition r8_good (st : MeasureRecordReaderFormatR8.state) : Prop :=
  0 <= MeasureRecordReaderFormatR8.bits_per_record st
  /\ 255 * Z.of_nat (length (MeasureRecordReaderFormatR8.inp st))
     + MeasureRecordReaderFormatR8.bits_per_record st + 1 < 2 ^ 64.

(** Lines of the HITS format as the text of a file, and the record of m bits
    that the numerals of a line stand for. *)
Definition hits_text (lines : list (list (list byte))) : list byte :=
  lines ≫= hits_line.
Definition hits_record (m : Z) (tokens : list (list byte)) : list bool :=
  fold_left buffer_toggle (decimal_value <$> tokens) (buffer_new m).

(** Numerals of a HITS line with a comma behind each of them. *)
Definition hits_items (tokens : list (list byte)) : list byte :=
  tokens ≫= (fun t => t ++ [x2c]).

(** [read_bit] calls that stay inside a record and a section:
    [steps_inside rb ie crt rt st j s] when j calls of [read_bit] lead from
    [st] to [s] through states in which [is_end_of_record] is false and the
    result type is [rt], [st] and [s] among them. *)
Inductive steps_inside {T : Type} (rb : T -> result (bool * T)) (ie : T -> result bool)
    (crt : T -> Z) (rt : Z) : T -> nat -> T -> Prop :=
| steps_inside_here st :
    ie st = Ok false -> crt st = rt -> steps_inside rb ie crt rt st 0 st
| steps_inside_step st bit st1 j s :
    ie st = Ok false -> crt st = rt -> rb st = Ok (bit, st1) ->
    steps_inside rb ie crt rt st1 j s ->
    steps_inside rb ie crt rt st (S j) s.

(** Lines of the DETS format, each a list of tokens and a number of spaces
    before its newline, as the text of a file; the record that the tokens of
    a line stand for; and a DETS reader whose records have bits of at most
    one result type. *)
Definition dets_text (lines : list (list dets_token * nat)) : list byte :=
  lines ≫= (fun line => dets_line line.1 line.2).
Definition dets_record (m d l : Z) (tokens : list dets_token) : list bool :=
  fold_left buffer_toggle (dets_position m d <$> tokens) (buffer_new (m + d + l)).
Definition one_section (m d l : Z) : Prop :=
  0 <= m /\ 0 <= d /\ 0 <= l /\ m + d + l < 2 ^ 64
  /\ ((m = 0 /\ d = 0) \/ (m = 0 /\ l = 0) \/ (d = 0 /\ l = 0)).
Definition dets_one_section (st : MeasureRecordReaderFormatDets.state) : Prop :=
  one_section (MeasureRecordReaderFormatDets.m_bits_per_record st)
              (MeasureRecordReaderFormatDets.d_bits_per_record st)
              (MeasureRecordReaderFormatDets.l_bits_per_record st).

(** ** Vocabulary of the bulk reads *)

(** The room of a list of output ranges, in bytes. *)
Definition rooms (outs : list (list Z)) : nat := sum_list (length <$> outs).

(** DETS: where the section that holds position [p] ends (the end of the
    record for a position behind the measurements and detection events),
    and the position that a sequence of bulk reads reaches from position
    [p], each call going on to the end of its range or of the section it
    started in, whichever comes first. *)
Definition dets_section_end (m d l p : Z) : Z :=
  if p <? m then m else if p <? m + d then m + d else m + d + l.
Fixpoint dets_calls_end (m d l : Z) (outs : list (list Z)) (p : Z) : Z :=
  match outs with
  | [] => p
  | out :: outs' =>
      dets_calls_end m d l outs'
        (Z.min (p + 8 * Z.of_nat (length out)) (dets_section_end m d l p))
  end.

(** * Properties *)

(** ** Machine integers and bytes *)

Lemma wrap64_small z : 0 <= z < 2 ^ 64 -> wrap64 z = z.
Proof. intros H. unfold wrap64. now apply Z.mod_small. Qed.

Lemma wrap64_range z : 0 <= wrap64 z < 2 ^ 64.
Proof. unfold wrap64. apply Z.mod_pos_bound. lia. Qed.

Lemma wrap8_small z : 0 <= z < 2 ^ 8 -> wrap8 z = z.
Proof. intros H. unfold wrap8. now apply Z.mod_small. Qed.

Lemma byte_val_range b : 0 <= byte_val b < 256.
Proof.
  unfold byte_val. pose proof (Byte.to_N_bounded b) as H.
  apply N2Z.inj_le in H. change (Z.of_N 255) with 255 in H. lia.
Qed.

Lemma byte_val_not_EOF b : byte_val b <> EOF.
Proof. pose proof (byte_val_range b). unfold EOF. lia. Qed.

(** Splits the conjunctions of the goal without unfolding a definition. *)
Ltac conjs := repeat match goal with |- _ /\ _ => split end.

(** Runs a reader on a closed input. *)
Ltac run_reader := vm_compute; reflexivity.

(** ** R8: the two end states of a record *)

Module R8Scenarios.
Import MeasureRecordReaderFormatR8 Scenarios.

(** Against C1 as stated. With m = 5, the fourth [read_bit] of the stream
    02 01 01 00 throws: the
    second run puts a one on the last position of the record, and the byte
    after it is 01, not the terminator. *)
Lemma r8_02_01_01_00_m5_throws :
  ~ exists st0 st5,
      start_record (make r8_0010101 5) = Ok (true, st0)
      /\ read_bits read_bit 5 st0 = Ok ([false; false; true; false; true], st5)
      /\ is_end_of_record st5 = true.
Proof.
  intros (st0 & st5 & Hstart & Hbits & _).
  vm_compute in Hstart. injection Hstart as <-.
  vm_compute in Hbits. discriminate.
Qed.

(** C1 (amended). With m = 5 the stream 02 01 00 decodes to 0,0,1,0,1 and
    its last byte is the terminator of the one-bit past the end; on the
    stream 02 01 01 00 the reader gives 0,0,1 and then throws for want of
    that terminator; the same stream is a whole record of 7 bits. *)
Theorem r8_one_on_last_position :
  (exists st0 st5,
      start_record (make r8_00101 5) = Ok (true, st0)
      /\ read_bits read_bit 5 st0 = Ok ([false; false; true; false; true], st5)
      /\ is_end_of_record st5 = true
      /\ inp st5 = [])
  /\ (exists st0 st3,
      start_record (make r8_0010101 5) = Ok (true, st0)
      /\ read_bits read_bit 3 st0 = Ok ([false; false; true], st3)
      /\ read_bit st3 = Throw R8NoTerminatorAtData)
  /\ (exists st0 st7,
      start_record (make r8_0010101 7) = Ok (true, st0)
      /\ read_bits read_bit 7 st0
         = Ok ([false; false; true; false; true; false; true], st7)
      /\ is_end_of_record st7 = true
      /\ inp st7 = []).
Proof.
  split; [|split]; do 2 eexists.
  - split; [run_reader|]. split; [run_reader|]. split; [run_reader|]. run_reader.
  - split; [run_reader|]. split; [run_reader|]. run_reader.
  - split; [run_reader|]. split; [run_reader|]. split; [run_reader|]. run_reader.
Qed.

(** Against C2 as stated. With m = 5, after the five zeroes of the stream
    05 00 the byte 00 is
    still unread and the next [start_record] answers true. *)
Lemma r8_05_00_m5_leaves_a_byte :
  ~ exists st0 st5 st6,
      start_record (make r8_00000_then_00 5) = Ok (true, st0)
      /\ read_bits read_bit 5 st0
         = Ok ([false; false; false; false; false], st5)
      /\ is_end_of_record st5 = true
      /\ inp st5 = []
      /\ start_record st5 = Ok (false, st6).
Proof.
  intros (st0 & st5 & st6 & Hstart & Hbits & _ & Hinp & _).
  vm_compute in Hstart. injection Hstart as <-.
  vm_compute in Hbits. injection Hbits as <-.
  discriminate.
Qed.

(** C2 (amended). With m = 5 the record of the stream 05 00 is over after
    its first byte: five zeroes, end of record, and the byte 00 left in the
    stream, where the next [start_record] takes it for the start of another
    record. On the stream 05 alone the next [start_record] answers false. *)
Theorem r8_one_past_the_end :
  (exists st0 st5 st6,
      start_record (make r8_00000_then_00 5) = Ok (true, st0)
      /\ read_bits read_bit 5 st0
         = Ok ([false; false; false; false; false], st5)
      /\ is_end_of_record st5 = true
      /\ inp st5 = [x00]
      /\ start_record st5 = Ok (true, st6)
      /\ inp st6 = [])
  /\ (exists st0 st5 st6,
      start_record (make r8_00000 5) = Ok (true, st0)
      /\ read_bits read_bit 5 st0
         = Ok ([false; false; false; false; false], st5)
      /\ is_end_of_record st5 = true
      /\ inp st5 = []
      /\ start_record st5 = Ok (false, st6)).
Proof.
  split; do 3 eexists.
  - split; [run_reader|]. split; [run_reader|]. split; [run_reader|].
    split; [run_reader|]. split; [run_reader|]. run_reader.
  - split; [run_reader|]. split; [run_reader|]. split; [run_reader|].
    split; [run_reader|]. run_reader.
Qed.

End R8Scenarios.

(** ** 01: a record ends where its line ends *)

Module Format01Facts.
Import MeasureRecordReaderFormat01 Scenarios.

Lemma is_end_of_record_cases st :
  ((payload st = EOF \/ payload st = ch_newline)
   /\ position st < bits_per_record st
   -> is_end_of_record st = Throw RecordEndedEarly)
  /\ (payload st <> EOF /\ payload st <> ch_newline
      /\ bits_per_record st <= position st
      -> is_end_of_record st = Throw RecordDidNotEnd)
  /\ (is_end_of_record st = Ok true
      <-> (payload st = EOF \/ payload st = ch_newline)
          /\ bits_per_record st <= position st)
  /\ (is_end_of_record st = Ok false
      <-> payload st <> EOF /\ payload st <> ch_newline
          /\ position st < bits_per_record st).
Proof.
  unfold is_end_of_record.
  destruct (Z.eqb_spec (payload st) EOF) as [He|He];
    destruct (Z.eqb_spec (payload st) ch_newline) as [Hn|Hn];
    destruct (Z.geb_spec (position st) (bits_per_record st)) as [Hp|Hp];
    cbn; repeat split; intros; try discriminate; try tauto; try lia;
    intuition (try discriminate; try lia).
Qed.

(** C5. With m = 3 the stream "010\n111\n" holds the records 0,1,0 and
    1,1,1 and nothing more; on "01\n" the record is reported as having ended
    early, by [is_end_of_record] and by the bulk read, while [read_bit]
    refuses to read past the end of the line; on "0101\n" the record is
    reported as not having ended. In any state, the line having ended (a
    newline or the end of the stream in [payload]) while [position] is short
    of m, or the reverse, makes [is_end_of_record] throw; it answers only
    when the two agree. *)
Theorem f01_record_framing :
  (exists st0 st1 st2 st3 st4,
      start_record (make f01_two_records 3) = Ok (true, st0)
      /\ read_bits read_bit 3 st0 = Ok ([false; true; false], st1)
      /\ is_end_of_record st1 = Ok true
      /\ start_record st1 = Ok (true, st2)
      /\ read_bits read_bit 3 st2 = Ok ([true; true; true], st3)
      /\ is_end_of_record st3 = Ok true
      /\ start_record st3 = Ok (false, st4))
  /\ (exists st0 st2,
      start_record (make f01_short_record 3) = Ok (true, st0)
      /\ read_bits read_bit 2 st0 = Ok ([false; true], st2)
      /\ is_end_of_record st2 = Throw RecordEndedEarly
      /\ read_bit st2 = Throw PastEndOfRecord
      /\ read_bits_into_bytes st0 [0] = Throw RecordEndedEarly)
  /\ (exists st0 st3,
      start_record (make f01_long_record 3) = Ok (true, st0)
      /\ read_bits read_bit 3 st0 = Ok ([false; true; false], st3)
      /\ is_end_of_record st3 = Throw RecordDidNotEnd
      /\ read_bits_into_bytes st0 [0] = Throw RecordDidNotEnd)
  /\ (forall st,
      ((payload st = EOF \/ payload st = ch_newline)
       /\ position st < bits_per_record st
       -> is_end_of_record st = Throw RecordEndedEarly)
      /\ (payload st <> EOF /\ payload st <> ch_newline
          /\ bits_per_record st <= position st
          -> is_end_of_record st = Throw RecordDidNotEnd)
      /\ (is_end_of_record st = Ok true
          <-> (payload st = EOF \/ payload st = ch_newline)
              /\ bits_per_record st <= position st)
      /\ (is_end_of_record st = Ok false
          <-> payload st <> EOF /\ payload st <> ch_newline
              /\ position st < bits_per_record st)).
Proof.
  split; [|split; [|split]].
  - do 5 eexists.
    split; [run_reader|]. split; [run_reader|]. split; [run_reader|].
    split; [run_reader|]. split; [run_reader|]. split; [run_reader|].
    run_reader.
  - do 2 eexists.
    split; [run_reader|]. split; [run_reader|]. split; [run_reader|].
    split; [run_reader|]. run_reader.
  - do 2 eexists.
    split; [run_reader|]. split; [run_reader|]. split; [run_reader|].
    run_reader.
  - exact is_end_of_record_cases.
Qed.

(** The state after the two bits of "01\n": the line has ended, one bit
    short. *)
Lemma f01_record_framing_witness :
  is_end_of_record (mk [] ch_newline 2 3) = Throw RecordEndedEarly.
Proof.
  apply (proj1 (proj2 (proj2 (proj2 f01_record_framing)) (mk [] ch_newline 2 3))).
  split; [right; reflexivity | cbn; lia].
Defined.

End Format01Facts.

(** ** DETS: the result type along the buffer *)

Module DetsResultTypeFacts.
Import MeasureRecordReaderFormatDets.

Lemma result_type_at_sections m d l :
  0 <= m -> 0 <= d -> 0 <= l -> m + d + l < 2 ^ 64 ->
  forall p,
    (0 <= p < m -> result_type_at p m d l = ch_M)
    /\ (m <= p < m + d -> result_type_at p m d l = ch_D)
    /\ (m + d <= p -> 0 < l -> result_type_at p m d l = ch_L)
    /\ (m + d <= p -> l = 0 -> 0 < d -> result_type_at p m d l = ch_D)
    /\ (m <= p -> l = 0 -> d = 0 -> result_type_at p m d l = ch_M).
Proof.
  intros Hm Hd Hl Hsum p. unfold result_type_at.
  rewrite (wrap64_small (m + d)) by lia.
  destruct (Z.ltb_spec p m), (Z.eqb_spec m 0), (Z.ltb_spec p (m + d)),
    (Z.eqb_spec d 0), (Z.eqb_spec l 0); cbn; repeat split; intros;
    try reflexivity; lia.
Qed.

(** C7. The result type is computed from [position_in_buffer] and the three
    widths alone. For widths whose sum is a [size_t]: it is M inside the M
    section, D inside the D section and L inside the L section; it never
    steps back in the order M < D < L as the position grows; at the terminus
    m+d+l it is the label of the last section that is not empty, and M when
    all three are empty. *)
Theorem dets_result_type_monotone m d l :
  0 <= m -> 0 <= d -> 0 <= l -> m + d + l < 2 ^ 64 ->
  (forall st,
      m_bits_per_record st = m -> d_bits_per_record st = d ->
      l_bits_per_record st = l ->
      current_result_type st = result_type_at (position_in_buffer st) m d l)
  /\ (forall p, 0 <= p < m -> result_type_at p m d l = ch_M)
  /\ (forall p, m <= p < m + d -> result_type_at p m d l = ch_D)
  /\ (forall p, m + d <= p < m + d + l -> result_type_at p m d l = ch_L)
  /\ (forall p q, 0 <= p <= q ->
        result_type_rank (result_type_at p m d l)
        <= result_type_rank (result_type_at q m d l))
  /\ result_type_at (m + d + l) m d l
     = (if 0 <? l then ch_L else if 0 <? d then ch_D else ch_M)
  /\ (m = 0 -> d = 0 -> l = 0 -> forall p, result_type_at p m d l = ch_M).
Proof.
  intros Hm Hd Hl Hsum.
  pose proof (result_type_at_sections m d l Hm Hd Hl Hsum) as Hsec.
  split; [|split; [|split; [|split; [|split; [|split]]]]].
  - intros st <- <- <-. reflexivity.
  - intros p Hp. destruct (Hsec p) as (H & _). exact (H Hp).
  - intros p Hp. destruct (Hsec p) as (_ & H & _). exact (H Hp).
  - intros p Hp. destruct (Hsec p) as (_ & _ & H & _). apply H; lia.
  - intros p q Hpq.
    destruct (Hsec p) as (Hp1 & Hp2 & Hp3 & Hp4 & Hp5).
    destruct (Hsec q) as (Hq1 & Hq2 & Hq3 & Hq4 & Hq5).
    destruct (Z.lt_ge_cases p m) as [Hpm|Hpm].
    { rewrite Hp1 by lia.
      destruct (Z.lt_ge_cases q m); [rewrite Hq1 by lia; reflexivity|].
      destruct (Z.lt_ge_cases q (m + d)); [rewrite Hq2 by lia; cbn; lia|].
      destruct (Z.eq_dec l 0); [|rewrite Hq3 by lia; cbn; lia].
      destruct (Z.eq_dec d 0); [rewrite Hq5 by lia; reflexivity|].
      rewrite Hq4 by lia; cbn; lia. }
    destruct (Z.lt_ge_cases p (m + d)) as [Hpd|Hpd].
    { rewrite Hp2 by lia.
      destruct (Z.lt_ge_cases q (m + d)); [rewrite Hq2 by lia; reflexivity|].
      destruct (Z.eq_dec l 0); [|rewrite Hq3 by lia; cbn; lia].
      rewrite Hq4 by lia; reflexivity. }
    destruct (Z.eq_dec l 0) as [Hl0|Hl0].
    { destruct (Z.eq_dec d 0).
      - rewrite Hp5, Hq5 by lia. reflexivity.
      - rewrite Hp4, Hq4 by lia. reflexivity. }
    rewrite Hp3, Hq3 by lia. reflexivity.
  - destruct (Hsec (m + d + l)) as (_ & _ & H3 & H4 & H5).
    destruct (Z.ltb_spec 0 l); [apply H3; lia|].
    destruct (Z.ltb_spec 0 d); [apply H4; lia|].
    apply H5; lia.
  - intros -> -> -> p. unfold result_type_at.
    change (negb (0 =? 0)) with false. now rewrite !andb_false_r.
Qed.

(** The widths (2, 3, 1) of the specification's DETS scenario. *)
Lemma dets_result_type_monotone_witness :
  result_type_at (2 + 3 + 1) 2 3 1 = ch_L
  /\ result_type_rank (result_type_at 1 2 3 1)
     <= result_type_rank (result_type_at 4 2 3 1).
Proof.
  assert (H : 0 <= 2 /\ 0 <= 3 /\ 0 <= 1 /\ 2 + 3 + 1 < 2 ^ 64) by (cbn; lia).
  destruct H as (Hm & Hd & Hl & Hs).
  destruct (dets_result_type_monotone 2 3 1 Hm Hd Hl Hs)
    as (_ & _ & _ & _ & Hmono & Hend & _).
  split; [exact Hend | apply Hmono; lia].
Defined.

End DetsResultTypeFacts.

(** ** Bits and bytes *)

Lemma read_bits_app {S : Type} (rb : S -> result (bool * S)) a b st st1 st2 l1 l2 :
  read_bits rb a st = Ok (l1, st1) ->
  read_bits rb b st1 = Ok (l2, st2) ->
  read_bits rb (a + b) st = Ok (l1 ++ l2, st2).
Proof.
  revert st l1. induction a as [|a IH]; intros st l1 Ha Hb; cbn in *.
  - injection Ha as <- <-. exact Hb.
  - destruct (rb st) as [[bit st']|]; cbn in *; [|discriminate].
    destruct (read_bits rb a st') as [[l1' st1']|] eqn:E; cbn in *; [|discriminate].
    injection Ha as <- <-. now rewrite (IH _ _ E Hb).
Qed.

Lemma read_bits_length {S : Type} (rb : S -> result (bool * S)) n st bits st' :
  read_bits rb n st = Ok (bits, st') -> length bits = n.
Proof.
  revert st bits. induction n as [|n IH]; intros st bits H; cbn in *.
  - now injection H as <- <-.
  - destruct (rb st) as [[bit st1]|]; cbn in *; [|discriminate].
    destruct (read_bits rb n st1) as [[l1 st2]|] eqn:E; cbn in *; [|discriminate].
    injection H as <- <-. cbn. f_equal. eauto.
Qed.

Lemma pack_byte_range bits : 0 <= pack_byte bits < 2 ^ Z.of_nat (length bits).
Proof.
  induction bits as [|bit bits IH]; [cbn; lia|].
  cbn [pack_byte length]. rewrite Nat2Z.inj_succ, Z.pow_succ_r by lia.
  destruct bit; cbn [Z.b2z]; lia.
Qed.

Lemma pack_byte_testbit bits k :
  Z.testbit (pack_byte bits) (Z.of_nat k) = default false (bits !! k).
Proof.
  revert k. induction bits as [|bit bits IH]; intros k; cbn [pack_byte].
  - now rewrite Z.bits_0.
  - destruct k as [|k].
    + cbn [Z.of_nat]. now rewrite Z.testbit_0_r.
    + rewrite Nat2Z.inj_succ, Z.testbit_succ_r by lia. apply IH.
Qed.

Lemma lookups_of_short_list (bits : list bool) n :
  (length bits <= n)%nat ->
  (fun k => default false (bits !! k)) <$> seq 0 n
  = bits ++ replicate (n - length bits) false.
Proof.
  revert bits. induction n as [|n IH]; intros bits Hlen.
  - destruct bits; [reflexivity | cbn in Hlen; lia].
  - cbn [seq fmap list_fmap]. rewrite <- fmap_S_seq, <- list_fmap_compose.
    destruct bits as [|bit bits]; cbn.
    + f_equal. specialize (IH [] ltac:(cbn; lia)). cbn in IH.
      rewrite Nat.sub_0_r in IH. rewrite <- IH.
      apply list_fmap_ext. intros _ k _. reflexivity.
    + f_equal. apply IH. cbn in Hlen. lia.
Qed.

Lemma byte_bits_pack_byte bits :
  (length bits <= 8)%nat ->
  byte_bits (pack_byte bits) = bits ++ replicate (8 - length bits) false.
Proof.
  intros Hlen. unfold byte_bits. rewrite <- lookups_of_short_list by exact Hlen.
  apply list_fmap_ext. intros _ k _. apply pack_byte_testbit.
Qed.

Lemma length_byte_bits b : length (byte_bits b) = 8%nat.
Proof. reflexivity. Qed.

Lemma length_bytes_to_bits out : length (bytes_to_bits out) = (8 * length out)%nat.
Proof.
  unfold bytes_to_bits. induction out as [|b out IH]; [reflexivity|].
  cbn [mbind list_bind]. rewrite length_app, IH, length_byte_bits. cbn. lia.
Qed.

(** Setting bit [k] of a byte that is zero from bit [k] on. *)
Lemma or_bit_into_byte b k bit :
  0 <= k < 8 -> 0 <= b < 2 ^ k ->
  wrap8 (Z.lor b (Z.shiftl (Z.b2z bit) k)) = b + 2 ^ k * Z.b2z bit.
Proof.
  intros Hk Hb.
  assert (Hland : Z.land b (Z.shiftl (Z.b2z bit) k) = 0).
  { apply Z.bits_inj'. intros i Hi. rewrite Z.land_spec, Z.bits_0.
    destruct (Z.lt_ge_cases i k).
    - rewrite Z.shiftl_spec_low by lia. apply andb_false_r.
    - replace (Z.testbit b i) with false; [reflexivity|].
      symmetry. destruct (Z.eq_dec b 0) as [->|]; [apply Z.bits_0|].
      apply Z.bits_above_log2; [lia|].
      apply Z.log2_lt_pow2; [lia|].
      apply Z.lt_le_trans with (2 ^ k); [lia|].
      apply Z.pow_le_mono_r; lia. }
  rewrite <- Z.lxor_lor, <- Z.add_nocarry_lxor by exact Hland.
  rewrite Z.shiftl_mul_pow2, (Z.mul_comm (Z.b2z bit)) by lia.
  apply wrap8_small.
  assert (2 ^ k <= 2 ^ 7) by (apply Z.pow_le_mono_r; lia).
  change (2 ^ 8) with (2 * 2 ^ 7). destruct bit; cbn [Z.b2z]; lia.
Qed.

Lemma bytes_for_0 : bytes_for 0 = 0%nat.
Proof. reflexivity. Qed.

Lemma bytes_for_last n : (1 <= n <= 8)%nat -> bytes_for n = 1%nat.
Proof.
  intros Hn. unfold bytes_for. symmetry.
  apply (Nat.div_unique (n + 7) 8 1 (n - 1)); lia.
Qed.

Lemma bytes_for_more n : bytes_for (8 + n) = S (bytes_for n).
Proof.
  unfold bytes_for. replace (8 + n + 7)%nat with (1 * 8 + (n + 7))%nat by lia.
  now rewrite Nat.div_add_l by lia.
Qed.

Lemma bytes_to_bits_cons b out :
  bytes_to_bits (b :: out) = byte_bits b ++ bytes_to_bits out.
Proof. reflexivity. Qed.

Section PackedFacts.

Lemma packed_length bits out out' : packed bits out out' -> length out' = length out.
Proof. induction 1; cbn; congruence. Qed.

Lemma packed_bits_bound bits out out' :
  packed bits out out' -> (length bits <= 8 * length out)%nat.
Proof.
  induction 1; cbn [length]; [lia | lia |].
  rewrite length_app. lia.
Qed.

Lemma packed_take bits out out' :
  packed bits out out' -> take (length bits) (bytes_to_bits out') = bits.
Proof.
  induction 1 as [out|bits b out Hlen|bits8 bits b out out' Hlen _ IH].
  - reflexivity.
  - rewrite bytes_to_bits_cons, byte_bits_pack_byte by lia.
    rewrite <- app_assoc. now rewrite take_app_length.
  - rewrite bytes_to_bits_cons, byte_bits_pack_byte by lia.
    rewrite Hlen. cbn [Nat.sub replicate]. rewrite app_nil_r, length_app.
    rewrite take_app_add'; [|reflexivity]. now rewrite IH.
Qed.

Lemma packed_zero_tail bits out out' :
  packed bits out out' ->
  forall i, (length bits <= i < 8 * bytes_for (length bits))%nat ->
            bytes_to_bits out' !! i = Some false.
Proof.
  induction 1 as [out|bits b out Hlen|bits8 bits b out out' Hlen _ IH]; intros i Hi.
  - cbn in Hi. lia.
  - rewrite bytes_for_last in Hi by exact Hlen.
    rewrite bytes_to_bits_cons, byte_bits_pack_byte by lia.
    rewrite <- app_assoc, lookup_app_r by lia.
    rewrite lookup_app_l by (rewrite length_replicate; lia).
    apply lookup_replicate_2. lia.
  - rewrite length_app, Hlen, bytes_for_more in Hi.
    rewrite bytes_to_bits_cons, byte_bits_pack_byte by lia.
    rewrite Hlen. cbn [Nat.sub replicate]. rewrite app_nil_r.
    rewrite lookup_app_r by lia. apply IH. lia.
Qed.

Lemma packed_untouched bits out out' :
  packed bits out out' ->
  drop (bytes_for (length bits)) out' = drop (bytes_for (length bits)) out.
Proof.
  induction 1 as [out|bits b out Hlen|bits8 bits b out out' Hlen _ IH].
  - reflexivity.
  - now rewrite bytes_for_last by exact Hlen.
  - rewrite length_app, Hlen, bytes_for_more. exact IH.
Qed.

Lemma packed_bytes_range bits out out' :
  packed bits out out' ->
  forall j b, (j < bytes_for (length bits))%nat -> out' !! j = Some b ->
              0 <= b < 256.
Proof.
  assert (Hbyte : forall l : list bool, (length l <= 8)%nat -> 0 <= pack_byte l < 256).
  { intros l Hl. pose proof (pack_byte_range l) as Hr.
    assert (2 ^ Z.of_nat (length l) <= 2 ^ 8) by (apply Z.pow_le_mono_r; lia).
    change (2 ^ 8) with 256 in *. lia. }
  induction 1 as [out|bits b out Hlen|bits8 bits b out out' Hlen _ IH]; intros j v Hj Hv.
  - cbn in Hj. lia.
  - rewrite bytes_for_last in Hj by exact Hlen.
    assert (j = 0%nat) as -> by lia. injection Hv as <-. apply Hbyte. lia.
  - rewrite length_app, Hlen, bytes_for_more in Hj.
    destruct j as [|j]; [injection Hv as <-; apply Hbyte; lia|].
    apply (IH j v); [lia | exact Hv].
Qed.

End PackedFacts.

(** ** The default bulk read *)

Section DefaultFacts.
Context {S : Type}.
Variable rb : S -> result (bool * S).
Variable ie : S -> result bool.
Variable crt : S -> Z.

Lemma default_bits_loop_ok todo :
  forall result_type k b n st returned b' n' st',
    default_bits_loop rb ie crt todo result_type k b n st = Ok (returned, b', n', st') ->
    0 <= k -> k + Z.of_nat todo <= 8 -> 0 <= b < 2 ^ k ->
    0 <= n -> n + Z.of_nat todo < 2 ^ 64 ->
    exists bits,
      read_bits rb (length bits) st = Ok (bits, st')
      /\ (length bits <= todo)%nat
      /\ (if returned then (1 <= length bits)%nat else length bits = todo)
      /\ b' = b + 2 ^ k * pack_byte bits
      /\ n' = n + Z.of_nat (length bits).
Proof.
  induction todo as [|todo IH]; intros rt k b n st returned b' n' st' H Hk Hk8 Hb Hn Hn64.
  - cbn in H. injection H as <- <- <- <-. exists []. cbn. repeat split; lia.
  - cbn [default_bits_loop] in H.
    destruct (rb st) as [[bit st1]|] eqn:Erb; cbn in H; [|discriminate].
    destruct (ie st1) as [e|] eqn:Eie; cbn in H; [|discriminate].
    rewrite or_bit_into_byte in H by lia.
    rewrite (wrap64_small (n + 1)) in H by lia.
    destruct (e || negb (crt st1 =? rt)).
    + injection H as <- <- <- <-. exists [bit]. cbn. rewrite Erb. cbn.
      repeat split; lia.
    + apply IH in H; try lia.
      2:{ rewrite Z.pow_add_r, Z.pow_1_r by lia. destruct bit; cbn [Z.b2z]; lia. }
      destruct H as (bits & Hbits & Hlen & Hret & Hb' & Hn').
      exists (bit :: bits). cbn [length read_bits]. rewrite Erb. cbn. rewrite Hbits. cbn.
      split; [reflexivity|]. split; [lia|]. split.
      { destruct returned; lia. }
      split; [|lia].
      rewrite Hb'. cbn [pack_byte]. rewrite Z.pow_add_r, Z.pow_1_r by lia. ring.
Qed.

Lemma default_bytes_loop_ok out :
  forall result_type n st n' out' st',
    default_bytes_loop rb ie crt out result_type n st = Ok (n', out', st') ->
    0 <= n -> n + 8 * Z.of_nat (length out) < 2 ^ 64 ->
    exists bits,
      read_bits rb (length bits) st = Ok (bits, st')
      /\ n' = n + Z.of_nat (length bits)
      /\ packed bits out out'.
Proof.
  induction out as [|b0 out IH]; intros rt n st n' out' st' H Hn Hn64.
  - cbn in H. injection H as <- <- <-. exists []. cbn.
    repeat split; [lia | constructor].
  - cbn [default_bytes_loop] in H. cbn [length] in Hn64.
    destruct (default_bits_loop rb ie crt 8 rt 0 0 n st)
      as [[[[returned b] n1] st1]|] eqn:Ebits; cbn in H; [|discriminate].
    apply default_bits_loop_ok in Ebits; try lia.
    destruct Ebits as (bits1 & Hbits1 & Hlen1 & Hret & Hb & Hn1).
    rewrite Z.add_0_l, Z.pow_0_r, Z.mul_1_l in Hb. subst b.
    destruct returned.
    + injection H as <- <- <-. exists bits1. repeat split; try assumption.
      constructor. lia.
    + destruct (default_bytes_loop rb ie crt out rt n1 st1)
        as [[[n2 out2] st2]|] eqn:Erest; cbn in H; [|discriminate].
      injection H as <- <- <-.
      apply IH in Erest; try lia.
      destruct Erest as (bits2 & Hbits2 & Hn2 & Hpacked).
      exists (bits1 ++ bits2). rewrite length_app.
      split; [now apply read_bits_app with st1|].
      split; [lia|]. now constructor.
Qed.

Lemma default_read_bits_into_bytes_ok st out n out' st' :
  default_read_bits_into_bytes rb ie crt st out = Ok (n, out', st') ->
  8 * Z.of_nat (length out) < 2 ^ 64 ->
  exists bits,
    read_bits rb (length bits) st = Ok (bits, st')
    /\ n = Z.of_nat (length bits)
    /\ packed bits out out'.
Proof.
  unfold default_read_bits_into_bytes. intros H Hlen.
  destruct (ie st) as [[|]|]; cbn in H; [| |discriminate].
  - injection H as <- <- <-. exists []. repeat split. constructor.
  - apply default_bytes_loop_ok in H; [|lia|lia].
    destruct H as (bits & ? & ? & ?). exists bits. repeat split; [assumption|lia|assumption].
Qed.

End DefaultFacts.

(** C10. Whenever the default [read_bits_into_bytes] returns n: the bytes it
    wrote are the first ceil(n/8) of the row; they hold the n bits that
    [read_bit] gave, in order, lowest bit first; every bit of those bytes
    from position n on is 0, so a record (or a section) that ends partway
    through a byte leaves its high bits clear; and the bytes after them are
    the ones the row held before the call. *)
Theorem default_read_zeroes_unused_bits {S : Type}
    (rb : S -> result (bool * S)) (ie : S -> result bool) (crt : S -> Z)
    (st : S) (out : list Z) (n : Z) (out' : list Z) (st' : S) :
  8 * Z.of_nat (length out) < 2 ^ 64 ->
  default_read_bits_into_bytes rb ie crt st out = Ok (n, out', st') ->
  let written := bytes_for (Z.to_nat n) in
  0 <= n <= 8 * Z.of_nat (length out)
  /\ length out' = length out
  /\ (exists bits,
        read_bits rb (Z.to_nat n) st = Ok (bits, st')
        /\ take (Z.to_nat n) (bytes_to_bits out') = bits)
  /\ (forall j b, (j < written)%nat -> out' !! j = Some b -> 0 <= b < 256)
  /\ (forall i, (Z.to_nat n <= i < 8 * written)%nat ->
                bytes_to_bits out' !! i = Some false)
  /\ drop written out' = drop written out.
Proof.
  intros Hlen H written.
  destruct (default_read_bits_into_bytes_ok rb ie crt st out n out' st' H Hlen)
    as (bits & Hbits & Hn & Hpacked).
  assert (Hnat : Z.to_nat n = length bits) by lia.
  subst written. rewrite Hnat.
  pose proof (packed_bits_bound _ _ _ Hpacked).
  split; [lia|].
  split; [exact (packed_length _ _ _ Hpacked)|].
  split; [exists bits; split; [exact Hbits | exact (packed_take _ _ _ Hpacked)]|].
  split; [exact (packed_bytes_range _ _ _ Hpacked)|].
  split; [exact (packed_zero_tail _ _ _ Hpacked)|].
  exact (packed_untouched _ _ _ Hpacked).
Qed.

(** The M section of the DETS record "shot M0 D2 L0" is two bits wide: a
    bulk read into two bytes that held 255 stops after it, with the first
    byte 1 and the second byte still 255. *)
Lemma default_read_zeroes_unused_bits_witness :
  bytes_to_bits [1; 255] !! 5%nat = Some false
  /\ drop 1 [1; 255] = drop 1 [255; 255].
Proof.
  assert (Hlen : 8 * Z.of_nat (length [255; 255]) < 2 ^ 64) by (cbn; lia).
  assert (Hrun :
    default_read_bits_into_bytes
      MeasureRecordReaderFormatDets.read_bit
      (fun st => Ok (MeasureRecordReaderFormatDets.is_end_of_record st))
      MeasureRecordReaderFormatDets.current_result_type
      Scenarios.dets_m0_d2_l0_started [255; 255]
    = Ok (2, [1; 255],
          MeasureRecordReaderFormatDets.mk
            [] [true; false; false; false; true; true] 2 2 3 1))
    by (vm_compute; reflexivity).
  destruct (default_read_zeroes_unused_bits _ _ _ _ _ _ _ _ Hlen Hrun)
    as (_ & _ & _ & _ & Hzero & Hrest).
  split; [apply Hzero; vm_compute; lia | exact Hrest].
Defined.

(** ** HITS and DETS: the record is read in [start_record] *)

Module HitsFrame.
Import MeasureRecordReaderFormatHits.

Lemma hits_read_bit_frame st bit st' :
  read_bit st = Ok (bit, st') ->
  st' = mk (inp st) (bits_per_record st) (buffer st) (wrap64 (position_in_buffer st + 1))
  /\ bit = buffer_get (buffer st) (position_in_buffer st).
Proof.
  unfold read_bit. destruct (position_in_buffer st >=? bits_per_record st); [discriminate|].
  intros H. injection H as <- <-. split; reflexivity.
Qed.

Lemma hits_read_bits_frame n : forall st bits st',
  read_bits read_bit n st = Ok (bits, st') ->
  inp st' = inp st /\ bits_per_record st' = bits_per_record st
  /\ buffer st' = buffer st.
Proof.
  induction n as [|n IH]; intros st bits st' H; cbn in H.
  - injection H as <- <-. repeat split.
  - destruct (read_bit st) as [[bit st1]|] eqn:E; cbn in H; [|discriminate].
    destruct (read_bits read_bit n st1) as [[bits1 st2]|] eqn:E2; cbn in H; [|discriminate].
    injection H as <- <-. apply hits_read_bit_frame in E as [-> _].
    apply IH in E2 as (-> & -> & ->). repeat split.
Qed.

(** [start_record] looks at the input, the width and the size of the buffer
    only; when it answers true, the state it leaves is the same whatever the
    position and the buffer were. *)
Lemma hits_start_record_frame st1 st2 :
  inp st1 = inp st2 -> bits_per_record st1 = bits_per_record st2 ->
  length (buffer st1) = length (buffer st2) ->
  hits_flag_and_rest (start_record st1) = hits_flag_and_rest (start_record st2)
  /\ (forall st', start_record st1 = Ok (true, st') -> start_record st2 = Ok (true, st')).
Proof.
  intros Hinp Hm Hlen. unfold start_record, buffer_clear.
  rewrite Hinp, Hm, Hlen. destruct (getc (inp st2)) as [c inp'].
  destruct (c =? EOF); [split; [reflexivity | intros st' H; discriminate]|].
  split; [reflexivity | trivial].
Qed.

End HitsFrame.

Module DetsFrame.
Import MeasureRecordReaderFormatDets.

Lemma dets_read_bit_frame st bit st' :
  read_bit st = Ok (bit, st') ->
  st' = mk (inp st) (buffer st) (wrap64 (position_in_buffer st + 1))
           (m_bits_per_record st) (d_bits_per_record st) (l_bits_per_record st)
  /\ bit = buffer_get (buffer st) (position_in_buffer st).
Proof.
  unfold read_bit.
  destruct (position_in_buffer st >=? _); [discriminate|].
  intros H. injection H as <- <-. split; reflexivity.
Qed.

Lemma dets_read_bits_frame n : forall st bits st',
  read_bits read_bit n st = Ok (bits, st') ->
  inp st' = inp st /\ buffer st' = buffer st
  /\ m_bits_per_record st' = m_bits_per_record st
  /\ d_bits_per_record st' = d_bits_per_record st
  /\ l_bits_per_record st' = l_bits_per_record st.
Proof.
  induction n as [|n IH]; intros st bits st' H; cbn in H.
  - injection H as <- <-. repeat split.
  - destruct (read_bit st) as [[bit st1]|] eqn:E; cbn in H; [|discriminate].
    destruct (read_bits read_bit n st1) as [[bits1 st2]|] eqn:E2; cbn in H; [|discriminate].
    injection H as <- <-. apply dets_read_bit_frame in E as [-> _].
    apply IH in E2 as (-> & -> & -> & -> & ->). repeat split.
Qed.

Lemma dets_start_record_frame st1 st2 :
  inp st1 = inp st2 -> length (buffer st1) = length (buffer st2) ->
  m_bits_per_record st1 = m_bits_per_record st2 ->
  d_bits_per_record st1 = d_bits_per_record st2 ->
  l_bits_per_record st1 = l_bits_per_record st2 ->
  dets_flag_and_rest (start_record st1) = dets_flag_and_rest (start_record st2)
  /\ (forall st', start_record st1 = Ok (true, st') -> start_record st2 = Ok (true, st')).
Proof.
  intros Hinp Hlen Hm Hd Hl. unfold start_record, buffer_clear.
  rewrite Hinp, Hm, Hd, Hl, Hlen.
  destruct (maybe_consume_keyword (inp st2) shot) as [[[found c] inp']|];
    [|split; [reflexivity | trivial]].
  destruct found; cbn; [split; [reflexivity | trivial]|].
  split; [reflexivity | intros st' H; discriminate].
Qed.

End DetsFrame.

(** C9. In the HITS and the DETS reader, a [read_bit] that succeeds returns
    the buffered bit at the position and changes the position only: the
    input, the buffer and the widths stay as they were. [next_record] is
    [start_record]. And after any number of [read_bit] calls on a record,
    [next_record] answers the same flag and leaves the same bytes unread as
    a [start_record] would have before them (with the same state after it
    when the flag is true): no byte is spent on the abandoned record. *)
Theorem hits_dets_read_in_start_record :
  (forall st bit st',
      MeasureRecordReaderFormatHits.read_bit st = Ok (bit, st') ->
      MeasureRecordReaderFormatHits.inp st' = MeasureRecordReaderFormatHits.inp st
      /\ MeasureRecordReaderFormatHits.buffer st' = MeasureRecordReaderFormatHits.buffer st
      /\ bit = buffer_get (MeasureRecordReaderFormatHits.buffer st)
                          (MeasureRecordReaderFormatHits.position_in_buffer st))
  /\ (forall st,
      MeasureRecordReaderFormatHits.next_record st
      = MeasureRecordReaderFormatHits.start_record st)
  /\ (forall n st bits st',
      read_bits MeasureRecordReaderFormatHits.read_bit n st = Ok (bits, st') ->
      MeasureRecordReaderFormatHits.inp st' = MeasureRecordReaderFormatHits.inp st
      /\ hits_flag_and_rest (MeasureRecordReaderFormatHits.next_record st')
         = hits_flag_and_rest (MeasureRecordReaderFormatHits.start_record st)
      /\ (forall st'', MeasureRecordReaderFormatHits.start_record st = Ok (true, st'') ->
                       MeasureRecordReaderFormatHits.next_record st' = Ok (true, st'')))
  /\ (forall st bit st',
      MeasureRecordReaderFormatDets.read_bit st = Ok (bit, st') ->
      MeasureRecordReaderFormatDets.inp st' = MeasureRecordReaderFormatDets.inp st
      /\ MeasureRecordReaderFormatDets.buffer st' = MeasureRecordReaderFormatDets.buffer st
      /\ bit = buffer_get (MeasureRecordReaderFormatDets.buffer st)
                          (MeasureRecordReaderFormatDets.position_in_buffer st))
  /\ (forall st,
      MeasureRecordReaderFormatDets.next_record st
      = MeasureRecordReaderFormatDets.start_record st)
  /\ (forall n st bits st',
      read_bits MeasureRecordReaderFormatDets.read_bit n st = Ok (bits, st') ->
      MeasureRecordReaderFormatDets.inp st' = MeasureRecordReaderFormatDets.inp st
      /\ dets_flag_and_rest (MeasureRecordReaderFormatDets.next_record st')
         = dets_flag_and_rest (MeasureRecordReaderFormatDets.start_record st)
      /\ (forall st'', MeasureRecordReaderFormatDets.start_record st = Ok (true, st'') ->
                       MeasureRecordReaderFormatDets.next_record st' = Ok (true, st''))).
Proof.
  split; [|split; [|split; [|split; [|split]]]].
  - intros st bit st' H. apply HitsFrame.hits_read_bit_frame in H as [-> ->]. repeat split.
  - reflexivity.
  - intros n st bits st' H.
    apply HitsFrame.hits_read_bits_frame in H as (Hinp & Hm & Hbuf).
    split; [exact Hinp|].
    unfold MeasureRecordReaderFormatHits.next_record.
    destruct (HitsFrame.hits_start_record_frame st st') as [Hflag Hsame];
      [congruence .. |].
    split; [now symmetry | exact Hsame].
  - intros st bit st' H. apply DetsFrame.dets_read_bit_frame in H as [-> ->]. repeat split.
  - reflexivity.
  - intros n st bits st' H.
    apply DetsFrame.dets_read_bits_frame in H as (Hinp & Hbuf & Hm & Hd & Hl).
    split; [exact Hinp|].
    unfold MeasureRecordReaderFormatDets.next_record.
    destruct (DetsFrame.dets_start_record_frame st st') as [Hflag Hsame];
      [congruence .. |].
    split; [now symmetry | exact Hsame].
Qed.

(** The HITS record "0,3,3,5" of the specification, m = 8: one bit read,
    then the record is abandoned. *)
Lemma hits_dets_read_in_start_record_witness :
  MeasureRecordReaderFormatHits.inp
    (MeasureRecordReaderFormatHits.mk
       [x0a] 8 [true; false; false; false; false; true; false; false] 1)
  = [x0a].
Proof.
  destruct hits_dets_read_in_start_record as (_ & _ & H & _).
  refine (proj1 (H 1%nat
    (MeasureRecordReaderFormatHits.mk
       [x0a] 8 [true; false; false; false; false; true; false; false] 0)
    [true] _ _)).
  vm_compute. reflexivity.
Defined.

(** ** Numerals *)

Lemma read_uint64_digits_eq value next inp :
  read_uint64_digits value next inp
  = if isdigit next then
      let value' := wrap64 (wrap64 (value * 10) + (next - ch_0)) in
      if value' <? value then Throw IntegerTooBig
      else let '(next', inp') := getc inp in read_uint64_digits value' next' inp'
    else Ok (value, next, inp).
Proof.
  destruct inp as [|b inp]; cbn; destruct (isdigit next); reflexivity.
Qed.

Lemma isdigit_EOF : isdigit EOF = false.
Proof. reflexivity. Qed.

Lemma isdigit_range c : isdigit c = true -> 48 <= c <= 57.
Proof. unfold isdigit, ch_0, ch_9. lia. Qed.

Lemma digits_value_cons v b t :
  digits_value v (b :: t) = digits_value (10 * v + (byte_val b - ch_0)) t.
Proof. reflexivity. Qed.

Lemma digits_value_ge t : forall v,
  Forall is_digit_byte t -> 0 <= v -> v <= digits_value v t.
Proof.
  induction t as [|b t IH]; intros v Ht Hv; [cbn; lia|].
  inversion Ht as [|? ? Hb Ht']; subst. rewrite digits_value_cons.
  apply isdigit_range in Hb. unfold ch_0.
  etransitivity; [|apply IH; [assumption | lia]]. lia.
Qed.

Lemma read_uint64_digits_step d v inp :
  is_digit_byte d -> 0 <= v -> 10 * v + (byte_val d - ch_0) < 2 ^ 64 ->
  read_uint64_digits v (byte_val d) inp
  = let '(c, inp') := getc inp in
    read_uint64_digits (10 * v + (byte_val d - ch_0)) c inp'.
Proof.
  intros Hd Hv Hfit. rewrite read_uint64_digits_eq, Hd. cbv zeta.
  pose proof (isdigit_range _ Hd) as Hr. unfold ch_0 in *.
  rewrite (wrap64_small (v * 10)), (wrap64_small (v * 10 + _)) by lia.
  replace (v * 10 + (byte_val d - 48)) with (10 * v + (byte_val d - 48)) by ring.
  destruct (Z.ltb_spec (10 * v + (byte_val d - 48)) v); [lia | reflexivity].
Qed.

(** On a numeral whose value fits 64 bits the digit loop computes that
    value and stops on the byte after it. *)
Lemma read_uint64_digits_numeral ds : forall d v after,
  is_digit_byte d -> Forall is_digit_byte ds -> stops after ->
  0 <= v -> digits_value v (d :: ds) < 2 ^ 64 ->
  read_uint64_digits v (byte_val d) (ds ++ after)
  = Ok (digits_value v (d :: ds), (getc after).1, (getc after).2).
Proof.
  induction ds as [|d' ds IH]; intros d v after Hd Hds Hstop Hv Hfit;
    rewrite digits_value_cons in Hfit |- *;
    pose proof (isdigit_range _ Hd) as Hr.
  - cbn [digits_value fold_left] in *. rewrite read_uint64_digits_step by assumption.
    cbn [app]. destruct (getc after) as [c inp'] eqn:E. cbn [fst snd] in *.
    unfold stops in Hstop. rewrite E in Hstop. cbn [fst] in Hstop.
    now rewrite read_uint64_digits_eq, Hstop.
  - inversion Hds; subst.
    assert (Hle : 10 * v + (byte_val d - ch_0)
                  <= digits_value (10 * v + (byte_val d - ch_0)) (d' :: ds))
      by (apply digits_value_ge; [assumption | unfold ch_0; lia]).
    rewrite read_uint64_digits_step by (assumption || lia).
    cbn [app getc]. apply IH; try assumption. unfold ch_0; lia.
Qed.

Lemma read_uint64_numeral t after c0 :
  numeral t -> stops after -> decimal_value t < 2 ^ 64 ->
  read_uint64 (t ++ after) c0 false
  = Ok (true, decimal_value t, (getc after).1, (getc after).2).
Proof.
  intros [Hne Ht] Hstop Hfit. destruct t as [|d ds]; [congruence|].
  inversion Ht; subst. unfold read_uint64. cbn [app getc].
  replace (isdigit (byte_val d)) with true by (symmetry; assumption). cbn [negb].
  rewrite read_uint64_digits_numeral; try assumption; [reflexivity | lia].
Qed.

Lemma read_uint64_numeral_first d ds after :
  numeral (d :: ds) -> stops after -> decimal_value (d :: ds) < 2 ^ 64 ->
  read_uint64 (ds ++ after) (byte_val d) true
  = Ok (true, decimal_value (d :: ds), (getc after).1, (getc after).2).
Proof.
  intros [Hne Ht] Hstop Hfit. inversion Ht; subst. unfold read_uint64.
  replace (isdigit (byte_val d)) with true by (symmetry; assumption). cbn [negb].
  rewrite read_uint64_digits_numeral; try assumption; [reflexivity | lia].
Qed.

Lemma decimal_value_nonneg t : Forall is_digit_byte t -> 0 <= decimal_value t.
Proof. intros Ht. now apply (digits_value_ge t 0). Qed.

(** ** The bit buffer *)

Lemma length_buffer_toggle buffer k : length (buffer_toggle buffer k) = length buffer.
Proof. apply length_alter. Qed.

Lemma length_buffer_clear buffer : length (buffer_clear buffer) = length buffer.
Proof. apply length_replicate. Qed.

Lemma buffer_get_clear buffer k : buffer_get (buffer_clear buffer) k = false.
Proof.
  unfold buffer_get, buffer_clear.
  destruct (decide (Z.to_nat k < length buffer)%nat) as [Hlt|Hge].
  - now rewrite lookup_replicate_2.
  - assert (E : replicate (length buffer) false !! Z.to_nat k = None)
      by (apply lookup_replicate_None; lia).
    now rewrite E.
Qed.

Lemma buffer_get_toggle buffer v k :
  0 <= v < Z.of_nat (length buffer) -> 0 <= k ->
  buffer_get (buffer_toggle buffer v) k
  = if v =? k then xorb (buffer_get buffer k) true else buffer_get buffer k.
Proof.
  intros Hv Hk. unfold buffer_get, buffer_toggle.
  destruct (Z.eqb_spec v k) as [->|Hne].
  - rewrite list_lookup_alter_eq.
    destruct (lookup_lt_is_Some_2 buffer (Z.to_nat k)) as [b ->]; [lia | reflexivity].
  - rewrite list_lookup_alter_ne by lia. reflexivity.
Qed.

Lemma occurrences_cons k v indices :
  occurrences k (v :: indices)
  = ((if Z.eqb v k then 1 else 0) + occurrences k indices)%nat.
Proof.
  unfold occurrences. rewrite filter_cons.
  destruct (decide (v = k)) as [->|Hne].
  - now rewrite Z.eqb_refl.
  - destruct (Z.eqb_spec v k); [contradiction | reflexivity].
Qed.

(** Toggling the bits of a list of indices leaves bit [k] flipped as often
    as [k] occurs in the list. *)
Lemma buffer_get_toggles indices : forall buffer k,
  Forall (fun v => 0 <= v < Z.of_nat (length buffer)) indices -> 0 <= k ->
  buffer_get (fold_left buffer_toggle indices buffer) k
  = xorb (buffer_get buffer k) (Nat.odd (occurrences k indices)).
Proof.
  induction indices as [|v indices IH]; intros buffer k Hall Hk.
  - cbn. now rewrite xorb_false_r.
  - inversion Hall as [|? ? Hv Hall']; subst. cbn [fold_left].
    rewrite IH, buffer_get_toggle, occurrences_cons;
      [|assumption|assumption|now rewrite length_buffer_toggle|assumption].
    destruct (v =? k).
    + change (1 + occurrences k indices)%nat with (S (occurrences k indices)).
      rewrite Nat.odd_succ, <- Nat.negb_odd.
      destruct (buffer_get buffer k), (Nat.odd (occurrences k indices)); reflexivity.
    + reflexivity.
Qed.

(** ** HITS: a line of indices *)

Module HitsLine.
Import MeasureRecordReaderFormatHits.

Lemma hits_line_cons t tokens : hits_line (t :: tokens) = t ++ hits_tail tokens.
Proof. destruct tokens; reflexivity. Qed.

Lemma hits_tail_head tokens rest :
  (getc (hits_tail tokens ++ rest)).1 = ch_newline
  \/ (getc (hits_tail tokens ++ rest)).1 = ch_comma.
Proof. destruct tokens; [left | right]; reflexivity. Qed.

Lemma hits_tail_separator tokens rest :
  negb ((getc (hits_tail tokens ++ rest)).1 =? ch_comma)
  && negb ((getc (hits_tail tokens ++ rest)).1 =? ch_newline) = false.
Proof. destruct (hits_tail_head tokens rest) as [-> | ->]; reflexivity. Qed.

Lemma hits_tail_stops tokens rest : stops (hits_tail tokens ++ rest).
Proof. unfold stops. destruct (hits_tail_head tokens rest) as [-> | ->]; reflexivity. Qed.

Lemma hits_tail_length tokens :
  Forall numeral tokens -> (length tokens < length (hits_tail tokens))%nat.
Proof.
  induction 1 as [|t tokens [Hne _] _ IH]; [cbn; lia|].
  cbn [hits_tail]. rewrite hits_line_cons. cbn [length]. rewrite length_app.
  destruct t; [congruence | cbn [length]; lia].
Qed.

Lemma hits_loop_eq budget m c is_first buffer inp :
  hits_loop (S budget) m c is_first buffer inp
  = if c =? ch_newline then Ok (buffer, inp)
    else
      '(found, value, c, inp) ← read_uint64 inp c is_first;
      if negb found then Throw HitsIntegerExpected
      else if negb (c =? ch_comma) && negb (c =? ch_newline)
      then Throw HitsSeparatorExpected
      else if value >=? m then Throw HitsValueTooBig
      else hits_loop budget m c false (buffer_toggle buffer value) inp.
Proof. reflexivity. Qed.

(** The rounds after the first numeral. *)
Lemma hits_loop_tail m tokens : forall budget buffer rest,
  m <= 2 ^ 64 ->
  Forall numeral tokens -> Forall (fun t => decimal_value t < m) tokens ->
  (length tokens < budget)%nat ->
  hits_loop budget m (getc (hits_tail tokens ++ rest)).1 false buffer
            (getc (hits_tail tokens ++ rest)).2
  = Ok (fold_left buffer_toggle (decimal_value <$> tokens) buffer, rest).
Proof.
  induction tokens as [|t tokens IH]; intros budget buffer rest Hm Hnum Hval Hbudget;
    (destruct budget as [|budget]; [cbn in Hbudget; lia|]); rewrite hits_loop_eq.
  - reflexivity.
  - inversion Hnum as [|? ? Ht Hnum']; inversion Hval as [|? ? Hvt Hval']; subst.
    cbn [hits_tail getc app fst snd]. rewrite hits_line_cons, <- app_assoc.
    change (byte_val x2c =? ch_newline) with false. cbv iota.
    rewrite read_uint64_numeral; [|assumption|apply hits_tail_stops|lia].
    cbn [mbind result_bind negb].
    rewrite hits_tail_separator.
    destruct (Z.geb_spec (decimal_value t) m) as [|_]; [lia|].
    rewrite IH; [reflexivity|assumption|assumption|assumption|cbn in Hbudget; lia].
Qed.

(** [start_record] on a line of numerals below m: the line is consumed to
    its newline and the buffer holds the toggles of the indices, in order,
    on a cleared buffer. *)
Lemma hits_start_record_line st tokens rest :
  bits_per_record st <= 2 ^ 64 ->
  inp st = hits_line tokens ++ rest ->
  Forall numeral tokens ->
  Forall (fun t => decimal_value t < bits_per_record st) tokens ->
  start_record st
  = Ok (true, mk rest (bits_per_record st)
                 (fold_left buffer_toggle (decimal_value <$> tokens)
                            (buffer_clear (buffer st))) 0).
Proof.
  intros Hm Hinp Hnum Hval. unfold start_record. rewrite Hinp.
  destruct tokens as [|t tokens].
  - cbn [hits_line app getc]. change (byte_val x0a =? EOF) with false. cbv iota.
    rewrite hits_loop_eq. reflexivity.
  - inversion Hnum as [|? ? Ht Hnum']; inversion Hval as [|? ? Hvt Hval']; subst.
    rewrite hits_line_cons, <- app_assoc.
    destruct t as [|d ds]; [destruct Ht; congruence|].
    cbn [app getc].
    pose proof (isdigit_range (byte_val d)) as Hr.
    destruct Ht as [Hne Hds]. inversion Hds as [|? ? Hd Hds']; subst.
    specialize (Hr Hd).
    destruct (Z.eqb_spec (byte_val d) EOF) as [He|_]; [unfold EOF in He; lia|].
    rewrite hits_loop_eq.
    destruct (Z.eqb_spec (byte_val d) ch_newline) as [He|_]; [unfold ch_newline in He; lia|].
    rewrite read_uint64_numeral_first; [|split; assumption|apply hits_tail_stops|lia].
    cbn [mbind result_bind negb].
    rewrite hits_tail_separator.
    destruct (Z.geb_spec (decimal_value (d :: ds)) (bits_per_record st)) as [|_]; [lia|].
    rewrite hits_loop_tail; [reflexivity|assumption|assumption|assumption|].
    rewrite !length_app. pose proof (hits_tail_length tokens Hnum'). lia.
Qed.

End HitsLine.

(** ** DETS: a line of prefixed indices *)

Module DetsLine.
Import MeasureRecordReaderFormatDets.

Lemma dets_loop_eq budget m d l c buffer inp :
  dets_loop budget m d l c buffer inp
  = let had_spacing := c =? ch_space in
    let '(c, inp) := skip_spaces c inp in
    if (c =? ch_newline) || (c =? EOF) then Ok (buffer, inp)
    else if negb had_spacing then Throw DetsSpaceExpected
    else
      os ← (if c =? ch_M then Ok (0, m)
            else if c =? ch_D then Ok (m, d)
            else if c =? ch_L then Ok (wrap64 (m + d), l)
            else Throw DetsBadPrefix);
      let '(offset, size) := os in
      '(found, number, c, inp) ← read_uint64 inp c false;
      if negb found then Throw DetsIntegerExpected
      else if number >=? size then Throw DetsValueTooBig
      else match budget with
           | O => Throw LoopBudgetExhausted
           | S budget' =>
               dets_loop budget' m d l c
                         (buffer_toggle buffer (wrap64 (offset + number))) inp
           end.
Proof. destruct budget; reflexivity. Qed.

Lemma skip_spaces_eq c inp :
  skip_spaces c inp
  = if c =? ch_space then let '(c, inp) := getc inp in skip_spaces c inp
    else (c, inp).
Proof. destruct inp; cbn; destruct (c =? ch_space); reflexivity. Qed.

Lemma skip_spaces_run n : forall e after,
  byte_val e <> ch_space ->
  skip_spaces ch_space (replicate n x20 ++ e :: after) = (byte_val e, after).
Proof.
  induction n as [|n IH]; intros e after He; rewrite skip_spaces_eq;
    change (ch_space =? ch_space) with true; cbv iota; cbn [replicate app getc].
  - rewrite skip_spaces_eq. now destruct (Z.eqb_spec (byte_val e) ch_space).
  - now apply IH.
Qed.

Lemma skip_spaces_run_eof n :
  skip_spaces ch_space (replicate n x20) = (EOF, []).
Proof.
  induction n as [|n IH]; rewrite skip_spaces_eq;
    change (ch_space =? ch_space) with true; cbv iota; cbn [replicate getc].
  - now rewrite skip_spaces_eq.
  - exact IH.
Qed.

Lemma dets_tokens_run_cons t tokens trailing :
  dets_tokens_run (t :: tokens) trailing
  = x20 :: replicate (tok_more_spaces t) x20
        ++ section_prefix (tok_section t)
        :: tok_digits t ++ dets_tokens_run tokens trailing.
Proof.
  unfold dets_tokens_run. cbn [mbind list_bind]. unfold dets_token_bytes.
  cbn [replicate app]. now rewrite <- !app_assoc.
Qed.

Lemma dets_tokens_run_nil trailing : dets_tokens_run [] trailing = replicate trailing x20.
Proof. reflexivity. Qed.

Lemma dets_tokens_line_run tokens trailing rest :
  dets_tokens_line tokens trailing ++ rest
  = dets_tokens_run tokens trailing ++ x0a :: rest.
Proof.
  unfold dets_tokens_line, dets_tokens_run. now rewrite <- !app_assoc.
Qed.

(** The byte after a numeral of the line is a space, the newline or the end
    of the stream. *)
Lemma dets_tokens_run_stops tokens trailing ending :
  line_end ending -> stops (dets_tokens_run tokens trailing ++ ending).
Proof.
  intros Hend. unfold stops. destruct tokens as [|t tokens].
  - rewrite dets_tokens_run_nil. destruct trailing; [|reflexivity].
    destruct Hend as [-> | [rest ->]]; reflexivity.
  - rewrite dets_tokens_run_cons. reflexivity.
Qed.

Lemma dets_tokens_run_length tokens trailing :
  (2 * length tokens <= length (dets_tokens_run tokens trailing))%nat.
Proof.
  induction tokens as [|t tokens IH]; [cbn; lia|].
  rewrite dets_tokens_run_cons. cbn [length]. rewrite length_app. cbn [length].
  rewrite length_app. lia.
Qed.

Lemma section_prefix_cases m d l s :
  (if byte_val (section_prefix s) =? ch_M then Ok (0, m)
   else if byte_val (section_prefix s) =? ch_D then Ok (m, d)
   else if byte_val (section_prefix s) =? ch_L then Ok (wrap64 (m + d), l)
   else Throw DetsBadPrefix)
  = Ok (match s with SecM => 0 | SecD => m | SecL => wrap64 (m + d) end,
        section_size m d l s).
Proof. destruct s; reflexivity. Qed.

(** The loop of [start_record] on the line after its keyword, up to the
    newline or to the end of the stream. *)
Lemma dets_loop_run m d l trailing ending tokens : forall budget buffer,
  0 <= m -> 0 <= d -> 0 <= l -> m + d + l < 2 ^ 64 ->
  line_end ending ->
  Forall (dets_token_ok m d l) tokens ->
  (length tokens <= budget)%nat ->
  dets_loop budget m d l
            (getc (dets_tokens_run tokens trailing ++ ending)).1 buffer
            (getc (dets_tokens_run tokens trailing ++ ending)).2
  = Ok (fold_left buffer_toggle (dets_position m d <$> tokens) buffer,
        (getc ending).2).
Proof.
  induction tokens as [|t tokens IH];
    intros budget buffer Hm Hd Hl Hsum Hend Hok Hbudget; rewrite dets_loop_eq.
  - rewrite dets_tokens_run_nil.
    destruct trailing as [|trailing]; cbn [replicate app getc fst snd].
    + destruct Hend as [-> | [rest ->]]; cbn [getc fst snd];
        rewrite skip_spaces_eq; reflexivity.
    + change (byte_val x20) with ch_space.
      destruct Hend as [-> | [rest ->]].
      * rewrite app_nil_r, skip_spaces_run_eof. reflexivity.
      * rewrite skip_spaces_run by (intros He; discriminate He). reflexivity.
  - inversion Hok as [|? ? [Hnum Hval] Hok']; subst.
    rewrite dets_tokens_run_cons. cbn [app getc fst snd].
    change (byte_val x20) with ch_space. rewrite <- app_assoc. cbn [app].
    rewrite skip_spaces_run by (destruct (tok_section t); intros He; discriminate He).
    change (ch_space =? ch_space) with true. cbv zeta iota.
    replace ((byte_val (section_prefix (tok_section t)) =? ch_newline)
             || (byte_val (section_prefix (tok_section t)) =? EOF)) with false
      by (destruct (tok_section t); reflexivity).
    cbn [negb]. rewrite section_prefix_cases. cbn [mbind result_bind].
    rewrite <- app_assoc.
    pose proof (decimal_value_nonneg _ (proj2 Hnum)) as Hnn.
    assert (Hsize : section_size m d l (tok_section t) <= 2 ^ 64)
      by (destruct (tok_section t); cbn; lia).
    rewrite read_uint64_numeral; [|assumption|now apply dets_tokens_run_stops|lia].
    cbn [mbind result_bind negb].
    destruct (Z.geb_spec (decimal_value (tok_digits t)) (section_size m d l (tok_section t)))
      as [|_]; [lia|].
    destruct budget as [|budget]; [cbn in Hbudget; lia|].
    assert (Hpos : wrap64 (match tok_section t with
                           | SecM => 0 | SecD => m | SecL => wrap64 (m + d)
                           end + decimal_value (tok_digits t))
                   = dets_position m d t).
    { unfold dets_position.
      destruct (tok_section t); cbn [section_offset section_size] in *;
        rewrite ?(wrap64_small (m + d)) by lia; apply wrap64_small; lia. }
    rewrite Hpos, IH; try assumption; [reflexivity | cbn in Hbudget; lia].
Qed.

Lemma dets_start_record_run st tokens trailing ending :
  let m := m_bits_per_record st in
  let d := d_bits_per_record st in
  let l := l_bits_per_record st in
  0 <= m -> 0 <= d -> 0 <= l -> m + d + l < 2 ^ 64 ->
  line_end ending ->
  inp st = [x73; x68; x6f; x74] ++ dets_tokens_run tokens trailing ++ ending ->
  Forall (dets_token_ok m d l) tokens ->
  start_record st
  = Ok (true, mk (getc ending).2
                 (fold_left buffer_toggle (dets_position m d <$> tokens)
                            (buffer_clear (buffer st)))
                 0 m d l).
Proof.
  intros m d l Hm Hd Hl Hsum Hend Hinp Hok. unfold start_record. rewrite Hinp.
  unfold maybe_consume_keyword, shot. cbn [app getc].
  change (byte_val x73 =? EOF) with false. cbv iota.
  cbn [consume_keyword_chars getc].
  change (negb (115 =? byte_val x73)) with false.
  change (negb (104 =? byte_val x68)) with false.
  change (negb (111 =? byte_val x6f)) with false.
  change (negb (116 =? byte_val x74)) with false. cbv iota.
  destruct (getc (dets_tokens_run tokens trailing ++ ending)) as [c inp'] eqn:E.
  cbn [mbind result_bind negb].
  pose proof (dets_loop_run m d l trailing ending tokens (length inp')
                (buffer_clear (buffer st)) Hm Hd Hl Hsum Hend Hok) as Hloop.
  rewrite E in Hloop. cbn [fst snd] in Hloop. fold m d l. rewrite Hloop; [reflexivity|].
  pose proof (dets_tokens_run_length tokens trailing) as Hlen.
  destruct (dets_tokens_run tokens trailing ++ ending) as [|b line] eqn:El.
  - apply (f_equal length) in El. rewrite length_app in El. cbn in El. lia.
  - cbn in E. injection E as _ <-.
    apply (f_equal length) in El. rewrite length_app in El. cbn in El. lia.
Qed.

Lemma dets_start_record_line st tokens trailing rest :
  let m := m_bits_per_record st in
  let d := d_bits_per_record st in
  let l := l_bits_per_record st in
  0 <= m -> 0 <= d -> 0 <= l -> m + d + l < 2 ^ 64 ->
  inp st = dets_line tokens trailing ++ rest ->
  Forall (dets_token_ok m d l) tokens ->
  start_record st
  = Ok (true, mk rest
                 (fold_left buffer_toggle (dets_position m d <$> tokens)
                            (buffer_clear (buffer st)))
                 0 m d l).
Proof.
  intros m d l Hm Hd Hl Hsum Hinp Hok.
  apply (dets_start_record_run st tokens trailing (x0a :: rest)); try assumption.
  - right. now exists rest.
  - rewrite Hinp. unfold dets_line. now rewrite <- app_assoc, dets_tokens_line_run.
Qed.

(** With every index inside its section, the bit a token names is bit [k]
    of section [s] exactly when the token is the index [k] of section
    [s]. *)
Lemma occurrences_by_section m d l s k tokens :
  0 <= m -> 0 <= d -> 0 <= l ->
  0 <= k < section_size m d l s ->
  Forall (dets_token_ok m d l) tokens ->
  occurrences (section_offset m d s + k) (dets_position m d <$> tokens)
  = token_occurrences s k tokens.
Proof.
  intros Hm Hd Hl Hk Hok. unfold token_occurrences.
  induction Hok as [|t tokens [Hnum Hval] _ IH]; [reflexivity|].
  cbn [fmap list_fmap]. rewrite occurrences_cons, filter_cons, IH.
  pose proof (decimal_value_nonneg _ (proj2 Hnum)) as Hnn.
  unfold dets_position.
  destruct (decide (tok_section t = s /\ decimal_value (tok_digits t) = k)) as [[-> ->]|Hne].
  - now rewrite Z.eqb_refl.
  - destruct (Z.eqb_spec (section_offset m d (tok_section t) + decimal_value (tok_digits t))
                         (section_offset m d s + k)) as [Heq|]; [|reflexivity].
    exfalso. apply Hne.
    destruct (tok_section t), s; cbn [section_offset section_size] in *;
      (split; [reflexivity || lia | lia]).
Qed.

End DetsLine.

(** ** HITS and DETS: each occurrence of an index toggles its bit *)

Lemma toggled_indices_in_range (A : Type) (f : A -> Z) (n : nat) (l : list A) :
  Forall (fun a => 0 <= f a < Z.of_nat n) l ->
  Forall (fun v => 0 <= v < Z.of_nat n) (f <$> l).
Proof. induction 1; cbn; constructor; assumption. Qed.

(** C6. A HITS line of numerals below m, and a DETS line of tokens whose
    indices lie inside their sections, are parsed by [start_record], which
    leaves the rest of the stream unread and the position at 0; the bit that
    [read_bit] then returns at position k (DETS: at index k of section s) is
    1 when k (DETS: the token "s k") occurs an odd number of times on the
    line, and 0 when it occurs an even number of times. *)
Theorem hits_dets_bits_are_parities :
  (forall st tokens rest,
      let m := MeasureRecordReaderFormatHits.bits_per_record st in
      0 <= m < 2 ^ 64 ->
      length (MeasureRecordReaderFormatHits.buffer st) = Z.to_nat m ->
      MeasureRecordReaderFormatHits.inp st = hits_line tokens ++ rest ->
      Forall numeral tokens ->
      Forall (fun t => decimal_value t < m) tokens ->
      exists buffer',
        MeasureRecordReaderFormatHits.start_record st
        = Ok (true, MeasureRecordReaderFormatHits.mk rest m buffer' 0)
        /\ forall k, 0 <= k < m ->
             MeasureRecordReaderFormatHits.read_bit
               (MeasureRecordReaderFormatHits.mk rest m buffer' k)
             = Ok (Nat.odd (occurrences k (decimal_value <$> tokens)),
                   MeasureRecordReaderFormatHits.mk rest m buffer' (k + 1)))
  /\ (forall st tokens trailing rest,
      let m := MeasureRecordReaderFormatDets.m_bits_per_record st in
      let d := MeasureRecordReaderFormatDets.d_bits_per_record st in
      let l := MeasureRecordReaderFormatDets.l_bits_per_record st in
      0 <= m -> 0 <= d -> 0 <= l -> m + d + l < 2 ^ 64 ->
      length (MeasureRecordReaderFormatDets.buffer st) = Z.to_nat (m + d + l) ->
      MeasureRecordReaderFormatDets.inp st = dets_line tokens trailing ++ rest ->
      Forall (dets_token_ok m d l) tokens ->
      exists buffer',
        MeasureRecordReaderFormatDets.start_record st
        = Ok (true, MeasureRecordReaderFormatDets.mk rest buffer' 0 m d l)
        /\ forall s k, 0 <= k < section_size m d l s ->
             MeasureRecordReaderFormatDets.read_bit
               (MeasureRecordReaderFormatDets.mk
                  rest buffer' (section_offset m d s + k) m d l)
             = Ok (Nat.odd (token_occurrences s k tokens),
                   MeasureRecordReaderFormatDets.mk
                     rest buffer' (section_offset m d s + k + 1) m d l)).
Proof.
  split.
  - intros st tokens rest.
    intros m Hm Hlen Hinp Hnum Hval.
    exists (fold_left buffer_toggle (decimal_value <$> tokens)
                      (buffer_clear (MeasureRecordReaderFormatHits.buffer st))).
    split; [apply (HitsLine.hits_start_record_line st tokens rest); [fold m; lia|assumption..]|].
    intros k Hk. unfold MeasureRecordReaderFormatHits.read_bit.
    cbn [MeasureRecordReaderFormatHits.position_in_buffer
         MeasureRecordReaderFormatHits.bits_per_record
         MeasureRecordReaderFormatHits.buffer MeasureRecordReaderFormatHits.inp].
    destruct (Z.geb_spec k m) as [|_]; [lia|].
    rewrite (wrap64_small (k + 1)) by lia.
    rewrite buffer_get_toggles, buffer_get_clear; [reflexivity| |lia].
    rewrite length_buffer_clear, Hlen. apply toggled_indices_in_range.
    rewrite Z2Nat.id by lia.
    clear Hinp. induction Hnum as [|t tokens [_ Ht] _ IH]; constructor.
    + inversion Hval; subst. split; [now apply decimal_value_nonneg | assumption].
    + inversion Hval; subst. now apply IH.
  - intros st tokens trailing rest.
    intros m d l Hm Hd Hl Hsum Hlen Hinp Hok.
    exists (fold_left buffer_toggle (dets_position m d <$> tokens)
                      (buffer_clear (MeasureRecordReaderFormatDets.buffer st))).
    split; [now apply (DetsLine.dets_start_record_line st tokens trailing rest)|].
    intros s k Hk. unfold MeasureRecordReaderFormatDets.read_bit.
    cbn [MeasureRecordReaderFormatDets.position_in_buffer
         MeasureRecordReaderFormatDets.m_bits_per_record
         MeasureRecordReaderFormatDets.d_bits_per_record
         MeasureRecordReaderFormatDets.l_bits_per_record
         MeasureRecordReaderFormatDets.buffer MeasureRecordReaderFormatDets.inp].
    unfold MeasureRecordReaderFormatDets.width.
    rewrite (wrap64_small (m + d)), (wrap64_small (m + d + l)) by lia.
    assert (Hpos : 0 <= section_offset m d s + k < m + d + l)
      by (destruct s; cbn [section_offset section_size] in *; lia).
    destruct (Z.geb_spec (section_offset m d s + k) (m + d + l)) as [|_]; [lia|].
    rewrite (wrap64_small (section_offset m d s + k + 1)) by lia.
    rewrite buffer_get_toggles, buffer_get_clear; [| |lia].
    + rewrite DetsLine.occurrences_by_section with (l := l) by assumption. reflexivity.
    + rewrite length_buffer_clear, Hlen. apply toggled_indices_in_range.
      rewrite Z2Nat.id by lia.
      clear Hinp. induction Hok as [|t tokens [[_ Ht] Hv] _ IH]; constructor; [|exact IH].
      pose proof (decimal_value_nonneg _ Ht). unfold dets_position.
      destruct (tok_section t); cbn [section_offset section_size] in *; lia.
Qed.

(** The first line of the HITS scenario "0,3,3,5\n\n", m = 8: the two 3s
    cancel. *)
Lemma hits_dets_bits_are_parities_witness :
  exists buffer',
    MeasureRecordReaderFormatHits.start_record
      (MeasureRecordReaderFormatHits.make Scenarios.hits_0_3_3_5 8)
    = Ok (true, MeasureRecordReaderFormatHits.mk [x0a] 8 buffer' 0)
    /\ MeasureRecordReaderFormatHits.read_bit
         (MeasureRecordReaderFormatHits.mk [x0a] 8 buffer' 3)
       = Ok (false, MeasureRecordReaderFormatHits.mk [x0a] 8 buffer' 4).
Proof.
  assert (Hdigit : forall b, In b [x30; x33; x35] -> is_digit_byte b)
    by (intros b [<- | [<- | [<- | []]]]; reflexivity).
  assert (Hnum : Forall numeral Scenarios.hits_0_3_3_5_tokens)
    by (repeat constructor; (discriminate || apply Hdigit; cbn; tauto)).
  assert (Hval : Forall (fun t => decimal_value t < 8) Scenarios.hits_0_3_3_5_tokens)
    by (repeat constructor).
  destruct (proj1 hits_dets_bits_are_parities
              (MeasureRecordReaderFormatHits.make Scenarios.hits_0_3_3_5 8)
              Scenarios.hits_0_3_3_5_tokens [x0a]
              ltac:(cbn; lia) eq_refl eq_refl Hnum Hval) as (buffer' & Hstart & Hbit).
  exists buffer'. split; [exact Hstart | exact (Hbit 3 ltac:(cbn; lia))].
Defined.

(** ** Bulk reads against bit-by-bit reads *)

Section CallsFacts.
Context {T : Type}.
Variable rb : T -> result (bool * T).
Variable rbib : T -> list Z -> result (Z * list Z * T).
Variable Inv : T -> Prop.
Variable R : T -> T -> Prop.

Hypothesis R_refl : forall st, R st st.
Hypothesis R_trans : forall a b c, R a b -> R b c -> R a c.
Hypothesis R_read_bits : forall k s1 s2 bits s,
  R s1 s2 -> read_bits rb k s1 = Ok (bits, s) ->
  exists s', read_bits rb k s2 = Ok (bits, s') /\ R s s'.
Hypothesis one_call : forall st out n out' st',
  Inv st -> small_range out -> rbib st out = Ok (n, out', st') ->
  Inv st'
  /\ exists st'',
      read_bits rb (Z.to_nat n) st = Ok (take (Z.to_nat n) (bytes_to_bits out'), st'')
      /\ R st' st''.

(** What one bulk call does to the bits, any sequence of them does. *)
Lemma read_bits_in_calls_ok outs : forall st bits st',
  Inv st -> Forall small_range outs ->
  read_bits_in_calls rbib outs st = Ok (bits, st') ->
  Inv st'
  /\ exists st'', read_bits rb (length bits) st = Ok (bits, st'') /\ R st' st''.
Proof.
  induction outs as [|out outs IH]; intros st bits st' Hinv Hsmall H;
    cbn [read_bits_in_calls] in H.
  - injection H as <- <-. split; [assumption|].
    exists st. split; [reflexivity | apply R_refl].
  - inversion Hsmall as [|? ? Hout Houts]; subst.
    destruct (rbib st out) as [[[n out'] st1]|] eqn:Ecall; cbn in H; [|discriminate].
    destruct (read_bits_in_calls rbib outs st1) as [[bits2 st2]|] eqn:Erest;
      cbn in H; [|discriminate].
    injection H as <- <-.
    destruct (one_call _ _ _ _ _ Hinv Hout Ecall) as (Hinv1 & st1' & Hbits1 & HR1).
    destruct (IH _ _ _ Hinv1 Houts Erest) as (Hinv2 & st2' & Hbits2 & HR2).
    destruct (R_read_bits _ _ _ _ _ HR1 Hbits2) as (st2'' & Hbits2' & HR2').
    split; [assumption|].
    exists st2''. split; [|eapply R_trans; eassumption].
    rewrite length_app, (read_bits_length _ _ _ _ _ Hbits1).
    eapply read_bits_app; eassumption.
Qed.

End CallsFacts.

(** The default bulk read as one call of [read_bits_in_calls_ok]. *)
Lemma default_one_call {T : Type} (rb : T -> result (bool * T))
    (ie : T -> result bool) (crt : T -> Z) st out n out' st' :
  small_range out ->
  default_read_bits_into_bytes rb ie crt st out = Ok (n, out', st') ->
  read_bits rb (Z.to_nat n) st = Ok (take (Z.to_nat n) (bytes_to_bits out'), st').
Proof.
  intros Hsmall H.
  destruct (default_read_bits_into_bytes_ok rb ie crt st out n out' st' H Hsmall)
    as (bits & Hbits & -> & Hpacked).
  rewrite Nat2Z.id, (packed_take _ _ _ Hpacked). exact Hbits.
Qed.

Lemma default_calls_ok {T : Type} (rb : T -> result (bool * T))
    (ie : T -> result bool) (crt : T -> Z) outs st bits st' :
  Forall small_range outs ->
  read_bits_in_calls (default_read_bits_into_bytes rb ie crt) outs st = Ok (bits, st') ->
  read_bits rb (length bits) st = Ok (bits, st').
Proof.
  intros Hsmall H.
  destruct (read_bits_in_calls_ok rb (default_read_bits_into_bytes rb ie crt)
              (fun _ => True) eq) with (outs := outs) (st := st) (bits := bits) (st' := st')
    as (_ & st'' & Hbits & ->); try assumption; try trivial.
  - congruence.
  - intros k s1 s2 l s -> Hl. eauto.
  - intros s out n out' s1 _ Hout Hcall. split; [trivial|].
    exists s1. split; [|reflexivity]. now apply default_one_call with ie crt out.
Qed.

(** ** R8: the invariant of the run counters *)

Module R8Facts.
Import MeasureRecordReaderFormatR8.

Lemma count_zeroes_bound inp : forall acc pos b0 inp',
  count_zeroes inp acc pos = Ok (Some (b0, inp')) ->
  0 <= acc -> acc + 255 * Z.of_nat (length inp) < 2 ^ 64 ->
  acc <= b0
  /\ b0 + 255 * Z.of_nat (length inp') <= acc + 255 * Z.of_nat (length inp)
  /\ (length inp' < length inp)%nat.
Proof.
  induction inp as [|b inp IH]; intros acc pos b0 inp' H Hacc Hfit; cbn [count_zeroes] in H.
  - destruct ((acc =? 0) && (pos =? 0)); discriminate.
  - pose proof (byte_val_range b) as Hb. cbn [length] in *.
    rewrite (wrap64_small (acc + byte_val b)) in H by lia.
    destruct (Z.eqb_spec (byte_val b) 255).
    + apply IH in H; lia.
    + injection H as <- <-. lia.
Qed.

Lemma maybe_buffer_data_inv st st' :
  buffer_ready st ->
  maybe_buffer_data st = Ok (true, st') ->
  r8_inv st'
  /\ position st' = position st
  /\ bits_per_record st' = bits_per_record st
  /\ (buffered_0s st' <> 0 \/ buffered_1s st' <> 0 \/ is_end_of_record st' = true).
Proof.
  intros (Hpos & Hfit & Hseen) H. unfold maybe_buffer_data in H.
  destruct (Z.eqb_spec (buffered_0s st) 0) as [Hb0|]; [|discriminate].
  destruct (Z.eqb_spec (buffered_1s st) 0) as [Hb1|]; [|discriminate].
  cbn [negb] in H.
  destruct (is_end_of_record st) eqn:Eend; [discriminate|].
  destruct (count_zeroes (inp st) (buffered_0s st) (position st)) as [[[b0 inp']|]|] eqn:Ecount;
    cbn in H; [| discriminate | discriminate].
  rewrite Hb0 in Ecount. apply count_zeroes_bound in Ecount as (Hb0' & Hlen & Hshort); [|lia|lia].
  rewrite (wrap64_small (position st + b0)), (wrap64_small (position st + b0 + 1)),
    (wrap64_small (bits_per_record st + 1)) in H by lia.
  assert (Hnotseen : have_seen_terminal_1 st = false).
  { destruct (have_seen_terminal_1 st) eqn:E; [|reflexivity].
    unfold is_end_of_record in Eend. rewrite E, Hseen, Z.eqb_refl in Eend by reflexivity.
    discriminate. }
  destruct (Z.eqb_spec (position st + b0 + 1) (bits_per_record st)) as [Hm|Hm].
  - destruct inp' as [|t inp'']; cbn [getc] in H; [discriminate|].
    pose proof (byte_val_not_EOF t) as Ht.
    destruct (Z.eqb_spec (byte_val t) EOF); [contradiction|].
    destruct (byte_val t =? 0); [|discriminate]. cbn [negb] in H.
    injection H as <-. unfold r8_inv, is_end_of_record. cbn. cbn [length] in Hlen.
    repeat split; lia.
  - destruct (Z.eqb_spec (position st + b0 + 1) (bits_per_record st + 1)) as [Hm1|Hm1].
    + injection H as <-. unfold r8_inv, is_end_of_record. cbn.
      split; [lia|]. split; [reflexivity|]. split; [reflexivity|].
      destruct (Z.eq_dec b0 0) as [->|]; [|left; assumption].
      right. right. replace (position st) with (bits_per_record st) by lia.
      now rewrite Z.eqb_refl.
    + destruct (Z.gtb_spec (position st + b0 + 1) (bits_per_record st + 1)); [discriminate|].
      injection H as <-. unfold r8_inv, is_end_of_record. cbn. rewrite Hnotseen.
      repeat split; lia.
Qed.

Lemma r8_inv_buffer_ready st :
  r8_inv st -> buffered_0s st = 0 -> buffered_1s st = 0 -> buffer_ready st.
Proof.
  unfold r8_inv, buffer_ready. intros (Hpos & Hb0 & Hb1 & Hfit & Htotal) E0 E1.
  destruct (have_seen_terminal_1 st); (split; [lia|]; split; [lia|]; intros; (lia || discriminate)).
Qed.

Lemma start_record_inv st st' :
  0 <= bits_per_record st ->
  255 * Z.of_nat (length (inp st)) + bits_per_record st + 1 < 2 ^ 64 ->
  start_record st = Ok (true, st') ->
  r8_inv st'.
Proof.
  intros Hm Hfit H. unfold start_record in H.
  apply maybe_buffer_data_inv in H; [tauto|].
  unfold buffer_ready. cbn. split; [lia|]. split; [lia | discriminate].
Qed.

(** Cases on whether the terminal one has been seen, for a goal of linear
    arithmetic under the last clause [H] of the invariant. *)
Ltac by_seen H :=
  revert H;
  match goal with
  | |- context [have_seen_terminal_1 ?s] => destruct (have_seen_terminal_1 s)
  end; lia.

(** The two branches of [read_bit] that take a bit off the buffer. *)
Lemma take_bit_inv s bit st' :
  r8_inv s ->
  (if negb (buffered_0s s =? 0) then
     Ok (false, mk (inp s) (bits_per_record s) (wrap64 (position s + 1))
                   (have_seen_terminal_1 s) (wrap64 (buffered_0s s - 1))
                   (buffered_1s s))
   else if negb (buffered_1s s =? 0) then
     Ok (true, mk (inp s) (bits_per_record s) (wrap64 (position s + 1))
                  (have_seen_terminal_1 s) (buffered_0s s)
                  (wrap64 (buffered_1s s - 1)))
   else Throw R8ReadPastEnd) = Ok (bit, st') ->
  r8_inv st'.
Proof.
  intros (Hpos & Hb0 & Hb1 & Hfit & Htotal) Hs.
  assert (Hle : position s + buffered_0s s + buffered_1s s <= bits_per_record s)
    by by_seen Htotal.
  destruct (Z.eqb_spec (buffered_0s s) 0) as [E0|E0]; cbn [negb] in Hs.
  - destruct (Z.eqb_spec (buffered_1s s) 0) as [E1|E1]; cbn [negb] in Hs; [discriminate|].
    injection Hs as <- <-. unfold r8_inv. cbn.
    rewrite (wrap64_small (position s + 1)), (wrap64_small (buffered_1s s - 1)) by lia.
    repeat split; try lia. by_seen Htotal.
  - injection Hs as <- <-. unfold r8_inv. cbn.
    rewrite (wrap64_small (position s + 1)), (wrap64_small (buffered_0s s - 1)) by lia.
    repeat split; try lia. by_seen Htotal.
Qed.

(** [read_bit] keeps the invariant. *)
Lemma read_bit_inv st bit st' :
  r8_inv st -> read_bit st = Ok (bit, st') -> r8_inv st'.
Proof.
  intros Hinv H. unfold read_bit in H.
  destruct ((buffered_0s st =? 0) && (buffered_1s st =? 0)) eqn:Ezero.
  - apply andb_true_iff in Ezero as [E0 E1]. apply Z.eqb_eq in E0, E1.
    unfold assert_maybe_buffer_data in H.
    destruct (maybe_buffer_data st) as [[ok st1]|] eqn:Ebuf; cbn in H; [|discriminate].
    destruct ok; cbn in H; [|discriminate].
    apply maybe_buffer_data_inv in Ebuf as (Hinv1 & _); [|now apply r8_inv_buffer_ready].
    now apply (take_bit_inv st1 bit).
  - cbn in H. now apply (take_bit_inv st bit).
Qed.

(** A buffering step forced by an empty buffer inside a record does not end
    the record, and the [read_bit] after it is the [read_bit] that would have
    buffered by itself. *)
Lemma buffer_then_read st st1 :
  r8_inv st -> buffered_0s st = 0 -> buffered_1s st = 0 ->
  have_seen_terminal_1 st = false ->
  assert_maybe_buffer_data st = Ok st1 ->
  r8_inv st1 /\ is_end_of_record st1 = false /\ read_bit st1 = read_bit st.
Proof.
  intros Hinv E0 E1 Eseen H.
  assert (Hlt : position st < bits_per_record st).
  { destruct Hinv as (? & ? & ? & _ & Htotal). rewrite Eseen in Htotal. lia. }
  unfold read_bit at 2. rewrite E0, E1. cbn [Z.eqb andb]. rewrite H. cbn [mbind result_bind].
  unfold assert_maybe_buffer_data in H.
  destruct (maybe_buffer_data st) as [[ok st1']|] eqn:Ebuf; cbn in H; [|discriminate].
  destruct ok; cbn in H; [|discriminate]. injection H as ->.
  apply maybe_buffer_data_inv in Ebuf as (Hinv1 & Hpos & Hm & Hnz);
    [|now apply r8_inv_buffer_ready].
  assert (Hend : is_end_of_record st1 = false).
  { unfold is_end_of_record. destruct (Z.eqb_spec (position st1) (bits_per_record st1)); [lia|].
    reflexivity. }
  split; [assumption|]. split; [assumption|].
  unfold read_bit.
  destruct ((buffered_0s st1 =? 0) && (buffered_1s st1 =? 0)) eqn:Ezero; [|reflexivity].
  apply andb_true_iff in Ezero as [F0 F1]. apply Z.eqb_eq in F0, F1.
  destruct Hnz as [|[|]]; congruence.
Qed.

(** Reading zeroes off the buffered run. *)
Lemma read_zero_bit st :
  r8_inv st -> 1 <= buffered_0s st ->
  read_bit st
  = Ok (false,
        mk (inp st) (bits_per_record st) (position st + 1)
           (have_seen_terminal_1 st) (buffered_0s st - 1) (buffered_1s st)).
Proof.
  intros (Hpos & Hb0 & Hb1 & Hfit & Htotal) Hk. unfold read_bit.
  destruct (Z.eqb_spec (buffered_0s st) 0) as [|_]; [lia|]. cbn [andb mbind result_bind].
  destruct (Z.eqb_spec (buffered_0s st) 0) as [|_]; [lia|]. cbn [negb].
  assert (position st + buffered_0s st + buffered_1s st <= bits_per_record st)
    by by_seen Htotal.
  now rewrite (wrap64_small (position st + 1)), (wrap64_small (buffered_0s st - 1)) by lia.
Qed.

Lemma read_zero_bits k : forall st,
  r8_inv st -> Z.of_nat k <= buffered_0s st ->
  read_bits read_bit k st
  = Ok (replicate k false,
        mk (inp st) (bits_per_record st) (position st + Z.of_nat k)
           (have_seen_terminal_1 st) (buffered_0s st - Z.of_nat k) (buffered_1s st)).
Proof.
  induction k as [|k IH]; intros st Hinv Hk.
  - cbn [read_bits replicate Z.of_nat]. rewrite Z.add_0_r, Z.sub_0_r. now destruct st.
  - cbn [read_bits]. rewrite read_zero_bit by (assumption || lia).
    cbn [mbind result_bind].
    rewrite IH; cbn.
    + do 3 f_equal; lia.
    + eapply read_bit_inv; [exact Hinv | apply read_zero_bit; [assumption | lia]].
    + lia.
Qed.

End R8Facts.

(** ** R8: the bulk read against [read_bit] *)

Module R8Bulk.
Import MeasureRecordReaderFormatR8 R8Facts.

Lemma read_bits_inv k : forall st bits st',
  r8_inv st -> read_bits read_bit k st = Ok (bits, st') -> r8_inv st'.
Proof.
  induction k as [|k IH]; intros st bits st' Hinv H; cbn [read_bits] in H.
  - now injection H as <- <-.
  - destruct (read_bit st) as [[bit st1]|] eqn:E; cbn in H; [|discriminate].
    destruct (read_bits read_bit k st1) as [[bits1 st2]|] eqn:E2; cbn in H; [|discriminate].
    injection H as <- <-. eapply IH; [|exact E2]. eapply read_bit_inv; eassumption.
Qed.

Lemma bits_loop_ok todo : forall k b n st returned b' n' st',
  r8_inv st ->
  bits_loop todo k b n st = Ok (returned, b', n', st') ->
  0 <= k -> k + Z.of_nat todo <= 8 -> 0 <= b < 2 ^ k ->
  0 <= n -> n + Z.of_nat todo < 2 ^ 64 ->
  exists bits,
    read_bits read_bit (length bits) st = Ok (bits, st')
    /\ (length bits <= todo)%nat
    /\ (returned = false -> length bits = todo)
    /\ b' = b + 2 ^ k * pack_byte bits
    /\ n' = n + Z.of_nat (length bits)
    /\ r8_inv st'.
Proof.
  induction todo as [|todo IH];
    intros k b n st returned b' n' st' Hinv H Hk Hk8 Hb Hn Hn64.
  - cbn in H. injection H as <- <- <- <-. exists []. cbn.
    conjs; solve [lia | assumption | intros; reflexivity].
  - cbn [bits_loop] in H.
    assert (Hread : forall st1,
      r8_inv st1 -> read_bit st1 = read_bit st ->
      ('(bit, st2) ← read_bit st1;
       bits_loop todo (k + 1) (wrap8 (Z.lor b (Z.shiftl (Z.b2z bit) k)))
                 (wrap64 (n + 1)) st2) = Ok (returned, b', n', st') ->
      exists bits,
        read_bits read_bit (length bits) st = Ok (bits, st')
        /\ (length bits <= S todo)%nat
        /\ (returned = false -> length bits = S todo)
        /\ b' = b + 2 ^ k * pack_byte bits
        /\ n' = n + Z.of_nat (length bits)
        /\ r8_inv st').
    { intros st1 Hinv1 Hsame Hrest.
      destruct (read_bit st1) as [[bit st2]|] eqn:Erb; cbn in Hrest; [|discriminate].
      rewrite or_bit_into_byte, (wrap64_small (n + 1)) in Hrest by lia.
      apply IH in Hrest; try lia.
      2:{ eapply read_bit_inv; eassumption. }
      2:{ rewrite Z.pow_add_r, Z.pow_1_r by lia. destruct bit; cbn [Z.b2z]; lia. }
      destruct Hrest as (bits & Hbits & Hlen & Hret & Hb' & Hn' & Hinv').
      exists (bit :: bits). cbn [length read_bits]. rewrite <- Hsame. cbn.
      rewrite Hbits. cbn.
      split; [reflexivity|]. split; [lia|]. split; [intros Hr; rewrite Hret by exact Hr; reflexivity|].
      split; [|split; [lia | assumption]].
      rewrite Hb'. cbn [pack_byte]. rewrite Z.pow_add_r, Z.pow_1_r by lia. ring. }
    destruct ((buffered_0s st =? 0) && (buffered_1s st =? 0)
              && negb (have_seen_terminal_1 st)) eqn:Econd.
    + apply andb_true_iff in Econd as [Econd Eseen].
      apply andb_true_iff in Econd as [E0 E1].
      apply Z.eqb_eq in E0, E1. apply negb_true_iff in Eseen.
      destruct (assert_maybe_buffer_data st) as [st1|] eqn:Ebuf; cbn in H; [|discriminate].
      destruct (buffer_then_read st st1 Hinv E0 E1 Eseen Ebuf) as (Hinv1 & Hend & Hsame).
      rewrite Hend in H. now apply (Hread st1).
    + cbn in H. destruct (is_end_of_record st).
      * injection H as <- <- <- <-. exists []. cbn.
        conjs; solve [reflexivity | lia | assumption | discriminate].
      * now apply (Hread st).
Qed.

Lemma byte_bits_0 : byte_bits 0 = replicate 8 false.
Proof. reflexivity. Qed.

Lemma bytes_loop_ok out : forall n st n' out' st',
  r8_inv st ->
  bytes_loop out n st = Ok (n', out', st') ->
  0 <= n -> n + 8 * Z.of_nat (length out) < 2 ^ 64 ->
  exists bits tail,
    read_bits read_bit (length bits) st = Ok (bits, st')
    /\ n' = n + Z.of_nat (length bits)
    /\ bytes_to_bits out' = bits ++ tail
    /\ r8_inv st'.
Proof.
  induction out as [|b0 out IH]; intros n st n' out' st' Hinv H Hn Hn64.
  - cbn in H. injection H as <- <- <-. exists [], []. cbn.
    conjs; solve [lia | assumption | intros; reflexivity].
  - cbn [bytes_loop] in H. cbn [length] in Hn64.
    destruct (Z.geb_spec (buffered_0s st) 8) as [Hrun|Hrun].
    + pose proof Hinv as (Hpos & Hb0 & Hb1 & Hfit & Htotal).
      assert (position st + buffered_0s st + buffered_1s st <= bits_per_record st)
        by by_seen Htotal.
      rewrite (wrap64_small (position st + 8)), (wrap64_small (buffered_0s st - 8)),
        (wrap64_small (n + 8)) in H by lia.
      pose proof (read_zero_bits 8 st Hinv ltac:(cbn; lia)) as Hzero.
      change (Z.of_nat 8) with 8 in Hzero.
      destruct (bytes_loop out (n + 8) _) as [[[n2 out2] st2]|] eqn:Erest; cbn in H; [|discriminate].
      injection H as <- <- <-.
      apply IH in Erest; try lia; [|eapply read_bits_inv; [exact Hinv | exact Hzero]].
      destruct Erest as (bits & tail & Hbits & Hn2 & Hout & Hinv').
      exists (replicate 8 false ++ bits), tail.
      split; [rewrite length_app; now apply read_bits_app with (2 := Hbits)|].
      split; [rewrite length_app, length_replicate; lia|].
      split; [|assumption].
      now rewrite bytes_to_bits_cons, byte_bits_0, Hout, app_assoc.
    + destruct (bits_loop 8 0 0 n st) as [[[[returned b] n1] st1]|] eqn:Ebits;
        cbn in H; [|discriminate].
      apply bits_loop_ok in Ebits; try lia; [|assumption].
      destruct Ebits as (bits1 & Hbits1 & Hlen1 & Hret & Hb & Hn1 & Hinv1).
      rewrite Z.add_0_l, Z.pow_0_r, Z.mul_1_l in Hb. subst b.
      destruct returned.
      * injection H as <- <- <-.
        exists bits1, (replicate (8 - length bits1) false ++ bytes_to_bits out).
        split; [assumption|]. split; [assumption|]. split; [|assumption].
        now rewrite bytes_to_bits_cons, byte_bits_pack_byte, app_assoc by lia.
      * destruct (bytes_loop out n1 st1) as [[[n2 out2] st2]|] eqn:Erest; cbn in H; [|discriminate].
        injection H as <- <- <-.
        apply IH in Erest; try lia; [|assumption].
        destruct Erest as (bits2 & tail & Hbits2 & Hn2 & Hout & Hinv2).
        exists (bits1 ++ bits2), tail. rewrite length_app.
        split; [now apply read_bits_app with st1|].
        split; [lia|]. split; [|assumption].
        rewrite bytes_to_bits_cons, byte_bits_pack_byte, Hret by (reflexivity || lia).
        cbn [Nat.sub replicate]. now rewrite app_nil_r, Hout, app_assoc.
Qed.

Lemma r8_one_call st out n out' st' :
  r8_inv st -> small_range out ->
  read_bits_into_bytes st out = Ok (n, out', st') ->
  r8_inv st'
  /\ read_bits read_bit (Z.to_nat n) st
     = Ok (take (Z.to_nat n) (bytes_to_bits out'), st').
Proof.
  intros Hinv Hsmall H. unfold read_bits_into_bytes in H.
  apply bytes_loop_ok in H; [|assumption|lia|unfold small_range in Hsmall; lia].
  destruct H as (bits & tail & Hbits & -> & Hout & Hinv').
  split; [assumption|].
  now rewrite Z.add_0_l, Nat2Z.id, Hout, take_app_length.
Qed.

End R8Bulk.

(** ** B8: the bulk read against [read_bit] *)

Module B8Bulk.
Import MeasureRecordReaderFormatB8.

Lemma low_bit p : negb (Z.land p 1 =? 0) = Z.testbit p 0.
Proof.
  change 1 with (Z.ones 1). rewrite Z.land_ones, Z.pow_1_r by lia.
  pose proof (Z.testbit_spec' p 0 ltac:(lia)) as H.
  rewrite Z.pow_0_r, Z.div_1_r in H. rewrite <- H.
  now destruct (Z.testbit p 0).
Qed.

(** One bit off a payload that is buffered. *)
Lemma read_bit_buffered st :
  1 <= bits_available st <= 8 -> 0 <= payload st ->
  0 <= position st < bits_per_record st -> bits_per_record st < 2 ^ 64 ->
  read_bit st
  = Ok (Z.testbit (payload st) 0,
        mk (inp st) (bits_per_record st) (Z.shiftr (payload st) 1)
           (bits_available st - 1) (position st + 1)).
Proof.
  intros Ha Hp Hpos Hm. unfold read_bit, maybe_update_payload.
  destruct (Z.geb_spec (position st) (bits_per_record st)); [lia|].
  destruct (Z.gtb_spec (bits_available st) 0); [|lia].
  destruct (Z.eqb_spec (payload st) EOF) as [He|_]; [unfold EOF in He; lia|].
  rewrite low_bit, (wrap64_small (position st + 1)) by lia.
  unfold wrap8. rewrite Z.mod_small by lia. reflexivity.
Qed.

Lemma read_bits_buffered j : forall st,
  Z.of_nat j <= bits_available st <= 8 -> 0 <= payload st ->
  0 <= position st -> position st + Z.of_nat j <= bits_per_record st ->
  bits_per_record st < 2 ^ 64 ->
  read_bits read_bit j st
  = Ok ((fun i => Z.testbit (payload st) (Z.of_nat i)) <$> seq 0 j,
        mk (inp st) (bits_per_record st) (Z.shiftr (payload st) (Z.of_nat j))
           (bits_available st - Z.of_nat j) (position st + Z.of_nat j)).
Proof.
  induction j as [|j IH]; intros st Ha Hp Hpos Hend Hm.
  - cbn [read_bits seq fmap list_fmap Z.of_nat].
    rewrite Z.shiftr_0_r, Z.sub_0_r, Z.add_0_r. now destruct st.
  - cbn [read_bits]. rewrite read_bit_buffered by lia. cbn [mbind result_bind].
    rewrite IH; cbn [inp bits_per_record payload bits_available position];
      [|lia|now apply Z.shiftr_nonneg|lia|lia|lia].
    cbn [mbind result_bind seq fmap list_fmap]. rewrite <- fmap_S_seq, <- list_fmap_compose.
    rewrite Z.shiftr_shiftr by lia. do 2 f_equal.
    + f_equal. apply list_fmap_ext. intros _ i _. cbn.
      rewrite Z.shiftr_spec by lia. f_equal. lia.
    + replace (Z.of_nat (S j)) with (1 + Z.of_nat j) by lia. f_equal; lia.
Qed.

(** With nothing buffered, [read_bit] loads the next byte first. *)
Lemma read_bit_loads st c rest :
  (bits_available st >? 0) = false -> inp st = c :: rest ->
  read_bit st = read_bit (mk rest (bits_per_record st) (byte_val c) 8 (position st)).
Proof.
  intros Ha Hinp. unfold read_bit, maybe_update_payload.
  cbn [inp bits_per_record payload bits_available position].
  rewrite Ha, Hinp. cbn [getc].
  destruct (Z.eqb_spec (byte_val c) EOF) as [He|_]; [now apply byte_val_not_EOF in He|].
  reflexivity.
Qed.

Lemma take_byte_bits j b :
  (j <= 8)%nat ->
  (fun i => Z.testbit b (Z.of_nat i)) <$> seq 0 j = take j (byte_bits b).
Proof.
  intros Hj. unfold byte_bits. rewrite <- fmap_take, take_seq.
  now rewrite Nat.min_l by exact Hj.
Qed.

(** The bits of one byte of the stream. *)
Lemma read_byte j st c rest :
  (1 <= j <= 8)%nat ->
  (bits_available st >? 0) = false -> inp st = c :: rest ->
  0 <= position st -> position st + Z.of_nat j <= bits_per_record st ->
  bits_per_record st < 2 ^ 64 ->
  read_bits read_bit j st
  = Ok (take j (byte_bits (byte_val c)),
        mk rest (bits_per_record st) (Z.shiftr (byte_val c) (Z.of_nat j))
           (8 - Z.of_nat j) (position st + Z.of_nat j)).
Proof.
  intros Hj Ha Hinp Hpos Hend Hm. pose proof (byte_val_range c) as Hc.
  pose proof (read_bits_buffered j (mk rest (bits_per_record st) (byte_val c) 8 (position st)))
    as Hbuf.
  cbn [inp bits_per_record payload bits_available position] in Hbuf.
  rewrite take_byte_bits in Hbuf by lia. rewrite <- Hbuf by lia.
  destruct j as [|j]; [lia|]. cbn [read_bits].
  now rewrite (read_bit_loads st c rest).
Qed.

Lemma bytes_for_0_inv n : bytes_for n = 0%nat -> n = 0%nat.
Proof.
  unfold bytes_for. intros H.
  destruct n as [|n]; [reflexivity|]. exfalso.
  assert (1 <= (S n + 7) / 8)%nat; [|lia].
  apply Nat.div_le_lower_bound; lia.
Qed.

(** The bits of a run of bytes of the stream, read one by one from a byte
    boundary. *)
Lemma read_stream stream : forall n st,
  (bits_available st >? 0) = false -> inp st = stream ->
  0 <= position st -> position st + Z.of_nat n <= bits_per_record st ->
  bits_per_record st < 2 ^ 64 ->
  (bytes_for n <= length stream)%nat ->
  exists st'',
    read_bits read_bit n st
    = Ok (take n (bytes_to_bits (byte_val <$> stream)), st'')
    /\ inp st'' = drop (bytes_for n) stream
    /\ position st'' = position st + Z.of_nat n
    /\ bits_per_record st'' = bits_per_record st
    /\ (forall q, n = (8 * q)%nat -> (bits_available st'' >? 0) = false).
Proof.
  induction stream as [|c rest IH]; intros n st Ha Hinp Hpos Hend Hm Hlen.
  - cbn [length] in Hlen. assert (n = 0%nat) as -> by (apply bytes_for_0_inv; lia).
    exists st. cbn. conjs; solve [reflexivity | assumption | lia | intros; assumption].
  - destruct (Nat.eq_dec n 0%nat) as [->|Hn0].
    { exists st. cbn [read_bits take Z.of_nat]. rewrite bytes_for_0, drop_0.
      conjs; solve [reflexivity | assumption | lia | intros; assumption]. }
    cbn [fmap list_fmap]. rewrite bytes_to_bits_cons.
    destruct (Nat.le_gt_cases n 8%nat) as [Hle|Hgt].
    + rewrite take_app_le by (rewrite length_byte_bits; exact Hle).
      erewrite read_byte; [|lia|eassumption|eassumption|lia|lia|lia].
      eexists. split; [reflexivity|].
      cbn [inp bits_per_record payload bits_available position].
      rewrite bytes_for_last by lia. cbn [drop].
      conjs; try reflexivity.
      intros q Hq. destruct (Z.gtb_spec (8 - Z.of_nat n) 0); [lia | reflexivity].
    + destruct (IH (n - 8)%nat
                  (mk rest (bits_per_record st) (Z.shiftr (byte_val c) 8) 0 (position st + 8)))
        as (st'' & Hbits & Hinp'' & Hpos'' & Hm'' & Ha'');
        cbn [inp bits_per_record payload bits_available position];
        try (reflexivity || lia).
      { replace n with (8 + (n - 8))%nat in Hlen by lia.
        rewrite bytes_for_more in Hlen. cbn [length] in Hlen. lia. }
      cbn [inp bits_per_record payload bits_available position] in *.
      exists st''. replace n with (8 + (n - 8))%nat at 1 2 3 by lia.
      split.
      { rewrite take_app_add' by (now rewrite length_byte_bits).
        eapply read_bits_app; [|exact Hbits].
        erewrite read_byte; [|lia|eassumption|eassumption|lia|lia|lia].
        cbn [take]. rewrite take_ge by (rewrite length_byte_bits; lia). reflexivity. }
      rewrite bytes_for_more. cbn [drop].
      conjs; try assumption; try lia.
      intros q Hq. apply (Ha'' (q - 1)%nat). lia.
Qed.

End B8Bulk.

Module B8Calls.
Import MeasureRecordReaderFormatB8 B8Bulk.

Lemma b8_equiv_refl st : b8_equiv st st.
Proof. unfold b8_equiv. tauto. Qed.

Lemma b8_equiv_trans a b c : b8_equiv a b -> b8_equiv b c -> b8_equiv a c.
Proof.
  unfold b8_equiv. intros (Hi1 & Hm1 & Hp1 & H1) (Hi2 & Hm2 & Hp2 & H2).
  split; [congruence|]. split; [congruence|]. split; [congruence|].
  intros Hlt. destruct (H1 Hlt) as [Ha1 Hb1].
  destruct H2 as [Ha2 Hb2]; [lia|].
  split; [congruence|]. intros Hpos. destruct (Hb1 Hpos) as [E1 P1].
  destruct Hb2 as [E2 P2]; [lia|]. split; congruence.
Qed.

Lemma read_bit_equiv s1 s2 : b8_equiv s1 s2 -> read_bit s1 = read_bit s2.
Proof.
  destruct s1 as [i1 m1 p1 a1 q1], s2 as [i2 m2 p2 a2 q2]. unfold b8_equiv. cbn.
  intros (-> & -> & -> & H). unfold read_bit, maybe_update_payload. cbn.
  destruct (Z.geb_spec q2 m2) as [|Hlt]; [reflexivity|].
  destruct (H Hlt) as [Ha Hb]. rewrite <- Ha.
  destruct (Z.gtb_spec a1 0) as [Hpos|_].
  - destruct (Hb Hpos) as [-> ->]. reflexivity.
  - destruct (getc i2) as [c i']. cbn.
    destruct (Z.eqb_spec c EOF); reflexivity.
Qed.

Lemma read_bits_equiv k s1 s2 bits s :
  b8_equiv s1 s2 -> read_bits read_bit k s1 = Ok (bits, s) ->
  exists s', read_bits read_bit k s2 = Ok (bits, s') /\ b8_equiv s s'.
Proof.
  intros Heq H. destruct k as [|k].
  - cbn in H. injection H as <- <-. exists s2. split; [reflexivity | assumption].
  - exists s. split; [|apply b8_equiv_refl].
    cbn [read_bits] in *. now rewrite <- (read_bit_equiv s1 s2 Heq).
Qed.

Lemma read_bits_b8_inv k : forall st bits st',
  b8_inv st -> read_bits read_bit k st = Ok (bits, st') -> b8_inv st'.
Proof.
  induction k as [|k IH]; intros st bits st' Hinv H; cbn [read_bits] in H.
  - now injection H as <- <-.
  - destruct (read_bit st) as [[bit st1]|] eqn:E; cbn in H; [|discriminate].
    destruct (read_bits read_bit k st1) as [[bits1 st2]|] eqn:E2; cbn in H; [|discriminate].
    injection H as <- <-. eapply IH; [|exact E2].
    unfold read_bit in E. destruct (position st >=? bits_per_record st); [discriminate|].
    destruct (payload (maybe_update_payload st) =? EOF); [discriminate|].
    injection E as <- <-. destruct Hinv as [Hpos Hm]. unfold b8_inv. cbn.
    split; [apply wrap64_range|].
    unfold maybe_update_payload. destruct (bits_available st >? 0); [exact Hm|].
    destruct (getc (inp st)). exact Hm.
Qed.

Lemma bytes_for_bound n : (n <= 8 * bytes_for n < n + 8)%nat.
Proof.
  unfold bytes_for. pose proof (Nat.div_mod_eq (n + 7) 8) as Hdiv.
  pose proof (Nat.mod_upper_bound (n + 7) 8 ltac:(lia)). lia.
Qed.

Lemma bytes_for_Z z : 0 <= z -> Z.to_nat ((z + 7) / 8) = bytes_for (Z.to_nat z).
Proof.
  intros Hz. unfold bytes_for.
  rewrite Z2Nat.inj_div, Z2Nat.inj_add by lia. reflexivity.
Qed.

(** The block read of the override. *)
Lemma block_read st out n out' st' :
  b8_inv st -> small_range out ->
  position st < bits_per_record st -> (bits_available st >? 0) = false ->
  (let n_bits := Z.min (wrap64 (8 * Z.of_nat (length out)))
                       (wrap64 (bits_per_record st - position st)) in
   let n_bytes := wrap64 (n_bits + 7) / 8 in
   let '(n_bytes, out_buffer, inp) := fread n_bytes (inp st) out in
   let n_bits := Z.min (wrap64 (8 * n_bytes)) n_bits in
   Ok (n_bits, out_buffer,
       mk inp (bits_per_record st) (payload st) (bits_available st)
          (wrap64 (position st + n_bits)))) = Ok (n, out', st') ->
  b8_inv st'
  /\ exists st'',
      read_bits read_bit (Z.to_nat n) st
      = Ok (take (Z.to_nat n) (bytes_to_bits out'), st'')
      /\ b8_equiv st' st''.
Proof.
  intros [Hpos Hm] Hsmall Hlt Ha H. unfold small_range in Hsmall. cbv zeta in H.
  rewrite (wrap64_small (8 * _)), (wrap64_small (bits_per_record st - position st)) in H by lia.
  set (n_bits := Z.min (8 * Z.of_nat (length out)) (bits_per_record st - position st)) in *.
  assert (Hnb : 0 <= n_bits <= bits_per_record st - position st
                /\ n_bits <= 8 * Z.of_nat (length out)) by lia.
  rewrite (wrap64_small (n_bits + 7)) in H by lia.
  unfold fread in H. rewrite bytes_for_Z in H by lia.
  set (nb := Z.to_nat n_bits) in *. set (k := bytes_for nb) in *.
  pose proof (bytes_for_bound nb) as Hk. fold k in Hk.
  rewrite length_take in H.
  assert (Hlen_small : Z.of_nat (Nat.min k (length (inp st))) <= Z.of_nat (length out)) by lia.
  rewrite (wrap64_small (8 * _)) in H by lia.
  injection H as <- <- <-.
  set (n := Z.min (8 * Z.of_nat (Nat.min k (length (inp st)))) n_bits).
  assert (Hn : 0 <= n <= n_bits) by lia.
  rewrite (wrap64_small (position st + n)) by lia.
  split; [unfold b8_inv; cbn; lia|].
  assert (Hcases : (k <= length (inp st))%nat /\ Z.to_nat n = nb
                   \/ (length (inp st) < k)%nat
                      /\ Z.to_nat n = (8 * length (inp st))%nat) by lia.
  assert (Hbf : bytes_for (Z.to_nat n) = Nat.min k (length (inp st))).
  { destruct Hcases as [[Hle ->]|[Hgt ->]].
    - fold k. lia.
    - pose proof (bytes_for_bound (8 * length (inp st))). lia. }
  destruct (read_stream (inp st) (Z.to_nat n) st Ha eq_refl Hpos ltac:(lia) Hm ltac:(lia))
    as (st'' & Hbits & Hinp'' & Hpos'' & Hm'' & Ha'').
  exists st''. split.
  - rewrite Hbits. do 2 f_equal.
    unfold bytes_to_bits at 2. rewrite bind_app. fold (bytes_to_bits (byte_val <$> take k (inp st))).
    rewrite take_app_le
      by (rewrite length_bytes_to_bits, length_fmap, length_take; lia).
    rewrite <- (take_drop k (inp st)) at 1.
    rewrite fmap_app. unfold bytes_to_bits at 1. rewrite bind_app.
    fold (bytes_to_bits (byte_val <$> take k (inp st))).
    now rewrite take_app_le
      by (rewrite length_bytes_to_bits, length_fmap, length_take; lia).
  - unfold b8_equiv. cbn [inp bits_per_record payload bits_available position].
    rewrite Hinp'', Hpos'', Hm'', Hbf.
    split.
    { destruct (Nat.le_gt_cases k (length (inp st))).
      - now rewrite Nat.min_l by assumption.
      - rewrite Nat.min_r, !drop_ge by lia. reflexivity. }
    split; [reflexivity|]. split; [lia|].
    intros Hrest. rewrite Ha. split.
    + symmetry. destruct Hcases as [[Hle Hn']|[Hgt Hn']].
      * apply (Ha'' (length out)). lia.
      * apply (Ha'' (length (inp st))). lia.
    + destruct (Z.gtb_spec (bits_available st) 0); [discriminate | lia].
Qed.

Lemma b8_one_call st out n out' st' :
  b8_inv st -> small_range out ->
  read_bits_into_bytes st out = Ok (n, out', st') ->
  b8_inv st'
  /\ exists st'',
      read_bits read_bit (Z.to_nat n) st
      = Ok (take (Z.to_nat n) (bytes_to_bits out'), st'')
      /\ b8_equiv st' st''.
Proof.
  intros Hinv Hsmall H. unfold read_bits_into_bytes in H.
  destruct (Z.geb_spec (position st) (bits_per_record st)) as [Hge|Hlt].
  - injection H as <- <- <-. split; [assumption|].
    exists st. split; [reflexivity | apply b8_equiv_refl].
  - destruct (bits_available st >? 0) eqn:Ha.
    + pose proof (default_one_call _ _ _ _ _ _ _ _ Hsmall H) as Hbits.
      split; [eapply read_bits_b8_inv; eassumption|].
      exists st'. split; [assumption | apply b8_equiv_refl].
    + exact (block_read st out n out' st' Hinv Hsmall Hlt Ha H).
Qed.

End B8Calls.

(** ** Bulk reads return on the records that [read_bit] reads to their end *)

Section DrainsFacts.
Context {T : Type}.
Variable rb : T -> result (bool * T).
Variable ie : T -> result bool.
Variable crt : T -> Z.

Lemma drains_within_drains budget : forall st,
  drains_within rb ie budget st = true -> drains rb ie st.
Proof.
  induction budget as [|budget IH]; intros st H; cbn [drains_within] in H.
  - destruct (ie st) as [[|]|] eqn:E; try discriminate. now apply drains_end.
  - destruct (ie st) as [[|]|] eqn:E; try discriminate; [now apply drains_end|].
    destruct (rb st) as [[bit st1]|] eqn:Erb; [|discriminate].
    apply (drains_bit rb ie st bit st1); auto.
Qed.

Lemma drains_answers st : drains rb ie st -> exists e, ie st = Ok e.
Proof. intros [s H|s bit s1 H _ _]; eauto. Qed.

Lemma drains_step st :
  drains rb ie st -> ie st = Ok false ->
  exists bit st1, rb st = Ok (bit, st1) /\ drains rb ie st1.
Proof. intros [s H|s bit s1 H Hrb Hrest] He; [congruence | eauto]. Qed.

(** Where [read_bit] refuses to read past the end of the record, the states
    it goes through are those of [drains]. *)
Lemma drains_read_bits (Inv : T -> Prop) :
  (forall s bit s1, Inv s -> rb s = Ok (bit, s1) -> ie s = Ok false /\ Inv s1) ->
  forall k st bits st',
    Inv st -> drains rb ie st -> read_bits rb k st = Ok (bits, st') ->
    drains rb ie st'.
Proof.
  intros Hrb k. induction k as [|k IH]; intros st bits st' Hinv Hd H; cbn [read_bits] in H.
  - now injection H as <- <-.
  - destruct (rb st) as [[bit st1]|] eqn:E; cbn in H; [|discriminate].
    destruct (read_bits rb k st1) as [[bits1 st2]|] eqn:E2; cbn in H; [|discriminate].
    injection H as <- <-.
    destruct (Hrb _ _ _ Hinv E) as [He Hinv1].
    destruct (drains_step st Hd He) as (bit' & st1' & E' & Hd1).
    rewrite E in E'. injection E' as <- <-.
    exact (IH _ _ _ Hinv1 Hd1 E2).
Qed.

Lemma default_bits_loop_total todo : forall result_type k b n st,
  drains rb ie st -> ie st = Ok false ->
  exists returned b' n' st',
    default_bits_loop rb ie crt todo result_type k b n st = Ok (returned, b', n', st')
    /\ drains rb ie st'
    /\ (returned = false -> ie st' = Ok false).
Proof.
  induction todo as [|todo IH]; intros rt k b n st Hd He; cbn [default_bits_loop].
  - exists false, b, n, st. auto.
  - destruct (drains_step st Hd He) as (bit & st1 & -> & Hd1). cbn [mbind result_bind].
    destruct (drains_answers st1 Hd1) as [e He1]. rewrite He1. cbn [mbind result_bind].
    destruct e; cbn [orb].
    + eexists _, _, _, _. split; [reflexivity|]. split; [assumption | discriminate].
    + destruct (negb (crt st1 =? rt)).
      * eexists _, _, _, _. split; [reflexivity|]. split; [assumption | discriminate].
      * now apply IH.
Qed.

Lemma default_bytes_loop_total out : forall result_type n st,
  drains rb ie st -> ie st = Ok false ->
  exists n' out' st',
    default_bytes_loop rb ie crt out result_type n st = Ok (n', out', st')
    /\ drains rb ie st'.
Proof.
  induction out as [|b0 out IH]; intros rt n st Hd He; cbn [default_bytes_loop].
  - exists n, [], st. auto.
  - destruct (default_bits_loop_total 8 rt 0 0 n st Hd He)
      as (returned & b & n1 & st1 & -> & Hd1 & He1).
    cbn [mbind result_bind]. destruct returned.
    + eexists _, _, _. split; [reflexivity | assumption].
    + destruct (IH rt n1 st1 Hd1 (He1 eq_refl)) as (n2 & out2 & st2 & -> & Hd2).
      cbn [mbind result_bind]. eexists _, _, _. split; [reflexivity | assumption].
Qed.

Lemma default_read_total st out :
  drains rb ie st ->
  exists n out' st',
    default_read_bits_into_bytes rb ie crt st out = Ok (n, out', st')
    /\ drains rb ie st'.
Proof.
  intros Hd. unfold default_read_bits_into_bytes.
  destruct (drains_answers st Hd) as [e He]. rewrite He. cbn [mbind result_bind].
  destruct e.
  - eexists _, _, _. split; [reflexivity | assumption].
  - now apply default_bytes_loop_total.
Qed.

(** Calls that return on the states of [P] and keep [P] return one after the
    other. *)
Lemma read_bits_in_calls_total (rbib : T -> list Z -> result (Z * list Z * T))
    (P : T -> Prop) :
  (forall st out, P st -> small_range out ->
     exists n out' st', rbib st out = Ok (n, out', st') /\ P st') ->
  forall outs st, P st -> Forall small_range outs ->
    exists bits st', read_bits_in_calls rbib outs st = Ok (bits, st').
Proof.
  intros Hcall outs. induction outs as [|out outs IH]; intros st HP Hsmall;
    cbn [read_bits_in_calls].
  - eexists _, _. reflexivity.
  - inversion Hsmall as [|? ? Hout Houts]; subst.
    destruct (Hcall st out HP Hout) as (n & out' & st1 & -> & HP1).
    cbn [mbind result_bind].
    destruct (IH st1 HP1 Houts) as (bits & st2 & ->). cbn [mbind result_bind].
    eexists _, _. reflexivity.
Qed.

Lemma default_calls_total outs st :
  drains rb ie st -> Forall small_range outs ->
  exists bits st',
    read_bits_in_calls (default_read_bits_into_bytes rb ie crt) outs st = Ok (bits, st').
Proof.
  apply (read_bits_in_calls_total _ (drains rb ie)).
  intros s out Hd _. now apply default_read_total.
Qed.

End DrainsFacts.

Module R8Drains.
Import MeasureRecordReaderFormatR8 R8Facts.

Abbreviation r8_drains := (drains read_bit (fun st => Ok (is_end_of_record st))).

Lemma drains_zero_bit st :
  r8_inv st -> 1 <= buffered_0s st -> r8_drains st ->
  r8_drains (mk (inp st) (bits_per_record st) (position st + 1)
                (have_seen_terminal_1 st) (buffered_0s st - 1) (buffered_1s st)).
Proof.
  intros Hinv Hk Hd.
  assert (Hend : is_end_of_record st = false).
  { destruct Hinv as (Hpos & Hb0 & Hb1 & Hfit & Htotal). unfold is_end_of_record.
    assert (position st + buffered_0s st + buffered_1s st <= bits_per_record st)
      by by_seen Htotal.
    destruct (Z.eqb_spec (position st) (bits_per_record st)); [lia | reflexivity]. }
  destruct (drains_step _ _ st Hd) as (bit & st1 & Hrb & Hd1); [now rewrite Hend|].
  rewrite read_zero_bit in Hrb by assumption. now injection Hrb as <- <-.
Qed.

Lemma drains_zero_bits k : forall st,
  r8_inv st -> Z.of_nat k <= buffered_0s st -> r8_drains st ->
  r8_drains (mk (inp st) (bits_per_record st) (position st + Z.of_nat k)
                (have_seen_terminal_1 st) (buffered_0s st - Z.of_nat k) (buffered_1s st)).
Proof.
  induction k as [|k IH]; intros st Hinv Hk Hd.
  - cbn [Z.of_nat]. rewrite Z.add_0_r, Z.sub_0_r. now destruct st.
  - pose proof (drains_zero_bit st Hinv ltac:(lia) Hd) as Hd1.
    pose proof (read_bit_inv _ _ _ Hinv (read_zero_bit st Hinv ltac:(lia))) as Hinv1.
    pose proof (IH _ Hinv1 ltac:(cbn; lia) Hd1) as Hd2. cbn in Hd2.
    replace (position st + Z.of_nat (S k)) with (position st + 1 + Z.of_nat k) by lia.
    replace (buffered_0s st - Z.of_nat (S k)) with (buffered_0s st - 1 - Z.of_nat k) by lia.
    exact Hd2.
Qed.

Lemma bits_loop_total todo : forall k b n st,
  r8_inv st -> r8_drains st ->
  exists returned b' n' st',
    bits_loop todo k b n st = Ok (returned, b', n', st')
    /\ r8_inv st' /\ r8_drains st'.
Proof.
  induction todo as [|todo IH]; intros k b n st Hinv Hd; cbn [bits_loop].
  - exists false, b, n, st. auto.
  - destruct ((buffered_0s st =? 0) && (buffered_1s st =? 0)
              && negb (have_seen_terminal_1 st)) eqn:Ebuf.
    + apply andb_true_iff in Ebuf as [Ebuf Eseen].
      apply andb_true_iff in Ebuf as [E0 E1].
      apply Z.eqb_eq in E0, E1. apply negb_true_iff in Eseen.
      assert (Hend : is_end_of_record st = false)
        by (unfold is_end_of_record; rewrite Eseen; apply andb_false_r).
      destruct (drains_step _ _ st Hd) as (bit & st1 & Hrb & Hd1); [now rewrite Hend|].
      destruct (assert_maybe_buffer_data st) as [st2|e] eqn:Eassert.
      2:{ unfold read_bit in Hrb. rewrite E0, E1 in Hrb. cbn [Z.eqb andb] in Hrb.
          rewrite Eassert in Hrb. discriminate. }
      destruct (buffer_then_read st st2 Hinv E0 E1 Eseen Eassert) as (Hinv2 & Hend2 & Hsame).
      unfold mbind at 1, result_bind at 1. cbv beta iota.
      rewrite Hend2, Hsame, Hrb. cbn [mbind result_bind].
      apply IH; [exact (read_bit_inv _ _ _ Hinv Hrb) | assumption].
    + cbn [mbind result_bind]. destruct (is_end_of_record st) eqn:Hend.
      * eexists _, _, _, _. split; [reflexivity|]. split; assumption.
      * destruct (drains_step _ _ st Hd) as (bit & st1 & Hrb & Hd1); [now rewrite Hend|].
        rewrite Hrb. cbn [mbind result_bind].
        apply IH; [exact (read_bit_inv _ _ _ Hinv Hrb) | assumption].
Qed.

Lemma bytes_loop_total out : forall n st,
  r8_inv st -> r8_drains st ->
  exists n' out' st',
    bytes_loop out n st = Ok (n', out', st') /\ r8_inv st' /\ r8_drains st'.
Proof.
  induction out as [|b0 out IH]; intros n st Hinv Hd; cbn [bytes_loop].
  - exists n, [], st. auto.
  - destruct (Z.geb_spec (buffered_0s st) 8) as [Hrun|Hrun].
    + assert (Hle : position st + buffered_0s st + buffered_1s st <= bits_per_record st).
      { destruct Hinv as (? & ? & ? & ? & Htotal). by_seen Htotal. }
      assert (Hfit : 0 <= position st /\ 0 <= buffered_1s st
                     /\ bits_per_record st < 2 ^ 64).
      { destruct Hinv as (? & ? & ? & ? & _). lia. }
      rewrite (wrap64_small (position st + 8)), (wrap64_small (buffered_0s st - 8)) by lia.
      pose proof (drains_zero_bits 8 st Hinv ltac:(lia) Hd) as Hd8.
      pose proof (R8Bulk.read_bits_inv 8 st _ _ Hinv (read_zero_bits 8 st Hinv ltac:(lia))) as Hinv8.
      change (Z.of_nat 8) with 8 in Hd8, Hinv8.
      destruct (IH (wrap64 (n + 8)) _ Hinv8 Hd8) as (n' & out' & st' & -> & Hinv' & Hd').
      cbn [mbind result_bind]. eexists _, _, _. split; [reflexivity|]. split; assumption.
    + destruct (bits_loop_total 8 0 0 n st Hinv Hd)
        as (returned & b & n1 & st1 & -> & Hinv1 & Hd1).
      cbn [mbind result_bind]. destruct returned.
      * eexists _, _, _. split; [reflexivity|]. split; assumption.
      * destruct (IH n1 st1 Hinv1 Hd1) as (n' & out' & st' & -> & Hinv' & Hd').
        cbn [mbind result_bind]. eexists _, _, _. split; [reflexivity|]. split; assumption.
Qed.

End R8Drains.

Module B8Drains.
Import MeasureRecordReaderFormatB8.

Abbreviation b8_drains := (drains read_bit (fun st => Ok (is_end_of_record st))).

Lemma read_bit_inside s bit s1 :
  b8_inv s -> read_bit s = Ok (bit, s1) ->
  Ok (is_end_of_record s) = Ok false /\ b8_inv s1.
Proof.
  intros Hinv H. split.
  - unfold read_bit in H. unfold is_end_of_record.
    destruct (position s >=? bits_per_record s); [discriminate | reflexivity].
  - apply (B8Calls.read_bits_b8_inv 1 s [bit] s1 Hinv). cbn [read_bits]. now rewrite H.
Qed.

Lemma drains_equiv s1 s2 : b8_equiv s1 s2 -> b8_drains s2 -> b8_drains s1.
Proof.
  intros Heq Hd. pose proof (B8Calls.read_bit_equiv s1 s2 Heq) as Hrb.
  assert (Hend : is_end_of_record s1 = is_end_of_record s2).
  { destruct Heq as (_ & Hm & Hpos & _). unfold is_end_of_record. now rewrite Hm, Hpos. }
  destruct Hd as [s He|s bit s3 He Hs Hd3].
  - apply drains_end. now rewrite Hend.
  - apply (drains_bit _ _ s1 bit s3); [now rewrite Hend | now rewrite Hrb | assumption].
Qed.

Lemma read_total st out :
  b8_inv st /\ b8_drains st -> small_range out ->
  exists n out' st',
    read_bits_into_bytes st out = Ok (n, out', st') /\ b8_inv st' /\ b8_drains st'.
Proof.
  intros [Hinv Hd] Hsmall.
  assert (Hcall : exists n out' st',
             read_bits_into_bytes st out = Ok (n, out', st')).
  { unfold read_bits_into_bytes.
    destruct (position st >=? bits_per_record st); [eexists _, _, _; reflexivity|].
    destruct (bits_available st >? 0).
    - destruct (default_read_total read_bit (fun st => Ok (is_end_of_record st))
                  default_current_result_type st out Hd) as (n & out' & st' & H & _).
      eauto.
    - destruct (fread _ (inp st) out) as [[n_bytes out'] inp'].
      eexists _, _, _. reflexivity. }
  destruct Hcall as (n & out' & st' & Hcall). exists n, out', st'.
  split; [assumption|].
  destruct (B8Calls.b8_one_call st out n out' st' Hinv Hsmall Hcall)
    as (Hinv' & st'' & Hbits & Heq).
  split; [assumption|].
  apply (drains_equiv st' st'' Heq).
  exact (drains_read_bits read_bit (fun st => Ok (is_end_of_record st)) b8_inv
           read_bit_inside _ _ _ _ Hinv Hd Hbits).
Qed.

End B8Drains.

(** ** The end of the stream *)

Module EndOfStream.

Lemma count_zeroes_none inp : forall acc pos,
  MeasureRecordReaderFormatR8.count_zeroes inp acc pos = Ok None ->
  0 <= acc -> acc + 255 * Z.of_nat (length inp) < 2 ^ 64 ->
  inp = [] /\ acc = 0 /\ pos = 0.
Proof.
  induction inp as [|b inp IH]; intros acc pos H Hacc Hfit;
    cbn [MeasureRecordReaderFormatR8.count_zeroes] in H.
  - destruct (Z.eqb_spec acc 0), (Z.eqb_spec pos 0); try discriminate. tauto.
  - pose proof (byte_val_range b) as Hb. cbn [length] in Hfit.
    rewrite (wrap64_small (acc + byte_val b)) in H by lia.
    destruct (Z.eqb_spec (byte_val b) 255); [|discriminate].
    apply IH in H; lia.
Qed.

(** 01: [start_record] answers false exactly at the end of the stream, and
    reads nothing then. *)
Lemma f01_start_record_false st :
  (forall st', MeasureRecordReaderFormat01.start_record st = Ok (false, st') ->
               MeasureRecordReaderFormat01.inp st = []
               /\ MeasureRecordReaderFormat01.inp st' = [])
  /\ (MeasureRecordReaderFormat01.inp st = [] ->
      exists st', MeasureRecordReaderFormat01.start_record st = Ok (false, st')).
Proof.
  unfold MeasureRecordReaderFormat01.start_record.
  destruct (MeasureRecordReaderFormat01.inp st) as [|b inp']; cbn [getc].
  - split; [intros st' H; injection H as <-; split; reflexivity|].
    intros _. eexists. reflexivity.
  - destruct (Z.eqb_spec (byte_val b) EOF) as [He|_]; [now apply byte_val_not_EOF in He|].
    split; [intros st' H; discriminate | intros H; discriminate].
Qed.

Lemma b8_start_record_false st :
  (forall st', MeasureRecordReaderFormatB8.start_record st = Ok (false, st') ->
               MeasureRecordReaderFormatB8.inp st = []
               /\ MeasureRecordReaderFormatB8.inp st' = [])
  /\ (MeasureRecordReaderFormatB8.inp st = [] ->
      exists st', MeasureRecordReaderFormatB8.start_record st = Ok (false, st')).
Proof.
  unfold MeasureRecordReaderFormatB8.start_record,
    MeasureRecordReaderFormatB8.maybe_update_payload.
  cbn [MeasureRecordReaderFormatB8.bits_available MeasureRecordReaderFormatB8.inp
       MeasureRecordReaderFormatB8.bits_per_record MeasureRecordReaderFormatB8.position
       Z.gtb Z.compare].
  destruct (MeasureRecordReaderFormatB8.inp st) as [|b inp']; cbn [getc].
  - split; [intros st' H; injection H as <-; split; reflexivity|].
    intros _. eexists. reflexivity.
  - cbn [MeasureRecordReaderFormatB8.payload].
    destruct (Z.eqb_spec (byte_val b) EOF) as [He|_]; [now apply byte_val_not_EOF in He|].
    split; [intros st' H; discriminate | intros H; discriminate].
Qed.

Lemma hits_start_record_false st :
  (forall st', MeasureRecordReaderFormatHits.start_record st = Ok (false, st') ->
               MeasureRecordReaderFormatHits.inp st = []
               /\ MeasureRecordReaderFormatHits.inp st' = [])
  /\ (MeasureRecordReaderFormatHits.inp st = [] ->
      exists st', MeasureRecordReaderFormatHits.start_record st = Ok (false, st')).
Proof.
  unfold MeasureRecordReaderFormatHits.start_record.
  destruct (MeasureRecordReaderFormatHits.inp st) as [|b inp']; cbn [getc].
  - split; [intros st' H; injection H as <-; split; reflexivity|].
    intros _. eexists. reflexivity.
  - destruct (Z.eqb_spec (byte_val b) EOF) as [He|_]; [now apply byte_val_not_EOF in He|].
    split; [|intros H; discriminate].
    intros st' H. destruct (MeasureRecordReaderFormatHits.hits_loop _ _ _ _ _ _) as [[]|];
      discriminate.
Qed.

Lemma dets_start_record_false st :
  (forall st', MeasureRecordReaderFormatDets.start_record st = Ok (false, st') ->
               MeasureRecordReaderFormatDets.inp st = []
               /\ MeasureRecordReaderFormatDets.inp st' = [])
  /\ (MeasureRecordReaderFormatDets.inp st = [] ->
      exists st', MeasureRecordReaderFormatDets.start_record st = Ok (false, st')).
Proof.
  unfold MeasureRecordReaderFormatDets.start_record, maybe_consume_keyword.
  destruct (MeasureRecordReaderFormatDets.inp st) as [|b inp']; cbn [getc].
  - split; [intros st' H; injection H as <-; split; reflexivity|].
    intros _. eexists. reflexivity.
  - destruct (Z.eqb_spec (byte_val b) EOF) as [He|_]; [now apply byte_val_not_EOF in He|].
    split; [|intros H; discriminate].
    intros st' H.
    destruct (consume_keyword_chars _ _ _) as [[c inp1]|]; cbn in H; [|discriminate].
    destruct (MeasureRecordReaderFormatDets.dets_loop _ _ _ _ _ _ _) as [[]|]; discriminate.
Qed.

(** R8, on a stream short enough for the run counter: the same, for a
    reader whose buffer is empty (as [maybe_buffer_data] asserts). *)
Lemma r8_start_record_false st :
  255 * Z.of_nat (length (MeasureRecordReaderFormatR8.inp st)) < 2 ^ 64 ->
  (forall st', MeasureRecordReaderFormatR8.start_record st = Ok (false, st') ->
               MeasureRecordReaderFormatR8.inp st = []
               /\ MeasureRecordReaderFormatR8.inp st' = []
               /\ MeasureRecordReaderFormatR8.buffered_0s st' = 0
               /\ MeasureRecordReaderFormatR8.buffered_1s st' = 0)
  /\ (MeasureRecordReaderFormatR8.inp st = [] ->
      MeasureRecordReaderFormatR8.buffered_0s st = 0 ->
      MeasureRecordReaderFormatR8.buffered_1s st = 0 ->
      exists st', MeasureRecordReaderFormatR8.start_record st = Ok (false, st')).
Proof.
  intros Hfit.
  unfold MeasureRecordReaderFormatR8.start_record,
    MeasureRecordReaderFormatR8.maybe_buffer_data,
    MeasureRecordReaderFormatR8.is_end_of_record.
  cbn [MeasureRecordReaderFormatR8.buffered_0s MeasureRecordReaderFormatR8.buffered_1s
       MeasureRecordReaderFormatR8.inp MeasureRecordReaderFormatR8.position
       MeasureRecordReaderFormatR8.bits_per_record
       MeasureRecordReaderFormatR8.have_seen_terminal_1].
  rewrite andb_false_r.
  destruct (Z.eqb_spec (MeasureRecordReaderFormatR8.buffered_0s st) 0) as [E0|E0]; cbn [negb].
  2:{ split; [intros st' H; discriminate | intros; contradiction]. }
  destruct (Z.eqb_spec (MeasureRecordReaderFormatR8.buffered_1s st) 0) as [E1|E1]; cbn [negb].
  2:{ split; [intros st' H; discriminate | intros; contradiction]. }
  rewrite E0. split.
  - intros st' H.
    destruct (MeasureRecordReaderFormatR8.count_zeroes _ 0 0) as [[[b0 inp']|]|] eqn:Ecount;
      cbn in H; [|injection H as <-|discriminate].
    + destruct (_ =? _) in H.
      { destruct (getc inp') as [t inp'']. destruct (t =? EOF); [discriminate|].
        destruct (negb (t =? 0)); discriminate. }
      destruct (_ =? _) in H; [discriminate|].
      destruct (_ >? _) in H; discriminate.
    + apply count_zeroes_none in Ecount as (Hnil & _); [|lia|lia].
      cbn. auto.
  - intros -> _ _. cbn. eexists. reflexivity.
Qed.

End EndOfStream.

(** ** [start_record] at the end of the stream *)

(** Against C8 as stated. On the stream "010\n111\n" with m = 3, after
    both records have been
    read, [start_record] answers false, and answers false again when it is
    called again. *)
Lemma start_record_false_twice :
  exists st0 st1 st2 st3 st4 st5,
    MeasureRecordReaderFormat01.start_record
      (MeasureRecordReaderFormat01.make Scenarios.f01_two_records 3) = Ok (true, st0)
    /\ read_bits MeasureRecordReaderFormat01.read_bit 3 st0
       = Ok ([false; true; false], st1)
    /\ MeasureRecordReaderFormat01.start_record st1 = Ok (true, st2)
    /\ read_bits MeasureRecordReaderFormat01.read_bit 3 st2
       = Ok ([true; true; true], st3)
    /\ MeasureRecordReaderFormat01.start_record st3 = Ok (false, st4)
    /\ MeasureRecordReaderFormat01.start_record st4 = Ok (false, st5).
Proof.
  do 6 eexists.
  split; [run_reader|]. split; [run_reader|]. split; [run_reader|].
  split; [run_reader|]. split; [run_reader|]. run_reader.
Qed.

(** C8 (amended). In each of the five readers [start_record] answers false
    exactly when the byte source is at its end at the call: never while a
    byte of the stream is unread, and always once none is left. It reads
    nothing then, so that the calls after the first false answer false as
    well. (R8: for streams under 2^56 bytes and a reader whose run buffer is
    empty, which [maybe_buffer_data] asserts.) *)
Theorem start_record_false_at_end_of_stream :
  (forall st,
      (forall st', MeasureRecordReaderFormat01.start_record st = Ok (false, st') ->
                   MeasureRecordReaderFormat01.inp st = []
                   /\ MeasureRecordReaderFormat01.inp st' = [])
      /\ (MeasureRecordReaderFormat01.inp st = [] ->
          exists st', MeasureRecordReaderFormat01.start_record st = Ok (false, st')))
  /\ (forall st,
      (forall st', MeasureRecordReaderFormatB8.start_record st = Ok (false, st') ->
                   MeasureRecordReaderFormatB8.inp st = []
                   /\ MeasureRecordReaderFormatB8.inp st' = [])
      /\ (MeasureRecordReaderFormatB8.inp st = [] ->
          exists st', MeasureRecordReaderFormatB8.start_record st = Ok (false, st')))
  /\ (forall st,
      (forall st', MeasureRecordReaderFormatHits.start_record st = Ok (false, st') ->
                   MeasureRecordReaderFormatHits.inp st = []
                   /\ MeasureRecordReaderFormatHits.inp st' = [])
      /\ (MeasureRecordReaderFormatHits.inp st = [] ->
          exists st', MeasureRecordReaderFormatHits.start_record st = Ok (false, st')))
  /\ (forall st,
      (forall st', MeasureRecordReaderFormatDets.start_record st = Ok (false, st') ->
                   MeasureRecordReaderFormatDets.inp st = []
                   /\ MeasureRecordReaderFormatDets.inp st' = [])
      /\ (MeasureRecordReaderFormatDets.inp st = [] ->
          exists st', MeasureRecordReaderFormatDets.start_record st = Ok (false, st')))
  /\ (forall st,
      255 * Z.of_nat (length (MeasureRecordReaderFormatR8.inp st)) < 2 ^ 64 ->
      (forall st', MeasureRecordReaderFormatR8.start_record st = Ok (false, st') ->
                   MeasureRecordReaderFormatR8.inp st = []
                   /\ MeasureRecordReaderFormatR8.inp st' = []
                   /\ MeasureRecordReaderFormatR8.buffered_0s st' = 0
                   /\ MeasureRecordReaderFormatR8.buffered_1s st' = 0)
      /\ (MeasureRecordReaderFormatR8.inp st = [] ->
          MeasureRecordReaderFormatR8.buffered_0s st = 0 ->
          MeasureRecordReaderFormatR8.buffered_1s st = 0 ->
          exists st', MeasureRecordReaderFormatR8.start_record st = Ok (false, st'))).
Proof.
  split; [exact EndOfStream.f01_start_record_false|].
  split; [exact EndOfStream.b8_start_record_false|].
  split; [exact EndOfStream.hits_start_record_false|].
  split; [exact EndOfStream.dets_start_record_false|].
  exact EndOfStream.r8_start_record_false.
Qed.

(** The R8 reader of the stream 05, m = 5, after its record: the stream is
    at its end and the buffer is empty. *)
Lemma start_record_false_at_end_of_stream_witness :
  exists st',
    MeasureRecordReaderFormatR8.start_record
      (MeasureRecordReaderFormatR8.mk [] 5 5 true 0 0) = Ok (false, st').
Proof.
  refine (proj2 (proj2 (proj2 (proj2 (proj2 start_record_false_at_end_of_stream)))
                   (MeasureRecordReaderFormatR8.mk [] 5 5 true 0 0) _) _ _ _);
    [cbn; lia | reflexivity | reflexivity | reflexivity].
Defined.

(** ** Bulk reads stop short only at an end *)

Section DefaultStops.
Context {S : Type}.
Variable rb : S -> result (bool * S).
Variable ie : S -> result bool.
Variable crt : S -> Z.

Lemma default_bits_loop_stop todo : forall result_type k b n st b' n' st',
  default_bits_loop rb ie crt todo result_type k b n st = Ok (true, b', n', st') ->
  default_stop ie crt result_type st'.
Proof.
  induction todo as [|todo IH]; intros rt k b n st b' n' st' H;
    cbn [default_bits_loop] in H; [discriminate|].
  destruct (rb st) as [[bit st1]|]; cbn in H; [|discriminate].
  destruct (ie st1) as [e|] eqn:Eie; cbn in H; [|discriminate].
  destruct (e || negb (crt st1 =? rt)) eqn:Estop.
  - injection H as <- <- <-. exists e. split; assumption.
  - eapply IH. exact H.
Qed.

Lemma default_bytes_loop_stop out : forall result_type n st n' out' st',
  default_bytes_loop rb ie crt out result_type n st = Ok (n', out', st') ->
  0 <= n -> n + 8 * Z.of_nat (length out) < 2 ^ 64 ->
  n' < n + 8 * Z.of_nat (length out) ->
  default_stop ie crt result_type st'.
Proof.
  induction out as [|b0 out IH]; intros rt n st n' out' st' H Hn Hn64 Hshort.
  - cbn in H. injection H as <- <- <-. cbn in Hshort. lia.
  - cbn [default_bytes_loop] in H. cbn [length] in Hn64, Hshort.
    destruct (default_bits_loop rb ie crt 8 rt 0 0 n st)
      as [[[[returned b] n1] st1]|] eqn:Ebits; cbn in H; [|discriminate].
    destruct returned.
    + injection H as <- <- <-. eapply default_bits_loop_stop. exact Ebits.
    + apply default_bits_loop_ok in Ebits; try lia.
      destruct Ebits as (bits1 & _ & _ & Hlen & _ & Hn1).
      destruct (default_bytes_loop rb ie crt out rt n1 st1)
        as [[[n2 out2] st2]|] eqn:Erest; cbn in H; [|discriminate].
      injection H as <- <- <-. eapply IH; [exact Erest|lia..].
Qed.

(** A default bulk read that fills less than its output range has reached
    the end of the record, or of the section it started in. *)
Lemma default_read_stops st out n out' st' :
  small_range out ->
  default_read_bits_into_bytes rb ie crt st out = Ok (n, out', st') ->
  n < 8 * Z.of_nat (length out) ->
  ie st' = Ok true \/ (ie st' = Ok false /\ crt st' <> crt st).
Proof.
  unfold default_read_bits_into_bytes, small_range. intros Hsmall H Hshort.
  destruct (ie st) as [[|]|] eqn:Eie; cbn in H; [| |discriminate].
  - injection H as <- <- <-. now left.
  - apply default_bytes_loop_stop in H; [|lia..].
    destruct H as ([|] & He & Hstop); [now left|].
    right. split; [assumption|]. cbn in Hstop.
    destruct (Z.eqb_spec (crt st') (crt st)); [discriminate | assumption].
Qed.

End DefaultStops.

(** ** What the lexer helpers leave of the input *)

Lemma byte_val_inj b1 b2 : byte_val b1 = byte_val b2 -> b1 = b2.
Proof.
  unfold byte_val. intros H. apply N2Z.inj in H.
  pose proof (Byte.of_to_N b1) as H1. pose proof (Byte.of_to_N b2) as H2.
  rewrite H in H1. congruence.
Qed.

Lemma read_uint64_digits_left inp : forall v c v' c' inp',
  read_uint64_digits v c inp = Ok (v', c', inp') ->
  (isdigit c = false /\ c' = c /\ inp' = inp)
  \/ (isdigit c = true
      /\ ((c' = EOF /\ inp' = [])
          \/ exists pre b, inp = pre ++ b :: inp' /\ c' = byte_val b)).
Proof.
  induction inp as [|b inp IH]; intros v c v' c' inp' H;
    rewrite read_uint64_digits_eq in H;
    (destruct (isdigit c) eqn:Ec; [|injection H as <- <- <-; left; tauto]);
    cbv zeta in H; (destruct (_ <? _) in H; [discriminate|]); cbn [getc] in H; right;
    (split; [reflexivity|]).
  - rewrite read_uint64_digits_eq, isdigit_EOF in H. injection H as <- <- <-. left. tauto.
  - apply IH in H as [(_ & -> & ->)|(_ & [[-> ->]|(pre & b' & -> & ->)])].
    + right. exists [], b. split; reflexivity.
    + left. tauto.
    + right. exists (b :: pre), b'. split; reflexivity.
Qed.

(** A number that has been read ends at the end of the stream or at a byte
    of the input, and [read_uint64] throws for overflow only. *)
Lemma read_uint64_left inp c include_next v c' inp' :
  read_uint64 inp c include_next = Ok (true, v, c', inp') ->
  (c' = EOF /\ inp' = [])
  \/ exists pre b, inp = pre ++ b :: inp' /\ c' = byte_val b.
Proof.
  unfold read_uint64. destruct include_next.
  - destruct (isdigit c) eqn:Ec; cbn [negb]; [|discriminate].
    destruct (read_uint64_digits 0 c inp) as [[[v1 c1] inp1]|] eqn:E; cbn; [|discriminate].
    intros H. injection H as <- <- <-.
    apply read_uint64_digits_left in E as [(Hc & _)|(_ & H)]; [congruence | exact H].
  - destruct inp as [|b inp1]; cbn [getc]; [rewrite isdigit_EOF; discriminate|].
    destruct (isdigit (byte_val b)) eqn:Ec; cbn [negb]; [|discriminate].
    destruct (read_uint64_digits 0 (byte_val b) inp1) as [[[v1 c1] inp2]|] eqn:E;
      cbn; [|discriminate].
    intros H. injection H as <- <- <-.
    apply read_uint64_digits_left in E
      as [(Hc & _)|(_ & [[-> ->]|(pre & b' & -> & ->)])]; [congruence| |].
    + left. tauto.
    + right. exists (b :: pre), b'. split; reflexivity.
Qed.

(** A number read after a fresh [getc] has used at least one byte. *)
Lemma read_uint64_consumes inp c v c' inp' :
  read_uint64 inp c false = Ok (true, v, c', inp') ->
  (length inp' < length inp)%nat.
Proof.
  unfold read_uint64. destruct inp as [|b inp1]; cbn [getc];
    [rewrite isdigit_EOF; discriminate|].
  destruct (isdigit (byte_val b)) eqn:Ec; cbn [negb]; [|discriminate].
  destruct (read_uint64_digits 0 (byte_val b) inp1) as [[[v1 c1] inp2]|] eqn:E;
    cbn; [|discriminate].
  intros H. injection H as <- <- <-.
  apply read_uint64_digits_left in E
    as [(Hc & _)|(_ & [[-> ->]|(pre & b' & -> & ->)])]; [congruence| |].
  - cbn. lia.
  - cbn [length]. rewrite length_app. cbn [length]. lia.
Qed.

Lemma read_uint64_digits_throws inp : forall v c e,
  read_uint64_digits v c inp = Throw e -> e = IntegerTooBig.
Proof.
  induction inp as [|b inp IH]; intros v c e H; rewrite read_uint64_digits_eq in H;
    (destruct (isdigit c); [|discriminate]); cbv zeta in H;
    (destruct (_ <? _) in H; [now injection H as <-|]); cbn [getc] in H.
  - rewrite read_uint64_digits_eq, isdigit_EOF in H. discriminate.
  - eapply IH. exact H.
Qed.

Lemma read_uint64_throws inp c include_next e :
  read_uint64 inp c include_next = Throw e -> e = IntegerTooBig.
Proof.
  unfold read_uint64.
  destruct (if include_next then (c, inp) else getc inp) as [c1 inp1].
  destruct (negb (isdigit c1)); [discriminate|].
  destruct (read_uint64_digits 0 c1 inp1) as [[[v1 c2] inp2]|] eqn:E; cbn; [discriminate|].
  intros H. injection H as <-. eapply read_uint64_digits_throws. exact E.
Qed.

(** ** HITS: a line needs its newline *)

Module HitsEnd.
Import MeasureRecordReaderFormatHits HitsLine.

(** The loop returns only on a newline. *)
Lemma hits_loop_newline budget m : forall c is_first buffer inp r,
  hits_loop budget m c is_first buffer inp = Ok r ->
  c = ch_newline \/ In x0a inp.
Proof.
  induction budget as [|budget IH]; intros c is_first buffer inp r H.
  - cbn in H. destruct (Z.eqb_spec c ch_newline); [now left | discriminate].
  - rewrite hits_loop_eq in H.
    destruct (Z.eqb_spec c ch_newline) as [|Hc]; [now left|]. right.
    destruct (read_uint64 inp c is_first) as [[[[found v] c1] inp1]|] eqn:Eread;
      cbn in H; [|discriminate].
    destruct found; cbn [negb] in H; [|discriminate].
    destruct (negb (c1 =? ch_comma) && negb (c1 =? ch_newline)) eqn:Esep; [discriminate|].
    destruct (v >=? m); [discriminate|].
    apply read_uint64_left in Eread as [[-> ->]|(pre & b & -> & ->)]; [discriminate|].
    apply IH in H as [Hnl|Hin].
    + apply (byte_val_inj b x0a) in Hnl as ->. apply in_or_app. right. now left.
    + apply in_or_app. right. now right.
Qed.

(** The budget of the loop is never used up. *)
Lemma hits_loop_budget budget m : forall c is_first buffer inp,
  (length inp < budget)%nat ->
  hits_loop budget m c is_first buffer inp <> Throw LoopBudgetExhausted.
Proof.
  induction budget as [|budget IH]; intros c is_first buffer inp Hlen; [lia|].
  rewrite hits_loop_eq.
  destruct (c =? ch_newline); [discriminate|].
  destruct (read_uint64 inp c is_first) as [[[[found v] c1] inp1]|e] eqn:Eread; cbn.
  - destruct found; cbn [negb]; [|discriminate].
    destruct (negb (c1 =? ch_comma) && negb (c1 =? ch_newline)) eqn:Esep; [discriminate|].
    destruct (v >=? m); [discriminate|].
    apply read_uint64_left in Eread as [[-> ->]|(pre & b & -> & ->)]; [discriminate|].
    apply IH. rewrite length_app in Hlen. cbn [length] in Hlen. lia.
  - apply read_uint64_throws in Eread as ->. discriminate.
Qed.

(** A line that the end of the stream cuts before its newline is an
    error. *)
Lemma start_record_cut_line st :
  inp st <> [] -> ~ In x0a (inp st) ->
  exists e, start_record st = Throw e /\ e <> LoopBudgetExhausted.
Proof.
  intros Hne Hnl. unfold start_record.
  destruct (inp st) as [|b inp1]; [congruence|]. cbn [getc].
  destruct (Z.eqb_spec (byte_val b) EOF) as [He|_]; [now apply byte_val_not_EOF in He|].
  destruct (hits_loop (S (length inp1)) (bits_per_record st) (byte_val b) true
                      (buffer_clear (buffer st)) inp1) as [r|e] eqn:Eloop; cbn.
  - exfalso. apply hits_loop_newline in Eloop as [Hc|Hin].
    + apply (byte_val_inj b x0a) in Hc as ->. apply Hnl. now left.
    + apply Hnl. now right.
  - exists e. split; [reflexivity|]. intros ->.
    apply (hits_loop_budget (S (length inp1)) (bits_per_record st) (byte_val b) true
             (buffer_clear (buffer st)) inp1); [lia | exact Eloop].
Qed.

End HitsEnd.

(** ** The loop budgets are never used up *)

Module Budgets.

Lemma skip_spaces_length inp : forall c c1 inp1,
  MeasureRecordReaderFormatDets.skip_spaces c inp = (c1, inp1) ->
  (length inp1 <= length inp)%nat.
Proof.
  induction inp as [|b inp IH]; intros c c1 inp1 H;
    rewrite DetsLine.skip_spaces_eq in H; destruct (c =? ch_space); cbn [getc] in H.
  - rewrite DetsLine.skip_spaces_eq in H. cbn in H. injection H as <- <-. lia.
  - injection H as <- <-. lia.
  - apply IH in H. cbn [length]. lia.
  - injection H as <- <-. lia.
Qed.

Lemma dets_loop_budget budget m d l : forall c buffer inp,
  (length inp <= budget)%nat ->
  MeasureRecordReaderFormatDets.dets_loop budget m d l c buffer inp
  <> Throw LoopBudgetExhausted.
Proof.
  induction budget as [|budget IH]; intros c buffer inp Hlen;
    rewrite DetsLine.dets_loop_eq; cbv zeta;
    destruct (MeasureRecordReaderFormatDets.skip_spaces c inp) as [c1 inp1] eqn:Eskip;
    apply skip_spaces_length in Eskip;
    (destruct ((c1 =? ch_newline) || (c1 =? EOF)); [discriminate|]);
    (destruct (negb (c =? ch_space)); [discriminate|]);
    (destruct (c1 =? ch_M);
     [|destruct (c1 =? ch_D); [|destruct (c1 =? ch_L); [|discriminate]]]);
    cbn [mbind result_bind];
    (destruct (read_uint64 inp1 c1 false) as [[[[found v] c2] inp2]|e] eqn:Eread;
     cbn [mbind result_bind];
     [|apply read_uint64_throws in Eread as ->; discriminate]);
    (destruct found; cbn [negb]; [|discriminate]);
    (destruct (v >=? _); [discriminate|]);
    apply read_uint64_consumes in Eread;
    first [apply IH; lia | exfalso; lia].
Qed.

Lemma b8_skip_bits_budget budget : forall st,
  b8_inv st ->
  MeasureRecordReaderFormatB8.bits_per_record st
  - MeasureRecordReaderFormatB8.position st <= Z.of_nat budget ->
  MeasureRecordReaderFormatB8.skip_bits budget st <> Throw LoopBudgetExhausted.
Proof.
  induction budget as [|budget IH]; intros st [Hpos Hm] Hleft;
    cbn [MeasureRecordReaderFormatB8.skip_bits];
    unfold MeasureRecordReaderFormatB8.is_end_of_record;
    destruct (Z.geb_spec (MeasureRecordReaderFormatB8.position st)
                         (MeasureRecordReaderFormatB8.bits_per_record st));
    try discriminate; [lia|].
  destruct (MeasureRecordReaderFormatB8.read_bit st) as [[bit st1]|e] eqn:Eread; cbn.
  - unfold MeasureRecordReaderFormatB8.read_bit in Eread.
    destruct (_ >=? _) in Eread; [discriminate|].
    destruct (_ =? EOF) in Eread; [discriminate|]. injection Eread as <- <-.
    apply IH; unfold b8_inv, MeasureRecordReaderFormatB8.maybe_update_payload;
      (destruct (MeasureRecordReaderFormatB8.bits_available st >? 0);
       [|destruct (getc (MeasureRecordReaderFormatB8.inp st))]); cbn;
      rewrite (wrap64_small (_ + 1)) by lia; lia.
  - unfold MeasureRecordReaderFormatB8.read_bit in Eread.
    destruct (_ >=? _) in Eread; [injection Eread as <-; discriminate|].
    destruct (_ =? EOF) in Eread; [injection Eread as <-|]; discriminate.
Qed.

Lemma count_zeroes_throws inp : forall acc pos e,
  MeasureRecordReaderFormatR8.count_zeroes inp acc pos = Throw e ->
  e = R8EndedOnContinuation.
Proof.
  induction inp as [|b inp IH]; intros acc pos e H;
    cbn [MeasureRecordReaderFormatR8.count_zeroes] in H.
  - destruct (_ && _) in H; [discriminate | congruence].
  - destruct (byte_val b =? 255); [eauto | discriminate].
Qed.

(** Cases on the tests of a computation [H] that is claimed to have thrown
    what it never throws. *)
Ltac never_thrown H :=
  repeat (cbn [mbind result_bind negb] in H;
          match type of H with
          | Throw _ = Throw _ => discriminate H
          | Ok _ = Throw _ => discriminate H
          | context [if ?b then _ else _] => destruct b
          | context [let '(_, _) := ?p in _] => destruct p
          end).

Lemma r8_maybe_buffer_data_throws st :
  MeasureRecordReaderFormatR8.maybe_buffer_data st <> Throw LoopBudgetExhausted.
Proof.
  unfold MeasureRecordReaderFormatR8.maybe_buffer_data. intros H.
  destruct (MeasureRecordReaderFormatR8.count_zeroes _ _ _) as [[[b0 inp']|]|e] eqn:Ecount;
    [| |apply count_zeroes_throws in Ecount as ->]; never_thrown H.
Qed.

Lemma r8_read_bit_throws st :
  MeasureRecordReaderFormatR8.read_bit st <> Throw LoopBudgetExhausted.
Proof.
  unfold MeasureRecordReaderFormatR8.read_bit,
    MeasureRecordReaderFormatR8.assert_maybe_buffer_data.
  pose proof (r8_maybe_buffer_data_throws st) as Hbuf. intros H.
  destruct ((_ =? 0) && (_ =? 0)) in H.
  - destruct (MeasureRecordReaderFormatR8.maybe_buffer_data st) as [[[|] st1]|e];
      cbn [mbind result_bind] in H.
    + never_thrown H.
    + discriminate H.
    + congruence.
  - never_thrown H.
Qed.

Lemma r8_skip_bits_budget budget : forall st,
  r8_inv st ->
  MeasureRecordReaderFormatR8.bits_per_record st
  - MeasureRecordReaderFormatR8.position st <= Z.of_nat budget ->
  MeasureRecordReaderFormatR8.skip_bits budget st <> Throw LoopBudgetExhausted.
Proof.
  induction budget as [|budget IH]; intros st Hinv Hleft;
    cbn [MeasureRecordReaderFormatR8.skip_bits];
    destruct (MeasureRecordReaderFormatR8.is_end_of_record st) eqn:Eend; try discriminate.
  - exfalso. destruct Hinv as (Hpos & Hb0 & Hb1 & _ & Htotal).
    unfold MeasureRecordReaderFormatR8.is_end_of_record in Eend.
    destruct (MeasureRecordReaderFormatR8.have_seen_terminal_1 st).
    + destruct (Z.eqb_spec (MeasureRecordReaderFormatR8.position st)
                           (MeasureRecordReaderFormatR8.bits_per_record st));
        [discriminate | cbn in Hleft; lia].
    + cbn in Hleft. lia.
  - destruct (MeasureRecordReaderFormatR8.read_bit st) as [[bit st1]|e] eqn:Eread; cbn.
    + pose proof (R8Facts.read_bit_inv _ _ _ Hinv Eread) as Hinv1.
      apply IH; [assumption|].
      assert (MeasureRecordReaderFormatR8.position st1
              = MeasureRecordReaderFormatR8.position st + 1
              /\ MeasureRecordReaderFormatR8.bits_per_record st1
                 = MeasureRecordReaderFormatR8.bits_per_record st) as [-> ->]; [|lia].
      clear IH Hleft Eend. unfold MeasureRecordReaderFormatR8.read_bit in Eread.
      assert (Hstep : forall s, r8_inv s ->
        (if negb (MeasureRecordReaderFormatR8.buffered_0s s =? 0) then
           Ok (false, MeasureRecordReaderFormatR8.mk
                        (MeasureRecordReaderFormatR8.inp s)
                        (MeasureRecordReaderFormatR8.bits_per_record s)
                        (wrap64 (MeasureRecordReaderFormatR8.position s + 1))
                        (MeasureRecordReaderFormatR8.have_seen_terminal_1 s)
                        (wrap64 (MeasureRecordReaderFormatR8.buffered_0s s - 1))
                        (MeasureRecordReaderFormatR8.buffered_1s s))
         else if negb (MeasureRecordReaderFormatR8.buffered_1s s =? 0) then
           Ok (true, MeasureRecordReaderFormatR8.mk
                       (MeasureRecordReaderFormatR8.inp s)
                       (MeasureRecordReaderFormatR8.bits_per_record s)
                       (wrap64 (MeasureRecordReaderFormatR8.position s + 1))
                       (MeasureRecordReaderFormatR8.have_seen_terminal_1 s)
                       (MeasureRecordReaderFormatR8.buffered_0s s)
                       (wrap64 (MeasureRecordReaderFormatR8.buffered_1s s - 1)))
         else Throw R8ReadPastEnd) = Ok (bit, st1) ->
        MeasureRecordReaderFormatR8.position st1
        = MeasureRecordReaderFormatR8.position s + 1
        /\ MeasureRecordReaderFormatR8.bits_per_record st1
           = MeasureRecordReaderFormatR8.bits_per_record s).
      { intros s (Hpos & Hb0 & Hb1 & Hfit & Htotal) Hs.
        assert (MeasureRecordReaderFormatR8.position s
                + MeasureRecordReaderFormatR8.buffered_0s s
                + MeasureRecordReaderFormatR8.buffered_1s s
                <= MeasureRecordReaderFormatR8.bits_per_record s)
          by (revert Htotal; destruct (MeasureRecordReaderFormatR8.have_seen_terminal_1 s); lia).
        destruct (Z.eqb_spec (MeasureRecordReaderFormatR8.buffered_0s s) 0);
          cbn [negb] in Hs.
        - destruct (Z.eqb_spec (MeasureRecordReaderFormatR8.buffered_1s s) 0);
            cbn [negb] in Hs; [discriminate|].
          injection Hs as <- <-. cbn. rewrite wrap64_small by lia. tauto.
        - injection Hs as <- <-. cbn. rewrite wrap64_small by lia. tauto. }
      destruct ((_ =? 0) && (_ =? 0)) eqn:Ezero in Eread.
      * apply andb_true_iff in Ezero as [E0 E1]. apply Z.eqb_eq in E0, E1.
        unfold MeasureRecordReaderFormatR8.assert_maybe_buffer_data in Eread.
        destruct (MeasureRecordReaderFormatR8.maybe_buffer_data st) as [[ok s1]|] eqn:Ebuf;
          cbn in Eread; [|discriminate].
        destruct ok; cbn in Eread; [|discriminate].
        apply R8Facts.maybe_buffer_data_inv in Ebuf as (Hinv' & Hp & Hm & _);
          [|now apply R8Facts.r8_inv_buffer_ready].
        rewrite <- Hp, <- Hm. now apply Hstep.
      * cbn in Eread. now apply Hstep.
    + intros H. injection H as ->. now apply (r8_read_bit_throws st).
Qed.

End Budgets.

(** ** The end of the stream inside a record *)

Module MidRecord.

Lemma r8_bits_loop_stop todo : forall k b n st b' n' st',
  MeasureRecordReaderFormatR8.bits_loop todo k b n st = Ok (true, b', n', st') ->
  MeasureRecordReaderFormatR8.is_end_of_record st' = true.
Proof.
  induction todo as [|todo IH]; intros k b n st b' n' st' H;
    cbn [MeasureRecordReaderFormatR8.bits_loop] in H; [discriminate|].
  assert (Hrest : forall st1,
    (if MeasureRecordReaderFormatR8.is_end_of_record st1 then Ok (true, b, n, st1)
     else '(bit, st2) ← MeasureRecordReaderFormatR8.read_bit st1;
          MeasureRecordReaderFormatR8.bits_loop
            todo (k + 1) (wrap8 (Z.lor b (Z.shiftl (Z.b2z bit) k))) (wrap64 (n + 1)) st2)
    = Ok (true, b', n', st') ->
    MeasureRecordReaderFormatR8.is_end_of_record st' = true).
  { intros st1 Hst1.
    destruct (MeasureRecordReaderFormatR8.is_end_of_record st1) eqn:Eend.
    - now injection Hst1 as <- <- <-.
    - destruct (MeasureRecordReaderFormatR8.read_bit st1) as [[bit st2]|];
        cbn [mbind result_bind] in Hst1; [|discriminate].
      eapply IH. exact Hst1. }
  destruct ((MeasureRecordReaderFormatR8.buffered_0s st =? 0)
            && (MeasureRecordReaderFormatR8.buffered_1s st =? 0)
            && negb (MeasureRecordReaderFormatR8.have_seen_terminal_1 st)).
  - destruct (MeasureRecordReaderFormatR8.assert_maybe_buffer_data st) as [st1|];
      cbn [mbind result_bind] in H; [now apply (Hrest st1) | discriminate].
  - now apply (Hrest st).
Qed.

Lemma r8_bytes_loop_stop out : forall n st n' out' st',
  r8_inv st ->
  MeasureRecordReaderFormatR8.bytes_loop out n st = Ok (n', out', st') ->
  0 <= n -> n + 8 * Z.of_nat (length out) < 2 ^ 64 ->
  n' < n + 8 * Z.of_nat (length out) ->
  MeasureRecordReaderFormatR8.is_end_of_record st' = true.
Proof.
  induction out as [|b0 out IH]; intros n st n' out' st' Hinv H Hn Hn64 Hshort.
  - cbn in H. injection H as <- <- <-. cbn in Hshort. lia.
  - cbn [MeasureRecordReaderFormatR8.bytes_loop] in H. cbn [length] in Hn64, Hshort.
    destruct (Z.geb_spec (MeasureRecordReaderFormatR8.buffered_0s st) 8) as [Hrun|Hrun].
    + pose proof Hinv as (Hpos & Hb0 & Hb1 & Hfit & Htotal).
      assert (MeasureRecordReaderFormatR8.position st
              + MeasureRecordReaderFormatR8.buffered_0s st
              + MeasureRecordReaderFormatR8.buffered_1s st
              <= MeasureRecordReaderFormatR8.bits_per_record st)
        by (revert Htotal;
            destruct (MeasureRecordReaderFormatR8.have_seen_terminal_1 st); lia).
      rewrite (wrap64_small (MeasureRecordReaderFormatR8.position st + 8)),
        (wrap64_small (MeasureRecordReaderFormatR8.buffered_0s st - 8)),
        (wrap64_small (n + 8)) in H by lia.
      pose proof (R8Facts.read_zero_bits 8 st Hinv ltac:(cbn; lia)) as Hzero.
      change (Z.of_nat 8) with 8 in Hzero.
      destruct (MeasureRecordReaderFormatR8.bytes_loop out (n + 8) _)
        as [[[n2 out2] st2]|] eqn:Erest; cbn in H; [|discriminate].
      injection H as <- <- <-.
      eapply IH; [|exact Erest|lia..].
      eapply R8Bulk.read_bits_inv; [exact Hinv | exact Hzero].
    + destruct (MeasureRecordReaderFormatR8.bits_loop 8 0 0 n st)
        as [[[[returned b] n1] st1]|] eqn:Ebits; cbn in H; [|discriminate].
      destruct returned.
      * injection H as <- <- <-. eapply r8_bits_loop_stop. exact Ebits.
      * apply R8Bulk.bits_loop_ok in Ebits; try lia; [|assumption].
        destruct Ebits as (bits1 & _ & _ & Hlen & _ & Hn1 & Hinv1).
        specialize (Hlen eq_refl).
        destruct (MeasureRecordReaderFormatR8.bytes_loop out n1 st1)
          as [[[n2 out2] st2]|] eqn:Erest; cbn in H; [|discriminate].
        injection H as <- <- <-. eapply IH; [exact Hinv1|exact Erest|lia..].
Qed.

Lemma r8_read_bit_at_eof st :
  MeasureRecordReaderFormatR8.buffered_0s st = 0 ->
  MeasureRecordReaderFormatR8.buffered_1s st = 0 ->
  MeasureRecordReaderFormatR8.inp st = [] ->
  MeasureRecordReaderFormatR8.read_bit st
  = Throw (if MeasureRecordReaderFormatR8.is_end_of_record st then R8BufferPastEnd
           else if MeasureRecordReaderFormatR8.position st =? 0 then AssertionFailed
           else R8EndedOnContinuation).
Proof.
  intros E0 E1 Einp.
  unfold MeasureRecordReaderFormatR8.read_bit,
    MeasureRecordReaderFormatR8.assert_maybe_buffer_data,
    MeasureRecordReaderFormatR8.maybe_buffer_data.
  rewrite E0, E1, Einp. cbn [Z.eqb andb negb MeasureRecordReaderFormatR8.count_zeroes].
  destruct (MeasureRecordReaderFormatR8.is_end_of_record st); [reflexivity|].
  destruct (MeasureRecordReaderFormatR8.position st =? 0); reflexivity.
Qed.

Lemma f01_at_eof st out :
  MeasureRecordReaderFormat01.payload st = EOF ->
  MeasureRecordReaderFormat01.position st < MeasureRecordReaderFormat01.bits_per_record st ->
  MeasureRecordReaderFormat01.read_bit st = Throw PastEndOfFile
  /\ MeasureRecordReaderFormat01.is_end_of_record st = Throw RecordEndedEarly
  /\ MeasureRecordReaderFormat01.read_bits_into_bytes st out = Throw RecordEndedEarly.
Proof.
  intros He Hpos.
  assert (Hend : MeasureRecordReaderFormat01.is_end_of_record st = Throw RecordEndedEarly).
  { apply Format01Facts.is_end_of_record_cases. split; [now left | assumption]. }
  split; [|split; [exact Hend|]].
  - unfold MeasureRecordReaderFormat01.read_bit. now rewrite He.
  - unfold MeasureRecordReaderFormat01.read_bits_into_bytes, default_read_bits_into_bytes.
    now rewrite Hend.
Qed.

Lemma b8_read_bit_at_eof st :
  (MeasureRecordReaderFormatB8.bits_available st >? 0) = false ->
  MeasureRecordReaderFormatB8.inp st = [] ->
  MeasureRecordReaderFormatB8.position st < MeasureRecordReaderFormatB8.bits_per_record st ->
  MeasureRecordReaderFormatB8.read_bit st = Throw PastEndOfFile.
Proof.
  intros Ha Einp Hpos.
  unfold MeasureRecordReaderFormatB8.read_bit,
    MeasureRecordReaderFormatB8.maybe_update_payload.
  destruct (Z.geb_spec (MeasureRecordReaderFormatB8.position st)
                       (MeasureRecordReaderFormatB8.bits_per_record st)); [lia|].
  now rewrite Ha, Einp.
Qed.

Lemma dets_keyword_cut st :
  In (MeasureRecordReaderFormatDets.inp st) [[x73]; [x73; x68]; [x73; x68; x6f]] ->
  MeasureRecordReaderFormatDets.start_record st = Throw KeywordNotFound.
Proof.
  unfold MeasureRecordReaderFormatDets.start_record.
  intros [<-|[<-|[<-|[]]]]; reflexivity.
Qed.

End MidRecord.

(** Against C3 as stated. With (m, d, l) = (2, 3, 1), the line
    "shot M0 D2 L0" cut by the end of
    the stream before its newline is read as a whole record, without an
    error. *)
Lemma dets_cut_line_is_a_record :
  exists st0 st1 st2,
    MeasureRecordReaderFormatDets.start_record
      (MeasureRecordReaderFormatDets.make Scenarios.dets_m0_d2_l0_cut 2 3 1)
    = Ok (true, st0)
    /\ read_bits MeasureRecordReaderFormatDets.read_bit 6 st0
       = Ok ([true; false; false; false; true; true], st1)
    /\ MeasureRecordReaderFormatDets.is_end_of_record st1 = true
    /\ MeasureRecordReaderFormatDets.start_record st1 = Ok (false, st2).
Proof.
  do 3 eexists.
  split; [run_reader|]. split; [run_reader|]. split; [run_reader|]. run_reader.
Qed.

(** With m = 16 and the stream {0x2A}: after [start_record] and a bulk read
    of the eight bits of the first byte, the block read of the second call
    finds the stream at its end and returns 0 bits, leaving the record
    unfinished, where [read_bit] throws. *)
Lemma b8_block_read_short_at_eof :
  exists st0 st1,
    MeasureRecordReaderFormatB8.start_record
      (MeasureRecordReaderFormatB8.make Scenarios.b8_half_record 16) = Ok (true, st0)
    /\ MeasureRecordReaderFormatB8.read_bits_into_bytes st0 [0] = Ok (8, [42], st1)
    /\ MeasureRecordReaderFormatB8.read_bits_into_bytes st1 [0] = Ok (0, [0], st1)
    /\ MeasureRecordReaderFormatB8.is_end_of_record st1 = false
    /\ MeasureRecordReaderFormatB8.read_bit st1 = Throw PastEndOfFile.
Proof.
  do 2 eexists.
  split; [run_reader|]. split; [run_reader|]. split; [run_reader|].
  split; [run_reader|]. run_reader.
Qed.

(** * Further properties of the code *)

(** ** The lexer helpers *)

(** What the digit loop computes on any numeral: the value modulo 2^64 when
    it returns, and it throws only when the numeral does not fit. [V] is the
    number read so far, [v] what the 64-bit variable holds of it. *)
Lemma read_uint64_digits_mod ds : forall d v V after,
  is_digit_byte d -> Forall is_digit_byte ds -> stops after ->
  0 <= V -> v = V mod 2 ^ 64 ->
  match read_uint64_digits v (byte_val d) (ds ++ after) with
  | Ok (v', c, rest) =>
      v' = digits_value V (d :: ds) mod 2 ^ 64
      /\ c = (getc after).1 /\ rest = (getc after).2
  | Throw e => e = IntegerTooBig /\ 2 ^ 64 <= digits_value V (d :: ds)
  end.
Proof.
  induction ds as [|d' ds IH]; intros d v V after Hd Hds Hstop HV Hv;
    rewrite digits_value_cons; pose proof (isdigit_range _ Hd) as Hr;
    rewrite read_uint64_digits_eq, Hd; cbv zeta;
    assert (Hstep : wrap64 (wrap64 (v * 10) + (byte_val d - ch_0))
                    = (10 * V + (byte_val d - ch_0)) mod 2 ^ 64)
      by (unfold wrap64; subst v;
          rewrite Z.add_mod_idemp_l by lia;
          rewrite <- (Z.add_mod_idemp_l (10 * V)) by lia;
          rewrite <- (Z.mul_mod_idemp_r 10 V) by lia;
          rewrite Z.add_mod_idemp_l by lia;
          f_equal; ring);
    rewrite Hstep;
    pose proof (Z.mod_pos_bound V (2 ^ 64) ltac:(lia)) as HvV;
    pose proof (Z.mod_le V (2 ^ 64) HV ltac:(lia)) as HvV';
    pose proof (Z.mod_pos_bound (10 * V + (byte_val d - ch_0)) (2 ^ 64) ltac:(lia)) as Hnew;
    unfold ch_0 in *;
    destruct (Z.ltb_spec ((10 * V + (byte_val d - 48)) mod 2 ^ 64) v) as [Hlt|Hge].
  - split; [reflexivity|]. cbn [digits_value fold_left].
    destruct (Z.lt_ge_cases (10 * V + (byte_val d - 48)) (2 ^ 64)) as [Hfit|]; [|assumption].
    rewrite Z.mod_small in Hlt by lia. lia.
  - cbn [app]. destruct (getc after) as [c rest] eqn:E. cbn [fst snd].
    unfold stops in Hstop. rewrite E in Hstop. cbn [fst] in Hstop.
    rewrite read_uint64_digits_eq, Hstop. cbn [digits_value fold_left]. auto.
  - split; [reflexivity|]. inversion Hds; subst.
    destruct (Z.lt_ge_cases (10 * V + (byte_val d - 48)) (2 ^ 64)) as [Hfit|Hbig].
    + rewrite Z.mod_small in Hlt by lia. lia.
    + etransitivity; [exact Hbig|]. apply digits_value_ge; [assumption | lia].
  - inversion Hds; subst. cbn [app getc].
    apply IH; try assumption; [lia | reflexivity].
Qed.

(** The text "30000000000000000000" (3 * 10^19). *)
Lemma thirty_quintillion_wraps :
  read_uint64 ([x33] ++ replicate 19 x30) 0 false
  = Ok (true, 11553255926290448384, EOF, []).
Proof. vm_compute. reflexivity. Qed.

(** X1. On a numeral whose value fits 64 bits, with a byte that is no digit
    (or the end of the stream) after it, [read_uint64] answers true with
    that value, the byte after the numeral in [next] and the stream behind
    it; leading zeroes do not matter. This holds whether the first digit is
    read from the stream or passed in [next]. When the first character is no
    digit it answers false and has read that one character, or nothing when
    the character was passed in. *)
Theorem read_uint64_reads_numerals :
  (forall t after c0,
      numeral t -> stops after -> decimal_value t < 2 ^ 64 ->
      read_uint64 (t ++ after) c0 false
      = Ok (true, decimal_value t, (getc after).1, (getc after).2))
  /\ (forall d ds after,
      numeral (d :: ds) -> stops after -> decimal_value (d :: ds) < 2 ^ 64 ->
      read_uint64 (ds ++ after) (byte_val d) true
      = Ok (true, decimal_value (d :: ds), (getc after).1, (getc after).2))
  /\ (forall inp c0,
      stops inp ->
      exists v, read_uint64 inp c0 false = Ok (false, v, (getc inp).1, (getc inp).2))
  /\ (forall inp c,
      isdigit c = false ->
      exists v, read_uint64 inp c true = Ok (false, v, c, inp)).
Proof.
  split; [|split; [|split]].
  - intros t after c0 [Hne Ht] Hstop Hfit. destruct t as [|d ds]; [congruence|].
    inversion Ht; subst. unfold read_uint64. cbn [app getc].
    replace (isdigit (byte_val d)) with true by (symmetry; assumption). cbn [negb].
    rewrite read_uint64_digits_numeral; try assumption; [reflexivity | lia].
  - intros d ds after [Hne Ht] Hstop Hfit. inversion Ht; subst. unfold read_uint64.
    replace (isdigit (byte_val d)) with true by (symmetry; assumption). cbn [negb].
    rewrite read_uint64_digits_numeral; try assumption; [reflexivity | lia].
  - intros inp c0 Hstop. unfold read_uint64, stops in *.
    destruct (getc inp) as [c rest]. cbn [fst snd] in *. rewrite Hstop. cbn [negb].
    now exists 0.
  - intros inp c Hc. unfold read_uint64. rewrite Hc. cbn [negb]. now exists 0.
Qed.

(** The numeral "007" before a comma. *)
Lemma read_uint64_reads_numerals_witness :
  read_uint64 ([x30; x30; x37] ++ [x2c; x31]) 0 false = Ok (true, 7, 44, [x31]).
Proof.
  apply (proj1 read_uint64_reads_numerals [x30; x30; x37] [x2c; x31] 0).
  - split; [discriminate|]. repeat constructor.
  - reflexivity.
  - vm_compute. reflexivity.
Defined.

(** X2. On any numeral [read_uint64] either answers its value modulo 2^64
    or throws "too big", and it throws only when the value does not fit 64
    bits. The check [value < prev_value] does not catch every numeral that
    does not fit: some are read as their value modulo 2^64. *)
Theorem read_uint64_wraps_silently :
  (forall t after c0,
      numeral t -> stops after ->
      match read_uint64 (t ++ after) c0 false with
      | Ok (found, v, c, rest) =>
          found = true /\ v = decimal_value t mod 2 ^ 64
          /\ c = (getc after).1 /\ rest = (getc after).2
      | Throw e => e = IntegerTooBig /\ 2 ^ 64 <= decimal_value t
      end)
  /\ (exists t v,
      numeral t /\ 2 ^ 64 <= decimal_value t
      /\ read_uint64 t 0 false = Ok (true, v, EOF, [])).
Proof.
  split.
  - intros t after c0 [Hne Ht] Hstop. destruct t as [|d ds]; [congruence|].
    inversion Ht; subst. unfold read_uint64. cbn [app getc].
    replace (isdigit (byte_val d)) with true by (symmetry; assumption). cbn [negb].
    pose proof (read_uint64_digits_mod ds d 0 0 after
                  ltac:(assumption) ltac:(assumption) Hstop ltac:(lia) eq_refl) as H.
    destruct (read_uint64_digits 0 (byte_val d) (ds ++ after)) as [[[v c] rest]|e];
      cbn [mbind result_bind]; [|exact H].
    destruct H as (Hv & Hc & Hrest). auto.
  - exists ([x33] ++ replicate 19 x30), 11553255926290448384.
    split; [split; [discriminate | repeat constructor]|].
    split; [vm_compute; discriminate | exact thirty_quintillion_wraps].
Qed.

(** The numeral "18446744073709551616" (2^64) is refused. *)
Lemma read_uint64_wraps_silently_witness :
  read_uint64 [x31; x38; x34; x34; x36; x37; x34; x34; x30; x37;
               x33; x37; x30; x39; x35; x35; x31; x36; x31; x36] 0 false
  = Throw IntegerTooBig.
Proof.
  pose proof (proj1 read_uint64_wraps_silently
                [x31; x38; x34; x34; x36; x37; x34; x34; x30; x37;
                 x33; x37; x30; x39; x35; x35; x31; x36; x31; x36] [] 0) as H.
  rewrite app_nil_r in H.
  destruct (read_uint64 _ 0 false) as [[[[found v] c] rest]|e] eqn:E.
  - vm_compute in E. discriminate.
  - destruct H as [-> _]; [|reflexivity|reflexivity].
    split; [discriminate | repeat constructor].
Defined.

Lemma consume_keyword_chars_found kw : forall rest,
  consume_keyword_chars (byte_val <$> kw) (getc (kw ++ rest)).1 (getc (kw ++ rest)).2
  = Ok (getc rest).
Proof.
  induction kw as [|b kw IH]; intros rest; cbn [fmap list_fmap consume_keyword_chars app].
  - now destruct (getc rest).
  - cbn [getc fst snd]. rewrite Z.eqb_refl. cbn [negb].
    specialize (IH rest). destruct (getc (kw ++ rest)) as [c inp']. exact IH.
Qed.

Lemma consume_keyword_chars_missing kw : forall inp,
  ~ kw `prefix_of` inp ->
  consume_keyword_chars (byte_val <$> kw) (getc inp).1 (getc inp).2
  = Throw KeywordNotFound.
Proof.
  induction kw as [|b kw IH]; intros inp Hno.
  - exfalso. apply Hno. apply prefix_nil.
  - cbn [fmap list_fmap consume_keyword_chars]. destruct inp as [|b' inp]; cbn [getc fst snd].
    + destruct (Z.eqb_spec (byte_val b) EOF) as [He|_]; [now apply byte_val_not_EOF in He|].
      reflexivity.
    + destruct (Z.eqb_spec (byte_val b) (byte_val b')) as [He|_]; [|reflexivity].
      apply byte_val_inj in He as <-. cbn [negb].
      specialize (IH inp). destruct (getc inp) as [c inp']. apply IH.
      intros Hp. apply Hno. now apply prefix_cons.
Qed.

(** X3. For a keyword of ASCII characters (a [char] then compares with the
    [int] of [getc] by its value): [maybe_consume_keyword] answers false on
    the empty stream and only there; on a stream that starts with the
    keyword it answers true, with the byte after the keyword in [next]
    ([EOF] when the stream ends there) and the stream behind that byte; on
    any other stream it throws. *)
Theorem maybe_consume_keyword_cases (kw : list byte) :
  Forall (fun b => byte_val b < 128) kw ->
  maybe_consume_keyword [] (byte_val <$> kw) = Ok (false, EOF, [])
  /\ (forall rest,
      kw ++ rest <> [] ->
      maybe_consume_keyword (kw ++ rest) (byte_val <$> kw)
      = Ok (true, (getc rest).1, (getc rest).2))
  /\ (forall inp,
      inp <> [] -> ~ kw `prefix_of` inp ->
      maybe_consume_keyword inp (byte_val <$> kw) = Throw KeywordNotFound).
Proof.
  intros _. split; [reflexivity|]. split.
  - intros rest Hne. unfold maybe_consume_keyword.
    pose proof (consume_keyword_chars_found kw rest) as H.
    destruct (kw ++ rest) as [|b inp] eqn:E; [congruence|]. cbn [getc fst snd] in *.
    destruct (Z.eqb_spec (byte_val b) EOF) as [He|_]; [now apply byte_val_not_EOF in He|].
    rewrite H. cbn [mbind result_bind]. now destruct (getc rest).
  - intros inp Hne Hno. unfold maybe_consume_keyword.
    pose proof (consume_keyword_chars_missing kw inp Hno) as H.
    destruct inp as [|b inp]; [congruence|]. cbn [getc fst snd] in *.
    destruct (Z.eqb_spec (byte_val b) EOF) as [He|_]; [now apply byte_val_not_EOF in He|].
    now rewrite H.
Qed.

(** "shot" before " M0", and "shoe". *)
Lemma maybe_consume_keyword_cases_witness :
  maybe_consume_keyword ([x73; x68; x6f; x74] ++ [x20; x4d; x30]) [115; 104; 111; 116]
  = Ok (true, 32, [x4d; x30])
  /\ maybe_consume_keyword [x73; x68; x6f; x65] [115; 104; 111; 116]
     = Throw KeywordNotFound.
Proof.
  assert (Hascii : Forall (fun b => byte_val b < 128) [x73; x68; x6f; x74])
    by (repeat constructor).
  split.
  - apply (proj1 (proj2 (maybe_consume_keyword_cases [x73; x68; x6f; x74] Hascii))
             [x20; x4d; x30]).
    discriminate.
  - apply (proj2 (proj2 (maybe_consume_keyword_cases [x73; x68; x6f; x74] Hascii))
             [x73; x68; x6f; x65]); [discriminate|].
    intros [k Hk]. discriminate.
Defined.

(** ** 01: lines *)

Module Format01Lines.
Import MeasureRecordReaderFormat01.

Lemma f01_char_val bit : byte_val (f01_char bit) = if bit then ch_1 else ch_0.
Proof. now destruct bit. Qed.

(** One bit off a line. *)
Lemma read_bit_char bit inp1 p m :
  0 <= p < m -> m < 2 ^ 64 ->
  read_bit (mk inp1 (byte_val (f01_char bit)) p m)
  = Ok (bit, mk (getc inp1).2 (getc inp1).1 (p + 1) m).
Proof.
  intros Hp H64. unfold read_bit. cbn [payload position bits_per_record inp].
  destruct (Z.geb_spec p m) as [|_]; [lia|].
  rewrite (wrap64_small (p + 1)) by lia.
  destruct (getc inp1) as [c rest]. now destruct bit.
Qed.

(** The bits of the rest of a line, from a reader that holds its first
    character in [payload]. *)
Lemma read_bits_line bits : forall ending p m,
  line_end ending -> 0 <= p -> p + Z.of_nat (length bits) <= m -> m < 2 ^ 64 ->
  read_bits read_bit (length bits)
            (mk (getc (f01_line bits ++ ending)).2 (getc (f01_line bits ++ ending)).1 p m)
  = Ok (bits, mk (getc ending).2 (getc ending).1 (p + Z.of_nat (length bits)) m).
Proof.
  induction bits as [|bit bits IH]; intros ending p m Hend Hp Hm H64.
  - cbn [length read_bits f01_line fmap list_fmap app Z.of_nat]. now rewrite Z.add_0_r.
  - change (f01_line (bit :: bits)) with (f01_char bit :: f01_line bits).
    cbn [length] in Hm |- *. rewrite Nat2Z.inj_succ in Hm |- *.
    cbn [read_bits app getc fst snd].
    rewrite read_bit_char by lia. cbn [mbind result_bind].
    rewrite (IH ending (p + 1) m Hend) by lia. cbn [mbind result_bind].
    do 3 f_equal. lia.
Qed.

Lemma line_end_getc ending :
  line_end ending -> ((getc ending).1 =? EOF) || ((getc ending).1 =? ch_newline) = true.
Proof. intros [->|[rest ->]]; reflexivity. Qed.

End Format01Lines.

(** X4. The 01 reader reads back every record written as a line: for any
    bits, on the stream that holds one character '0' or '1' for each of
    them and then a newline (or nothing more: the end of the stream ends the
    last line as well), [start_record] answers true, as many [read_bit]
    calls as the record has bits return the bits in order,
    [is_end_of_record] is then true and the stream is left behind the
    newline. *)
Theorem f01_reads_lines (bits : list bool) (ending : list byte)
    (st : MeasureRecordReaderFormat01.state) :
  line_end ending ->
  f01_line bits ++ ending <> [] ->
  MeasureRecordReaderFormat01.bits_per_record st = Z.of_nat (length bits) ->
  Z.of_nat (length bits) < 2 ^ 64 ->
  MeasureRecordReaderFormat01.inp st = f01_line bits ++ ending ->
  exists st0 st1,
    MeasureRecordReaderFormat01.start_record st = Ok (true, st0)
    /\ read_bits MeasureRecordReaderFormat01.read_bit (length bits) st0 = Ok (bits, st1)
    /\ MeasureRecordReaderFormat01.is_end_of_record st1 = Ok true
    /\ MeasureRecordReaderFormat01.inp st1 = drop 1 ending.
Proof.
  intros Hend Hne Hm H64 Hinp.
  pose proof (Format01Lines.read_bits_line bits ending 0 (Z.of_nat (length bits))
                Hend ltac:(lia) ltac:(lia) H64) as Hbits.
  unfold MeasureRecordReaderFormat01.start_record. rewrite Hinp, Hm.
  destruct (f01_line bits ++ ending) as [|b inp1] eqn:E; [congruence|].
  cbn [getc fst snd] in *.
  destruct (Z.eqb_spec (byte_val b) EOF) as [He|_]; [now apply byte_val_not_EOF in He|].
  eexists _, _. split; [reflexivity|]. split; [exact Hbits|].
  unfold MeasureRecordReaderFormat01.is_end_of_record.
  cbn [MeasureRecordReaderFormat01.payload MeasureRecordReaderFormat01.position
       MeasureRecordReaderFormat01.bits_per_record MeasureRecordReaderFormat01.inp].
  rewrite (Format01Lines.line_end_getc ending Hend).
  destruct (Z.geb_spec (0 + Z.of_nat (length bits)) (Z.of_nat (length bits))); [|lia].
  split; [reflexivity|]. now destruct ending.
Qed.

(** The record 1,0,1 on the stream "101\n0". *)
Lemma f01_reads_lines_witness :
  exists st0 st1,
    MeasureRecordReaderFormat01.start_record
      (MeasureRecordReaderFormat01.make [x31; x30; x31; x0a; x30] 3) = Ok (true, st0)
    /\ read_bits MeasureRecordReaderFormat01.read_bit 3 st0 = Ok ([true; false; true], st1)
    /\ MeasureRecordReaderFormat01.is_end_of_record st1 = Ok true
    /\ MeasureRecordReaderFormat01.inp st1 = [x30].
Proof.
  apply (f01_reads_lines [true; false; true] [x0a; x30]
           (MeasureRecordReaderFormat01.make [x31; x30; x31; x0a; x30] 3)).
  - right. now exists [x30].
  - discriminate.
  - reflexivity.
  - vm_compute. reflexivity.
  - reflexivity.
Defined.

Module Format01Skip.
Import MeasureRecordReaderFormat01.

Lemma skip_line_eq inp1 c p m :
  skip_line inp1 c p m
  = if negb (c =? EOF) && negb (c =? ch_newline) then
      if p >? m then Throw LineTooLong
      else skip_line (getc inp1).2 (getc inp1).1 (wrap64 (p + 1)) m
    else Ok (c, p, inp1).
Proof.
  destruct inp1 as [|b inp1]; cbn [skip_line getc fst snd];
    destruct (negb (c =? EOF) && negb (c =? ch_newline)); reflexivity.
Qed.

Lemma not_newline b : b <> x0a -> (byte_val b =? ch_newline) = false.
Proof.
  intros Hb. destruct (Z.eqb_spec (byte_val b) ch_newline) as [He|]; [|reflexivity].
  apply (byte_val_inj b x0a) in He. contradiction.
Qed.

Lemma not_EOF b : (byte_val b =? EOF) = false.
Proof.
  destruct (Z.eqb_spec (byte_val b) EOF) as [He|]; [|reflexivity].
  now apply byte_val_not_EOF in He.
Qed.

(** The loop over what is left of a line: [b0] in [payload], then [cs]. *)
Lemma skip_line_rest cs : forall b0 ending p m,
  b0 <> x0a -> Forall (fun b => b <> x0a) cs -> line_end ending ->
  0 <= p -> p + Z.of_nat (length cs) + 1 < 2 ^ 64 ->
  skip_line (cs ++ ending) (byte_val b0) p m
  = if p + Z.of_nat (length cs) <=? m
    then Ok ((getc ending).1, p + Z.of_nat (length cs) + 1, (getc ending).2)
    else Throw LineTooLong.
Proof.
  induction cs as [|c1 cs IH]; intros b0 ending p m Hb0 Hcs Hend Hp H64;
    rewrite skip_line_eq, not_EOF, not_newline by assumption; cbn [negb andb].
  - cbn [length Z.of_nat app] in *. rewrite Z.add_0_r in *.
    destruct (Z.gtb_spec p m), (Z.leb_spec p m); try lia; [reflexivity|].
    rewrite (wrap64_small (p + 1)) by lia.
    rewrite skip_line_eq.
    destruct Hend as [->|[rest ->]]; reflexivity.
  - cbn [length] in *. rewrite Nat2Z.inj_succ in *. inversion Hcs; subst.
    cbn [app getc fst snd]. rewrite (wrap64_small (p + 1)) by lia.
    rewrite IH by (assumption || lia).
    destruct (Z.gtb_spec p m), (Z.leb_spec (p + Z.succ (Z.of_nat (length cs))) m),
      (Z.leb_spec (p + 1 + Z.of_nat (length cs)) m); try lia; try reflexivity.
    do 3 f_equal. lia.
Qed.

End Format01Skip.

(** X5. [next_record] of the 01 reader, called inside a line (a character
    other than the newline in [payload], the characters [cs] of the line
    still in the stream), skips to the end of the line without looking at
    the characters and starts the record behind the newline, as long as the
    line is at most one character longer than [bits_per_record]; the end of
    the stream ends the line as a newline does. It throws "line too long"
    when the line has two characters or more beyond [bits_per_record]. *)
Theorem f01_next_record_skips_the_line (b0 : byte) (cs ending : list byte)
    (st : MeasureRecordReaderFormat01.state) :
  MeasureRecordReaderFormat01.payload st = byte_val b0 -> b0 <> x0a ->
  Forall (fun b => b <> x0a) cs -> line_end ending ->
  MeasureRecordReaderFormat01.inp st = cs ++ ending ->
  0 <= MeasureRecordReaderFormat01.position st ->
  MeasureRecordReaderFormat01.position st + Z.of_nat (length cs) + 1 < 2 ^ 64 ->
  let m := MeasureRecordReaderFormat01.bits_per_record st in
  let line_length := MeasureRecordReaderFormat01.position st + 1 + Z.of_nat (length cs) in
  (line_length <= m + 1 ->
   MeasureRecordReaderFormat01.next_record st
   = MeasureRecordReaderFormat01.start_record
       (MeasureRecordReaderFormat01.mk (drop 1 ending) ch_newline line_length m))
  /\ (m + 2 <= line_length ->
      MeasureRecordReaderFormat01.next_record st = Throw LineTooLong).
Proof.
  intros Hpay Hb0 Hcs Hend Hinp Hp H64 m line_length. subst m line_length.
  unfold MeasureRecordReaderFormat01.next_record.
  rewrite Hinp, Hpay, Format01Skip.skip_line_rest by assumption.
  destruct (Z.leb_spec (MeasureRecordReaderFormat01.position st + Z.of_nat (length cs))
              (MeasureRecordReaderFormat01.bits_per_record st)) as [Hle|Hgt].
  - split; [|lia]. intros _. cbn [mbind result_bind].
    unfold MeasureRecordReaderFormat01.start_record.
    cbn [MeasureRecordReaderFormat01.inp MeasureRecordReaderFormat01.bits_per_record].
    now destruct Hend as [->|[rest ->]].
  - split; [lia|]. intros _. reflexivity.
Qed.

(** With m = 3: after one bit of "0x1z\n1" (four characters, none checked)
    the next record starts at "1"; after one bit of "0x1zz\n1" the line is
    too long. *)
Lemma f01_next_record_skips_the_line_witness :
  MeasureRecordReaderFormat01.next_record
    (MeasureRecordReaderFormat01.mk [x31; x7a; x0a; x31] 120 1 3)
  = Ok (true, MeasureRecordReaderFormat01.mk [] 49 0 3)
  /\ MeasureRecordReaderFormat01.next_record
       (MeasureRecordReaderFormat01.mk [x31; x7a; x7a; x0a; x31] 120 1 3)
     = Throw LineTooLong.
Proof.
  split.
  - rewrite (proj1 (f01_next_record_skips_the_line x78 [x31; x7a] [x0a; x31]
                      (MeasureRecordReaderFormat01.mk [x31; x7a; x0a; x31] 120 1 3)
                      eq_refl ltac:(discriminate)
                      ltac:(repeat constructor; discriminate)
                      ltac:(right; now exists [x31]) eq_refl
                      ltac:(cbn; lia) ltac:(cbn; lia))).
    + reflexivity.
    + cbn. lia.
  - apply (proj2 (f01_next_record_skips_the_line x78 [x31; x7a; x7a] [x0a; x31]
                    (MeasureRecordReaderFormat01.mk [x31; x7a; x7a; x0a; x31] 120 1 3)
                    eq_refl ltac:(discriminate)
                    ltac:(repeat constructor; discriminate)
                    ltac:(right; now exists [x31]) eq_refl
                    ltac:(cbn; lia) ltac:(cbn; lia))).
    cbn. lia.
Defined.

(** ** B8: records *)

Lemma b8_start_record_byte st b0 inp1 :
  MeasureRecordReaderFormatB8.inp st = b0 :: inp1 ->
  MeasureRecordReaderFormatB8.start_record st
  = Ok (true, MeasureRecordReaderFormatB8.mk
                inp1 (MeasureRecordReaderFormatB8.bits_per_record st) (byte_val b0) 8 0).
Proof.
  intros Hinp.
  unfold MeasureRecordReaderFormatB8.start_record,
    MeasureRecordReaderFormatB8.maybe_update_payload.
  cbn [MeasureRecordReaderFormatB8.bits_available MeasureRecordReaderFormatB8.inp
       MeasureRecordReaderFormatB8.bits_per_record MeasureRecordReaderFormatB8.position
       MeasureRecordReaderFormatB8.payload].
  rewrite Hinp. cbn [Z.gtb Z.compare getc].
  rewrite Format01Skip.not_EOF. cbn [negb MeasureRecordReaderFormatB8.payload].
  now rewrite Format01Skip.not_EOF.
Qed.

(** A record of the stream, bit by bit. *)
Lemma b8_read_record (m : nat) (bytes rest : list byte)
    (st : MeasureRecordReaderFormatB8.state) :
  MeasureRecordReaderFormatB8.bits_per_record st = Z.of_nat m ->
  Z.of_nat m < 2 ^ 64 ->
  MeasureRecordReaderFormatB8.inp st = bytes ++ rest ->
  length bytes = Nat.max 1 (bytes_for m) ->
  exists st0 st1,
    MeasureRecordReaderFormatB8.start_record st = Ok (true, st0)
    /\ read_bits MeasureRecordReaderFormatB8.read_bit m st0
       = Ok (take m (bytes_to_bits (byte_val <$> bytes)), st1)
    /\ MeasureRecordReaderFormatB8.is_end_of_record st1 = true
    /\ MeasureRecordReaderFormatB8.inp st1 = rest.
Proof.
  intros Hm H64 Hinp Hlen.
  destruct bytes as [|b0 tail]; [cbn [length] in Hlen; lia|].
  rewrite (b8_start_record_byte st b0 (tail ++ rest)) by exact Hinp. rewrite Hm.
  eexists _. destruct m as [|m'].
  - eexists _. split; [reflexivity|]. cbn [read_bits take]. split; [reflexivity|].
    split; [reflexivity|]. cbn [MeasureRecordReaderFormatB8.inp].
    rewrite bytes_for_0 in Hlen. cbn in Hlen. now destruct tail.
  - assert (Hfor : (1 <= bytes_for (S m'))%nat).
    { destruct (bytes_for (S m')) eqn:E; [|lia]. now apply B8Bulk.bytes_for_0_inv in E. }
    rewrite Nat.max_r in Hlen by exact Hfor.
    destruct (B8Bulk.read_stream ((b0 :: tail) ++ rest) (S m')
                (MeasureRecordReaderFormatB8.mk ((b0 :: tail) ++ rest) (Z.of_nat (S m')) 0 0 0))
      as (st1 & Hbits & Hrest & Hpos & Hm1 & _);
      cbn [MeasureRecordReaderFormatB8.bits_available MeasureRecordReaderFormatB8.inp
           MeasureRecordReaderFormatB8.bits_per_record MeasureRecordReaderFormatB8.position];
      try (reflexivity || lia).
    { rewrite length_app. lia. }
    exists st1. split; [reflexivity|].
    cbn [MeasureRecordReaderFormatB8.bits_available MeasureRecordReaderFormatB8.inp
         MeasureRecordReaderFormatB8.bits_per_record MeasureRecordReaderFormatB8.position]
      in Hrest, Hpos, Hm1.
    split; [|split].
    + cbn [read_bits] in Hbits |- *.
      rewrite (B8Bulk.read_bit_loads _ b0 (tail ++ rest)) in Hbits by reflexivity.
      cbn [MeasureRecordReaderFormatB8.bits_per_record
           MeasureRecordReaderFormatB8.position] in Hbits.
      rewrite Hbits. do 2 f_equal.
      rewrite fmap_app. unfold bytes_to_bits. rewrite bind_app.
      apply take_app_le.
      change (length (bytes_to_bits (byte_val <$> b0 :: tail)) >= S m')%nat.
      rewrite length_bytes_to_bits, length_fmap, Hlen.
      pose proof (B8Calls.bytes_for_bound (S m')). lia.
    + unfold MeasureRecordReaderFormatB8.is_end_of_record. rewrite Hpos, Hm1.
      destruct (Z.geb_spec (0 + Z.of_nat (S m')) (Z.of_nat (S m'))); [reflexivity | lia].
    + rewrite Hrest, <- Hlen. now rewrite drop_app_length.
Qed.

(** X6. The B8 reader reads back the bytes of a record: a record of m bits
    takes ceil(m/8) bytes of the stream (one byte when m = 0: [start_record]
    reads a byte to tell whether a record is there). On a stream that starts
    with these bytes [start_record] answers true, m [read_bit] calls return
    the first m bits of the bytes, lowest bit of each byte first,
    [is_end_of_record] is then true, and the stream is left behind the
    record's bytes: the spare bits of its last byte belong to no record. *)
Theorem b8_reads_records (m : nat) (bytes rest : list byte)
    (st : MeasureRecordReaderFormatB8.state) :
  MeasureRecordReaderFormatB8.bits_per_record st = Z.of_nat m ->
  Z.of_nat m < 2 ^ 64 ->
  MeasureRecordReaderFormatB8.inp st = bytes ++ rest ->
  length bytes = Nat.max 1 (bytes_for m) ->
  exists st0 st1,
    MeasureRecordReaderFormatB8.start_record st = Ok (true, st0)
    /\ read_bits MeasureRecordReaderFormatB8.read_bit m st0
       = Ok (take m (bytes_to_bits (byte_val <$> bytes)), st1)
    /\ MeasureRecordReaderFormatB8.is_end_of_record st1 = true
    /\ MeasureRecordReaderFormatB8.inp st1 = rest.
Proof.
  intros Hm H64 Hinp Hlen.
  destruct (b8_read_record m bytes rest st Hm H64 Hinp Hlen)
    as (st0 & st1 & Hstart & Hbits & Hend & Hrest).
  exists st0, st1. split; [exact Hstart|]. split; [exact Hbits|].
  split; [exact Hend | exact Hrest].
Qed.

(** Ten-bit records on the stream 2A 03 FF 00: the first one is the bits of
    2A and the two low bits of 03, and leaves FF 00. *)
Lemma b8_reads_records_witness :
  exists st0 st1,
    MeasureRecordReaderFormatB8.start_record
      (MeasureRecordReaderFormatB8.make [x2a; x03; xff; x00] 10) = Ok (true, st0)
    /\ read_bits MeasureRecordReaderFormatB8.read_bit 10 st0
       = Ok (take 10 (bytes_to_bits (byte_val <$> [x2a; x03])), st1)
    /\ MeasureRecordReaderFormatB8.is_end_of_record st1 = true
    /\ MeasureRecordReaderFormatB8.inp st1 = [xff; x00].
Proof.
  apply (b8_reads_records 10 [x2a; x03] [xff; x00]
           (MeasureRecordReaderFormatB8.make [x2a; x03; xff; x00] 10)).
  - reflexivity.
  - vm_compute. reflexivity.
  - reflexivity.
  - reflexivity.
Defined.

(** ** R8: records *)

Module R8Records.
Import MeasureRecordReaderFormatR8 R8Facts.

Lemma byte_val_of_Z z : 0 <= z < 256 -> byte_val (byte_of_Z z) = z.
Proof.
  intros Hz. unfold byte_of_Z, byte_val.
  destruct (Byte.of_N (Z.to_N z)) as [b|] eqn:E; cbn [default].
  - apply Byte.to_of_N in E. unfold id. rewrite E. lia.
  - apply Byte.of_N_None_iff in E. lia.
Qed.

Lemma r8_bits_cons n runs :
  r8_bits (n :: runs) = (replicate n false ++ [true]) ++ r8_bits runs.
Proof. reflexivity. Qed.

Lemma r8_stream_cons n runs : r8_stream (n :: runs) = r8_run n ++ r8_stream runs.
Proof. reflexivity. Qed.

Lemma r8_bits_runs bits : forall run,
  r8_bits (r8_runs bits run) = replicate run false ++ bits ++ [true].
Proof.
  induction bits as [|[|] bits IH]; intros run; cbn [r8_runs].
  - rewrite r8_bits_cons. unfold r8_bits. cbn. now rewrite app_nil_r.
  - rewrite r8_bits_cons, IH. cbn [replicate app]. now rewrite <- app_assoc.
  - rewrite IH, replicate_S_end, <- app_assoc. reflexivity.
Qed.

Lemma length_r8_run n : (1 <= length (r8_run n))%nat.
Proof. unfold r8_run. rewrite length_app. cbn. lia. Qed.

(** The bytes 0xFF of a run, then its last byte. *)
Lemma count_zeroes_ff q : forall inp1 acc pos,
  0 <= acc -> acc + 255 * Z.of_nat q < 2 ^ 64 ->
  count_zeroes (replicate q xff ++ inp1) acc pos
  = count_zeroes inp1 (acc + 255 * Z.of_nat q) pos.
Proof.
  induction q as [|q IH]; intros inp1 acc pos Hacc Hfit.
  - cbn [replicate app Z.of_nat]. f_equal. lia.
  - cbn [replicate app count_zeroes].
    change (byte_val xff) with 255. cbn [Z.eqb Pos.eqb].
    rewrite (wrap64_small (acc + 255)) by lia. rewrite IH by lia. f_equal. lia.
Qed.

Lemma count_zeroes_run n inp1 acc pos :
  0 <= acc -> acc + Z.of_nat n < 2 ^ 64 ->
  count_zeroes (r8_run n ++ inp1) acc pos = Ok (Some (acc + Z.of_nat n, inp1)).
Proof.
  intros Hacc Hfit. unfold r8_run. rewrite <- app_assoc.
  pose proof (Nat.div_mod_eq n 255) as Hn.
  pose proof (Nat.mod_upper_bound n 255 ltac:(lia)) as Hr.
  rewrite count_zeroes_ff by lia. cbn [app count_zeroes].
  rewrite byte_val_of_Z by lia.
  destruct (Z.eqb_spec (Z.of_nat (n mod 255)) 255) as [|_]; [lia|].
  rewrite wrap64_small by lia. do 3 f_equal. lia.
Qed.

(** The one-bit that ends a buffered run. *)
Lemma read_one_bit st :
  r8_inv st -> buffered_0s st = 0 -> buffered_1s st = 1 ->
  read_bit st
  = Ok (true, mk (inp st) (bits_per_record st) (position st + 1)
                 (have_seen_terminal_1 st) 0 0).
Proof.
  intros (Hpos & Hb0 & Hb1 & Hfit & Htotal) E0 E1. unfold read_bit.
  rewrite E0, E1. cbn [Z.eqb andb negb mbind result_bind].
  rewrite E0, E1. cbn [Z.eqb negb].
  assert (position st + buffered_0s st + buffered_1s st <= bits_per_record st)
    by by_seen Htotal.
  rewrite (wrap64_small (position st + 1)) by lia. reflexivity.
Qed.

(** A buffered run of [n] zeroes and its one. *)
Lemma read_run n st :
  r8_inv st -> buffered_0s st = Z.of_nat n -> buffered_1s st = 1 ->
  read_bits read_bit (n + 1) st
  = Ok (replicate n false ++ [true],
        mk (inp st) (bits_per_record st) (position st + Z.of_nat n + 1)
           (have_seen_terminal_1 st) 0 0).
Proof.
  intros Hinv E0 E1.
  pose proof (read_zero_bits n st Hinv ltac:(lia)) as Hzero.
  eapply read_bits_app; [exact Hzero|].
  cbn [read_bits].
  assert (Hinv' : r8_inv (mk (inp st) (bits_per_record st) (position st + Z.of_nat n)
                             (have_seen_terminal_1 st) (buffered_0s st - Z.of_nat n)
                             (buffered_1s st))).
  { eapply R8Bulk.read_bits_inv; [exact Hinv | exact Hzero]. }
  rewrite read_one_bit; cbn [inp bits_per_record position have_seen_terminal_1
                             buffered_0s buffered_1s]; [reflexivity|assumption|lia|assumption].
Qed.

(** [maybe_buffer_data] on the bytes of a run, by where the run's one
    falls. *)
Lemma buffer_run n inp1 m p :
  0 <= p -> p + Z.of_nat n <= m -> m + 1 < 2 ^ 64 ->
  maybe_buffer_data (mk (r8_run n ++ inp1) m p false 0 0)
  = if p + Z.of_nat n + 1 =? m then
      let '(t, inp2) := getc inp1 in
      if t =? EOF then Throw R8NoTerminatorAtEof
      else if negb (t =? 0) then Throw R8NoTerminatorAtData
      else Ok (true, mk inp2 m p true (Z.of_nat n) 1)
    else if p + Z.of_nat n + 1 =? m + 1 then Ok (true, mk inp1 m p true (Z.of_nat n) 0)
    else Ok (true, mk inp1 m p false (Z.of_nat n) 1).
Proof.
  intros Hp Hn H64. unfold maybe_buffer_data, is_end_of_record.
  cbn [inp bits_per_record position have_seen_terminal_1 buffered_0s buffered_1s].
  cbn [Z.eqb negb]. rewrite andb_false_r.
  rewrite count_zeroes_run by lia. cbn [mbind result_bind].
  rewrite Z.add_0_l.
  rewrite (wrap64_small (p + Z.of_nat n)), (wrap64_small (p + Z.of_nat n + 1)),
    (wrap64_small (m + 1)) by lia.
  destruct (Z.eqb_spec (p + Z.of_nat n + 1) m); [reflexivity|].
  destruct (Z.eqb_spec (p + Z.of_nat n + 1) (m + 1)); [reflexivity|].
  destruct (Z.gtb_spec (p + Z.of_nat n + 1) (m + 1)); [lia | reflexivity].
Qed.

Lemma length_r8_bits_cons n runs :
  length (r8_bits (n :: runs)) = (n + 1 + length (r8_bits runs))%nat.
Proof. rewrite r8_bits_cons, !length_app, length_replicate. reflexivity. Qed.

(** The runs of a record from position [p] on, nothing being buffered. *)
Lemma read_runs runs : forall p rest m,
  runs <> [] -> 0 <= p ->
  p + Z.of_nat (length (r8_bits runs)) = m + 1 ->
  255 * Z.of_nat (length (r8_stream runs ++ rest)) + m + 1 < 2 ^ 64 ->
  exists st0,
    maybe_buffer_data (mk (r8_stream runs ++ rest) m p false 0 0) = Ok (true, st0)
    /\ read_bits read_bit (length (r8_bits runs) - 1) st0
       = Ok (take (length (r8_bits runs) - 1) (r8_bits runs), mk rest m m true 0 0).
Proof.
  induction runs as [|n runs IH]; intros p rest m Hne Hp Hlen Hfit; [congruence|].
  pose proof (length_r8_run n) as Hrun1.
  rewrite length_r8_bits_cons in Hlen |- *.
  rewrite r8_stream_cons, <- app_assoc in Hfit |- *.
  rewrite (length_app (r8_run n)) in Hfit.
  rewrite buffer_run by lia.
  destruct runs as [|n' runs'].
  - (* the one of the last run falls behind the record *)
    assert (Hrest : r8_stream [] ++ rest = rest) by reflexivity.
    rewrite Hrest in *. change (length (r8_bits [])) with 0%nat in *.
    destruct (Z.eqb_spec (p + Z.of_nat n + 1) m) as [|_]; [lia|].
    destruct (Z.eqb_spec (p + Z.of_nat n + 1) (m + 1)) as [_|]; [|lia].
    eexists. split; [reflexivity|].
    replace (n + 1 + 0 - 1)%nat with n by lia.
    rewrite r8_bits_cons.
    change (r8_bits []) with (@nil bool). rewrite app_nil_r.
    rewrite take_app_length' by (now rewrite length_replicate).
    rewrite read_zero_bits.
    + cbn [inp bits_per_record position have_seen_terminal_1 buffered_0s buffered_1s].
      do 2 f_equal. f_equal; lia.
    + unfold r8_inv. cbn. conjs; lia.
    + cbn. lia.
  - pose proof (length_r8_bits_cons n' runs') as Hlen'.
    destruct (decide (n' = 0%nat /\ runs' = [])) as [[-> ->]|Hmore].
    + (* the one of the run before the last is the last bit of the record *)
      change (r8_stream [0%nat] ++ rest) with (x00 :: rest) in *.
      cbn [length] in Hfit.
      change (length (r8_bits [0%nat])) with 1%nat in *.
      destruct (Z.eqb_spec (p + Z.of_nat n + 1) m) as [_|]; [|lia].
      cbn [getc]. change (byte_val x00) with 0. cbn [Z.eqb negb].
      eexists. split; [reflexivity|].
      replace (n + 1 + 1 - 1)%nat with (n + 1)%nat by lia.
      rewrite r8_bits_cons.
      rewrite take_app_length' by (rewrite length_app, length_replicate; reflexivity).
      rewrite read_run.
      * cbn [inp bits_per_record position have_seen_terminal_1 buffered_0s buffered_1s].
        do 2 f_equal. f_equal; lia.
      * unfold r8_inv. cbn. conjs; lia.
      * reflexivity.
      * reflexivity.
    + (* more of the record follows *)
      assert (Hlong : (2 <= length (r8_bits (n' :: runs')))%nat).
      { rewrite Hlen'. destruct runs' as [|n'' runs''].
        - destruct n'; [exfalso; apply Hmore; now split | lia].
        - rewrite length_r8_bits_cons. lia. }
      destruct (Z.eqb_spec (p + Z.of_nat n + 1) m) as [|_]; [lia|].
      destruct (Z.eqb_spec (p + Z.of_nat n + 1) (m + 1)) as [|_]; [lia|].
      eexists. split; [reflexivity|].
      destruct (IH (p + Z.of_nat n + 1) rest m) as (st0' & Hbuf & Hbits);
        [discriminate | lia | lia | lia |].
      set (st0 := mk (r8_stream (n' :: runs') ++ rest) m p false (Z.of_nat n) 1).
      assert (Hinv0 : r8_inv st0)
        by (unfold r8_inv, st0;
            cbn [inp bits_per_record position have_seen_terminal_1 buffered_0s
                 buffered_1s]; conjs; lia).
      pose proof (read_run n st0 Hinv0 eq_refl eq_refl) as Hrun.
      unfold st0 in Hrun.
      cbn [inp bits_per_record position have_seen_terminal_1 buffered_0s buffered_1s]
        in Hrun.
      replace (n + 1 + length (r8_bits (n' :: runs')) - 1)%nat
        with ((n + 1) + (length (r8_bits (n' :: runs')) - 1))%nat by lia.
      rewrite (r8_bits_cons n).
      rewrite take_app_add' by (rewrite length_app, length_replicate; reflexivity).
      eapply read_bits_app; [exact Hrun|].
      set (st_mid := mk (r8_stream (n' :: runs') ++ rest) m (p + Z.of_nat n + 1) false 0 0)
        in *.
      assert (Hinv_mid : r8_inv st_mid)
        by (unfold r8_inv, st_mid;
            cbn [inp bits_per_record position have_seen_terminal_1 buffered_0s
                 buffered_1s]; conjs; lia).
      assert (Hassert : assert_maybe_buffer_data st_mid = Ok st0')
        by (unfold assert_maybe_buffer_data; now rewrite Hbuf).
      destruct (buffer_then_read st_mid st0' Hinv_mid eq_refl eq_refl eq_refl Hassert)
        as (_ & _ & Hsame).
      destruct (length (r8_bits (n' :: runs')) - 1)%nat as [|k] eqn:Ek; [lia|].
      cbn [read_bits] in Hbits |- *. fold st_mid. now rewrite <- Hsame.
Qed.

Lemma r8_runs_not_nil bits : forall run, r8_runs bits run <> [].
Proof. induction bits as [|[|] bits IH]; intros run; cbn [r8_runs]; [discriminate..|apply IH]. Qed.

End R8Records.

(** X7. The R8 reader reads back every record written as runs: for any bits,
    on the stream that holds the runs of zeroes of the record followed by a
    one-bit (each run as bytes 0xFF and a last byte under 255),
    [start_record] answers true, as many [read_bit] calls as the record has
    bits return the bits in order, [is_end_of_record] is then true, and the
    stream is left behind the record's bytes with nothing buffered. (For
    streams under 2^56 bytes, where the run counters cannot wrap.) *)
Theorem r8_reads_records (bits : list bool) (rest : list byte)
    (st : MeasureRecordReaderFormatR8.state) :
  MeasureRecordReaderFormatR8.bits_per_record st = Z.of_nat (length bits) ->
  MeasureRecordReaderFormatR8.buffered_0s st = 0 ->
  MeasureRecordReaderFormatR8.buffered_1s st = 0 ->
  MeasureRecordReaderFormatR8.inp st = r8_encode bits ++ rest ->
  255 * Z.of_nat (length (r8_encode bits ++ rest)) + Z.of_nat (length bits) + 1 < 2 ^ 64 ->
  exists st0,
    MeasureRecordReaderFormatR8.start_record st = Ok (true, st0)
    /\ read_bits MeasureRecordReaderFormatR8.read_bit (length bits) st0
       = Ok (bits, MeasureRecordReaderFormatR8.mk
                     rest (Z.of_nat (length bits)) (Z.of_nat (length bits)) true 0 0)
    /\ MeasureRecordReaderFormatR8.is_end_of_record
         (MeasureRecordReaderFormatR8.mk
            rest (Z.of_nat (length bits)) (Z.of_nat (length bits)) true 0 0) = true.
Proof.
  intros Hm E0 E1 Hinp Hfit.
  pose proof (R8Records.r8_bits_runs bits 0) as Hbits. cbn [replicate app] in Hbits.
  destruct (R8Records.read_runs (r8_runs bits 0) 0 rest (Z.of_nat (length bits)))
    as (st0 & Hbuf & Hread).
  - apply R8Records.r8_runs_not_nil.
  - lia.
  - rewrite Hbits, length_app. cbn [length]. lia.
  - exact Hfit.
  - exists st0. unfold MeasureRecordReaderFormatR8.start_record.
    rewrite Hinp, Hm, E0, E1. split; [exact Hbuf|]. split.
    + rewrite Hbits, length_app in Hread. cbn [length] in Hread.
      replace (length bits + 1 - 1)%nat with (length bits) in Hread by lia.
      now rewrite take_app_length in Hread.
    + unfold MeasureRecordReaderFormatR8.is_end_of_record. cbn.
      now rewrite Z.eqb_refl.
Qed.

(** The record 0,0,1,0,1 is the runs 2, 1 and 0: the stream 02 01 00. *)
Lemma r8_reads_records_witness :
  exists st0,
    MeasureRecordReaderFormatR8.start_record
      (MeasureRecordReaderFormatR8.make [x02; x01; x00; x07] 5) = Ok (true, st0)
    /\ read_bits MeasureRecordReaderFormatR8.read_bit 5 st0
       = Ok ([false; false; true; false; true],
             MeasureRecordReaderFormatR8.mk [x07] 5 5 true 0 0)
    /\ MeasureRecordReaderFormatR8.is_end_of_record
         (MeasureRecordReaderFormatR8.mk [x07] 5 5 true 0 0) = true.
Proof.
  apply (r8_reads_records [false; false; true; false; true] [x07]
           (MeasureRecordReaderFormatR8.make [x02; x01; x00; x07] 5)).
  - reflexivity.
  - reflexivity.
  - reflexivity.
  - reflexivity.
  - vm_compute. reflexivity.
Defined.

(** ** At the end of a record *)

(** X8. Once [is_end_of_record] is true no reader gives another bit:
    [read_bit] throws, and [read_bits_into_bytes] reports 0 bits and leaves
    the reader as it is. The default bulk read and the B8 one leave the
    output range untouched; the R8 one has zeroed its first byte by then.
    (R8: in the states the reader is in between calls, [r8_inv].) *)
Theorem nothing_is_read_past_the_end_of_a_record :
  (forall st out,
      MeasureRecordReaderFormat01.is_end_of_record st = Ok true ->
      (MeasureRecordReaderFormat01.read_bit st = Throw PastEndOfFile
       \/ MeasureRecordReaderFormat01.read_bit st = Throw PastEndOfRecord)
      /\ MeasureRecordReaderFormat01.read_bits_into_bytes st out = Ok (0, out, st))
  /\ (forall st out,
      MeasureRecordReaderFormatB8.is_end_of_record st = true ->
      MeasureRecordReaderFormatB8.read_bit st = Throw PastEndOfRecord
      /\ MeasureRecordReaderFormatB8.read_bits_into_bytes st out = Ok (0, out, st))
  /\ (forall st out,
      MeasureRecordReaderFormatHits.is_end_of_record st = true ->
      MeasureRecordReaderFormatHits.read_bit st = Throw ReadPastEndOfBuffer
      /\ MeasureRecordReaderFormatHits.read_bits_into_bytes st out = Ok (0, out, st))
  /\ (forall st out,
      MeasureRecordReaderFormatDets.is_end_of_record st = true ->
      MeasureRecordReaderFormatDets.read_bit st = Throw ReadPastEndOfBuffer
      /\ MeasureRecordReaderFormatDets.read_bits_into_bytes st out = Ok (0, out, st))
  /\ (forall st b out,
      r8_inv st ->
      MeasureRecordReaderFormatR8.is_end_of_record st = true ->
      MeasureRecordReaderFormatR8.read_bit st = Throw R8BufferPastEnd
      /\ MeasureRecordReaderFormatR8.read_bits_into_bytes st [] = Ok (0, [], st)
      /\ MeasureRecordReaderFormatR8.read_bits_into_bytes st (b :: out)
         = Ok (0, 0 :: out, st)).
Proof.
  split; [|split; [|split; [|split]]].
  - intros st out Hend. split.
    + apply Format01Facts.is_end_of_record_cases in Hend as [[He|Hn] Hpos];
        unfold MeasureRecordReaderFormat01.read_bit.
      * left. now rewrite He.
      * right. rewrite Hn. cbn [Z.eqb Pos.eqb orb]. reflexivity.
    + unfold MeasureRecordReaderFormat01.read_bits_into_bytes,
        default_read_bits_into_bytes. now rewrite Hend.
  - intros st out Hend. unfold MeasureRecordReaderFormatB8.is_end_of_record in Hend.
    unfold MeasureRecordReaderFormatB8.read_bit,
      MeasureRecordReaderFormatB8.read_bits_into_bytes.
    rewrite Hend. split; reflexivity.
  - intros st out Hend. split.
    + unfold MeasureRecordReaderFormatHits.is_end_of_record in Hend.
      unfold MeasureRecordReaderFormatHits.read_bit. now rewrite Hend.
    + unfold MeasureRecordReaderFormatHits.read_bits_into_bytes,
        default_read_bits_into_bytes. now rewrite Hend.
  - intros st out Hend. split.
    + unfold MeasureRecordReaderFormatDets.is_end_of_record in Hend.
      apply Z.eqb_eq in Hend.
      unfold MeasureRecordReaderFormatDets.read_bit. rewrite Hend.
      destruct (Z.geb_spec (MeasureRecordReaderFormatDets.width
                              (MeasureRecordReaderFormatDets.m_bits_per_record st)
                              (MeasureRecordReaderFormatDets.d_bits_per_record st)
                              (MeasureRecordReaderFormatDets.l_bits_per_record st))
                  (MeasureRecordReaderFormatDets.width
                              (MeasureRecordReaderFormatDets.m_bits_per_record st)
                              (MeasureRecordReaderFormatDets.d_bits_per_record st)
                              (MeasureRecordReaderFormatDets.l_bits_per_record st)));
        [reflexivity | lia].
    + unfold MeasureRecordReaderFormatDets.read_bits_into_bytes,
        default_read_bits_into_bytes. now rewrite Hend.
  - intros st b out (Hpos & Hb0 & Hb1 & Hfit & Htotal) Hend.
    pose proof Hend as Hend'.
    unfold MeasureRecordReaderFormatR8.is_end_of_record in Hend'.
    apply andb_true_iff in Hend' as [Hm Hseen]. apply Z.eqb_eq in Hm.
    rewrite Hseen in Htotal.
    assert (E0 : MeasureRecordReaderFormatR8.buffered_0s st = 0) by lia.
    assert (E1 : MeasureRecordReaderFormatR8.buffered_1s st = 0) by lia.
    split; [|split].
    + unfold MeasureRecordReaderFormatR8.read_bit,
        MeasureRecordReaderFormatR8.assert_maybe_buffer_data,
        MeasureRecordReaderFormatR8.maybe_buffer_data.
      rewrite E0, E1, Hend. reflexivity.
    + reflexivity.
    + unfold MeasureRecordReaderFormatR8.read_bits_into_bytes.
      cbn [MeasureRecordReaderFormatR8.bytes_loop MeasureRecordReaderFormatR8.bits_loop].
      rewrite E0, E1, Hseen.
      cbn [Z.geb Z.compare Z.eqb andb negb mbind result_bind].
      rewrite Hend. reflexivity.
Qed.

(** The R8 reader of 02 01 00, m = 5, after its five bits: a bulk read into
    the byte 255 reports no bit and leaves the byte 0. *)
Lemma nothing_is_read_past_the_end_of_a_record_witness :
  MeasureRecordReaderFormatR8.read_bit (MeasureRecordReaderFormatR8.mk [] 5 5 true 0 0)
  = Throw R8BufferPastEnd
  /\ MeasureRecordReaderFormatR8.read_bits_into_bytes
       (MeasureRecordReaderFormatR8.mk [] 5 5 true 0 0) [255; 255]
     = Ok (0, [0; 255], MeasureRecordReaderFormatR8.mk [] 5 5 true 0 0).
Proof.
  assert (Hinv : r8_inv (MeasureRecordReaderFormatR8.mk [] 5 5 true 0 0))
    by (unfold r8_inv; cbn; lia).
  destruct (proj2 (proj2 (proj2 (proj2 nothing_is_read_past_the_end_of_a_record)))
              (MeasureRecordReaderFormatR8.mk [] 5 5 true 0 0) 255 [255] Hinv eq_refl)
    as (Hbit & _ & Hbulk).
  split; [exact Hbit | exact Hbulk].
Defined.

(** ** The default bulk read stays in one section *)

Lemma read_bits_split {S : Type} (rb : S -> result (bool * S)) a : forall b st l s,
  read_bits rb (a + b) st = Ok (l, s) ->
  exists l1 s1 l2,
    read_bits rb a st = Ok (l1, s1) /\ read_bits rb b s1 = Ok (l2, s) /\ l = l1 ++ l2.
Proof.
  induction a as [|a IH]; intros b st l s H.
  - exists [], st, l. auto.
  - cbn [Nat.add read_bits] in H |- *.
    destruct (rb st) as [[bit st1]|]; cbn [mbind result_bind] in H |- *; [|discriminate].
    destruct (read_bits rb (a + b) st1) as [[l' s']|] eqn:E;
      cbn [mbind result_bind] in H; [|discriminate].
    injection H as <- <-.
    destruct (IH b st1 l' s' E) as (l1 & s1 & l2 & -> & H2 & ->).
    cbn [mbind result_bind]. exists (bit :: l1), s1, l2. auto.
Qed.

Section DefaultBetween.
Context {S : Type}.
Variable rb : S -> result (bool * S).
Variable ie : S -> result bool.
Variable crt : S -> Z.

(** The states the inner loop goes on from have passed its check: the
    record has not ended and the result type is the one of the call. *)
Lemma default_bits_loop_between todo : forall rt k b n st returned b' n' st',
  default_bits_loop rb ie crt todo rt k b n st = Ok (returned, b', n', st') ->
  0 <= n -> n + Z.of_nat todo < 2 ^ 64 ->
  exists cnt bits,
    read_bits rb cnt st = Ok (bits, st')
    /\ n' = n + Z.of_nat cnt /\ (cnt <= todo)%nat
    /\ (returned = false ->
        cnt = todo /\ (todo <> 0%nat -> ie st' = Ok false /\ crt st' = rt))
    /\ (forall j bits_j s_j,
          (1 <= j < cnt)%nat -> read_bits rb j st = Ok (bits_j, s_j) ->
          ie s_j = Ok false /\ crt s_j = rt).
Proof.
  induction todo as [|todo IH]; intros rt k b n st returned b' n' st' H Hn H64;
    cbn [default_bits_loop] in H.
  - injection H as <- <- <- <-. exists 0%nat, []. cbn [read_bits Z.of_nat].
    conjs; solve [reflexivity | lia].
  - destruct (rb st) as [[bit st1]|] eqn:Erb; cbn [mbind result_bind] in H; [|discriminate].
    destruct (ie st1) as [e|] eqn:Eie; cbn [mbind result_bind] in H; [|discriminate].
    rewrite (wrap64_small (n + 1)) in H by lia.
    destruct (e || negb (crt st1 =? rt)) eqn:Estop.
    + injection H as <- <- <- <-. exists 1%nat, [bit]. cbn [read_bits]. rewrite Erb.
      cbn [mbind result_bind].
      conjs; solve [reflexivity | lia | discriminate].
    + apply orb_false_iff in Estop as [-> Hcrt].
      apply negb_false_iff, Z.eqb_eq in Hcrt.
      destruct (IH _ _ _ _ _ _ _ _ _ H ltac:(lia) ltac:(lia))
        as (cnt & bits & Hbits & Hn' & Hcnt & Hret & Hbetween).
      exists (Datatypes.S cnt), (bit :: bits). cbn [read_bits]. rewrite Erb.
      cbn [mbind result_bind]. rewrite Hbits. cbn [mbind result_bind].
      conjs; try solve [reflexivity | lia].
      * intros Hr. destruct (Hret Hr) as [-> Hlast]. split; [reflexivity|]. intros _.
        destruct todo as [|todo']; [|apply Hlast; discriminate].
        cbn [read_bits] in Hbits. injection Hbits as _ <-. auto.
      * intros j bits_j s_j Hj Hj_bits. destruct j as [|j]; [lia|].
        cbn [read_bits] in Hj_bits. rewrite Erb in Hj_bits.
        cbn [mbind result_bind] in Hj_bits.
        destruct (read_bits rb j st1) as [[l s]|] eqn:Ej;
          cbn [mbind result_bind] in Hj_bits; [|discriminate].
        injection Hj_bits as _ <-.
        destruct j as [|j'].
        -- cbn [read_bits] in Ej. injection Ej as _ <-. auto.
        -- apply (Hbetween (Datatypes.S j') l s); [lia | exact Ej].
Qed.

Lemma default_bytes_loop_between out : forall rt n st n' out' st',
  default_bytes_loop rb ie crt out rt n st = Ok (n', out', st') ->
  0 <= n -> n + 8 * Z.of_nat (length out) < 2 ^ 64 ->
  exists cnt bits,
    read_bits rb cnt st = Ok (bits, st')
    /\ n' = n + Z.of_nat cnt
    /\ (forall j bits_j s_j,
          (1 <= j < cnt)%nat -> read_bits rb j st = Ok (bits_j, s_j) ->
          ie s_j = Ok false /\ crt s_j = rt).
Proof.
  induction out as [|b0 out IH]; intros rt n st n' out' st' H Hn H64;
    cbn [default_bytes_loop] in H.
  - injection H as <- <- <-. exists 0%nat, []. cbn [read_bits Z.of_nat].
    conjs; solve [reflexivity | lia].
  - cbn [length] in H64.
    destruct (default_bits_loop rb ie crt 8 rt 0 0 n st)
      as [[[[returned b] n1] st1]|] eqn:Ebits; cbn [mbind result_bind] in H; [|discriminate].
    destruct (default_bits_loop_between _ _ _ _ _ _ _ _ _ _ Ebits Hn ltac:(lia))
      as (cnt1 & bits1 & Hbits1 & Hn1 & Hcnt1 & Hret & Hbetween1).
    destruct returned.
    + injection H as <- <- <-. exists cnt1, bits1. auto.
    + destruct (Hret eq_refl) as [-> Hlast]. destruct (Hlast ltac:(discriminate)) as [He1 Hc1].
      destruct (default_bytes_loop rb ie crt out rt n1 st1)
        as [[[n2 out2] st2]|] eqn:Erest; cbn [mbind result_bind] in H; [|discriminate].
      injection H as <- <- <-.
      destruct (IH _ _ _ _ _ _ Erest ltac:(lia) ltac:(lia))
        as (cnt2 & bits2 & Hbits2 & Hn2 & Hbetween2).
      exists (8 + cnt2)%nat, (bits1 ++ bits2).
      split; [eapply read_bits_app; eassumption|]. split; [lia|].
      intros j bits_j s_j Hj Hj_bits.
      destruct (Nat.lt_ge_cases j 8) as [Hlt|Hge].
      * apply (Hbetween1 j bits_j s_j); [lia | exact Hj_bits].
      * replace j with (8 + (j - 8))%nat in Hj_bits by lia.
        apply read_bits_split in Hj_bits as (l1 & s1 & l2 & H1 & H2 & _).
        rewrite Hbits1 in H1. injection H1 as _ <-.
        destruct (j - 8)%nat as [|j'] eqn:Ej.
        -- cbn [read_bits] in H2. injection H2 as _ <-. auto.
        -- apply (Hbetween2 (Datatypes.S j') l2 s_j); [lia | exact H2].
Qed.

(** Every bit of a bulk read is read in a state of the result type of the
    call: the read goes on from a state only when that state has it. *)
Lemma default_read_between st out n out' st' :
  default_read_bits_into_bytes rb ie crt st out = Ok (n, out', st') ->
  small_range out ->
  exists bits,
    read_bits rb (Z.to_nat n) st = Ok (bits, st') /\ 0 <= n
    /\ (forall j bits_j s_j,
          (j < Z.to_nat n)%nat -> read_bits rb j st = Ok (bits_j, s_j) ->
          ie s_j = Ok false /\ crt s_j = crt st).
Proof.
  intros H Hsmall. unfold default_read_bits_into_bytes in H.
  destruct (ie st) as [e|] eqn:Eie; cbn [mbind result_bind] in H; [|discriminate].
  destruct e.
  - injection H as <- <- <-. exists []. cbn [Z.to_nat read_bits].
    conjs; solve [reflexivity | lia].
  - destruct (default_bytes_loop_between _ _ _ _ _ _ _ H ltac:(lia)
                ltac:(unfold small_range in Hsmall; lia))
      as (cnt & bits & Hbits & -> & Hbetween).
    rewrite Z.add_0_l, Nat2Z.id. exists bits.
    conjs; [exact Hbits | lia |].
    intros j bits_j s_j Hj Hj_bits. destruct j as [|j].
    + cbn [read_bits] in Hj_bits. injection Hj_bits as _ <-. auto.
    + apply (Hbetween (Datatypes.S j) bits_j s_j); [lia | exact Hj_bits].
Qed.

End DefaultBetween.

Module DetsSections.
Import MeasureRecordReaderFormatDets.

Lemma dets_read_bits_position j : forall st bits s,
  read_bits read_bit j st = Ok (bits, s) ->
  0 <= position_in_buffer st ->
  position_in_buffer s = position_in_buffer st + Z.of_nat j
  /\ m_bits_per_record s = m_bits_per_record st
  /\ d_bits_per_record s = d_bits_per_record st
  /\ l_bits_per_record s = l_bits_per_record st.
Proof.
  induction j as [|j IH]; intros st bits s H Hpos; cbn [read_bits] in H.
  - injection H as _ <-. cbn [Z.of_nat]. conjs; solve [reflexivity | lia].
  - destruct (read_bit st) as [[bit st1]|] eqn:E; cbn [mbind result_bind] in H; [|discriminate].
    destruct (read_bits read_bit j st1) as [[l s1]|] eqn:Ej;
      cbn [mbind result_bind] in H; [|discriminate].
    injection H as _ <-. unfold read_bit in E.
    destruct (Z.geb_spec (position_in_buffer st)
                (width (m_bits_per_record st) (d_bits_per_record st)
                       (l_bits_per_record st))) as [|Hlt]; [discriminate|].
    injection E as _ <-.
    pose proof (wrap64_range (wrap64 (m_bits_per_record st + d_bits_per_record st)
                              + l_bits_per_record st)) as Hw.
    fold (width (m_bits_per_record st) (d_bits_per_record st) (l_bits_per_record st)) in Hw.
    apply IH in Ej;
      cbn [position_in_buffer m_bits_per_record d_bits_per_record l_bits_per_record] in *.
    + rewrite (wrap64_small (position_in_buffer st + 1)) in Ej by lia.
      destruct Ej as (-> & -> & -> & ->). conjs; solve [reflexivity | lia].
    + apply wrap64_range.
Qed.

End DetsSections.

(** X9. A bulk read of the DETS reader does not cross a section boundary:
    it moves the position forward by the n bits it reports, and each of the
    n positions it has read has the result type that [current_result_type]
    had at the call. *)
Theorem dets_bulk_read_stays_in_one_section
    (st : MeasureRecordReaderFormatDets.state) (out : list Z) (n : Z)
    (out' : list Z) (st' : MeasureRecordReaderFormatDets.state) :
  small_range out ->
  0 <= MeasureRecordReaderFormatDets.position_in_buffer st ->
  MeasureRecordReaderFormatDets.read_bits_into_bytes st out = Ok (n, out', st') ->
  0 <= n
  /\ MeasureRecordReaderFormatDets.position_in_buffer st'
     = MeasureRecordReaderFormatDets.position_in_buffer st + n
  /\ (forall j, 0 <= j < n ->
        MeasureRecordReaderFormatDets.result_type_at
          (MeasureRecordReaderFormatDets.position_in_buffer st + j)
          (MeasureRecordReaderFormatDets.m_bits_per_record st)
          (MeasureRecordReaderFormatDets.d_bits_per_record st)
          (MeasureRecordReaderFormatDets.l_bits_per_record st)
        = MeasureRecordReaderFormatDets.current_result_type st).
Proof.
  intros Hsmall Hpos H.
  destruct (default_read_between _ _ _ st out n out' st' H Hsmall)
    as (bits & Hbits & Hn & Hbetween).
  split; [exact Hn|]. split.
  - destruct (DetsSections.dets_read_bits_position _ _ _ _ Hbits Hpos) as (-> & _). lia.
  - intros j Hj.
    replace (Z.to_nat n) with (Z.to_nat j + (Z.to_nat n - Z.to_nat j))%nat in Hbits by lia.
    apply read_bits_split in Hbits as (l1 & s1 & l2 & H1 & _ & _).
    destruct (Hbetween (Z.to_nat j) l1 s1 ltac:(lia) H1) as [_ Hcrt].
    destruct (DetsSections.dets_read_bits_position _ _ _ _ H1 Hpos)
      as (Hp1 & Hm1 & Hd1 & Hl1).
    unfold MeasureRecordReaderFormatDets.current_result_type in Hcrt at 1.
    rewrite Hp1, Hm1, Hd1, Hl1, Z2Nat.id in Hcrt by lia. exact Hcrt.
Qed.

(** The record "shot M0 D2 L0" with (m, d, l) = (2, 3, 1): a bulk read into
    two bytes stops after the two bits of the M section. *)
Lemma dets_bulk_read_stays_in_one_section_witness :
  MeasureRecordReaderFormatDets.position_in_buffer
    (MeasureRecordReaderFormatDets.mk [] [true; false; false; false; true; true] 2 2 3 1)
  = 0 + 2
  /\ MeasureRecordReaderFormatDets.result_type_at (0 + 1) 2 3 1 = ch_M.
Proof.
  destruct (dets_bulk_read_stays_in_one_section
              Scenarios.dets_m0_d2_l0_started [0; 0] 2 [1; 0]
              (MeasureRecordReaderFormatDets.mk
                 [] [true; false; false; false; true; true] 2 2 3 1))
    as (_ & Hpos & Htype).
  - unfold small_range. cbn. lia.
  - cbn. lia.
  - vm_compute. reflexivity.
  - split; [exact Hpos|]. apply (Htype 1). lia.
Defined.

(** ** Reading a whole stream into a table *)

Section RecordsLoop.
Context `{MeasureRecordReader T}.

Lemma read_records_loop_counts rows : forall rec max_shots st rec' rows' st',
  read_records_loop rows rec max_shots st = Ok (rec', rows', st') ->
  0 <= rec -> rec + Z.of_nat (length rows) < 2 ^ 64 ->
  rec <= rec' <= rec + Z.of_nat (length rows)
  /\ (rec <= max_shots -> rec' <= max_shots)
  /\ length rows' = length rows
  /\ drop (Z.to_nat (rec' - rec)) rows' = drop (Z.to_nat (rec' - rec)) rows
  /\ (rec' < max_shots -> rec' < rec + Z.of_nat (length rows) ->
      exists s, start_record s = Ok (false, st')).
Proof.
  induction rows as [|row rows IH]; intros rec max_shots st rec' rows' st' Hloop Hrec H64;
    cbn [read_records_loop] in Hloop.
  - injection Hloop as <- <- <-. cbn [length Z.of_nat]. rewrite Z.sub_diag.
    conjs; solve [reflexivity | lia].
  - cbn [length] in H64 |- *. rewrite Nat2Z.inj_succ in H64 |- *.
    destruct (Z.ltb_spec rec max_shots) as [Hlt|Hge]; cbn [negb] in Hloop.
    2:{ injection Hloop as <- <- <-. rewrite Z.sub_diag.
        conjs; solve [reflexivity | lia]. }
    destruct (start_record st) as [[started st1]|] eqn:Estart;
      cbn [mbind result_bind] in Hloop; [|discriminate].
    destruct started; cbn [negb] in Hloop.
    2:{ injection Hloop as <- <- <-. rewrite Z.sub_diag.
        conjs; try solve [reflexivity | lia]. intros _ _. now exists st. }
    destruct (read_bits_into_bytes st1 row) as [[[n row1] st2]|];
      cbn [mbind result_bind] in Hloop; [|discriminate].
    destruct (is_end_of_record st2) as [e|]; cbn [mbind result_bind] in Hloop; [|discriminate].
    destruct e; cbn [negb] in Hloop; [|discriminate].
    rewrite (wrap64_small (rec + 1)) in Hloop by lia.
    destruct (read_records_loop rows (rec + 1) max_shots st2)
      as [[[rec2 rows2] st3]|] eqn:Erest; cbn [mbind result_bind] in Hloop; [|discriminate].
    injection Hloop as <- <- <-.
    destruct (IH _ _ _ _ _ _ Erest ltac:(lia) ltac:(lia))
      as (Hrange & Hmax & Hlen & Hdrop & Hstop).
    conjs; try lia.
    + cbn [length]. now rewrite Hlen.
    + replace (Z.to_nat (rec2 - rec)) with (Datatypes.S (Z.to_nat (rec2 - (rec + 1)))) by lia.
      exact Hdrop.
    + intros Hr1 Hr2. apply Hstop; lia.
Qed.

End RecordsLoop.

(** X10. [read_records_into] (shots in rows) reads at most [max_shots]
    records and at most as many as the table has rows, and the rows behind
    the last record read are left as they were. With [max_shots] = 0 it does
    not touch the reader. When it returns a count below both bounds, it has
    stopped because [start_record] answered false. *)
Theorem read_records_into_counts `{MeasureRecordReader T}
    (rows : list (list Z)) (max_shots : Z) (st : T) :
  0 <= max_shots -> Z.of_nat (length rows) < 2 ^ 64 ->
  (forall rec rows' st',
      read_records_into rows max_shots st = Ok (rec, rows', st') ->
      0 <= rec <= max_shots
      /\ rec <= Z.of_nat (length rows)
      /\ length rows' = length rows
      /\ drop (Z.to_nat rec) rows' = drop (Z.to_nat rec) rows
      /\ (rec < max_shots -> rec < Z.of_nat (length rows) ->
          exists s, start_record s = Ok (false, st')))
  /\ (max_shots = 0 -> read_records_into rows max_shots st = Ok (0, rows, st)).
Proof.
  intros Hmax H64. split.
  - intros rec rows' st' Hloop. unfold read_records_into in Hloop.
    apply read_records_loop_counts in Hloop; [|lia|lia].
    destruct Hloop as (Hrange & Hbound & Hlen & Hdrop & Hstop).
    rewrite Z.sub_0_r in Hdrop.
    conjs; try solve [assumption | lia].
    intros Hr1 Hr2. apply Hstop; lia.
  - intros ->. unfold read_records_into.
    rewrite Z.min_l by lia. destruct rows as [|row rows]; reflexivity.
Qed.

(** Three records of one bit in the 01 format, two of them asked for, a
    table of three rows: the third row is left as it was. *)
Lemma read_records_into_counts_witness :
  drop 2 [[1]; [0]; [255]] = drop 2 [[255]; [255]; [255]].
Proof.
  assert (Hrun :
    read_records_into [[255]; [255]; [255]] 2
      (MeasureRecordReaderFormat01.make [x31; x0a; x30; x0a; x31; x0a] 1)
    = Ok (2, [[1]; [0]; [255]],
          MeasureRecordReaderFormat01.mk [x31; x0a] 10 1 1))
    by (vm_compute; reflexivity).
  destruct (proj1 (read_records_into_counts
                     [[255]; [255]; [255]] 2
                     (MeasureRecordReaderFormat01.make [x31; x0a; x30; x0a; x31; x0a] 1)
                     ltac:(lia) ltac:(cbn; lia)) _ _ _ Hrun)
    as (_ & _ & _ & Hdrop & _).
  exact Hdrop.
Defined.

Section WholeRecord.
Context {T : Type}.
Variable rb : T -> result (bool * T).
Variable ie : T -> result bool.
Variable crt : T -> Z.

Lemma record_bits_drains st bits st' : record_bits rb ie st bits st' -> drains rb ie st.
Proof.
  induction 1 as [st He|st bit st1 bits st' He Hrb _ IH].
  - now apply drains_end.
  - now apply (drains_bit rb ie st bit st1).
Qed.

Lemma record_bits_final st bits st' : record_bits rb ie st bits st' -> ie st' = Ok true.
Proof. induction 1; assumption. Qed.

Lemma record_bits_read st bits st' :
  record_bits rb ie st bits st' -> read_bits rb (length bits) st = Ok (bits, st').
Proof.
  induction 1 as [st He|st bit st1 bits st' He Hrb _ IH]; cbn [length read_bits].
  - reflexivity.
  - rewrite Hrb. cbn [mbind result_bind]. rewrite IH. reflexivity.
Qed.

(** The states that [read_bit] goes through inside a record are those of
    the record. *)
Lemma record_bits_prefix j : forall st bits st' l s,
  record_bits rb ie st bits st' -> (j <= length bits)%nat ->
  read_bits rb j st = Ok (l, s) ->
  l = take j bits /\ record_bits rb ie s (drop j bits) st'.
Proof.
  induction j as [|j IH]; intros st bits st' l s Hrec Hj H; cbn [read_bits] in H.
  - injection H as <- <-. now rewrite take_0, drop_0.
  - destruct Hrec as [st He|st bit st1 bits st' He Hrb Hrest]; cbn [length] in Hj; [lia|].
    rewrite Hrb in H. cbn [mbind result_bind] in H.
    destruct (read_bits rb j st1) as [[l1 s1]|] eqn:Ej; cbn [mbind result_bind] in H;
      [|discriminate].
    injection H as <- <-.
    destruct (IH _ _ _ _ _ Hrest ltac:(lia) Ej) as [-> Hrec1]. now split.
Qed.

(** A bulk read into a range that has room for it takes the whole record,
    when the result type does not change. *)
Lemma default_read_whole_record st bits st' out :
  record_bits rb ie st bits st' -> (forall s, crt s = crt st) ->
  row_fits bits out ->
  exists out',
    default_read_bits_into_bytes rb ie crt st out = Ok (Z.of_nat (length bits), out', st')
    /\ packed bits out out'.
Proof.
  intros Hrec Hcrt [Hroom Hsmall].
  destruct (default_read_total rb ie crt st out (record_bits_drains _ _ _ Hrec))
    as (n & out' & s & Hcall & _).
  destruct (default_read_bits_into_bytes_ok rb ie crt st out n out' s Hcall Hsmall)
    as (bits' & Hbits' & Hn & Hpacked).
  destruct (default_read_between rb ie crt st out n out' s Hcall Hsmall)
    as (_ & _ & _ & Hbetween).
  pose proof (record_bits_read _ _ _ Hrec) as Hall.
  pose proof (record_bits_final _ _ _ Hrec) as Hfinal.
  destruct (Nat.lt_trichotomy (length bits') (length bits)) as [Hlt|[Heq|Hgt]].
  - (* the read would have stopped inside the record *)
    destruct (record_bits_prefix (length bits') _ _ _ _ _ Hrec ltac:(lia) Hbits') as [_ Hmid].
    destruct (default_read_stops rb ie crt st out n out' s Hsmall Hcall ltac:(lia))
      as [He|[_ Hchange]].
    + destruct (drop (length bits') bits) as [|bit l] eqn:Edrop.
      * apply (f_equal length) in Edrop. rewrite length_drop in Edrop. cbn in Edrop. lia.
      * inversion Hmid; subst. congruence.
    + now rewrite Hcrt in Hchange.
  - destruct (record_bits_prefix (length bits') _ _ _ _ _ Hrec ltac:(lia) Hbits') as [Htake Hmid].
    rewrite Heq, take_ge in Htake by lia. subst bits'.
    rewrite drop_ge in Hmid by lia.
    assert (s = st') as -> by (inversion Hmid; reflexivity).
    exists out'. rewrite Hn in Hcall. auto.
  - (* the read would have gone on from the end of the record *)
    destruct (Hbetween (length bits) bits st' ltac:(lia) Hall) as [He _]. congruence.
Qed.

End WholeRecord.

Section ReadsRecords.
Context `{MeasureRecordReader T}.
Hypothesis default_bulk_read :
  forall st out,
    read_bits_into_bytes st out
    = default_read_bits_into_bytes read_bit is_end_of_record current_result_type st out.
Hypothesis one_result_type : forall s s' : T, current_result_type s = current_result_type s'.

Lemma read_records_loop_reads records : forall rows rec max_shots st st_k,
  stream_records st records st_k ->
  Forall2 row_fits records (take (length records) rows) ->
  0 <= rec -> rec + Z.of_nat (length rows) < 2 ^ 64 ->
  rec + Z.of_nat (length records) <= max_shots ->
  exists rows',
    packed_rows records rows rows'
    /\ (length records = length rows \/ rec + Z.of_nat (length records) = max_shots ->
        read_records_loop rows rec max_shots st
        = Ok (rec + Z.of_nat (length records), rows', st_k))
    /\ (forall st_end,
          (length records < length rows)%nat ->
          rec + Z.of_nat (length records) < max_shots ->
          start_record st_k = Ok (false, st_end) ->
          read_records_loop rows rec max_shots st
          = Ok (rec + Z.of_nat (length records), rows', st_end)).
Proof.
  induction records as [|bits records IH];
    intros rows rec max_shots st st_k Hstream Hfit Hrec H64 Hmax;
    inversion Hstream as [|? st0 ? st1 ? ? Hstart Hbits Hrest]; subst.
  - exists rows. cbn [length Z.of_nat]. rewrite Z.add_0_r.
    split; [constructor|]. split.
    + intros [Hrows|Hfull].
      * destruct rows; [reflexivity | discriminate].
      * destruct rows as [|row rows]; [reflexivity|]. cbn [read_records_loop].
        destruct (Z.ltb_spec rec max_shots); [lia | reflexivity].
    + intros st_end Hrows Hless Hend.
      destruct rows as [|row rows]; [cbn in Hrows; lia|]. cbn [read_records_loop].
      destruct (Z.ltb_spec rec max_shots); [|lia]. cbn [negb].
      rewrite Hend. reflexivity.
  - cbn [length] in Hfit, Hmax |- *. rewrite Nat2Z.inj_succ in Hmax |- *.
    destruct rows as [|row rows]; [inversion Hfit|].
    cbn [take length] in Hfit, H64. rewrite Nat2Z.inj_succ in H64.
    inversion Hfit as [|? ? ? ? Hrow Hrows]; subst.
    destruct (default_read_whole_record read_bit is_end_of_record current_result_type
                st0 bits st1 row Hbits (fun s => one_result_type s st0) Hrow)
      as (row' & Hcall & Hpacked).
    destruct (IH rows (rec + 1) max_shots st1 st_k Hrest Hrows ltac:(lia) ltac:(lia)
                ltac:(lia)) as (rows' & Hpacked' & Hfull & Hshort).
    exists (row' :: rows'). split; [now constructor|].
    assert (Hstep : forall r,
      read_records_loop rows (rec + 1) max_shots st1
      = Ok (rec + 1 + Z.of_nat (length records), rows', r) ->
      read_records_loop (row :: rows) rec max_shots st
      = Ok (rec + Z.succ (Z.of_nat (length records)), row' :: rows', r)).
    { intros r Hr. cbn [read_records_loop].
      destruct (Z.ltb_spec rec max_shots); [|lia]. cbn [negb].
      rewrite Hstart. cbn [mbind result_bind negb].
      rewrite default_bulk_read, Hcall. cbn [mbind result_bind].
      rewrite (record_bits_final _ _ _ _ _ Hbits). cbn [mbind result_bind negb].
      rewrite (wrap64_small (rec + 1)) by lia. rewrite Hr. cbn [mbind result_bind].
      do 3 f_equal. lia. }
    split.
    + intros Hcase. cbn [length] in Hcase. apply Hstep, Hfull. lia.
    + intros st_end Hrows' Hless Hend. cbn [length] in Hrows'.
      apply Hstep, Hshort; [lia | lia | exact Hend].
Qed.

End ReadsRecords.

Module Format01Files.
Import MeasureRecordReaderFormat01.

(** A line as the record of the reader that has its first character in
    [payload]. *)
Lemma f01_record_bits bits : forall ending p m,
  line_end ending -> 0 <= p -> p + Z.of_nat (length bits) = m -> m < 2 ^ 64 ->
  record_bits read_bit is_end_of_record
    (mk (getc (f01_line bits ++ ending)).2 (getc (f01_line bits ++ ending)).1 p m)
    bits
    (mk (getc ending).2 (getc ending).1 m m).
Proof.
  induction bits as [|bit bits IH]; intros ending p m Hend Hp Hm H64.
  - cbn [length Z.of_nat] in Hm. rewrite Z.add_0_r in Hm. subst p.
    cbn [f01_line fmap list_fmap app]. apply record_bits_end.
    unfold is_end_of_record. cbn [payload position bits_per_record].
    rewrite (Format01Lines.line_end_getc ending Hend).
    destruct (Z.geb_spec m m); [reflexivity | lia].
  - change (f01_line (bit :: bits)) with (f01_char bit :: f01_line bits).
    cbn [length] in Hm. rewrite Nat2Z.inj_succ in Hm. cbn [app getc fst snd].
    apply (record_bits_bit _ _ _ bit
             (mk (getc (f01_line bits ++ ending)).2 (getc (f01_line bits ++ ending)).1
                 (p + 1) m)).
    + unfold is_end_of_record. cbn [payload position bits_per_record].
      rewrite Format01Skip.not_EOF.
      destruct (Z.geb_spec p m); [lia|]. now destruct bit.
    + apply Format01Lines.read_bit_char; lia.
    + apply IH; [assumption | lia | lia | assumption].
Qed.

(** The lines of a text as the records of the reader. *)
Lemma f01_stream_records records : forall rest m st,
  Forall (fun bits => Z.of_nat (length bits) = m) records -> m < 2 ^ 64 ->
  inp st = f01_text records ++ rest -> bits_per_record st = m ->
  exists st_k,
    stream_records st records st_k
    /\ inp st_k = rest /\ bits_per_record st_k = m.
Proof.
  induction records as [|bits records IH]; intros rest m st Hlen H64 Hinp Hm.
  - exists st. split; [constructor|]. split; assumption.
  - apply Forall_cons in Hlen as [Hbits Hrecords].
    change (f01_text (bits :: records))
      with ((f01_line bits ++ [x0a]) ++ f01_text records) in Hinp.
    rewrite <- !app_assoc in Hinp. cbn [app] in Hinp.
    pose proof (f01_record_bits bits (x0a :: f01_text records ++ rest) 0 m
                  ltac:(right; eexists; reflexivity) ltac:(lia) ltac:(lia) H64) as Hrec.
    cbn [getc fst snd] in Hrec.
    destruct (IH rest m (mk (f01_text records ++ rest) (byte_val x0a) m m)
                Hrecords H64 eq_refl eq_refl)
      as (st_k & Hstream & Hrest & Hm').
    exists st_k. split; [|split; assumption].
    assert (Hstart :
      start_record st
      = Ok (true, mk (getc (f01_line bits ++ x0a :: f01_text records ++ rest)).2
                     (getc (f01_line bits ++ x0a :: f01_text records ++ rest)).1 0 m)).
    { unfold start_record. rewrite Hinp, Hm.
      destruct (f01_line bits ++ x0a :: f01_text records ++ rest) as [|b inp1] eqn:E.
      - destruct bits; discriminate.
      - cbn [getc fst snd]. now rewrite Format01Skip.not_EOF. }
    eapply stream_records_cons; [exact Hstart | exact Hrec | exact Hstream].
Qed.

End Format01Files.

(** X11. For a reader that uses the default bulk read and has one result
    type (the 01 and HITS readers): [read_records_into] (shots in rows)
    delivers the records that [start_record], [read_bit] and
    [is_end_of_record] deliver, one to a row, each packed eight bits to a
    byte from the lowest bit, into rows that have room for them. It returns
    their number and leaves the reader behind the last of them when
    [max_shots] or the number of rows is reached, and behind the failed
    [start_record] when the stream has no more records. *)
Theorem read_records_into_reads_the_records `{MeasureRecordReader T}
    (records : list (list bool)) (rows : list (list Z)) (max_shots : Z) (st st_k : T) :
  (forall st out,
      read_bits_into_bytes st out
      = default_read_bits_into_bytes read_bit is_end_of_record current_result_type st out) ->
  (forall s s' : T, current_result_type s = current_result_type s') ->
  stream_records st records st_k ->
  Forall2 row_fits records (take (length records) rows) ->
  Z.of_nat (length rows) < 2 ^ 64 ->
  Z.of_nat (length records) <= max_shots ->
  exists rows',
    packed_rows records rows rows'
    /\ (Z.of_nat (length records) = Z.min max_shots (Z.of_nat (length rows)) ->
        read_records_into rows max_shots st = Ok (Z.of_nat (length records), rows', st_k))
    /\ (forall st_end,
          Z.of_nat (length records) < Z.min max_shots (Z.of_nat (length rows)) ->
          start_record st_k = Ok (false, st_end) ->
          read_records_into rows max_shots st
          = Ok (Z.of_nat (length records), rows', st_end)).
Proof.
  intros Hbulk Hcrt Hstream Hfit H64 Hmax.
  assert (Hrows : (length records <= length rows)%nat).
  { apply Forall2_length in Hfit. rewrite length_take in Hfit. lia. }
  destruct (read_records_loop_reads Hbulk Hcrt records rows 0
              (Z.min max_shots (Z.of_nat (length rows))) st st_k Hstream Hfit)
    as (rows' & Hpacked & Hfull & Hshort); [lia..|].
  exists rows'. split; [exact Hpacked|]. unfold read_records_into.
  rewrite Z.add_0_l in Hfull, Hshort. split.
  - intros Hk. apply Hfull. lia.
  - intros st_end Hk Hend. apply Hshort; [lia | lia | exact Hend].
Qed.

(** The 01 reader of the text "1\n0\n", one bit to a record, and a table
    of three rows: two rows are filled, then [start_record] answers false. *)
Lemma read_records_into_reads_the_records_witness :
  exists rows' st_end,
    read_records_into [[255]; [255]; [255]] 7
      (MeasureRecordReaderFormat01.make [x31; x0a; x30; x0a] 1)
    = Ok (2, rows', st_end)
    /\ packed_rows [[true]; [false]] [[255]; [255]; [255]] rows'.
Proof.
  destruct (Format01Files.f01_stream_records [[true]; [false]] [] 1
              (MeasureRecordReaderFormat01.make [x31; x0a; x30; x0a] 1))
    as (st_k & Hstream & Hrest & Hm);
    [repeat constructor | vm_compute; reflexivity | reflexivity | reflexivity |].
  destruct (read_records_into_reads_the_records
              [[true]; [false]] [[255]; [255]; [255]] 7
              (MeasureRecordReaderFormat01.make [x31; x0a; x30; x0a] 1) st_k)
    as (rows' & Hpacked & _ & Hshort).
  - intros; reflexivity.
  - intros; reflexivity.
  - exact Hstream.
  - repeat constructor; unfold small_range; cbn; lia.
  - cbn. lia.
  - cbn. lia.
  - exists rows', (MeasureRecordReaderFormat01.mk [] EOF 0 1).
    split; [|exact Hpacked]. apply Hshort; [cbn; lia|].
    change (MeasureRecordReaderFormat01.start_record st_k
            = Ok (false, MeasureRecordReaderFormat01.mk [] EOF 0 1)).
    unfold MeasureRecordReaderFormat01.start_record. now rewrite Hrest, Hm.
Defined.

(** X12. [read_records_into] reads a text of the 01 format: when the stream
    holds a line of m characters '0' or '1' for each record, one after the
    other, it fills a row with each of the first records, as many as
    [max_shots] and the rows allow, and leaves the stream behind their
    lines; when the text ends before that, it returns the number of its
    lines. *)
Theorem f01_read_records_into_reads_the_text
    (records : list (list bool)) (rest : list byte) (m : Z)
    (rows : list (list Z)) (max_shots : Z) :
  Forall (fun bits => Z.of_nat (length bits) = m) records -> m < 2 ^ 64 ->
  Forall2 row_fits records (take (length records) rows) ->
  Z.of_nat (length rows) < 2 ^ 64 ->
  Z.of_nat (length records) <= max_shots ->
  exists rows',
    packed_rows records rows rows'
    /\ (Z.of_nat (length records) = Z.min max_shots (Z.of_nat (length rows)) ->
        exists st',
          read_records_into rows max_shots
            (MeasureRecordReaderFormat01.make (f01_text records ++ rest) m)
          = Ok (Z.of_nat (length records), rows', st')
          /\ MeasureRecordReaderFormat01.inp st' = rest)
    /\ (Z.of_nat (length records) < Z.min max_shots (Z.of_nat (length rows)) ->
        rest = [] ->
        exists st',
          read_records_into rows max_shots
            (MeasureRecordReaderFormat01.make (f01_text records ++ rest) m)
          = Ok (Z.of_nat (length records), rows', st')
          /\ MeasureRecordReaderFormat01.inp st' = []).
Proof.
  intros Hlen Hm Hfit H64 Hmax.
  assert (Hrows : (length records <= length rows)%nat).
  { apply Forall2_length in Hfit. rewrite length_take in Hfit. lia. }
  destruct (Format01Files.f01_stream_records records rest m
              (MeasureRecordReaderFormat01.make (f01_text records ++ rest) m)
              Hlen Hm eq_refl eq_refl) as (st_k & Hstream & Hrest & Hm_k).
  assert (Hbulk : forall (s : MeasureRecordReaderFormat01.state) out,
             read_bits_into_bytes s out
             = default_read_bits_into_bytes read_bit is_end_of_record
                 current_result_type s out) by (intros; reflexivity).
  assert (Hcrt : forall s s' : MeasureRecordReaderFormat01.state,
             current_result_type s = current_result_type s') by (intros; reflexivity).
  destruct (read_records_loop_reads Hbulk Hcrt records rows 0
              (Z.min max_shots (Z.of_nat (length rows)))
              (MeasureRecordReaderFormat01.make (f01_text records ++ rest) m)
              st_k Hstream Hfit)
    as (rows' & Hpacked & Hfull & Hshort); [lia..|].
  exists rows'. split; [exact Hpacked|]. unfold read_records_into.
  rewrite Z.add_0_l in Hfull, Hshort. split.
  - intros Hk. exists st_k. split; [apply Hfull; lia | exact Hrest].
  - intros Hk ->.
    exists (MeasureRecordReaderFormat01.mk [] EOF 0 m). split; [|reflexivity].
    apply Hshort; [lia | lia |].
    change (MeasureRecordReaderFormat01.start_record st_k
            = Ok (false, MeasureRecordReaderFormat01.mk [] EOF 0 m)).
    unfold MeasureRecordReaderFormat01.start_record. now rewrite Hrest, Hm_k.
Qed.

(** Two records of three bits, "101\n001\n", read into a table of three
    rows of one byte. *)
Lemma f01_read_records_into_reads_the_text_witness :
  exists rows' st',
    read_records_into [[255]; [255]; [255]] 5
      (MeasureRecordReaderFormat01.make
         (f01_text [[true; false; true]; [false; false; true]] ++ []) 3)
    = Ok (2, rows', st')
    /\ packed_rows [[true; false; true]; [false; false; true]]
                   [[255]; [255]; [255]] rows'
    /\ MeasureRecordReaderFormat01.inp st' = [].
Proof.
  destruct (f01_read_records_into_reads_the_text
              [[true; false; true]; [false; false; true]] [] 3
              [[255]; [255]; [255]] 5)
    as (rows' & Hpacked & _ & Hshort).
  - repeat constructor.
  - vm_compute. reflexivity.
  - repeat constructor; unfold small_range; cbn; lia.
  - cbn. lia.
  - cbn. lia.
  - destruct Hshort as (st' & Hrun & Hinp); [cbn; lia | reflexivity|].
    exists rows', st'. split; [exact Hrun|]. split; [exact Hpacked | exact Hinp].
Defined.

(** ** DETS records of more than one section *)

Module DetsRecords.
Import MeasureRecordReaderFormatDets.

Lemma dets_start_record_fields st st0 :
  start_record st = Ok (true, st0) ->
  position_in_buffer st0 = 0
  /\ m_bits_per_record st0 = m_bits_per_record st
  /\ d_bits_per_record st0 = d_bits_per_record st
  /\ l_bits_per_record st0 = l_bits_per_record st.
Proof.
  unfold start_record. intros H.
  destruct (maybe_consume_keyword (inp st) shot) as [[[found c] inp1]|];
    cbn [mbind result_bind] in H; [|discriminate].
  destruct found; cbn [negb] in H; [|discriminate].
  destruct (dets_loop _ _ _ _ _ _ _) as [[buffer1 inp2]|];
    cbn [mbind result_bind] in H; [|discriminate].
  injection H as <-. repeat split.
Qed.

(** A reader inside its buffer can be read to the end of the record. *)
Lemma dets_drains k : forall st,
  0 <= position_in_buffer st ->
  position_in_buffer st + Z.of_nat k
  = width (m_bits_per_record st) (d_bits_per_record st) (l_bits_per_record st) ->
  drains read_bit (fun st => Ok (is_end_of_record st)) st.
Proof.
  induction k as [|k IH]; intros st Hpos Hk.
  - apply drains_end. unfold is_end_of_record. f_equal. apply Z.eqb_eq. lia.
  - pose proof (wrap64_range (wrap64 (m_bits_per_record st + d_bits_per_record st)
                              + l_bits_per_record st)) as Hw.
    fold (width (m_bits_per_record st) (d_bits_per_record st) (l_bits_per_record st)) in Hw.
    eapply drains_bit.
    + unfold is_end_of_record. f_equal. apply Z.eqb_neq. lia.
    + unfold read_bit.
      destruct (Z.geb_spec (position_in_buffer st)
                  (width (m_bits_per_record st) (d_bits_per_record st)
                         (l_bits_per_record st))); [lia | reflexivity].
    + apply IH; cbn [position_in_buffer m_bits_per_record d_bits_per_record
                     l_bits_per_record];
        rewrite (wrap64_small (position_in_buffer st + 1)) by lia; lia.
Qed.

(** The section that a record starts with ends before the record does when
    another section is not empty, and the position behind it has another
    result type. *)
Lemma first_section_ends m d l :
  0 <= m -> 0 <= d -> 0 <= l -> m + d + l < 2 ^ 64 ->
  (0 < m /\ 0 < d + l) \/ (0 < d /\ 0 < l) ->
  exists w, 0 < w < m + d + l /\ result_type_at w m d l <> result_type_at 0 m d l.
Proof.
  intros Hm Hd Hl H64 Htwo. unfold result_type_at.
  rewrite (wrap64_small (m + d)) by lia.
  destruct (Z.eq_dec m 0) as [->|Hm0].
  - exists d. split; [lia|].
    destruct (Z.ltb_spec d 0), (Z.ltb_spec 0 0), (Z.ltb_spec d (0 + d)),
      (Z.ltb_spec 0 (0 + d)), (Z.eqb_spec d 0), (Z.eqb_spec l 0); cbn; try lia; discriminate.
  - exists m. split; [lia|].
    destruct (Z.ltb_spec m m), (Z.ltb_spec 0 m), (Z.ltb_spec m (m + d)),
      (Z.eqb_spec m 0), (Z.eqb_spec d 0), (Z.eqb_spec l 0); cbn; try lia; discriminate.
Qed.

End DetsRecords.

(** X13. [read_records_into] cannot read a DETS record that has bits in more
    than one section: its one bulk read per record stops at the end of the
    first section, the record has not ended, and the call throws "a shot
    contained more bits than expected", whatever the line holds. *)
Theorem dets_read_records_into_rejects_mixed_sections
    (st st0 : MeasureRecordReaderFormatDets.state)
    (row : list Z) (rows : list (list Z)) (max_shots : Z) :
  let m := MeasureRecordReaderFormatDets.m_bits_per_record st in
  let d := MeasureRecordReaderFormatDets.d_bits_per_record st in
  let l := MeasureRecordReaderFormatDets.l_bits_per_record st in
  0 <= m -> 0 <= d -> 0 <= l -> m + d + l < 2 ^ 64 ->
  (0 < m /\ 0 < d + l) \/ (0 < d /\ 0 < l) ->
  MeasureRecordReaderFormatDets.start_record st = Ok (true, st0) ->
  1 <= max_shots -> small_range row ->
  read_records_into (row :: rows) max_shots st = Throw ShotTooLong.
Proof.
  intros m d l Hm Hd Hl H64 Htwo Hstart Hmax Hsmall.
  destruct (DetsRecords.dets_start_record_fields st st0 Hstart) as (Hp0 & Hm0 & Hd0 & Hl0).
  assert (Hwidth : MeasureRecordReaderFormatDets.width
                     (MeasureRecordReaderFormatDets.m_bits_per_record st0)
                     (MeasureRecordReaderFormatDets.d_bits_per_record st0)
                     (MeasureRecordReaderFormatDets.l_bits_per_record st0) = m + d + l).
  { rewrite Hm0, Hd0, Hl0. unfold MeasureRecordReaderFormatDets.width.
    fold m d l. rewrite (wrap64_small (m + d)), wrap64_small by lia. reflexivity. }
  assert (Hdrains : drains MeasureRecordReaderFormatDets.read_bit
                      (fun st => Ok (MeasureRecordReaderFormatDets.is_end_of_record st)) st0).
  { apply (DetsRecords.dets_drains (Z.to_nat (m + d + l))); [lia|].
    rewrite Hp0, Hwidth. lia. }
  destruct (default_read_total _ _ MeasureRecordReaderFormatDets.current_result_type
              st0 row Hdrains) as (n & row' & st1 & Hcall & _).
  destruct (default_read_between _ _ _ st0 row n row' st1 Hcall Hsmall)
    as (bits & Hbits & Hn & Hbetween).
  destruct (DetsSections.dets_read_bits_position _ _ _ _ Hbits ltac:(lia))
    as (Hp1 & Hm1 & Hd1 & Hl1).
  destruct (DetsRecords.first_section_ends m d l Hm Hd Hl H64 Htwo) as (w & Hw & Htype).
  assert (Hshort : n <= w).
  { destruct (Z.le_gt_cases n w) as [|Hgt]; [assumption|]. exfalso. apply Htype.
    replace (Z.to_nat n) with (Z.to_nat w + (Z.to_nat n - Z.to_nat w))%nat in Hbits by lia.
    apply read_bits_split in Hbits as (l1 & s1 & l2 & H1 & _ & _).
    destruct (Hbetween (Z.to_nat w) l1 s1 ltac:(lia) H1) as [_ Hcrt].
    destruct (DetsSections.dets_read_bits_position _ _ _ _ H1 ltac:(lia))
      as (Hps & Hms & Hds & Hls).
    unfold MeasureRecordReaderFormatDets.current_result_type in Hcrt.
    rewrite Hps, Hms, Hds, Hls, Hp0, Hm0, Hd0, Hl0, Z2Nat.id, Z.add_0_l in Hcrt by lia.
    exact Hcrt. }
  unfold read_records_into. cbn [read_records_loop length].
  destruct (Z.ltb_spec 0 (Z.min max_shots (Z.of_nat (S (length rows))))); [|lia].
  cbn [negb].
  change (start_record st) with (MeasureRecordReaderFormatDets.start_record st).
  rewrite Hstart. cbn [mbind result_bind negb].
  change (read_bits_into_bytes st0 row)
    with (MeasureRecordReaderFormatDets.read_bits_into_bytes st0 row).
  unfold MeasureRecordReaderFormatDets.read_bits_into_bytes. rewrite Hcall.
  cbn [mbind result_bind].
  change (is_end_of_record st1)
    with (Ok (MeasureRecordReaderFormatDets.is_end_of_record st1) : result bool).
  cbn [mbind result_bind]. unfold MeasureRecordReaderFormatDets.is_end_of_record.
  rewrite Hp1, Hm1, Hd1, Hl1, Hwidth, Hp0, Z2Nat.id by lia.
  destruct (Z.eqb_spec (0 + n) (m + d + l)); [lia | reflexivity].
Qed.

(** The DETS reader with (m, d, l) = (2, 3, 1) on "shot M0 D2 L0\n". *)
Lemma dets_read_records_into_rejects_mixed_sections_witness :
  read_records_into [[0]; [0]] 2
    (MeasureRecordReaderFormatDets.make Scenarios.dets_m0_d2_l0 2 3 1)
  = Throw ShotTooLong.
Proof.
  apply (dets_read_records_into_rejects_mixed_sections
           (MeasureRecordReaderFormatDets.make Scenarios.dets_m0_d2_l0 2 3 1)
           Scenarios.dets_m0_d2_l0_started [0] [[0]] 2).
  - cbn. lia.
  - cbn. lia.
  - cbn. lia.
  - vm_compute. reflexivity.
  - left. cbn. lia.
  - vm_compute. reflexivity.
  - lia.
  - unfold small_range. cbn. lia.
Defined.

(** ** HITS and DETS: indices out of range *)

Module HitsRange.
Import MeasureRecordReaderFormatHits HitsLine.

Lemma hits_loop_tail_too_big m tokens : forall budget buffer rest,
  Forall numeral tokens -> Forall (fun t => decimal_value t < 2 ^ 64) tokens ->
  Exists (fun t => m <= decimal_value t) tokens ->
  (length tokens < budget)%nat ->
  hits_loop budget m (getc (hits_tail tokens ++ rest)).1 false buffer
            (getc (hits_tail tokens ++ rest)).2
  = Throw HitsValueTooBig.
Proof.
  induction tokens as [|t tokens IH]; intros budget buffer rest Hnum Hfit Hbig Hbudget;
    [inversion Hbig|].
  destruct budget as [|budget]; [cbn in Hbudget; lia|]. rewrite hits_loop_eq.
  inversion Hnum as [|? ? Ht Hnum']; inversion Hfit as [|? ? Hft Hfit']; subst.
  cbn [hits_tail getc app fst snd]. rewrite hits_line_cons, <- app_assoc.
  change (byte_val x2c =? ch_newline) with false. cbv iota.
  rewrite read_uint64_numeral; [|assumption|apply hits_tail_stops|assumption].
  cbn [mbind result_bind negb].
  rewrite hits_tail_separator.
  destruct (Z.geb_spec (decimal_value t) m) as [|Hlt]; [reflexivity|].
  apply IH; try assumption; [|cbn in Hbudget; lia].
  inversion Hbig; subst; [lia | assumption].
Qed.

Lemma hits_start_record_too_big st tokens rest :
  inp st = hits_line tokens ++ rest ->
  Forall numeral tokens -> Forall (fun t => decimal_value t < 2 ^ 64) tokens ->
  Exists (fun t => bits_per_record st <= decimal_value t) tokens ->
  start_record st = Throw HitsValueTooBig.
Proof.
  intros Hinp Hnum Hfit Hbig. unfold start_record. rewrite Hinp.
  destruct tokens as [|t tokens]; [inversion Hbig|].
  inversion Hnum as [|? ? Ht Hnum']; inversion Hfit as [|? ? Hft Hfit']; subst.
  rewrite hits_line_cons, <- app_assoc.
  destruct t as [|d ds]; [destruct Ht; congruence|].
  cbn [app getc].
  pose proof (isdigit_range (byte_val d)) as Hr.
  destruct Ht as [Hne Hds]. inversion Hds as [|? ? Hd Hds']; subst.
  specialize (Hr Hd).
  destruct (Z.eqb_spec (byte_val d) EOF) as [He|_]; [unfold EOF in He; lia|].
  rewrite hits_loop_eq.
  destruct (Z.eqb_spec (byte_val d) ch_newline) as [He|_]; [unfold ch_newline in He; lia|].
  rewrite read_uint64_numeral_first; [|split; assumption|apply hits_tail_stops|assumption].
  cbn [mbind result_bind negb].
  rewrite hits_tail_separator.
  destruct (Z.geb_spec (decimal_value (d :: ds)) (bits_per_record st)) as [|Hlt];
    [reflexivity|].
  rewrite hits_loop_tail_too_big; [reflexivity|assumption|assumption| |].
  - inversion Hbig; subst; [lia | assumption].
  - rewrite !length_app. pose proof (hits_tail_length tokens Hnum'). lia.
Qed.

End HitsRange.

Module DetsRange.
Import MeasureRecordReaderFormatDets DetsLine.

Lemma dets_loop_run_too_big m d l trailing ending tokens : forall budget buffer,
  line_end ending ->
  Forall (fun t => numeral (tok_digits t) /\ decimal_value (tok_digits t) < 2 ^ 64) tokens ->
  Exists (fun t => section_size m d l (tok_section t) <= decimal_value (tok_digits t))
         tokens ->
  (length tokens <= budget)%nat ->
  dets_loop budget m d l
            (getc (dets_tokens_run tokens trailing ++ ending)).1 buffer
            (getc (dets_tokens_run tokens trailing ++ ending)).2
  = Throw DetsValueTooBig.
Proof.
  induction tokens as [|t tokens IH]; intros budget buffer Hend Hnum Hbig Hbudget;
    [inversion Hbig|].
  rewrite dets_loop_eq.
  inversion Hnum as [|? ? [Hnt Hft] Hnum']; subst.
  rewrite dets_tokens_run_cons. cbn [app getc fst snd].
  change (byte_val x20) with ch_space. rewrite <- app_assoc. cbn [app].
  rewrite skip_spaces_run by (destruct (tok_section t); intros He; discriminate He).
  change (ch_space =? ch_space) with true. cbv zeta iota.
  replace ((byte_val (section_prefix (tok_section t)) =? ch_newline)
           || (byte_val (section_prefix (tok_section t)) =? EOF)) with false
    by (destruct (tok_section t); reflexivity).
  cbn [negb]. rewrite section_prefix_cases. cbn [mbind result_bind].
  rewrite <- app_assoc.
  rewrite read_uint64_numeral; [|assumption|now apply dets_tokens_run_stops|assumption].
  cbn [mbind result_bind negb].
  destruct (Z.geb_spec (decimal_value (tok_digits t)) (section_size m d l (tok_section t)))
    as [|Hlt]; [reflexivity|].
  destruct budget as [|budget]; [cbn in Hbudget; lia|].
  apply IH; try assumption; [|cbn in Hbudget; lia].
  inversion Hbig; subst; [lia | assumption].
Qed.

Lemma dets_start_record_too_big st tokens trailing ending :
  line_end ending ->
  inp st = [x73; x68; x6f; x74] ++ dets_tokens_run tokens trailing ++ ending ->
  Forall (fun t => numeral (tok_digits t) /\ decimal_value (tok_digits t) < 2 ^ 64) tokens ->
  Exists (fun t => section_size (m_bits_per_record st) (d_bits_per_record st)
                                (l_bits_per_record st) (tok_section t)
                   <= decimal_value (tok_digits t)) tokens ->
  start_record st = Throw DetsValueTooBig.
Proof.
  intros Hend Hinp Hnum Hbig. unfold start_record. rewrite Hinp.
  unfold maybe_consume_keyword, shot. cbn [app getc].
  change (byte_val x73 =? EOF) with false. cbv iota.
  cbn [consume_keyword_chars getc].
  change (negb (115 =? byte_val x73)) with false.
  change (negb (104 =? byte_val x68)) with false.
  change (negb (111 =? byte_val x6f)) with false.
  change (negb (116 =? byte_val x74)) with false. cbv iota.
  destruct (getc (dets_tokens_run tokens trailing ++ ending)) as [c inp'] eqn:E.
  cbn [mbind result_bind negb].
  pose proof (dets_loop_run_too_big (m_bits_per_record st) (d_bits_per_record st)
                (l_bits_per_record st) trailing ending tokens (length inp')
                (buffer_clear (buffer st)) Hend Hnum Hbig) as Hloop.
  rewrite E in Hloop. cbn [fst snd] in Hloop. rewrite Hloop; [reflexivity|].
  pose proof (dets_tokens_run_length tokens trailing) as Hlen.
  destruct (dets_tokens_run tokens trailing ++ ending) as [|b line] eqn:El.
  - apply (f_equal length) in El. rewrite length_app in El. cbn [length] in El.
    destruct tokens; [inversion Hbig | cbn [length] in Hlen; lia].
  - cbn in E. injection E as _ <-.
    apply (f_equal length) in El. rewrite length_app in El. cbn in El. lia.
Qed.

End DetsRange.

(** X14. An index that is not below the width it is checked against makes
    [start_record] throw: on a HITS line of numerals one of which is
    [bits_per_record] or more, and on a DETS line of tokens one of which has
    a number that is the size of its section or more, whatever the other
    indices are. No bit outside the buffer is touched. (The numerals fit 64
    bits.) *)
Theorem an_index_out_of_range_is_refused :
  (forall st tokens rest,
      MeasureRecordReaderFormatHits.inp st = hits_line tokens ++ rest ->
      Forall numeral tokens -> Forall (fun t => decimal_value t < 2 ^ 64) tokens ->
      Exists (fun t => MeasureRecordReaderFormatHits.bits_per_record st
                       <= decimal_value t) tokens ->
      MeasureRecordReaderFormatHits.start_record st = Throw HitsValueTooBig)
  /\ (forall st tokens trailing ending,
      line_end ending ->
      MeasureRecordReaderFormatDets.inp st = dets_line_at_eof tokens trailing ++ ending ->
      Forall (fun t => numeral (tok_digits t)
                       /\ decimal_value (tok_digits t) < 2 ^ 64) tokens ->
      Exists (fun t => section_size (MeasureRecordReaderFormatDets.m_bits_per_record st)
                                    (MeasureRecordReaderFormatDets.d_bits_per_record st)
                                    (MeasureRecordReaderFormatDets.l_bits_per_record st)
                                    (tok_section t)
                       <= decimal_value (tok_digits t)) tokens ->
      MeasureRecordReaderFormatDets.start_record st = Throw DetsValueTooBig).
Proof.
  split.
  - intros st tokens rest Hinp Hnum Hfit Hbig.
    now apply (HitsRange.hits_start_record_too_big st tokens rest).
  - intros st tokens trailing ending Hend Hinp Hnum Hbig.
    apply (DetsRange.dets_start_record_too_big st tokens trailing ending);
      [exact Hend | exact Hinp | exact Hnum | exact Hbig].
Qed.

(** "0,8\n" for a HITS reader of eight bits, and "shot M0 D3\n" for a
    DETS reader with (m, d, l) = (2, 3, 1). *)
Lemma an_index_out_of_range_is_refused_witness :
  MeasureRecordReaderFormatHits.start_record
    (MeasureRecordReaderFormatHits.make [x30; x2c; x38; x0a] 8) = Throw HitsValueTooBig
  /\ MeasureRecordReaderFormatDets.start_record
       (MeasureRecordReaderFormatDets.make
          [x73; x68; x6f; x74; x20; x4d; x30; x20; x44; x33; x0a] 2 3 1)
     = Throw DetsValueTooBig.
Proof.
  split.
  - apply (proj1 an_index_out_of_range_is_refused
             (MeasureRecordReaderFormatHits.make [x30; x2c; x38; x0a] 8)
             [[x30]; [x38]] []).
    + reflexivity.
    + repeat constructor; discriminate.
    + repeat constructor.
    + right. left. vm_compute. discriminate.
  - apply (proj2 an_index_out_of_range_is_refused
             (MeasureRecordReaderFormatDets.make
                [x73; x68; x6f; x74; x20; x4d; x30; x20; x44; x33; x0a] 2 3 1)
             [mk_token 0%nat SecM [x30]; mk_token 0%nat SecD [x33]] 0%nat [x0a]).
    + right. now exists [].
    + reflexivity.
    + repeat constructor; discriminate.
    + right. left. vm_compute. discriminate.
Defined.

(** ** The factory *)

Lemma geb_refl m : (m >=? m) = true.
Proof. destruct (Z.geb_spec m m); [reflexivity | lia]. Qed.

Lemma f01_before_first_record inp m :
  let st := MeasureRecordReaderFormat01.make inp m in
  MeasureRecordReaderFormat01.is_end_of_record st = Ok true
  /\ MeasureRecordReaderFormat01.read_bit st = Throw PastEndOfRecord
  /\ (forall out, MeasureRecordReaderFormat01.read_bits_into_bytes st out = Ok (0, out, st)).
Proof.
  intros st.
  assert (Hend : MeasureRecordReaderFormat01.is_end_of_record st = Ok true).
  { unfold MeasureRecordReaderFormat01.is_end_of_record, st,
      MeasureRecordReaderFormat01.make.
    cbn [MeasureRecordReaderFormat01.payload MeasureRecordReaderFormat01.position
         MeasureRecordReaderFormat01.bits_per_record].
    now rewrite geb_refl. }
  split; [exact Hend|]. split; [reflexivity|].
  intros out. unfold MeasureRecordReaderFormat01.read_bits_into_bytes,
    default_read_bits_into_bytes. now rewrite Hend.
Qed.

Lemma b8_before_first_record inp m :
  let st := MeasureRecordReaderFormatB8.make inp m in
  MeasureRecordReaderFormatB8.is_end_of_record st = true
  /\ MeasureRecordReaderFormatB8.read_bit st = Throw PastEndOfRecord
  /\ (forall out, MeasureRecordReaderFormatB8.read_bits_into_bytes st out = Ok (0, out, st)).
Proof.
  intros st.
  unfold MeasureRecordReaderFormatB8.is_end_of_record,
    MeasureRecordReaderFormatB8.read_bit,
    MeasureRecordReaderFormatB8.read_bits_into_bytes, st,
    MeasureRecordReaderFormatB8.make.
  cbn [MeasureRecordReaderFormatB8.position MeasureRecordReaderFormatB8.bits_per_record].
  rewrite geb_refl. repeat split.
Qed.

Lemma hits_before_first_record inp m :
  let st := MeasureRecordReaderFormatHits.make inp m in
  MeasureRecordReaderFormatHits.is_end_of_record st = true
  /\ MeasureRecordReaderFormatHits.read_bit st = Throw ReadPastEndOfBuffer
  /\ (forall out,
        MeasureRecordReaderFormatHits.read_bits_into_bytes st out = Ok (0, out, st)).
Proof.
  intros st.
  unfold MeasureRecordReaderFormatHits.read_bits_into_bytes, default_read_bits_into_bytes,
    MeasureRecordReaderFormatHits.is_end_of_record,
    MeasureRecordReaderFormatHits.read_bit, st, MeasureRecordReaderFormatHits.make.
  cbn [MeasureRecordReaderFormatHits.position_in_buffer
       MeasureRecordReaderFormatHits.bits_per_record].
  rewrite geb_refl. repeat split.
Qed.

Lemma dets_before_first_record inp m d l :
  let st := MeasureRecordReaderFormatDets.make inp m d l in
  MeasureRecordReaderFormatDets.is_end_of_record st = true
  /\ MeasureRecordReaderFormatDets.read_bit st = Throw ReadPastEndOfBuffer
  /\ (forall out,
        MeasureRecordReaderFormatDets.read_bits_into_bytes st out = Ok (0, out, st)).
Proof.
  intros st.
  unfold MeasureRecordReaderFormatDets.read_bits_into_bytes, default_read_bits_into_bytes,
    MeasureRecordReaderFormatDets.is_end_of_record,
    MeasureRecordReaderFormatDets.read_bit, st, MeasureRecordReaderFormatDets.make.
  cbn [MeasureRecordReaderFormatDets.position_in_buffer
       MeasureRecordReaderFormatDets.m_bits_per_record
       MeasureRecordReaderFormatDets.d_bits_per_record
       MeasureRecordReaderFormatDets.l_bits_per_record].
  rewrite geb_refl, Z.eqb_refl. repeat split.
Qed.

(** X15. [MeasureRecordReader::make] gives a reader exactly for the formats
    01, B8, HITS and R8 with no detection events and no observables, and for
    DETS with any widths; otherwise it throws. A reader of the 01, B8, HITS
    or DETS class that it gives holds no record yet: until [start_record] is
    called [is_end_of_record] is true, [read_bit] throws and
    [read_bits_into_bytes] reports 0 bits and leaves the output range and
    the reader as they are. The stream is handed to the reader unread. *)
Theorem make_gives_a_reader_before_its_first_record
    (inp : list byte) (input_format : SampleFormat) (m d l : Z) :
  ((exists r, MeasureRecordReader_make inp input_format m d l = inr r)
   <-> (input_format = SAMPLE_FORMAT_DETS
        \/ (d = 0 /\ l = 0
            /\ (input_format = SAMPLE_FORMAT_01 \/ input_format = SAMPLE_FORMAT_B8
                \/ input_format = SAMPLE_FORMAT_HITS
                \/ input_format = SAMPLE_FORMAT_R8))))
  /\ (forall r,
        MeasureRecordReader_make inp input_format m d l = inr r ->
        input_format <> SAMPLE_FORMAT_R8 ->
        is_end_of_record r = Ok true
        /\ (exists e, read_bit r = Throw e)
        /\ (forall out, read_bits_into_bytes r out = Ok (0, out, r)))
  /\ (forall r,
        MeasureRecordReader_make inp input_format m d l = inr r ->
        match r with
        | Reader01 st => MeasureRecordReaderFormat01.inp st
        | ReaderB8 st => MeasureRecordReaderFormatB8.inp st
        | ReaderDets st => MeasureRecordReaderFormatDets.inp st
        | ReaderHits st => MeasureRecordReaderFormatHits.inp st
        | ReaderR8 st => MeasureRecordReaderFormatR8.inp st
        end = inp).
Proof.
  unfold MeasureRecordReader_make. split; [|split].
  - split.
    + intros [r Hr].
      destruct input_format; cbn [is_dets negb andb] in Hr;
        try (left; reflexivity);
        destruct (Z.eqb_spec d 0), (Z.eqb_spec l 0); cbn [negb] in Hr;
        try discriminate; right; tauto.
    + intros [-> | (-> & -> & [-> | [-> | [-> | ->]]])]; cbn [is_dets negb andb Z.eqb];
        eexists; reflexivity.
  - intros r Hr Hfmt.
    destruct input_format; cbn [is_dets negb andb] in Hr; try congruence;
      try match type of Hr with
          | context [d =? 0] =>
              destruct (Z.eqb_spec d 0), (Z.eqb_spec l 0); cbn [negb] in Hr;
              try discriminate
          end;
      injection Hr as <-.
    + destruct (f01_before_first_record inp m) as (Hend & Hbit & Hbulk).
      split; [exact Hend|]. split.
      * exists PastEndOfRecord.
        change (with_state Reader01
                  (MeasureRecordReaderFormat01.read_bit
                     (MeasureRecordReaderFormat01.make inp m)) = Throw PastEndOfRecord).
        now rewrite Hbit.
      * intros out.
        change (with_state Reader01
                  (MeasureRecordReaderFormat01.read_bits_into_bytes
                     (MeasureRecordReaderFormat01.make inp m) out)
                = Ok (0, out, Reader01 (MeasureRecordReaderFormat01.make inp m))).
        now rewrite Hbulk.
    + destruct (b8_before_first_record inp m) as (Hend & Hbit & Hbulk).
      split; [|split].
      * change (Ok (MeasureRecordReaderFormatB8.is_end_of_record
                      (MeasureRecordReaderFormatB8.make inp m)) = Ok true).
        now rewrite Hend.
      * exists PastEndOfRecord.
        change (with_state ReaderB8
                  (MeasureRecordReaderFormatB8.read_bit
                     (MeasureRecordReaderFormatB8.make inp m)) = Throw PastEndOfRecord).
        now rewrite Hbit.
      * intros out.
        change (with_state ReaderB8
                  (MeasureRecordReaderFormatB8.read_bits_into_bytes
                     (MeasureRecordReaderFormatB8.make inp m) out)
                = Ok (0, out, ReaderB8 (MeasureRecordReaderFormatB8.make inp m))).
        now rewrite Hbulk.
    + destruct (dets_before_first_record inp m d l) as (Hend & Hbit & Hbulk).
      split; [|split].
      * change (Ok (MeasureRecordReaderFormatDets.is_end_of_record
                      (MeasureRecordReaderFormatDets.make inp m d l)) = Ok true).
        now rewrite Hend.
      * exists ReadPastEndOfBuffer.
        change (with_state ReaderDets
                  (MeasureRecordReaderFormatDets.read_bit
                     (MeasureRecordReaderFormatDets.make inp m d l))
                = Throw ReadPastEndOfBuffer).
        now rewrite Hbit.
      * intros out.
        change (with_state ReaderDets
                  (MeasureRecordReaderFormatDets.read_bits_into_bytes
                     (MeasureRecordReaderFormatDets.make inp m d l) out)
                = Ok (0, out, ReaderDets (MeasureRecordReaderFormatDets.make inp m d l))).
        now rewrite Hbulk.
    + destruct (hits_before_first_record inp m) as (Hend & Hbit & Hbulk).
      split; [|split].
      * change (Ok (MeasureRecordReaderFormatHits.is_end_of_record
                      (MeasureRecordReaderFormatHits.make inp m)) = Ok true).
        now rewrite Hend.
      * exists ReadPastEndOfBuffer.
        change (with_state ReaderHits
                  (MeasureRecordReaderFormatHits.read_bit
                     (MeasureRecordReaderFormatHits.make inp m))
                = Throw ReadPastEndOfBuffer).
        now rewrite Hbit.
      * intros out.
        change (with_state ReaderHits
                  (MeasureRecordReaderFormatHits.read_bits_into_bytes
                     (MeasureRecordReaderFormatHits.make inp m) out)
                = Ok (0, out, ReaderHits (MeasureRecordReaderFormatHits.make inp m))).
        now rewrite Hbulk.
  - intros r Hr.
    destruct input_format; cbn [is_dets negb andb] in Hr;
      try (destruct (Z.eqb_spec d 0), (Z.eqb_spec l 0); cbn [negb] in Hr;
           try discriminate);
      try discriminate; injection Hr as <-; reflexivity.
Qed.

(** A HITS reader of eight bits on the stream "3\n". *)
Lemma make_gives_a_reader_before_its_first_record_witness :
  read_bits_into_bytes
    (ReaderHits (MeasureRecordReaderFormatHits.make [x33; x0a] 8)) [255]
  = Ok (0, [255], ReaderHits (MeasureRecordReaderFormatHits.make [x33; x0a] 8)).
Proof.
  destruct (proj1 (proj2 (make_gives_a_reader_before_its_first_record
                            [x33; x0a] SAMPLE_FORMAT_HITS 8 0 0))
              (ReaderHits (MeasureRecordReaderFormatHits.make [x33; x0a] 8)))
    as (_ & _ & Hbulk).
  - reflexivity.
  - discriminate.
  - exact (Hbulk [255]).
Defined.

(** ** Abandoning a record *)

Module B8Skip.
Import MeasureRecordReaderFormatB8.

Lemma b8_read_bit_position st bit st1 :
  b8_inv st -> read_bit st = Ok (bit, st1) ->
  position st1 = position st + 1 /\ bits_per_record st1 = bits_per_record st
  /\ position st < bits_per_record st /\ b8_inv st1.
Proof.
  intros [Hpos Hm] H. unfold read_bit in H.
  destruct (Z.geb_spec (position st) (bits_per_record st)) as [|Hlt]; [discriminate|].
  destruct (payload (maybe_update_payload st) =? EOF); [discriminate|].
  injection H as _ <-.
  assert (Hsame : bits_per_record (maybe_update_payload st) = bits_per_record st
                  /\ position (maybe_update_payload st) = position st).
  { unfold maybe_update_payload. destruct (bits_available st >? 0); [tauto|].
    destruct (getc (inp st)). cbn. tauto. }
  destruct Hsame as [Hm' Hp']. unfold b8_inv.
  cbn [position bits_per_record]. rewrite Hm', Hp'.
  rewrite (wrap64_small (position st + 1)) by lia. lia.
Qed.

Lemma b8_read_bits_position j : forall st bits st_j,
  b8_inv st -> read_bits read_bit j st = Ok (bits, st_j) ->
  position st_j = position st + Z.of_nat j /\ bits_per_record st_j = bits_per_record st
  /\ b8_inv st_j.
Proof.
  induction j as [|j IH]; intros st bits st_j Hinv H; cbn [read_bits] in H.
  - injection H as _ <-. cbn [Z.of_nat]. rewrite Z.add_0_r. tauto.
  - destruct (read_bit st) as [[bit st1]|] eqn:E; cbn [mbind result_bind] in H; [|discriminate].
    destruct (read_bits read_bit j st1) as [[l s]|] eqn:Ej;
      cbn [mbind result_bind] in H; [|discriminate].
    injection H as _ <-.
    destruct (b8_read_bit_position st bit st1 Hinv E) as (Hp & Hm & _ & Hinv1).
    destruct (IH st1 l s Hinv1 Ej) as (Hp' & Hm' & Hinv'). rewrite Hp', Hm', Hp, Hm.
    split; [lia | tauto].
Qed.

(** The loop of [next_record] goes the way of [read_bit] to the end of the
    record. *)
Lemma b8_skip_bits_reads k : forall budget st bits st_e,
  b8_inv st -> read_bits read_bit k st = Ok (bits, st_e) ->
  position st + Z.of_nat k = bits_per_record st -> (k <= budget)%nat ->
  skip_bits budget st = Ok st_e.
Proof.
  induction k as [|k IH]; intros budget st bits st_e Hinv H Hk Hbudget;
    cbn [read_bits] in H.
  - injection H as _ <-. unfold is_end_of_record.
    destruct budget; cbn [skip_bits]; unfold is_end_of_record;
      (destruct (Z.geb_spec (position st) (bits_per_record st)); [reflexivity | lia]).
  - destruct (read_bit st) as [[bit st1]|] eqn:E; cbn [mbind result_bind] in H; [|discriminate].
    destruct (read_bits read_bit k st1) as [[l s]|] eqn:Ek;
      cbn [mbind result_bind] in H; [|discriminate].
    injection H as _ <-.
    destruct (b8_read_bit_position st bit st1 Hinv E) as (Hp & Hm & Hlt & Hinv1).
    destruct budget as [|budget]; [lia|]. cbn [skip_bits]. unfold is_end_of_record.
    destruct (Z.geb_spec (position st) (bits_per_record st)); [lia|].
    rewrite E. cbn [mbind result_bind].
    apply (IH budget st1 l s Hinv1 Ek); lia.
Qed.

Lemma b8_start_record_stream st st' :
  inp st = inp st' -> bits_per_record st = bits_per_record st' ->
  start_record st = start_record st'.
Proof. intros Hinp Hm. unfold start_record. now rewrite Hinp, Hm. Qed.

End B8Skip.

Module R8Skip.
Import MeasureRecordReaderFormatR8 R8Facts.

Lemma r8_take_bit_position s bit st1 :
  r8_inv s ->
  (if negb (buffered_0s s =? 0) then
     Ok (false, mk (inp s) (bits_per_record s) (wrap64 (position s + 1))
                   (have_seen_terminal_1 s) (wrap64 (buffered_0s s - 1))
                   (buffered_1s s))
   else if negb (buffered_1s s =? 0) then
     Ok (true, mk (inp s) (bits_per_record s) (wrap64 (position s + 1))
                  (have_seen_terminal_1 s) (buffered_0s s)
                  (wrap64 (buffered_1s s - 1)))
   else Throw R8ReadPastEnd) = Ok (bit, st1) ->
  position st1 = position s + 1 /\ bits_per_record st1 = bits_per_record s.
Proof.
  intros (Hpos & Hb0 & Hb1 & Hfit & Htotal) Hs.
  assert (position s + buffered_0s s + buffered_1s s <= bits_per_record s)
    by by_seen Htotal.
  destruct (Z.eqb_spec (buffered_0s s) 0); cbn [negb] in Hs.
  - destruct (Z.eqb_spec (buffered_1s s) 0); cbn [negb] in Hs; [discriminate|].
    injection Hs as _ <-. cbn [position bits_per_record].
    rewrite wrap64_small by lia. tauto.
  - injection Hs as _ <-. cbn [position bits_per_record].
    rewrite wrap64_small by lia. tauto.
Qed.

Lemma r8_read_bit_position st bit st1 :
  r8_inv st -> read_bit st = Ok (bit, st1) ->
  position st1 = position st + 1 /\ bits_per_record st1 = bits_per_record st.
Proof.
  intros Hinv H. unfold read_bit in H.
  destruct ((buffered_0s st =? 0) && (buffered_1s st =? 0)) eqn:Ezero.
  - apply andb_true_iff in Ezero as [E0 E1]. apply Z.eqb_eq in E0, E1.
    unfold assert_maybe_buffer_data in H.
    destruct (maybe_buffer_data st) as [[ok s1]|] eqn:Ebuf;
      cbn [mbind result_bind] in H; [|discriminate].
    destruct ok; cbn [mbind result_bind] in H; [|discriminate].
    apply maybe_buffer_data_inv in Ebuf as (Hinv' & Hp & Hm & _);
      [|now apply r8_inv_buffer_ready].
    rewrite <- Hp, <- Hm. now apply (r8_take_bit_position s1 bit).
  - cbn [mbind result_bind] in H. now apply (r8_take_bit_position st bit).
Qed.

Lemma r8_read_bits_position j : forall st bits st_j,
  r8_inv st -> read_bits read_bit j st = Ok (bits, st_j) ->
  position st_j = position st + Z.of_nat j /\ bits_per_record st_j = bits_per_record st
  /\ r8_inv st_j.
Proof.
  induction j as [|j IH]; intros st bits st_j Hinv H; cbn [read_bits] in H.
  - injection H as _ <-. cbn [Z.of_nat]. rewrite Z.add_0_r. tauto.
  - destruct (read_bit st) as [[bit st1]|] eqn:E; cbn [mbind result_bind] in H; [|discriminate].
    destruct (read_bits read_bit j st1) as [[l s]|] eqn:Ej;
      cbn [mbind result_bind] in H; [|discriminate].
    injection H as _ <-.
    destruct (r8_read_bit_position st bit st1 Hinv E) as (Hp & Hm).
    destruct (IH st1 l s (read_bit_inv _ _ _ Hinv E) Ej) as (Hp' & Hm' & Hinv').
    rewrite Hp', Hm', Hp, Hm. split; [lia | tauto].
Qed.

Lemma r8_skip_bits_reads k : forall budget st bits st_e,
  r8_inv st -> read_bits read_bit k st = Ok (bits, st_e) ->
  is_end_of_record st_e = true ->
  position st + Z.of_nat k = bits_per_record st -> (k <= budget)%nat ->
  skip_bits budget st = Ok st_e.
Proof.
  induction k as [|k IH]; intros budget st bits st_e Hinv H Hend Hk Hbudget;
    cbn [read_bits] in H.
  - injection H as _ <-. destruct budget; cbn [skip_bits]; now rewrite Hend.
  - destruct (read_bit st) as [[bit st1]|] eqn:E; cbn [mbind result_bind] in H; [|discriminate].
    destruct (read_bits read_bit k st1) as [[l s]|] eqn:Ek;
      cbn [mbind result_bind] in H; [|discriminate].
    injection H as _ <-.
    destruct (r8_read_bit_position st bit st1 Hinv E) as (Hp & Hm).
    destruct budget as [|budget]; [lia|]. cbn [skip_bits].
    assert (Hnot : is_end_of_record st = false).
    { unfold is_end_of_record.
      destruct (Z.eqb_spec (position st) (bits_per_record st)); [lia | reflexivity]. }
    rewrite Hnot, E. cbn [mbind result_bind].
    apply (IH budget st1 l s (read_bit_inv _ _ _ Hinv E) Ek Hend); lia.
Qed.

End R8Skip.

(** X16. [next_record] of the B8 and R8 readers, called after any number of
    the record's bits have been read, skips the rest of the record: it
    answers what [start_record] answers on the stream behind the record's
    bytes, for every record as the formats write it (B8: the bytes of the
    record; R8: the runs of the record, on streams under 2^56 bytes). *)
Theorem next_record_skips_the_rest_of_the_record :
  (forall (m j : nat) bytes rest st,
      MeasureRecordReaderFormatB8.bits_per_record st = Z.of_nat m ->
      Z.of_nat m < 2 ^ 64 ->
      MeasureRecordReaderFormatB8.inp st = bytes ++ rest ->
      length bytes = Nat.max 1 (bytes_for m) ->
      (j <= m)%nat ->
      exists st0 bits_j st_j,
        MeasureRecordReaderFormatB8.start_record st = Ok (true, st0)
        /\ read_bits MeasureRecordReaderFormatB8.read_bit j st0 = Ok (bits_j, st_j)
        /\ MeasureRecordReaderFormatB8.next_record st_j
           = MeasureRecordReaderFormatB8.start_record
               (MeasureRecordReaderFormatB8.make rest (Z.of_nat m)))
  /\ (forall bits (j : nat) rest st,
      MeasureRecordReaderFormatR8.bits_per_record st = Z.of_nat (length bits) ->
      MeasureRecordReaderFormatR8.buffered_0s st = 0 ->
      MeasureRecordReaderFormatR8.buffered_1s st = 0 ->
      MeasureRecordReaderFormatR8.inp st = r8_encode bits ++ rest ->
      255 * Z.of_nat (length (r8_encode bits ++ rest)) + Z.of_nat (length bits) + 1
      < 2 ^ 64 ->
      (j <= length bits)%nat ->
      exists st0 st_j,
        MeasureRecordReaderFormatR8.start_record st = Ok (true, st0)
        /\ read_bits MeasureRecordReaderFormatR8.read_bit j st0 = Ok (take j bits, st_j)
        /\ MeasureRecordReaderFormatR8.next_record st_j
           = MeasureRecordReaderFormatR8.start_record
               (MeasureRecordReaderFormatR8.make rest (Z.of_nat (length bits)))).
Proof.
  split.
  - intros m j bytes rest st Hm H64 Hinp Hlen Hj.
    destruct (b8_read_record m bytes rest st Hm H64 Hinp Hlen)
      as (st0 & st1 & Hstart & Hbits & Hend & Hrest).
    assert (Hinv0 : b8_inv st0 /\ MeasureRecordReaderFormatB8.position st0 = 0
                    /\ MeasureRecordReaderFormatB8.bits_per_record st0 = Z.of_nat m).
    { destruct bytes as [|b0 tail]; [cbn [length] in Hlen; lia|].
      rewrite (b8_start_record_byte st b0 (tail ++ rest)) in Hstart by exact Hinp.
      injection Hstart as <-. unfold b8_inv. cbn. rewrite Hm. lia. }
    destruct Hinv0 as (Hinv0 & Hp0 & Hm0).
    replace m with (j + (m - j))%nat in Hbits by lia.
    apply read_bits_split in Hbits as (bits_j & st_j & l2 & Hj_bits & Hrest_bits & _).
    destruct (B8Skip.b8_read_bits_position j st0 bits_j st_j Hinv0 Hj_bits)
      as (Hpj & Hmj & Hinvj).
    exists st0, bits_j, st_j. split; [exact Hstart|]. split; [exact Hj_bits|].
    unfold MeasureRecordReaderFormatB8.next_record.
    rewrite (B8Skip.b8_skip_bits_reads (m - j) _ st_j l2 st1 Hinvj Hrest_bits) by lia.
    cbn [mbind result_bind]. apply B8Skip.b8_start_record_stream; [exact Hrest|].
    destruct (B8Skip.b8_read_bits_position _ _ _ _ Hinvj Hrest_bits) as (_ & Hm1 & _).
    rewrite Hm1, Hmj, Hm0. reflexivity.
  - intros bits j rest st Hm E0 E1 Hinp Hfit Hj.
    pose proof (R8Records.r8_bits_runs bits 0) as Hruns. cbn [replicate app] in Hruns.
    destruct (R8Records.read_runs (r8_runs bits 0) 0 rest (Z.of_nat (length bits)))
      as (st0 & Hbuf & Hread);
      [apply R8Records.r8_runs_not_nil | lia
       | rewrite Hruns, length_app; cbn [length]; lia | exact Hfit |].
    rewrite Hruns, length_app in Hread. cbn [length] in Hread.
    replace (length bits + 1 - 1)%nat with (length bits) in Hread by lia.
    rewrite take_app_length in Hread.
    assert (Hstart : MeasureRecordReaderFormatR8.start_record st = Ok (true, st0)).
    { unfold MeasureRecordReaderFormatR8.start_record. rewrite Hinp, Hm, E0, E1.
      exact Hbuf. }
    assert (Hinv0 : r8_inv st0).
    { apply (R8Facts.start_record_inv st st0); [lia | rewrite Hinp, Hm; lia | exact Hstart]. }
    assert (Hp0 : MeasureRecordReaderFormatR8.position st0 = 0
                  /\ MeasureRecordReaderFormatR8.bits_per_record st0
                     = Z.of_nat (length bits)).
    { apply R8Facts.maybe_buffer_data_inv in Hbuf as (_ & Hp & Hm' & _).
      - cbn in Hp, Hm'. tauto.
      - unfold buffer_ready.
        cbn [MeasureRecordReaderFormatR8.inp MeasureRecordReaderFormatR8.bits_per_record
             MeasureRecordReaderFormatR8.position
             MeasureRecordReaderFormatR8.have_seen_terminal_1].
        split; [lia|]. split; [exact Hfit|]. intros Hseen. discriminate Hseen. }
    destruct Hp0 as [Hp0 Hm0].
    replace (length bits) with (j + (length bits - j))%nat in Hread at 1 by lia.
    apply read_bits_split in Hread as (l1 & st_j & l2 & Hj_bits & Hrest_bits & Hcat).
    assert (Hl1 : l1 = take j bits).
    { rewrite Hcat, take_app_length'; [reflexivity|].
      symmetry. exact (read_bits_length _ _ _ _ _ Hj_bits). }
    subst l1.
    destruct (R8Skip.r8_read_bits_position j st0 _ st_j Hinv0 Hj_bits)
      as (Hpj & Hmj & Hinvj).
    exists st0, st_j. split; [exact Hstart|]. split; [exact Hj_bits|].
    unfold MeasureRecordReaderFormatR8.next_record.
    rewrite (R8Skip.r8_skip_bits_reads (length bits - j) _ st_j l2 _ Hinvj Hrest_bits);
      [reflexivity | | lia | lia].
    unfold MeasureRecordReaderFormatR8.is_end_of_record.
    cbn [MeasureRecordReaderFormatR8.position MeasureRecordReaderFormatR8.bits_per_record
         MeasureRecordReaderFormatR8.have_seen_terminal_1].
    now rewrite Z.eqb_refl.
Qed.

(** The B8 stream 2A 03 FF 00 with records of ten bits: after three bits of
    the first record [next_record] starts the record that begins at FF. *)
Lemma next_record_skips_the_rest_of_the_record_witness :
  exists st0 bits_j st_j,
    MeasureRecordReaderFormatB8.start_record
      (MeasureRecordReaderFormatB8.make [x2a; x03; xff; x00] 10) = Ok (true, st0)
    /\ read_bits MeasureRecordReaderFormatB8.read_bit 3 st0 = Ok (bits_j, st_j)
    /\ MeasureRecordReaderFormatB8.next_record st_j
       = MeasureRecordReaderFormatB8.start_record
           (MeasureRecordReaderFormatB8.make [xff; x00] 10).
Proof.
  apply (proj1 next_record_skips_the_rest_of_the_record 10%nat 3%nat
           [x2a; x03] [xff; x00]
           (MeasureRecordReaderFormatB8.make [x2a; x03; xff; x00] 10)).
  - reflexivity.
  - vm_compute. reflexivity.
  - reflexivity.
  - reflexivity.
  - lia.
Defined.

(** ** R8: runs that do not fit the record *)

Module R8Framing.
Import MeasureRecordReaderFormatR8 R8Records.

(** [maybe_buffer_data] on the bytes of a run whose one-bit does not fall
    inside the record or right behind it, or falls on the last position of
    the record with no 00 byte after it. *)
Lemma buffer_run_errors n rest m p :
  0 <= p -> p + Z.of_nat n + 1 < 2 ^ 64 -> 0 <= m -> m + 1 < 2 ^ 64 ->
  let st := mk (r8_run n ++ rest) m p false 0 0 in
  (m < p + Z.of_nat n -> maybe_buffer_data st = Throw R8JumpPastEnd)
  /\ (p + Z.of_nat n + 1 = m -> rest = [] ->
      maybe_buffer_data st = Throw R8NoTerminatorAtEof)
  /\ (p + Z.of_nat n + 1 = m ->
      forall b rest', rest = b :: rest' -> b <> x00 ->
      maybe_buffer_data st = Throw R8NoTerminatorAtData).
Proof.
  intros Hp Hn Hm H64 st.
  assert (Heq : maybe_buffer_data st
    = let total := p + Z.of_nat n + 1 in
      if total =? m then
        let '(t, inp2) := getc rest in
        if t =? EOF then Throw R8NoTerminatorAtEof
        else if negb (t =? 0) then Throw R8NoTerminatorAtData
        else Ok (true, mk inp2 m p true (Z.of_nat n) 1)
      else if total =? m + 1 then Ok (true, mk rest m p true (Z.of_nat n) 0)
      else if total >? m + 1 then Throw R8JumpPastEnd
      else Ok (true, mk rest m p false (Z.of_nat n) 1)).
  { unfold st, maybe_buffer_data, is_end_of_record.
    cbn [inp bits_per_record position have_seen_terminal_1 buffered_0s buffered_1s].
    cbn [Z.eqb negb]. rewrite andb_false_r.
    rewrite count_zeroes_run by lia. cbn [mbind result_bind].
    rewrite Z.add_0_l.
    rewrite (wrap64_small (p + Z.of_nat n)), (wrap64_small (p + Z.of_nat n + 1)),
      (wrap64_small (m + 1)) by lia.
    reflexivity. }
  rewrite Heq. cbv zeta. split; [|split].
  - intros Hjump.
    destruct (Z.eqb_spec (p + Z.of_nat n + 1) m); [lia|].
    destruct (Z.eqb_spec (p + Z.of_nat n + 1) (m + 1)); [lia|].
    destruct (Z.gtb_spec (p + Z.of_nat n + 1) (m + 1)); [reflexivity | lia].
  - intros Hlast ->. rewrite Hlast, Z.eqb_refl. reflexivity.
  - intros Hlast b rest' -> Hb. rewrite Hlast, Z.eqb_refl. cbn [getc].
    rewrite Format01Skip.not_EOF.
    destruct (Z.eqb_spec (byte_val b) 0) as [He|_]; [|reflexivity].
    exfalso. apply Hb. now apply byte_val_inj.
Qed.

End R8Framing.

(** X17. The R8 reader refuses a run that does not fit the record. With
    nothing buffered at position p of a record of m bits, on a stream that
    starts with a run of n zeroes (bytes 0xFF and a last byte under 255):
    when the run's one-bit would fall behind position m (m < p + n)
    [read_bit] throws "a jump past the expected end"; when it falls on the
    last position of the record (p + n + 1 = m) and the next byte is not 00,
    or the stream ends there, [read_bit] throws "ended too early". 
    [start_record] does the same for the first run of a record. (Counters
    that fit 64 bits.) *)
Theorem r8_refuses_runs_that_do_not_fit (n : nat) (rest : list byte)
    (st : MeasureRecordReaderFormatR8.state) :
  let m := MeasureRecordReaderFormatR8.bits_per_record st in
  let p := MeasureRecordReaderFormatR8.position st in
  MeasureRecordReaderFormatR8.buffered_0s st = 0 ->
  MeasureRecordReaderFormatR8.buffered_1s st = 0 ->
  MeasureRecordReaderFormatR8.inp st = r8_run n ++ rest ->
  0 <= m -> m + 1 < 2 ^ 64 -> 0 <= p -> p + Z.of_nat n + 1 < 2 ^ 64 ->
  (MeasureRecordReaderFormatR8.have_seen_terminal_1 st = false ->
   (m < p + Z.of_nat n ->
    MeasureRecordReaderFormatR8.read_bit st = Throw R8JumpPastEnd)
   /\ (p + Z.of_nat n + 1 = m -> rest = [] ->
       MeasureRecordReaderFormatR8.read_bit st = Throw R8NoTerminatorAtEof)
   /\ (p + Z.of_nat n + 1 = m ->
       forall b rest', rest = b :: rest' -> b <> x00 ->
       MeasureRecordReaderFormatR8.read_bit st = Throw R8NoTerminatorAtData))
  /\ (m < Z.of_nat n ->
      MeasureRecordReaderFormatR8.start_record st = Throw R8JumpPastEnd)
  /\ (Z.of_nat n + 1 = m -> rest = [] ->
      MeasureRecordReaderFormatR8.start_record st = Throw R8NoTerminatorAtEof)
  /\ (Z.of_nat n + 1 = m ->
      forall b rest', rest = b :: rest' -> b <> x00 ->
      MeasureRecordReaderFormatR8.start_record st = Throw R8NoTerminatorAtData).
Proof.
  intros m p E0 E1 Hinp Hm H64 Hp Hn.
  destruct (R8Framing.buffer_run_errors n rest m 0 ltac:(lia) ltac:(lia) Hm H64)
    as (Hjump0 & Heof0 & Hdata0).
  assert (Hstart : MeasureRecordReaderFormatR8.start_record st
                   = MeasureRecordReaderFormatR8.maybe_buffer_data
                       (MeasureRecordReaderFormatR8.mk (r8_run n ++ rest) m 0 false 0 0)).
  { unfold MeasureRecordReaderFormatR8.start_record. now rewrite Hinp, E0, E1. }
  split; [|rewrite Hstart; split; [|split]].
  - intros Hseen.
    destruct (R8Framing.buffer_run_errors n rest m p Hp Hn Hm H64)
      as (Hjump & Heof & Hdata).
    assert (Hread : forall e,
      MeasureRecordReaderFormatR8.maybe_buffer_data
        (MeasureRecordReaderFormatR8.mk (r8_run n ++ rest) m p false 0 0) = Throw e ->
      MeasureRecordReaderFormatR8.read_bit st = Throw e).
    { intros e He. unfold MeasureRecordReaderFormatR8.read_bit,
        MeasureRecordReaderFormatR8.assert_maybe_buffer_data.
      rewrite E0, E1. cbn [Z.eqb andb].
      replace st with (MeasureRecordReaderFormatR8.mk (r8_run n ++ rest) m p false 0 0)
        by (destruct st; cbn in *; subst; reflexivity).
      now rewrite He. }
    split; [|split].
    + intros H. apply Hread, Hjump, H.
    + intros H1 H2. apply Hread, Heof; assumption.
    + intros H1 b rest' H2 H3. apply Hread. now apply (Hdata H1 b rest').
  - intros H. apply Hjump0. lia.
  - intros H1 H2. apply Heof0; [lia | assumption].
  - intros H1 b rest' H2 H3. apply (Hdata0 ltac:(lia) b rest'); assumption.
Qed.

(** Records of five bits: the run 07 jumps past the end, and the run 04
    puts a one on the last position with 01 where 00 must be. *)
Lemma r8_refuses_runs_that_do_not_fit_witness :
  MeasureRecordReaderFormatR8.start_record
    (MeasureRecordReaderFormatR8.make [x07; x00] 5) = Throw R8JumpPastEnd
  /\ MeasureRecordReaderFormatR8.start_record
       (MeasureRecordReaderFormatR8.make [x04; x01] 5) = Throw R8NoTerminatorAtData.
Proof.
  split.
  - refine (proj1 (proj2 (r8_refuses_runs_that_do_not_fit 7 [x00]
                            (MeasureRecordReaderFormatR8.make [x07; x00] 5)
                            eq_refl eq_refl eq_refl _ _ _ _)) _);
      cbn; lia.
  - refine (proj2 (proj2 (proj2 (r8_refuses_runs_that_do_not_fit 4 [x01]
                                   (MeasureRecordReaderFormatR8.make [x04; x01] 5)
                                   eq_refl eq_refl eq_refl _ _ _ _))) _ x01 [] eq_refl _);
      try (cbn; lia). discriminate.
Defined.

(** ** R8: what the bulk read writes *)

Section PackedLookup.

Lemma bytes_for_8 n : bytes_for (8 + n) = S (bytes_for n).
Proof.
  unfold bytes_for. replace (8 + n + 7)%nat with (1 * 8 + (n + 7))%nat by lia.
  now rewrite Nat.div_add_l by lia.
Qed.

(** The bytes that a packed row holds. *)
Lemma packed_lookup bits out out' :
  packed bits out out' ->
  forall i, (i < bytes_for (length bits))%nat ->
            out' !! i = Some (pack_byte (take 8 (drop (8 * i) bits))).
Proof.
  induction 1 as [out|bits b out Hlen|bits8 bits b out out' Hlen _ IH]; intros i Hi.
  - cbn in Hi. lia.
  - rewrite bytes_for_last in Hi by exact Hlen.
    assert (i = 0%nat) as -> by lia. rewrite Nat.mul_0_r.
    cbn [lookup list_lookup]. rewrite drop_0. now rewrite take_ge by lia.
  - rewrite length_app, Hlen, bytes_for_8 in Hi. destruct i as [|i].
    + rewrite Nat.mul_0_r, drop_0. cbn [lookup list_lookup].
      now rewrite take_app_length' by (symmetry; exact Hlen).
    + cbn [lookup list_lookup]. rewrite IH by lia.
      replace (8 * S i)%nat with (length bits8 + 8 * i)%nat by lia.
      now rewrite drop_app_add.
Qed.

Lemma pack_byte_app_false bits : pack_byte (bits ++ [false]) = pack_byte bits.
Proof.
  induction bits as [|bit bits IH]; [reflexivity|].
  cbn [app pack_byte]. now rewrite IH.
Qed.

(** A row packed with a zero bit behind bits that fill whole bytes has a
    zero byte behind them. *)
Lemma packed_zero_byte bits out out' :
  packed (bits ++ [false]) out out' -> (length bits mod 8 = 0)%nat ->
  out' !! (length bits / 8)%nat = Some 0.
Proof.
  intros Hpacked Hmod.
  pose proof (Nat.div_mod_eq (length bits) 8) as Hdiv.
  rewrite (packed_lookup _ _ _ Hpacked).
  - replace (8 * (length bits / 8))%nat with (length bits) by lia.
    now rewrite drop_app_length.
  - rewrite length_app. cbn [length]. unfold bytes_for.
    replace (length bits + 1 + 7)%nat with (length bits + 1 * 8)%nat by lia.
    rewrite Nat.div_add by lia. lia.
Qed.

End PackedLookup.

Module R8Shape.
Import MeasureRecordReaderFormatR8 R8Facts.

Lemma bits_loop_returned todo : forall k b n st b' n' st',
  bits_loop todo k b n st = Ok (true, b', n', st') -> 0 <= n ->
  n' < n + Z.of_nat todo.
Proof.
  induction todo as [|todo IH]; intros k b n st b' n' st' H Hn;
    cbn [bits_loop] in H; [discriminate|].
  assert (Hrest : forall st1,
    (if is_end_of_record st1 then Ok (true, b, n, st1)
     else '(bit, st2) ← read_bit st1;
          bits_loop todo (k + 1) (wrap8 (Z.lor b (Z.shiftl (Z.b2z bit) k)))
                    (wrap64 (n + 1)) st2)
    = Ok (true, b', n', st') ->
    n' < n + Z.of_nat (S todo)).
  { intros st1 Hst1. destruct (is_end_of_record st1).
    - injection Hst1 as <- <- <-. lia.
    - destruct (read_bit st1) as [[bit st2]|]; cbn [mbind result_bind] in Hst1;
        [|discriminate].
      apply IH in Hst1; [|unfold wrap64; apply Z.mod_pos_bound; lia].
      assert (wrap64 (n + 1) <= n + 1)
        by (unfold wrap64; apply Z.mod_le; lia).
      lia. }
  destruct ((buffered_0s st =? 0) && (buffered_1s st =? 0)
            && negb (have_seen_terminal_1 st)).
  - destruct (assert_maybe_buffer_data st) as [st1|]; cbn [mbind result_bind] in H;
      [now apply (Hrest st1) | discriminate].
  - now apply (Hrest st).
Qed.

(** The bytes that the loop of the bulk read writes: those of the bits it
    read when they fill the range, and those of the bits and a zero bit
    behind them when it stops before that. *)
Lemma bytes_loop_shape out : forall n st n' out' st',
  r8_inv st ->
  bytes_loop out n st = Ok (n', out', st') ->
  0 <= n -> n + 8 * Z.of_nat (length out) < 2 ^ 64 ->
  exists bits,
    read_bits read_bit (length bits) st = Ok (bits, st')
    /\ n' = n + Z.of_nat (length bits)
    /\ ((length bits = 8 * length out)%nat /\ packed bits out out'
        \/ (length bits < 8 * length out)%nat
           /\ is_end_of_record st' = true
           /\ packed (bits ++ [false]) out out').
Proof.
  induction out as [|b0 out IH]; intros n st n' out' st' Hinv H Hn Hn64.
  - cbn in H. injection H as <- <- <-. exists []. cbn [length read_bits].
    split; [reflexivity|]. split; [lia|]. left. split; [reflexivity | constructor].
  - cbn [bytes_loop] in H. cbn [length] in Hn64 |- *.
    destruct (Z.geb_spec (buffered_0s st) 8) as [Hrun|Hrun].
    + pose proof Hinv as (Hpos & Hb0 & Hb1 & Hfit & Htotal).
      assert (position st + buffered_0s st + buffered_1s st <= bits_per_record st)
        by by_seen Htotal.
      rewrite (wrap64_small (position st + 8)), (wrap64_small (buffered_0s st - 8)),
        (wrap64_small (n + 8)) in H by lia.
      pose proof (read_zero_bits 8 st Hinv ltac:(cbn; lia)) as Hzero.
      change (Z.of_nat 8) with 8 in Hzero.
      destruct (bytes_loop out (n + 8) _) as [[[n2 out2] st2]|] eqn:Erest; cbn in H;
        [|discriminate].
      injection H as <- <- <-.
      apply IH in Erest; try lia;
        [|eapply R8Bulk.read_bits_inv; [exact Hinv | exact Hzero]].
      destruct Erest as (bits & Hbits & Hn2 & Hshape).
      exists (replicate 8 false ++ bits).
      split; [rewrite length_app; now apply read_bits_app with (2 := Hbits)|].
      rewrite length_app, length_replicate. split; [lia|].
      destruct Hshape as [[Hlen Hpacked]|(Hlen & Hend & Hpacked)]; [left | right].
      * split; [lia|]. now apply (packed_more (replicate 8 false) bits b0 out out2).
      * split; [lia|]. split; [exact Hend|]. rewrite <- app_assoc.
        now apply (packed_more (replicate 8 false) (bits ++ [false]) b0 out out2).
    + destruct (bits_loop 8 0 0 n st) as [[[[returned b] n1] st1]|] eqn:Ebits;
        cbn in H; [|discriminate].
      pose proof Ebits as Hloop.
      apply R8Bulk.bits_loop_ok in Ebits; try lia; [|assumption].
      destruct Ebits as (bits1 & Hbits1 & Hlen1 & Hret & Hb & Hn1 & Hinv1).
      rewrite Z.add_0_l, Z.pow_0_r, Z.mul_1_l in Hb. subst b.
      destruct returned.
      * injection H as <- <- <-.
        pose proof (bits_loop_returned _ _ _ _ _ _ _ _ Hloop Hn) as Hless.
        exists bits1. split; [assumption|]. split; [assumption|]. right.
        split; [lia|]. split; [exact (MidRecord.r8_bits_loop_stop _ _ _ _ _ _ _ _ Hloop)|].
        rewrite <- (pack_byte_app_false bits1). apply packed_last.
        rewrite length_app. cbn [length]. lia.
      * destruct (bytes_loop out n1 st1) as [[[n2 out2] st2]|] eqn:Erest; cbn in H;
          [|discriminate].
        injection H as <- <- <-.
        apply IH in Erest; try lia; [|assumption].
        destruct Erest as (bits2 & Hbits2 & Hn2 & Hshape).
        specialize (Hret eq_refl).
        exists (bits1 ++ bits2). rewrite length_app.
        split; [now apply read_bits_app with st1|]. split; [lia|].
        destruct Hshape as [[Hlen Hpacked]|(Hlen & Hend & Hpacked)]; [left | right].
        -- split; [lia|]. now apply packed_more.
        -- split; [lia|]. split; [exact Hend|]. rewrite <- app_assoc.
           now apply packed_more.
Qed.

End R8Shape.

(** X18. What the bulk read of the R8 reader writes. Inside a record that
    [read_bit] can read to its end, [read_bits_into_bytes] returns the
    number of bits that it read, and these are the bits that [read_bit]
    gives. When they fill the range, the range holds them packed eight to a
    byte. When the record ends before the range is full, the range holds
    them packed with one more zero bit behind them: if the bits end on a
    byte boundary (also when no bit was left to read), the byte behind them
    is set to zero though it holds no bit of the record; the default bulk
    read leaves that byte as it was. *)
Theorem r8_bulk_read_writes_a_zero_behind_the_record
    (st : MeasureRecordReaderFormatR8.state) (out : list Z) :
  r8_inv st ->
  drains MeasureRecordReaderFormatR8.read_bit
         (fun s => Ok (MeasureRecordReaderFormatR8.is_end_of_record s)) st ->
  small_range out ->
  exists bits out' st',
    MeasureRecordReaderFormatR8.read_bits_into_bytes st out
    = Ok (Z.of_nat (length bits), out', st')
    /\ read_bits MeasureRecordReaderFormatR8.read_bit (length bits) st = Ok (bits, st')
    /\ ((length bits = 8 * length out)%nat /\ packed bits out out'
        \/ (length bits < 8 * length out)%nat
           /\ MeasureRecordReaderFormatR8.is_end_of_record st' = true
           /\ packed (bits ++ [false]) out out'
           /\ ((length bits mod 8 = 0)%nat ->
               out' !! (length bits / 8)%nat = Some 0)).
Proof.
  intros Hinv Hdrains Hsmall.
  destruct (R8Drains.bytes_loop_total out 0 st Hinv Hdrains)
    as (n & out' & st' & Hcall & _).
  destruct (R8Shape.bytes_loop_shape out 0 st n out' st' Hinv Hcall)
    as (bits & Hbits & Hn & Hshape); [lia | unfold small_range in Hsmall; lia |].
  exists bits, out', st'. rewrite Z.add_0_l in Hn. subst n.
  split; [exact Hcall|]. split; [exact Hbits|].
  destruct Hshape as [Hfull|(Hlen & Hend & Hpacked)]; [now left | right].
  split; [exact Hlen|]. split; [exact Hend|]. split; [exact Hpacked|].
  exact (packed_zero_byte bits out out' Hpacked).
Qed.

(** The record 1 0 0 0 0 0 0 0 of the stream 00 07 and a range of two bytes
    that hold 255: the second byte is set to zero. *)
Lemma r8_bulk_read_writes_a_zero_behind_the_record_witness :
  exists st',
    MeasureRecordReaderFormatR8.read_bits_into_bytes
      (MeasureRecordReaderFormatR8.mk [x07] 8 0 false 0 1) [255; 255]
    = Ok (8, [1; 0], st').
Proof.
  destruct (r8_bulk_read_writes_a_zero_behind_the_record
              (MeasureRecordReaderFormatR8.mk [x07] 8 0 false 0 1) [255; 255])
    as (bits & out' & st' & Hcall & _).
  - unfold r8_inv. cbn. lia.
  - apply (drains_within_drains _ _ 8). vm_compute. reflexivity.
  - unfold small_range. cbn. lia.
  - exists st'. rewrite Hcall.
    assert (Hrun : MeasureRecordReaderFormatR8.read_bits_into_bytes
                     (MeasureRecordReaderFormatR8.mk [x07] 8 0 false 0 1) [255; 255]
                   = Ok (8, [1; 0], MeasureRecordReaderFormatR8.mk [] 8 8 true 0 0))
      by (vm_compute; reflexivity).
    rewrite Hrun in Hcall. injection Hcall as <- <- <-. reflexivity.
Defined.

(** ** [read_records_into] over the bulk read of a format *)

Section ReadsRecordBits.
Context {T : Type}.
Variable rb : T -> result (bool * T).
Variable ie : T -> result bool.
Variable Inv : T -> Prop.
Hypothesis read_bit_inside :
  forall st bit st1, Inv st -> rb st = Ok (bit, st1) -> ie st = Ok false /\ Inv st1.

(** Bits that [read_bit] gives up to a state at the end of the record are
    the record, when [read_bit] gives no bit at the end of a record. *)
Lemma read_bits_record_bits k : forall st bits st',
  Inv st -> read_bits rb k st = Ok (bits, st') -> ie st' = Ok true ->
  record_bits rb ie st bits st'.
Proof.
  induction k as [|k IH]; intros st bits st' Hinv H Hend; cbn [read_bits] in H.
  - injection H as <- <-. now apply record_bits_end.
  - destruct (rb st) as [[bit st1]|] eqn:E; cbn [mbind result_bind] in H; [|discriminate].
    destruct (read_bits rb k st1) as [[l s]|] eqn:Ek; cbn [mbind result_bind] in H;
      [|discriminate].
    injection H as <- <-.
    destruct (read_bit_inside st bit st1 Hinv E) as [Hnot Hinv1].
    apply (record_bits_bit rb ie st bit st1); [exact Hnot | exact E |].
    now apply IH.
Qed.

End ReadsRecordBits.

Section FillsRows.
Context `{MeasureRecordReader T}.
Variable written : list bool -> list Z -> list Z -> Prop.
Variable good : T -> Prop.
Hypothesis whole_record :
  forall st st0 bits st1 row,
    good st -> start_record st = Ok (true, st0) ->
    record_bits read_bit is_end_of_record st0 bits st1 -> row_fits bits row ->
    good st1
    /\ exists row',
         read_bits_into_bytes st0 row = Ok (Z.of_nat (length bits), row', st1)
         /\ written bits row row'.

Lemma read_records_loop_fills records : forall rows rec max_shots st st_k,
  good st -> stream_records st records st_k ->
  Forall2 row_fits records (take (length records) rows) ->
  0 <= rec -> rec + Z.of_nat (length rows) < 2 ^ 64 ->
  rec + Z.of_nat (length records) <= max_shots ->
  exists rows',
    filled_rows written records rows rows'
    /\ (length records = length rows \/ rec + Z.of_nat (length records) = max_shots ->
        read_records_loop rows rec max_shots st
        = Ok (rec + Z.of_nat (length records), rows', st_k))
    /\ (forall st_end,
          (length records < length rows)%nat ->
          rec + Z.of_nat (length records) < max_shots ->
          start_record st_k = Ok (false, st_end) ->
          read_records_loop rows rec max_shots st
          = Ok (rec + Z.of_nat (length records), rows', st_end)).
Proof.
  induction records as [|bits records IH];
    intros rows rec max_shots st st_k Hgood Hstream Hfit Hrec H64 Hmax;
    inversion Hstream as [|? st0 ? st1 ? ? Hstart Hbits Hrest]; subst.
  - exists rows. cbn [length Z.of_nat]. rewrite Z.add_0_r.
    split; [constructor|]. split.
    + intros [Hrows|Hfull].
      * destruct rows; [reflexivity | discriminate].
      * destruct rows as [|row rows]; [reflexivity|]. cbn [read_records_loop].
        destruct (Z.ltb_spec rec max_shots); [lia | reflexivity].
    + intros st_end Hrows Hless Hend.
      destruct rows as [|row rows]; [cbn in Hrows; lia|]. cbn [read_records_loop].
      destruct (Z.ltb_spec rec max_shots); [|lia]. cbn [negb].
      rewrite Hend. reflexivity.
  - cbn [length] in Hfit, Hmax |- *. rewrite Nat2Z.inj_succ in Hmax |- *.
    destruct rows as [|row rows]; [inversion Hfit|].
    cbn [take length] in Hfit, H64. rewrite Nat2Z.inj_succ in H64.
    inversion Hfit as [|? ? ? ? Hrow Hrows]; subst.
    destruct (whole_record st st0 bits st1 row Hgood Hstart Hbits Hrow)
      as (Hgood1 & row' & Hcall & Hwritten).
    destruct (IH rows (rec + 1) max_shots st1 st_k Hgood1 Hrest Hrows ltac:(lia)
                ltac:(lia) ltac:(lia)) as (rows' & Hfilled & Hfull & Hshort).
    exists (row' :: rows'). split; [now constructor|].
    assert (Hstep : forall r,
      read_records_loop rows (rec + 1) max_shots st1
      = Ok (rec + 1 + Z.of_nat (length records), rows', r) ->
      read_records_loop (row :: rows) rec max_shots st
      = Ok (rec + Z.succ (Z.of_nat (length records)), row' :: rows', r)).
    { intros r Hr. cbn [read_records_loop].
      destruct (Z.ltb_spec rec max_shots); [|lia]. cbn [negb].
      rewrite Hstart. cbn [mbind result_bind negb].
      rewrite Hcall. cbn [mbind result_bind].
      rewrite (record_bits_final _ _ _ _ _ Hbits). cbn [mbind result_bind negb].
      rewrite (wrap64_small (rec + 1)) by lia. rewrite Hr. cbn [mbind result_bind].
      do 3 f_equal. lia. }
    split.
    + intros Hcase. cbn [length] in Hcase. apply Hstep, Hfull. lia.
    + intros st_end Hrows' Hless Hend. cbn [length] in Hrows'.
      apply Hstep, Hshort; [lia | lia | exact Hend].
Qed.

Lemma read_records_into_fills records rows max_shots st st_k :
  good st -> stream_records st records st_k ->
  Forall2 row_fits records (take (length records) rows) ->
  Z.of_nat (length rows) < 2 ^ 64 ->
  Z.of_nat (length records) <= max_shots ->
  exists rows',
    filled_rows written records rows rows'
    /\ (Z.of_nat (length records) = Z.min max_shots (Z.of_nat (length rows)) ->
        read_records_into rows max_shots st = Ok (Z.of_nat (length records), rows', st_k))
    /\ (forall st_end,
          Z.of_nat (length records) < Z.min max_shots (Z.of_nat (length rows)) ->
          start_record st_k = Ok (false, st_end) ->
          read_records_into rows max_shots st
          = Ok (Z.of_nat (length records), rows', st_end)).
Proof.
  intros Hgood Hstream Hfit H64 Hmax.
  assert (Hrows : (length records <= length rows)%nat).
  { apply Forall2_length in Hfit. rewrite length_take in Hfit. lia. }
  destruct (read_records_loop_fills records rows 0
              (Z.min max_shots (Z.of_nat (length rows))) st st_k Hgood Hstream Hfit)
    as (rows' & Hfilled & Hfull & Hshort); [lia..|].
  exists rows'. split; [exact Hfilled|]. unfold read_records_into.
  rewrite Z.add_0_l in Hfull, Hshort. split.
  - intros Hk. apply Hfull. lia.
  - intros st_end Hk Hend. apply Hshort; [lia | lia | exact Hend].
Qed.

End FillsRows.

Lemma filled_rows_packed records rows rows' :
  filled_rows packed records rows rows' -> packed_rows records rows rows'.
Proof. induction 1; now constructor. Qed.

Module B8Files.
Import MeasureRecordReaderFormatB8.

Lemma b8_read_bit_inside st bit st1 :
  read_bit st = Ok (bit, st1) ->
  is_end_of_record st = false /\ bits_per_record st1 = bits_per_record st.
Proof.
  unfold read_bit, is_end_of_record. intros H.
  destruct (position st >=? bits_per_record st); [discriminate|].
  split; [reflexivity|].
  destruct (payload (maybe_update_payload st) =? EOF); [discriminate|].
  injection H as _ <-. cbn [bits_per_record].
  unfold maybe_update_payload. destruct (bits_available st >? 0); [reflexivity|].
  now destruct (getc (inp st)).
Qed.

Lemma b8_record_bits_m st bits st' :
  record_bits read_bit (fun s => Ok (is_end_of_record s)) st bits st' ->
  bits_per_record st' = bits_per_record st.
Proof.
  induction 1 as [st He|st bit st1 bits st' He Hrb _ IH]; [reflexivity|].
  rewrite IH. now apply (b8_read_bit_inside st bit st1).
Qed.

(** The bulk read that follows [start_record] takes the whole record. *)
Lemma b8_whole_record (st st0 : state) bits st1 row :
  True -> start_record st = Ok (true, st0) ->
  record_bits read_bit (fun s => Ok (is_end_of_record s)) st0 bits st1 ->
  row_fits bits row ->
  True
  /\ exists row',
       read_bits_into_bytes st0 row = Ok (Z.of_nat (length bits), row', st1)
       /\ packed bits row row'.
Proof.
  intros _ Hstart Hrec Hrow. split; [exact I|].
  unfold read_bits_into_bytes.
  destruct (position st0 >=? bits_per_record st0) eqn:Eend.
  - inversion Hrec as [? He|? ? ? ? ? He]; subst;
      unfold is_end_of_record in He; rewrite Eend in He; [|discriminate].
    exists row. split; [reflexivity | constructor].
  - assert (Havail : (bits_available st0 >? 0) = true).
    { unfold start_record, maybe_update_payload in Hstart.
      cbn [bits_available inp bits_per_record position Z.gtb Z.compare] in Hstart.
      destruct (getc (inp st)) as [c inp1]. cbn [payload] in Hstart.
      destruct (c =? EOF); cbn [negb] in Hstart; [discriminate|].
      now injection Hstart as <-. }
    rewrite Havail.
    apply (default_read_whole_record _ _ default_current_result_type _ _ _ _ Hrec);
      [reflexivity | exact Hrow].
Qed.

(** The chunks of a stream as the records of the reader. *)
Lemma b8_stream_records (m : nat) chunks : forall rest st,
  bits_per_record st = Z.of_nat m -> Z.of_nat m < 2 ^ 64 ->
  inp st = mjoin chunks ++ rest ->
  Forall (fun bytes => length bytes = Nat.max 1 (bytes_for m)) chunks ->
  exists st_k,
    stream_records st (b8_record m <$> chunks) st_k
    /\ (chunks = [] -> st_k = st)
    /\ inp st_k = rest /\ bits_per_record st_k = Z.of_nat m.
Proof.
  induction chunks as [|bytes chunks IH]; intros rest st Hm H64 Hinp Hlen.
  - exists st. split; [constructor|]. split; [reflexivity|]. split; assumption.
  - apply Forall_cons in Hlen as [Hbytes Hchunks].
    cbn [mjoin list_join] in Hinp. rewrite <- app_assoc in Hinp.
    destruct (b8_read_record m bytes (mjoin chunks ++ rest) st Hm H64 Hinp Hbytes)
      as (st0 & st1 & Hstart & Hbits & Hend & Hrest).
    assert (Hrec : record_bits read_bit (fun s => Ok (is_end_of_record s))
                     st0 (b8_record m bytes) st1).
    { apply (read_bits_record_bits read_bit (fun s => Ok (is_end_of_record s))
               (fun _ => True)) with (k := m); [|exact I|exact Hbits|now rewrite Hend].
      intros s bit s1 _ Hs. split; [|exact I].
      now rewrite (proj1 (b8_read_bit_inside s bit s1 Hs)). }
    assert (Hm1 : bits_per_record st1 = Z.of_nat m).
    { rewrite (b8_record_bits_m _ _ _ Hrec).
      unfold start_record, maybe_update_payload in Hstart.
      cbn [bits_available inp bits_per_record position Z.gtb Z.compare] in Hstart.
      destruct (getc (inp st)). injection Hstart as _ <-. exact Hm. }
    destruct (IH rest st1 Hm1 H64 Hrest Hchunks) as (st_k & Hstream & _ & Hrest_k & Hm_k).
    exists st_k. split; [|split; [discriminate | split; assumption]].
    cbn [fmap list_fmap].
    eapply stream_records_cons; [exact Hstart | exact Hrec | exact Hstream].
Qed.

End B8Files.

(** X19. [read_records_into] reads a stream of the B8 format: when the
    stream holds ceil(m/8) bytes for each record, one after the other (one
    byte for each when m = 0), it fills a row with the first m bits of the
    bytes of each of the first records, lowest bit of a byte first and the
    spare bits of a row's last byte zero, as many records as [max_shots] and
    the rows allow, and leaves the stream behind their bytes; when the
    stream ends before that, it returns the number of its records. *)
Theorem b8_read_records_into_reads_the_bytes
    (m : nat) (chunks : list (list byte)) (rest : list byte)
    (rows : list (list Z)) (max_shots : Z) :
  Z.of_nat m < 2 ^ 64 ->
  Forall (fun bytes => length bytes = Nat.max 1 (bytes_for m)) chunks ->
  Forall2 row_fits (b8_record m <$> chunks) (take (length chunks) rows) ->
  Z.of_nat (length rows) < 2 ^ 64 ->
  Z.of_nat (length chunks) <= max_shots ->
  exists rows',
    packed_rows (b8_record m <$> chunks) rows rows'
    /\ (Z.of_nat (length chunks) = Z.min max_shots (Z.of_nat (length rows)) ->
        exists st',
          read_records_into rows max_shots
            (MeasureRecordReaderFormatB8.make (mjoin chunks ++ rest) (Z.of_nat m))
          = Ok (Z.of_nat (length chunks), rows', st')
          /\ MeasureRecordReaderFormatB8.inp st' = rest)
    /\ (Z.of_nat (length chunks) < Z.min max_shots (Z.of_nat (length rows)) ->
        rest = [] ->
        exists st',
          read_records_into rows max_shots
            (MeasureRecordReaderFormatB8.make (mjoin chunks ++ rest) (Z.of_nat m))
          = Ok (Z.of_nat (length chunks), rows', st')
          /\ MeasureRecordReaderFormatB8.inp st' = []).
Proof.
  intros H64 Hlen Hfit Hrows Hmax.
  destruct (B8Files.b8_stream_records m chunks rest
              (MeasureRecordReaderFormatB8.make (mjoin chunks ++ rest) (Z.of_nat m))
              eq_refl H64 eq_refl Hlen) as (st_k & Hstream & _ & Hrest & Hm_k).
  rewrite <- (length_fmap (b8_record m)) in Hfit, Hmax |- *.
  destruct (@read_records_into_fills _ MeasureRecordReaderFormatB8.reader
              packed (fun _ => True) B8Files.b8_whole_record
              (b8_record m <$> chunks) rows max_shots
              (MeasureRecordReaderFormatB8.make (mjoin chunks ++ rest) (Z.of_nat m))
              st_k I Hstream Hfit Hrows Hmax)
    as (rows' & Hfilled & Hfull & Hshort).
  exists rows'. split; [now apply filled_rows_packed|]. split.
  - intros Hk. exists st_k. split; [now apply Hfull | exact Hrest].
  - intros Hk ->.
    exists (MeasureRecordReaderFormatB8.mk [] (Z.of_nat m) EOF 0 0).
    split; [|reflexivity]. apply Hshort; [exact Hk|].
    change (MeasureRecordReaderFormatB8.start_record st_k
            = Ok (false, MeasureRecordReaderFormatB8.mk [] (Z.of_nat m) EOF 0 0)).
    unfold MeasureRecordReaderFormatB8.start_record,
      MeasureRecordReaderFormatB8.maybe_update_payload.
    now rewrite Hrest, Hm_k.
Qed.

(** Records of ten bits on the stream 2A 03 FF 01, read into a table of
    three rows of two bytes: two rows are filled, then the stream ends. *)
Lemma b8_read_records_into_reads_the_bytes_witness :
  exists rows' st',
    read_records_into [[255; 255]; [255; 255]; [255; 255]] 5
      (MeasureRecordReaderFormatB8.make (mjoin [[x2a; x03]; [xff; x01]] ++ []) 10)
    = Ok (2, rows', st')
    /\ packed_rows (b8_record 10 <$> [[x2a; x03]; [xff; x01]])
                   [[255; 255]; [255; 255]; [255; 255]] rows'.
Proof.
  destruct (b8_read_records_into_reads_the_bytes
              10 [[x2a; x03]; [xff; x01]] []
              [[255; 255]; [255; 255]; [255; 255]] 5)
    as (rows' & Hpacked & _ & Hshort).
  - vm_compute. reflexivity.
  - repeat constructor.
  - repeat constructor; unfold small_range; cbn; lia.
  - cbn. lia.
  - cbn. lia.
  - destruct Hshort as (st' & Hrun & _); [cbn; lia | reflexivity|].
    exists rows', st'. split; [exact Hrun | exact Hpacked].
Defined.

Module R8Files.
Import MeasureRecordReaderFormatR8 R8Facts.

Lemma r8_read_bit_inside st bit st1 :
  r8_inv st -> read_bit st = Ok (bit, st1) ->
  Ok (is_end_of_record st) = Ok false /\ r8_inv st1.
Proof.
  intros Hinv H.
  pose proof (read_bit_inv _ _ _ Hinv H) as Hinv1.
  destruct (R8Skip.r8_read_bit_position st bit st1 Hinv H) as [Hp Hm].
  split; [|exact Hinv1].
  destruct Hinv1 as (_ & Hb0 & Hb1 & _ & Htotal).
  assert (position st1 + buffered_0s st1 + buffered_1s st1 <= bits_per_record st1)
    by by_seen Htotal.
  unfold is_end_of_record.
  destruct (Z.eqb_spec (position st) (bits_per_record st)); [lia | reflexivity].
Qed.

(** The bulk read that follows [start_record] takes the whole record. *)
Lemma r8_whole_record (st st0 : state) bits st1 row :
  r8_good st -> start_record st = Ok (true, st0) ->
  record_bits read_bit (fun s => Ok (is_end_of_record s)) st0 bits st1 ->
  row_fits bits row ->
  r8_good st1
  /\ exists row',
       read_bits_into_bytes st0 row = Ok (Z.of_nat (length bits), row', st1)
       /\ r8_written bits row row'.
Proof.
  intros [Hm Hfit] Hstart Hrec [Hroom Hsmall].
  pose proof (start_record_inv st st0 Hm Hfit Hstart) as Hinv0.
  pose proof (record_bits_read _ _ _ _ _ Hrec) as Hall.
  pose proof (record_bits_final _ _ _ _ _ Hrec) as Hfinal.
  pose proof (R8Bulk.read_bits_inv _ _ _ _ Hinv0 Hall) as Hinv1.
  split.
  { destruct Hinv1 as (Hpos & Hb0 & Hb1 & Hfit1 & Htotal). split; [|exact Hfit1].
    assert (position st1 + buffered_0s st1 + buffered_1s st1 <= bits_per_record st1)
      by by_seen Htotal.
    lia. }
  destruct (R8Drains.bytes_loop_total row 0 st0 Hinv0 (record_bits_drains _ _ _ _ _ Hrec))
    as (n & row' & st' & Hcall & _).
  destruct (R8Shape.bytes_loop_shape row 0 st0 n row' st' Hinv0 Hcall)
    as (bits' & Hbits' & Hn & Hshape); [lia | unfold small_range in Hsmall; lia |].
  rewrite Z.add_0_l in Hn. subst n.
  destruct (Nat.lt_trichotomy (length bits') (length bits)) as [Hlt|[Heq|Hgt]].
  - (* the read would have stopped inside the record *)
    destruct (record_bits_prefix _ _ (length bits') _ _ _ _ _ Hrec ltac:(lia) Hbits')
      as [_ Hmid].
    destruct Hshape as [[Hfull _]|(_ & Hend & _)]; [lia|].
    destruct (drop (length bits') bits) as [|bit l] eqn:Edrop.
    + apply (f_equal length) in Edrop. rewrite length_drop in Edrop. cbn in Edrop. lia.
    + inversion Hmid; subst. congruence.
  - destruct (record_bits_prefix _ _ (length bits') _ _ _ _ _ Hrec ltac:(lia) Hbits')
      as [Htake Hmid].
    rewrite Heq, take_ge in Htake by lia. subst bits'.
    rewrite drop_ge in Hmid by lia.
    assert (st' = st1) as -> by (inversion Hmid; reflexivity).
    exists row'. split; [exact Hcall|].
    destruct Hshape as [[Hfull Hpacked]|(Hless & _ & Hpacked)]; [left | right]; auto.
  - (* the read would have gone on from the end of the record *)
    replace (length bits') with (length bits + S (length bits' - length bits - 1))%nat
      in Hbits' by lia.
    apply read_bits_split in Hbits' as (l1 & s1 & l2 & H1 & H2 & _).
    rewrite Hall in H1. injection H1 as <- <-.
    cbn [read_bits] in H2.
    destruct (read_bit st1) as [[bit s2]|] eqn:E; cbn [mbind result_bind] in H2;
      [|discriminate].
    destruct (r8_read_bit_inside st1 bit s2 Hinv1 E) as [Hnot _]. congruence.
Qed.

(** A record of the stream, bit by bit. *)
Lemma r8_read_record bits rest st :
  bits_per_record st = Z.of_nat (length bits) ->
  buffered_0s st = 0 -> buffered_1s st = 0 ->
  inp st = r8_encode bits ++ rest ->
  255 * Z.of_nat (length (r8_encode bits ++ rest)) + Z.of_nat (length bits) + 1 < 2 ^ 64 ->
  exists st0,
    start_record st = Ok (true, st0)
    /\ read_bits read_bit (length bits) st0
       = Ok (bits, mk rest (Z.of_nat (length bits)) (Z.of_nat (length bits)) true 0 0).
Proof.
  intros Hm E0 E1 Hinp Hfit.
  pose proof (R8Records.r8_bits_runs bits 0) as Hbits. cbn [replicate app] in Hbits.
  destruct (R8Records.read_runs (r8_runs bits 0) 0 rest (Z.of_nat (length bits)))
    as (st0 & Hbuf & Hread).
  - apply R8Records.r8_runs_not_nil.
  - lia.
  - rewrite Hbits, length_app. cbn [length]. lia.
  - exact Hfit.
  - exists st0. unfold start_record.
    rewrite Hinp, Hm, E0, E1. split; [exact Hbuf|].
    rewrite Hbits, length_app in Hread. cbn [length] in Hread.
    replace (length bits + 1 - 1)%nat with (length bits) in Hread by lia.
    now rewrite take_app_length in Hread.
Qed.

(** The records of a stream as the records of the reader. *)
Lemma r8_stream_records (m : nat) records : forall rest st,
  bits_per_record st = Z.of_nat m -> buffered_0s st = 0 -> buffered_1s st = 0 ->
  inp st = r8_text records ++ rest ->
  Forall (fun bits => length bits = m) records ->
  255 * Z.of_nat (length (r8_text records ++ rest)) + Z.of_nat m + 1 < 2 ^ 64 ->
  exists st_k,
    stream_records st records st_k
    /\ inp st_k = rest /\ bits_per_record st_k = Z.of_nat m
    /\ buffered_0s st_k = 0 /\ buffered_1s st_k = 0.
Proof.
  induction records as [|bits records IH]; intros rest st Hm E0 E1 Hinp Hlen Hfit.
  - exists st. split; [constructor|]. auto.
  - apply Forall_cons in Hlen as [Hbits Hrecords].
    change (r8_text (bits :: records)) with (r8_encode bits ++ r8_text records)
      in Hinp, Hfit.
    rewrite <- app_assoc in Hinp, Hfit. rewrite <- Hbits in Hm.
    assert (Hfit' : 255 * Z.of_nat (length (r8_encode bits ++ r8_text records ++ rest))
                    + Z.of_nat (length bits) + 1 < 2 ^ 64) by (rewrite Hbits; exact Hfit).
    destruct (r8_read_record bits (r8_text records ++ rest) st Hm E0 E1 Hinp Hfit')
      as (st0 & Hstart & Hread).
    assert (Hinv0 : r8_inv st0).
    { apply (start_record_inv st st0); [lia | rewrite Hinp; lia | exact Hstart]. }
    assert (Hrec : record_bits read_bit (fun s => Ok (is_end_of_record s)) st0 bits
                     (mk (r8_text records ++ rest) (Z.of_nat (length bits))
                         (Z.of_nat (length bits)) true 0 0)).
    { apply (read_bits_record_bits read_bit (fun s => Ok (is_end_of_record s)) r8_inv
               r8_read_bit_inside (length bits)); [exact Hinv0 | exact Hread |].
      unfold is_end_of_record. cbn [position bits_per_record have_seen_terminal_1].
      now rewrite Z.eqb_refl. }
    destruct (IH rest (mk (r8_text records ++ rest) (Z.of_nat (length bits))
                          (Z.of_nat (length bits)) true 0 0))
      as (st_k & Hstream & Hrest_k); try reflexivity.
    + cbn [bits_per_record]. now rewrite Hbits.
    + exact Hrecords.
    + rewrite length_app in Hfit. lia.
    + exists st_k. split; [|exact Hrest_k].
      eapply stream_records_cons; [exact Hstart | exact Hrec | exact Hstream].
Qed.

End R8Files.

(** X20. [read_records_into] reads a stream of the R8 format: when the
    stream holds the runs of each record of m bits, one record after the
    other, it fills a row with each of the first records, as many as
    [max_shots] and the rows allow, and leaves the stream behind their
    bytes; when the stream ends before that, it returns the number of its
    records. A row holds its record packed eight bits to a byte from the
    lowest bit; where a row has room for more than m bits it holds one more
    zero bit behind the record, so that with m a multiple of 8 the byte
    behind the record is set to zero. (Streams under 2^56 bytes.) *)
Theorem r8_read_records_into_reads_the_runs
    (records : list (list bool)) (rest : list byte) (m : nat)
    (rows : list (list Z)) (max_shots : Z) :
  Forall (fun bits => length bits = m) records ->
  255 * Z.of_nat (length (r8_text records ++ rest)) + Z.of_nat m + 1 < 2 ^ 64 ->
  Forall2 row_fits records (take (length records) rows) ->
  Z.of_nat (length rows) < 2 ^ 64 ->
  Z.of_nat (length records) <= max_shots ->
  exists rows',
    filled_rows r8_written records rows rows'
    /\ (Z.of_nat (length records) = Z.min max_shots (Z.of_nat (length rows)) ->
        exists st',
          read_records_into rows max_shots
            (MeasureRecordReaderFormatR8.make (r8_text records ++ rest) (Z.of_nat m))
          = Ok (Z.of_nat (length records), rows', st')
          /\ MeasureRecordReaderFormatR8.inp st' = rest)
    /\ (Z.of_nat (length records) < Z.min max_shots (Z.of_nat (length rows)) ->
        rest = [] ->
        exists st',
          read_records_into rows max_shots
            (MeasureRecordReaderFormatR8.make (r8_text records ++ rest) (Z.of_nat m))
          = Ok (Z.of_nat (length records), rows', st')
          /\ MeasureRecordReaderFormatR8.inp st' = []).
Proof.
  intros Hlen Hstream_fit Hfit Hrows Hmax.
  destruct (R8Files.r8_stream_records m records rest
              (MeasureRecordReaderFormatR8.make (r8_text records ++ rest) (Z.of_nat m))
              eq_refl eq_refl eq_refl eq_refl Hlen Hstream_fit)
    as (st_k & Hstream & Hrest & Hm_k & E0 & E1).
  destruct (@read_records_into_fills _ MeasureRecordReaderFormatR8.reader
              r8_written r8_good R8Files.r8_whole_record
              records rows max_shots
              (MeasureRecordReaderFormatR8.make (r8_text records ++ rest) (Z.of_nat m))
              st_k)
    as (rows' & Hfilled & Hfull & Hshort); try assumption.
  { split; cbn [MeasureRecordReaderFormatR8.make
                MeasureRecordReaderFormatR8.bits_per_record
                MeasureRecordReaderFormatR8.inp]; lia. }
  exists rows'. split; [exact Hfilled|]. split.
  - intros Hk. exists st_k. split; [now apply Hfull | exact Hrest].
  - intros Hk ->.
    exists (MeasureRecordReaderFormatR8.mk [] (Z.of_nat m) 0 false 0 0).
    split; [|reflexivity]. apply Hshort; [exact Hk|].
    change (MeasureRecordReaderFormatR8.start_record st_k
            = Ok (false, MeasureRecordReaderFormatR8.mk [] (Z.of_nat m) 0 false 0 0)).
    unfold MeasureRecordReaderFormatR8.start_record,
      MeasureRecordReaderFormatR8.maybe_buffer_data,
      MeasureRecordReaderFormatR8.is_end_of_record.
    cbn [MeasureRecordReaderFormatR8.inp MeasureRecordReaderFormatR8.bits_per_record
         MeasureRecordReaderFormatR8.position
         MeasureRecordReaderFormatR8.have_seen_terminal_1
         MeasureRecordReaderFormatR8.buffered_0s
         MeasureRecordReaderFormatR8.buffered_1s].
    rewrite Hrest, Hm_k, E0, E1. cbn [Z.eqb negb]. rewrite andb_false_r.
    reflexivity.
Qed.

(** Two records of eight bits, 1 0 0 0 0 0 0 0 and eight zeroes, read into
    a table of three rows of two bytes. *)
Lemma r8_read_records_into_reads_the_runs_witness :
  exists rows' st',
    read_records_into [[255; 255]; [255; 255]; [255; 255]] 5
      (MeasureRecordReaderFormatR8.make
         (r8_text [[true; false; false; false; false; false; false; false];
                   [false; false; false; false; false; false; false; false]] ++ []) 8)
    = Ok (2, rows', st')
    /\ filled_rows r8_written
         [[true; false; false; false; false; false; false; false];
          [false; false; false; false; false; false; false; false]]
         [[255; 255]; [255; 255]; [255; 255]] rows'.
Proof.
  destruct (r8_read_records_into_reads_the_runs
              [[true; false; false; false; false; false; false; false];
               [false; false; false; false; false; false; false; false]] [] 8
              [[255; 255]; [255; 255]; [255; 255]] 5)
    as (rows' & Hfilled & _ & Hshort).
  - repeat constructor.
  - vm_compute. reflexivity.
  - repeat constructor; unfold small_range; cbn; lia.
  - cbn. lia.
  - cbn. lia.
  - destruct Hshort as (st' & Hrun & _); [cbn; lia | reflexivity|].
    exists rows', st'. split; [exact Hrun | exact Hfilled].
Defined.

Module HitsFiles.
Import MeasureRecordReaderFormatHits.

Lemma length_toggles values : forall buffer,
  length (fold_left buffer_toggle values buffer) = length buffer.
Proof.
  induction values as [|v values IH]; intros buffer; cbn [fold_left]; [reflexivity|].
  now rewrite IH, length_buffer_toggle.
Qed.

(** The buffer from a position on as the record of the reader. *)
Lemma hits_record_bits stream m held : forall (todo p : nat),
  length held = m -> (p + todo = m)%nat -> Z.of_nat m < 2 ^ 64 ->
  record_bits read_bit (fun s => Ok (is_end_of_record s))
    (mk stream (Z.of_nat m) held (Z.of_nat p)) (drop p held)
    (mk stream (Z.of_nat m) held (Z.of_nat m)).
Proof.
  induction todo as [|todo IH]; intros p Hlen Hp H64.
  - rewrite Nat.add_0_r in Hp. subst p. rewrite drop_ge by lia.
    apply record_bits_end. unfold is_end_of_record.
    cbn [position_in_buffer bits_per_record].
    destruct (Z.geb_spec (Z.of_nat m) (Z.of_nat m)); [reflexivity | lia].
  - destruct (lookup_lt_is_Some_2 held p ltac:(lia)) as [bit Hbit].
    rewrite (drop_S _ _ _ Hbit).
    apply (record_bits_bit _ _ _ bit (mk stream (Z.of_nat m) held (Z.of_nat (S p)))).
    + unfold is_end_of_record. cbn [position_in_buffer bits_per_record].
      destruct (Z.geb_spec (Z.of_nat p) (Z.of_nat m)); [lia | reflexivity].
    + unfold read_bit. cbn [position_in_buffer bits_per_record buffer inp].
      destruct (Z.geb_spec (Z.of_nat p) (Z.of_nat m)); [lia|].
      unfold buffer_get. rewrite Nat2Z.id, Hbit. cbn [default].
      rewrite wrap64_small by lia. now rewrite Nat2Z.inj_succ.
    + apply IH; [exact Hlen | lia | exact H64].
Qed.

(** The lines of a text as the records of the reader. *)
Lemma hits_stream_records (m : nat) lines : forall rest st,
  bits_per_record st = Z.of_nat m -> Z.of_nat m < 2 ^ 64 ->
  length (buffer st) = m ->
  inp st = hits_text lines ++ rest ->
  Forall (Forall numeral) lines ->
  Forall (Forall (fun t => decimal_value t < Z.of_nat m)) lines ->
  exists st_k,
    stream_records st (hits_record (Z.of_nat m) <$> lines) st_k
    /\ inp st_k = rest /\ bits_per_record st_k = Z.of_nat m.
Proof.
  induction lines as [|tokens lines IH]; intros rest st Hm H64 Hbuf Hinp Hnum Hval.
  - exists st. split; [constructor|]. split; assumption.
  - apply Forall_cons in Hnum as [Hnum Hnums]. apply Forall_cons in Hval as [Hval Hvals].
    change (hits_text (tokens :: lines)) with (hits_line tokens ++ hits_text lines)
      in Hinp.
    rewrite <- app_assoc in Hinp.
    pose proof (HitsLine.hits_start_record_line st tokens (hits_text lines ++ rest)
                  ltac:(lia) Hinp Hnum ltac:(now rewrite Hm)) as Hstart.
    rewrite Hm in Hstart.
    assert (Hclear : buffer_clear (buffer st) = buffer_new (Z.of_nat m))
      by (unfold buffer_clear, buffer_new; now rewrite Hbuf, Nat2Z.id).
    rewrite Hclear in Hstart. fold (hits_record (Z.of_nat m) tokens) in Hstart.
    assert (Hlen : length (hits_record (Z.of_nat m) tokens) = m).
    { unfold hits_record. rewrite length_toggles. unfold buffer_new.
      now rewrite length_replicate, Nat2Z.id. }
    pose proof (hits_record_bits (hits_text lines ++ rest) m
                  (hits_record (Z.of_nat m) tokens) m 0 Hlen ltac:(lia) H64) as Hrec.
    rewrite drop_0 in Hrec.
    destruct (IH rest (mk (hits_text lines ++ rest) (Z.of_nat m)
                          (hits_record (Z.of_nat m) tokens) (Z.of_nat m))
                eq_refl H64 Hlen eq_refl Hnums Hvals)
      as (st_k & Hstream & Hrest_k).
    exists st_k. split; [|exact Hrest_k]. cbn [fmap list_fmap].
    eapply stream_records_cons; [exact Hstart | exact Hrec | exact Hstream].
Qed.

End HitsFiles.

(** X21. [read_records_into] reads a text of the HITS format: when the
    stream holds a line of numerals below m for each record (commas between
    them, a newline at the end, an empty line for a record without hits),
    it fills a row with each of the first records, as many as [max_shots]
    and the rows allow, and leaves the stream behind their lines; when the
    text ends before that, it returns the number of its lines. The record
    of a line is the row of m zero bits with the bit of each numeral
    toggled, packed eight bits to a byte from the lowest bit. *)
Theorem hits_read_records_into_reads_the_lines
    (lines : list (list (list byte))) (rest : list byte) (m : nat)
    (rows : list (list Z)) (max_shots : Z) :
  Z.of_nat m < 2 ^ 64 ->
  Forall (Forall numeral) lines ->
  Forall (Forall (fun t => decimal_value t < Z.of_nat m)) lines ->
  Forall2 row_fits (hits_record (Z.of_nat m) <$> lines) (take (length lines) rows) ->
  Z.of_nat (length rows) < 2 ^ 64 ->
  Z.of_nat (length lines) <= max_shots ->
  exists rows',
    packed_rows (hits_record (Z.of_nat m) <$> lines) rows rows'
    /\ (Z.of_nat (length lines) = Z.min max_shots (Z.of_nat (length rows)) ->
        exists st',
          read_records_into rows max_shots
            (MeasureRecordReaderFormatHits.make (hits_text lines ++ rest) (Z.of_nat m))
          = Ok (Z.of_nat (length lines), rows', st')
          /\ MeasureRecordReaderFormatHits.inp st' = rest)
    /\ (Z.of_nat (length lines) < Z.min max_shots (Z.of_nat (length rows)) ->
        rest = [] ->
        exists st',
          read_records_into rows max_shots
            (MeasureRecordReaderFormatHits.make (hits_text lines ++ rest) (Z.of_nat m))
          = Ok (Z.of_nat (length lines), rows', st')
          /\ MeasureRecordReaderFormatHits.inp st' = []).
Proof.
  intros H64 Hnum Hval Hfit Hrows Hmax.
  destruct (HitsFiles.hits_stream_records m lines rest
              (MeasureRecordReaderFormatHits.make (hits_text lines ++ rest) (Z.of_nat m))
              eq_refl H64) as (st_k & Hstream & Hrest & Hm_k);
    [|reflexivity|exact Hnum|exact Hval|].
  { cbn [MeasureRecordReaderFormatHits.make MeasureRecordReaderFormatHits.buffer].
    unfold buffer_new. now rewrite length_replicate, Nat2Z.id. }
  assert (Hbulk : forall (s : MeasureRecordReaderFormatHits.state) out,
             read_bits_into_bytes s out
             = default_read_bits_into_bytes read_bit is_end_of_record
                 current_result_type s out) by (intros; reflexivity).
  assert (Hcrt : forall s s' : MeasureRecordReaderFormatHits.state,
             current_result_type s = current_result_type s') by (intros; reflexivity).
  rewrite <- (length_fmap (hits_record (Z.of_nat m))) in Hfit, Hmax |- *.
  assert (Hcount : (length (hits_record (Z.of_nat m) <$> lines) <= length rows)%nat).
  { apply Forall2_length in Hfit. rewrite length_take in Hfit. lia. }
  destruct (read_records_loop_reads Hbulk Hcrt (hits_record (Z.of_nat m) <$> lines)
              rows 0 (Z.min max_shots (Z.of_nat (length rows)))
              (MeasureRecordReaderFormatHits.make (hits_text lines ++ rest) (Z.of_nat m))
              st_k Hstream Hfit)
    as (rows' & Hpacked & Hfull & Hshort); [lia..|].
  exists rows'. split; [exact Hpacked|]. unfold read_records_into.
  rewrite Z.add_0_l in Hfull, Hshort. split.
  - intros Hk. exists st_k. split; [apply Hfull; lia | exact Hrest].
  - intros Hk ->.
    exists (MeasureRecordReaderFormatHits.mk
              [] (Z.of_nat m) (MeasureRecordReaderFormatHits.buffer st_k)
              (MeasureRecordReaderFormatHits.position_in_buffer st_k)).
    split; [|reflexivity]. apply Hshort; [lia | lia |].
    change (MeasureRecordReaderFormatHits.start_record st_k
            = Ok (false, MeasureRecordReaderFormatHits.mk
                           [] (Z.of_nat m) (MeasureRecordReaderFormatHits.buffer st_k)
                           (MeasureRecordReaderFormatHits.position_in_buffer st_k))).
    unfold MeasureRecordReaderFormatHits.start_record. now rewrite Hrest, Hm_k.
Qed.

(** The text "0,2\n\n2,2,1\n" with m = 3: the records 1 0 1, 0 0 0 and
    0 1 0, read into a table of three rows of one byte. *)
Lemma hits_read_records_into_reads_the_lines_witness :
  exists st',
    read_records_into [[255]; [255]; [255]] 3
      (MeasureRecordReaderFormatHits.make
         (hits_text [[[x30]; [x32]]; []; [[x32]; [x32]; [x31]]] ++ []) 3)
    = Ok (3, [[5]; [0]; [2]], st').
Proof.
  destruct (hits_read_records_into_reads_the_lines
              [[[x30]; [x32]]; []; [[x32]; [x32]; [x31]]] [] 3
              [[255]; [255]; [255]] 3)
    as (rows' & Hpacked & Hfull & _).
  - vm_compute. reflexivity.
  - repeat constructor; discriminate.
  - repeat constructor.
  - repeat constructor; unfold small_range; vm_compute;
      solve [reflexivity | intros Hgt; discriminate Hgt].
  - cbn. lia.
  - cbn. lia.
  - destruct Hfull as (st' & Hrun & _); [reflexivity|].
    exists st'. pose proof Hrun as Hrows. vm_compute in Hrows.
    injection Hrows as Hrows _. rewrite Hrows. exact Hrun.
Defined.

(** ** [read_records_into]: a record longer than its row *)

Section LongRecord.
Context {T : Type}.
Variable rb : T -> result (bool * T).
Variable ie : T -> result bool.
Variable crt : T -> Z.

(** A bulk read into a range that is too short for the record fills the
    range and stops inside the record. *)
Lemma default_read_fills_short_range st bits st' out :
  record_bits rb ie st bits st' -> (forall s, crt s = crt st) ->
  small_range out -> 8 * Z.of_nat (length out) < Z.of_nat (length bits) ->
  exists out' s,
    default_read_bits_into_bytes rb ie crt st out
    = Ok (8 * Z.of_nat (length out), out', s)
    /\ ie s = Ok false.
Proof.
  intros Hrec Hcrt Hsmall Hshort.
  destruct (default_read_total rb ie crt st out (record_bits_drains _ _ _ _ _ Hrec))
    as (n & out' & s & Hcall & _).
  destruct (default_read_bits_into_bytes_ok rb ie crt st out n out' s Hcall Hsmall)
    as (bits' & Hbits' & Hn & Hpacked).
  pose proof (packed_bits_bound _ _ _ Hpacked) as Hbound.
  destruct (record_bits_prefix rb ie (length bits') _ _ _ _ _ Hrec ltac:(lia) Hbits')
    as [_ Hmid].
  assert (Hinside : ie s = Ok false).
  { destruct (drop (length bits') bits) as [|bit l] eqn:Edrop.
    - apply (f_equal length) in Edrop. rewrite length_drop in Edrop. cbn in Edrop. lia.
    - now inversion Hmid; subst. }
  exists out', s. split; [|exact Hinside].
  destruct (Z.eq_dec n (8 * Z.of_nat (length out))) as [<-|Hless]; [exact Hcall|].
  destruct (default_read_stops rb ie crt st out n out' s Hsmall Hcall ltac:(lia))
    as [He|[_ Hchange]]; [congruence|].
  now rewrite Hcrt in Hchange.
Qed.

End LongRecord.

Section RefusesLongRecord.
Context `{MeasureRecordReader T}.
Hypothesis default_bulk_read :
  forall st out,
    read_bits_into_bytes st out
    = default_read_bits_into_bytes read_bit is_end_of_record current_result_type st out.
Hypothesis one_result_type : forall s s' : T, current_result_type s = current_result_type s'.

Lemma read_records_loop_too_long records : forall rows rec max_shots st st_k st0 bits st1 row,
  stream_records st records st_k ->
  start_record st_k = Ok (true, st0) ->
  record_bits read_bit is_end_of_record st0 bits st1 ->
  Forall2 row_fits records (take (length records) rows) ->
  rows !! length records = Some row ->
  small_range row -> 8 * Z.of_nat (length row) < Z.of_nat (length bits) ->
  0 <= rec -> rec + Z.of_nat (length rows) < 2 ^ 64 ->
  rec + Z.of_nat (length records) < max_shots ->
  read_records_loop rows rec max_shots st = Throw ShotTooLong.
Proof.
  induction records as [|bits0 records IH];
    intros rows rec max_shots st st_k st0 bits st1 row Hstream Hstart Hbits Hfit Hrow
           Hsmall Hlong Hrec H64 Hmax;
    inversion Hstream as [|? s0 ? s1 ? ? Hstart0 Hbits0 Hrest]; subst.
  - destruct rows as [|row0 rows]; [discriminate|]. cbn in Hrow. injection Hrow as ->.
    cbn [length Z.of_nat] in Hmax. cbn [read_records_loop].
    destruct (Z.ltb_spec rec max_shots); [|lia]. cbn [negb].
    rewrite Hstart. cbn [mbind result_bind negb].
    destruct (default_read_fills_short_range read_bit is_end_of_record
                current_result_type st0 bits st1 row Hbits
                (fun s => one_result_type s st0) Hsmall Hlong)
      as (row' & s & Hcall & Hinside).
    rewrite default_bulk_read, Hcall. cbn [mbind result_bind].
    rewrite Hinside. reflexivity.
  - cbn [length] in Hfit, Hmax, Hrow. rewrite Nat2Z.inj_succ in Hmax.
    destruct rows as [|row0 rows]; [inversion Hfit|].
    cbn [take length lookup list_lookup] in Hfit, H64, Hrow.
    rewrite Nat2Z.inj_succ in H64.
    inversion Hfit as [|? ? ? ? Hrow0 Hrows]; subst.
    destruct (default_read_whole_record read_bit is_end_of_record current_result_type
                s0 bits0 s1 row0 Hbits0 (fun s => one_result_type s s0) Hrow0)
      as (row0' & Hcall & _).
    cbn [read_records_loop].
    destruct (Z.ltb_spec rec max_shots); [|lia]. cbn [negb].
    rewrite Hstart0. cbn [mbind result_bind negb].
    rewrite default_bulk_read, Hcall. cbn [mbind result_bind].
    rewrite (record_bits_final _ _ _ _ _ Hbits0). cbn [mbind result_bind negb].
    rewrite (wrap64_small (rec + 1)) by lia.
    rewrite (IH rows (rec + 1) max_shots s1 st_k st0 bits st1 row Hrest Hstart Hbits
               Hrows Hrow Hsmall Hlong); [reflexivity | lia..].
Qed.

End RefusesLongRecord.

(** X22. [read_records_into] refuses a record that is longer than its row.
    For a reader that uses the default bulk read and has one result type
    (the 01 and HITS readers): when the first records fit their rows and the
    next record of the stream has more bits than its row has room for
    (eight to a byte), and [max_shots] and the rows reach that record,
    [read_records_into] throws "a shot contained more bits than expected";
    it returns no count for the rows that it has filled before. *)
Theorem read_records_into_refuses_a_long_record `{MeasureRecordReader T}
    (records : list (list bool)) (bits : list bool) (rows : list (list Z))
    (row : list Z) (max_shots : Z) (st st_k st0 st1 : T) :
  (forall st out,
      read_bits_into_bytes st out
      = default_read_bits_into_bytes read_bit is_end_of_record current_result_type st out) ->
  (forall s s' : T, current_result_type s = current_result_type s') ->
  stream_records st records st_k ->
  start_record st_k = Ok (true, st0) ->
  record_bits read_bit is_end_of_record st0 bits st1 ->
  Forall2 row_fits records (take (length records) rows) ->
  rows !! length records = Some row ->
  small_range row -> 8 * Z.of_nat (length row) < Z.of_nat (length bits) ->
  Z.of_nat (length rows) < 2 ^ 64 ->
  Z.of_nat (length records) < max_shots ->
  read_records_into rows max_shots st = Throw ShotTooLong.
Proof.
  intros Hbulk Hcrt Hstream Hstart Hbits Hfit Hrow Hsmall Hlong H64 Hmax.
  pose proof (lookup_lt_Some _ _ _ Hrow) as Hlt.
  unfold read_records_into.
  apply (read_records_loop_too_long Hbulk Hcrt records rows 0
           (Z.min max_shots (Z.of_nat (length rows))) st st_k st0 bits st1 row);
    try assumption; lia.
Qed.

(** The 01 reader of the text "101010101\n010101010\n", records of nine
    bits, and a table whose second row has one byte. *)
Lemma read_records_into_refuses_a_long_record_witness :
  read_records_into [[255; 255]; [255]] 5
    (MeasureRecordReaderFormat01.make
       (f01_text [[true; false; true; false; true; false; true; false; true];
                  [false; true; false; true; false; true; false; true; false]]) 9)
  = Throw ShotTooLong.
Proof.
  destruct (Format01Files.f01_stream_records
              [[true; false; true; false; true; false; true; false; true];
               [false; true; false; true; false; true; false; true; false]] [] 9
              (MeasureRecordReaderFormat01.make
                 (f01_text [[true; false; true; false; true; false; true; false; true];
                            [false; true; false; true; false; true; false; true; false]]) 9))
    as (st_k & Hstream & _);
    [repeat constructor | vm_compute; reflexivity | now rewrite app_nil_r | reflexivity |].
  inversion Hstream as [|? st0 ? st1 ? ? Hstart0 Hbits0 Hrest]; subst.
  inversion Hrest as [|? s0 ? s1 ? ? Hstart1 Hbits1 _]; subst.
  apply (read_records_into_refuses_a_long_record
           [[true; false; true; false; true; false; true; false; true]]
           [false; true; false; true; false; true; false; true; false]
           [[255; 255]; [255]] [255] 5
           (MeasureRecordReaderFormat01.make
              (f01_text [[true; false; true; false; true; false; true; false; true];
                         [false; true; false; true; false; true; false; true; false]]) 9)
           st1 s0 s1).
  - intros; reflexivity.
  - intros; reflexivity.
  - eapply stream_records_cons; [exact Hstart0 | exact Hbits0 | constructor].
  - exact Hstart1.
  - exact Hbits1.
  - repeat constructor; unfold small_range; cbn; lia.
  - reflexivity.
  - unfold small_range. cbn. lia.
  - cbn. lia.
  - cbn. lia.
  - cbn. lia.
Defined.

(** ** HITS: lines that are no lists of numerals *)

Module HitsSyntax.
Import MeasureRecordReaderFormatHits HitsLine.

Lemma read_uint64_first b inp1 c :
  read_uint64 inp1 (byte_val b) true = read_uint64 (b :: inp1) c false.
Proof. reflexivity. Qed.

(** The first round of the loop reads as the later ones do, from the first
    character on. *)
Lemma hits_loop_first budget m b held inp1 :
  byte_val b <> ch_newline ->
  hits_loop (S budget) m (byte_val b) true held inp1
  = hits_loop (S budget) m ch_comma false held (b :: inp1).
Proof.
  intros Hb. rewrite !hits_loop_eq.
  destruct (Z.eqb_spec (byte_val b) ch_newline) as [|_]; [contradiction|].
  change (ch_comma =? ch_newline) with false. cbv iota.
  now rewrite (read_uint64_first b inp1 ch_comma).
Qed.

Lemma hits_start_record_from_comma st b0 rest0 :
  inp st = b0 :: rest0 -> byte_val b0 <> ch_newline ->
  start_record st
  = '(held, inp1) ← hits_loop (S (length rest0)) (bits_per_record st) ch_comma false
                              (buffer_clear (buffer st)) (b0 :: rest0);
    Ok (true, mk inp1 (bits_per_record st) held 0).
Proof.
  intros Hinp Hb. unfold start_record. rewrite Hinp. cbn [getc].
  rewrite Format01Skip.not_EOF. now rewrite hits_loop_first.
Qed.

Lemma length_hits_items tokens :
  Forall numeral tokens -> (2 * length tokens <= length (hits_items tokens))%nat.
Proof.
  induction 1 as [|t tokens [Hne _] _ IH]; [cbn; lia|].
  change (hits_items (t :: tokens)) with ((t ++ [x2c]) ++ hits_items tokens).
  rewrite !length_app. cbn [length]. destruct t; [congruence | cbn [length]; lia].
Qed.

(** The rounds of the loop over numerals that have a comma behind them. *)
Lemma hits_loop_items m tokens : forall spare held ending,
  m <= 2 ^ 64 ->
  Forall numeral tokens -> Forall (fun t => decimal_value t < m) tokens ->
  hits_loop (length tokens + S spare) m ch_comma false held (hits_items tokens ++ ending)
  = hits_loop (S spare) m ch_comma false
              (fold_left buffer_toggle (decimal_value <$> tokens) held) ending.
Proof.
  induction tokens as [|t tokens IH]; intros spare held ending Hm Hnum Hval;
    [reflexivity|].
  inversion Hnum as [|? ? Ht Hnum']; inversion Hval as [|? ? Hvt Hval']; subst.
  change (hits_items (t :: tokens)) with ((t ++ [x2c]) ++ hits_items tokens).
  rewrite <- !app_assoc. cbn [length Nat.add app]. rewrite hits_loop_eq.
  change (ch_comma =? ch_newline) with false. cbv iota.
  rewrite read_uint64_numeral; [|assumption|reflexivity|lia].
  cbn [mbind result_bind negb getc fst snd].
  change (byte_val x2c) with ch_comma.
  change (negb (ch_comma =? ch_comma) && negb (ch_comma =? ch_newline)) with false.
  cbv iota.
  destruct (Z.geb_spec (decimal_value t) m) as [|_]; [lia|].
  now rewrite IH.
Qed.

(** Where a numeral must follow and none does. *)
Lemma hits_loop_no_integer spare m held ending :
  stops ending ->
  hits_loop (S spare) m ch_comma false held ending = Throw HitsIntegerExpected.
Proof.
  intros Hstop. rewrite hits_loop_eq.
  change (ch_comma =? ch_newline) with false. cbv iota.
  unfold read_uint64. unfold stops in Hstop.
  destruct (getc ending) as [next inp1]. cbn [fst] in Hstop. now rewrite Hstop.
Qed.

(** A numeral with neither a comma nor a newline behind it. *)
Lemma hits_loop_no_separator spare m held t after :
  numeral t -> decimal_value t < 2 ^ 64 -> stops after ->
  (getc after).1 <> ch_comma -> (getc after).1 <> ch_newline ->
  hits_loop (S spare) m ch_comma false held (t ++ after) = Throw HitsSeparatorExpected.
Proof.
  intros Ht Hfit Hstop Hcomma Hnewline. rewrite hits_loop_eq.
  change (ch_comma =? ch_newline) with false. cbv iota.
  rewrite read_uint64_numeral by assumption. cbn [mbind result_bind negb].
  destruct (Z.eqb_spec (getc after).1 ch_comma) as [|_]; [contradiction|].
  destruct (Z.eqb_spec (getc after).1 ch_newline) as [|_]; [contradiction|].
  reflexivity.
Qed.

End HitsSyntax.

(** X23. The HITS reader refuses lines that are no lists of numerals. On a
    line that begins with any number of numerals below m, each with a comma
    behind it, [start_record] throws "integer didn't start immediately at
    start of line or after comma" when what follows does not begin with a
    digit (a second comma, a space, a comma at the end of the line, the end
    of the stream behind a comma; at the very start of the line, any
    character but a digit or the newline), and it throws "integers must be
    followed by a comma or newline" when what follows is a numeral with
    another character, or the end of the stream, behind it. *)
Theorem hits_refuses_malformed_lines
    (st : MeasureRecordReaderFormatHits.state)
    (tokens : list (list byte)) (ending : list byte) :
  let m := MeasureRecordReaderFormatHits.bits_per_record st in
  m <= 2 ^ 64 ->
  MeasureRecordReaderFormatHits.inp st = hits_items tokens ++ ending ->
  Forall numeral tokens -> Forall (fun t => decimal_value t < m) tokens ->
  (stops ending ->
   (tokens = [] -> ending <> [] /\ (getc ending).1 <> ch_newline) ->
   MeasureRecordReaderFormatHits.start_record st = Throw HitsIntegerExpected)
  /\ (forall t after,
        ending = t ++ after -> numeral t -> decimal_value t < 2 ^ 64 ->
        stops after -> (getc after).1 <> ch_comma -> (getc after).1 <> ch_newline ->
        MeasureRecordReaderFormatHits.start_record st = Throw HitsSeparatorExpected).
Proof.
  intros m Hm Hinp Hnum Hval.
  assert (Hloop : forall e,
    (forall spare held,
        MeasureRecordReaderFormatHits.hits_loop (S spare) m ch_comma false held ending
        = Throw e) ->
    (tokens = [] -> ending <> [] /\ (getc ending).1 <> ch_newline) ->
    MeasureRecordReaderFormatHits.start_record st = Throw e).
  { intros e Hthrows Hfirst.
    assert (Hline : exists b0 rest0,
               hits_items tokens ++ ending = b0 :: rest0
               /\ byte_val b0 <> ch_newline
               /\ (length tokens <= length rest0)%nat).
    { destruct tokens as [|t tokens].
      - destruct (Hfirst eq_refl) as [Hne Hc].
        destruct ending as [|b0 rest0]; [congruence|].
        exists b0, rest0. cbn [getc fst] in Hc. cbn [hits_items mbind list_bind app length].
        split; [reflexivity|]. split; [exact Hc | lia].
      - inversion Hnum as [|? ? [Hne Ht] Hnum']; subst.
        pose proof (HitsSyntax.length_hits_items _ Hnum') as Hlen.
        destruct t as [|d ds]; [congruence|].
        inversion Ht as [|? ? Hd _]; subst. apply isdigit_range in Hd.
        exists d, ((ds ++ [x2c]) ++ hits_items tokens ++ ending).
        split; [|split].
        + change (hits_items ((d :: ds) :: tokens))
            with (((d :: ds) ++ [x2c]) ++ hits_items tokens).
          now rewrite <- !app_assoc.
        + unfold ch_newline. lia.
        + rewrite !length_app. cbn [length]. lia. }
    destruct Hline as (b0 & rest0 & Hline & Hb0 & Hlen).
    rewrite (HitsSyntax.hits_start_record_from_comma st b0 rest0)
      by (try exact Hb0; now rewrite Hinp).
    rewrite <- Hline.
    replace (S (length rest0)) with (length tokens + S (length rest0 - length tokens))%nat
      by lia.
    fold m. rewrite HitsSyntax.hits_loop_items by assumption.
    now rewrite Hthrows. }
  split.
  - intros Hstop Hfirst. apply Hloop; [|exact Hfirst].
    intros spare held. now apply HitsSyntax.hits_loop_no_integer.
  - intros t after -> Ht Hfit Hstop Hcomma Hnewline. apply Hloop.
    + intros spare held. now apply HitsSyntax.hits_loop_no_separator.
    + intros _. destruct Ht as [Hne Ht]. destruct t as [|d ds]; [congruence|].
      split; [discriminate|]. inversion Ht as [|? ? Hd _]; subst.
      apply isdigit_range in Hd. cbn [app getc fst]. unfold ch_newline. lia.
Qed.

(** The lines "1,,2\n" and "1 2\n" with m = 8. *)
Lemma hits_refuses_malformed_lines_witness :
  MeasureRecordReaderFormatHits.start_record
    (MeasureRecordReaderFormatHits.make [x31; x2c; x2c; x32; x0a] 8)
  = Throw HitsIntegerExpected
  /\ MeasureRecordReaderFormatHits.start_record
       (MeasureRecordReaderFormatHits.make [x31; x20; x32; x0a] 8)
     = Throw HitsSeparatorExpected.
Proof.
  split.
  - apply (proj1 (hits_refuses_malformed_lines
                    (MeasureRecordReaderFormatHits.make [x31; x2c; x2c; x32; x0a] 8)
                    [[x31]] [x2c; x32; x0a]
                    ltac:(vm_compute; discriminate) eq_refl
                    ltac:(repeat constructor; discriminate)
                    ltac:(repeat constructor))).
    + reflexivity.
    + discriminate.
  - apply (proj2 (hits_refuses_malformed_lines
                    (MeasureRecordReaderFormatHits.make [x31; x20; x32; x0a] 8)
                    [] [x31; x20; x32; x0a]
                    ltac:(vm_compute; discriminate) eq_refl
                    ltac:(constructor) ltac:(constructor))
                 [x31] [x20; x32; x0a]).
    + reflexivity.
    + split; [discriminate | repeat constructor].
    + vm_compute. reflexivity.
    + reflexivity.
    + discriminate.
    + discriminate.
Defined.

(** ** DETS: lines that are no lists of tokens *)

Module DetsSyntax.
Import MeasureRecordReaderFormatDets DetsLine.

(** [start_record] behind the keyword. *)
Lemma dets_start_record_loop st line :
  inp st = [x73; x68; x6f; x74] ++ line ->
  start_record st
  = '(held, inp1) ← dets_loop (length (getc line).2) (m_bits_per_record st)
                              (d_bits_per_record st) (l_bits_per_record st)
                              (getc line).1 (buffer_clear (buffer st)) (getc line).2;
    Ok (true, mk inp1 held 0 (m_bits_per_record st) (d_bits_per_record st)
                 (l_bits_per_record st)).
Proof.
  intros Hinp. unfold start_record. rewrite Hinp.
  unfold maybe_consume_keyword, shot. cbn [app getc].
  change (byte_val x73 =? EOF) with false. cbv iota.
  cbn [consume_keyword_chars getc].
  change (negb (115 =? byte_val x73)) with false.
  change (negb (104 =? byte_val x68)) with false.
  change (negb (111 =? byte_val x6f)) with false.
  change (negb (116 =? byte_val x74)) with false. cbv iota.
  destruct (getc line) as [c inp']. reflexivity.
Qed.

(** The rounds of the loop over well-formed tokens. *)
Lemma dets_loop_tokens m d l ending tokens : forall budget held,
  0 <= m -> 0 <= d -> 0 <= l -> m + d + l < 2 ^ 64 ->
  (tokens <> [] -> stops ending) ->
  Forall (dets_token_ok m d l) tokens ->
  (length tokens <= budget)%nat ->
  dets_loop budget m d l
            (getc (dets_tokens_run tokens 0 ++ ending)).1 held
            (getc (dets_tokens_run tokens 0 ++ ending)).2
  = dets_loop (budget - length tokens) m d l (getc ending).1
              (fold_left buffer_toggle (dets_position m d <$> tokens) held)
              (getc ending).2.
Proof.
  induction tokens as [|t tokens IH];
    intros budget held Hm Hd Hl Hsum Hstop Hok Hbudget.
  - rewrite dets_tokens_run_nil. cbn [replicate app length fold_left fmap list_fmap].
    now rewrite Nat.sub_0_r.
  - rewrite dets_loop_eq.
    inversion Hok as [|? ? [Hnum Hval] Hok']; subst.
    rewrite dets_tokens_run_cons. cbn [app getc fst snd].
    change (byte_val x20) with ch_space. rewrite <- app_assoc. cbn [app].
    rewrite skip_spaces_run by (destruct (tok_section t); intros He; discriminate He).
    change (ch_space =? ch_space) with true. cbv zeta iota.
    replace ((byte_val (section_prefix (tok_section t)) =? ch_newline)
             || (byte_val (section_prefix (tok_section t)) =? EOF)) with false
      by (destruct (tok_section t); reflexivity).
    cbn [negb]. rewrite section_prefix_cases. cbn [mbind result_bind].
    rewrite <- app_assoc.
    pose proof (decimal_value_nonneg _ (proj2 Hnum)) as Hnn.
    assert (Hsize : section_size m d l (tok_section t) <= 2 ^ 64)
      by (destruct (tok_section t); cbn; lia).
    assert (Hnext : stops (dets_tokens_run tokens 0 ++ ending)).
    { destruct tokens as [|t' tokens'].
      - rewrite dets_tokens_run_nil. apply Hstop. discriminate.
      - rewrite dets_tokens_run_cons. reflexivity. }
    rewrite read_uint64_numeral; [|assumption|exact Hnext|lia].
    cbn [mbind result_bind negb].
    destruct (Z.geb_spec (decimal_value (tok_digits t)) (section_size m d l (tok_section t)))
      as [|_]; [lia|].
    destruct budget as [|budget]; [cbn in Hbudget; lia|].
    assert (Hpos : wrap64 (match tok_section t with
                           | SecM => 0 | SecD => m | SecL => wrap64 (m + d)
                           end + decimal_value (tok_digits t))
                   = dets_position m d t).
    { unfold dets_position.
      destruct (tok_section t); cbn [section_offset section_size] in *;
        rewrite ?(wrap64_small (m + d)) by lia; apply wrap64_small; lia. }
    rewrite Hpos, IH; try assumption; [reflexivity | | cbn in Hbudget; lia].
    intros _. destruct tokens as [|t' tokens']; [apply Hstop; discriminate|].
    apply Hstop. discriminate.
Qed.

(** A character that is no space where a token or the end of the line must
    follow. *)
Lemma dets_loop_no_space budget m d l held b rest :
  byte_val b <> ch_space -> byte_val b <> ch_newline ->
  dets_loop budget m d l (byte_val b) held rest = Throw DetsSpaceExpected.
Proof.
  intros Hspace Hnewline. rewrite dets_loop_eq, skip_spaces_eq.
  destruct (Z.eqb_spec (byte_val b) ch_space) as [|_]; [contradiction|].
  destruct (Z.eqb_spec (byte_val b) ch_newline) as [|_]; [contradiction|].
  now rewrite Format01Skip.not_EOF.
Qed.

(** Spaces, then a character that is no prefix. *)
Lemma dets_loop_bad_prefix budget m d l held k b rest :
  byte_val b <> ch_space -> byte_val b <> ch_newline ->
  byte_val b <> ch_M -> byte_val b <> ch_D -> byte_val b <> ch_L ->
  dets_loop budget m d l ch_space held (replicate k x20 ++ b :: rest)
  = Throw DetsBadPrefix.
Proof.
  intros Hspace Hnewline HM HD HL. rewrite dets_loop_eq.
  rewrite skip_spaces_run by exact Hspace.
  change (ch_space =? ch_space) with true. cbv zeta iota.
  destruct (Z.eqb_spec (byte_val b) ch_newline) as [|_]; [contradiction|].
  rewrite Format01Skip.not_EOF. cbn [orb negb].
  destruct (Z.eqb_spec (byte_val b) ch_M) as [|_]; [contradiction|].
  destruct (Z.eqb_spec (byte_val b) ch_D) as [|_]; [contradiction|].
  destruct (Z.eqb_spec (byte_val b) ch_L) as [|_]; [contradiction|].
  reflexivity.
Qed.

(** Spaces, then a prefix with no digit behind it. *)
Lemma dets_loop_no_integer budget m d l held k s after :
  stops after ->
  dets_loop budget m d l ch_space held (replicate k x20 ++ section_prefix s :: after)
  = Throw DetsIntegerExpected.
Proof.
  intros Hstop. rewrite dets_loop_eq.
  rewrite skip_spaces_run by (destruct s; intros He; discriminate He).
  change (ch_space =? ch_space) with true. cbv zeta iota.
  replace ((byte_val (section_prefix s) =? ch_newline)
           || (byte_val (section_prefix s) =? EOF)) with false
    by (destruct s; reflexivity).
  cbn [negb]. rewrite section_prefix_cases. cbn [mbind result_bind].
  unfold read_uint64. unfold stops in Hstop.
  destruct (getc after) as [next inp1]. cbn [fst] in Hstop. now rewrite Hstop.
Qed.

End DetsSyntax.

(** X24. The DETS reader refuses lines that are no lists of tokens. Behind
    the keyword and any number of well-formed tokens (one or more spaces, a
    prefix M, D or L, a numeral below the size of its section),
    [start_record] throws "values must be separated by spaces" when a
    character other than a space or the newline follows directly (a token
    glued to the keyword or to the numeral before it, a comma); behind one
    or more spaces it throws "unrecognized prefix" for a character other
    than M, D, L and the newline, and "prefix wasn't followed by an integer"
    for a prefix with no digit behind it. *)
Theorem dets_refuses_malformed_lines
    (st : MeasureRecordReaderFormatDets.state)
    (tokens : list dets_token) (ending : list byte) :
  let m := MeasureRecordReaderFormatDets.m_bits_per_record st in
  let d := MeasureRecordReaderFormatDets.d_bits_per_record st in
  let l := MeasureRecordReaderFormatDets.l_bits_per_record st in
  0 <= m -> 0 <= d -> 0 <= l -> m + d + l < 2 ^ 64 ->
  MeasureRecordReaderFormatDets.inp st
  = [x73; x68; x6f; x74] ++ dets_tokens_run tokens 0 ++ ending ->
  Forall (dets_token_ok m d l) tokens ->
  (forall b rest,
      ending = b :: rest -> (tokens <> [] -> isdigit (byte_val b) = false) ->
      byte_val b <> ch_space -> byte_val b <> ch_newline ->
      MeasureRecordReaderFormatDets.start_record st = Throw DetsSpaceExpected)
  /\ (forall k b rest,
        ending = replicate (S k) x20 ++ b :: rest ->
        byte_val b <> ch_space -> byte_val b <> ch_newline ->
        byte_val b <> ch_M -> byte_val b <> ch_D -> byte_val b <> ch_L ->
        MeasureRecordReaderFormatDets.start_record st = Throw DetsBadPrefix)
  /\ (forall k s after,
        ending = replicate (S k) x20 ++ section_prefix s :: after ->
        stops after ->
        MeasureRecordReaderFormatDets.start_record st = Throw DetsIntegerExpected).
Proof.
  intros m d l Hm Hd Hl Hsum Hinp Hok.
  assert (Hloop : forall e,
    ending <> [] -> (tokens <> [] -> stops ending) ->
    (forall budget held,
        MeasureRecordReaderFormatDets.dets_loop budget m d l (getc ending).1 held
          (getc ending).2 = Throw e) ->
    MeasureRecordReaderFormatDets.start_record st = Throw e).
  { intros e Hne Hstop Hthrows.
    rewrite (DetsSyntax.dets_start_record_loop st _ Hinp). fold m d l.
    rewrite DetsSyntax.dets_loop_tokens; try assumption.
    - now rewrite Hthrows.
    - pose proof (DetsLine.dets_tokens_run_length tokens 0) as Hlen.
      destruct (dets_tokens_run tokens 0 ++ ending) as [|b0 line] eqn:El.
      + apply (f_equal length) in El. rewrite length_app in El. cbn [length] in El.
        destruct ending; [congruence | cbn [length] in El; lia].
      + cbn [getc snd]. apply (f_equal length) in El. rewrite length_app in El.
        cbn [length] in El. destruct ending; [congruence | cbn [length] in El; lia]. }
  split; [|split].
  - intros b rest -> Hdigit Hspace Hnewline. apply Hloop; [discriminate|exact Hdigit|].
    intros budget held. cbn [getc fst snd].
    now apply DetsSyntax.dets_loop_no_space.
  - intros k b rest -> Hspace Hnewline HM HD HL.
    apply Hloop; [discriminate | intros _; reflexivity |].
    intros budget held. cbn [replicate app getc fst snd].
    change (byte_val x20) with ch_space.
    now apply DetsSyntax.dets_loop_bad_prefix.
  - intros k s after -> Hstop.
    apply Hloop; [discriminate | intros _; reflexivity |].
    intros budget held. cbn [replicate app getc fst snd].
    change (byte_val x20) with ch_space.
    now apply DetsSyntax.dets_loop_no_integer.
Qed.

(** The lines "shot M0D1\n", "shot M0 X1\n" and "shot M0 D\n" of a reader
    with two measurements and two detectors. *)
Lemma dets_refuses_malformed_lines_witness :
  MeasureRecordReaderFormatDets.start_record
    (MeasureRecordReaderFormatDets.make
       ([x73; x68; x6f; x74] ++ dets_tokens_run [mk_token 0 SecM [x30]] 0
        ++ [x44; x31; x0a]) 2 2 0)
  = Throw DetsSpaceExpected
  /\ MeasureRecordReaderFormatDets.start_record
       (MeasureRecordReaderFormatDets.make
          ([x73; x68; x6f; x74] ++ dets_tokens_run [mk_token 0 SecM [x30]] 0
           ++ [x20; x58; x31; x0a]) 2 2 0)
     = Throw DetsBadPrefix
  /\ MeasureRecordReaderFormatDets.start_record
       (MeasureRecordReaderFormatDets.make
          ([x73; x68; x6f; x74] ++ dets_tokens_run [mk_token 0 SecM [x30]] 0
           ++ [x20; x44; x0a]) 2 2 0)
     = Throw DetsIntegerExpected.
Proof.
  assert (Hok : Forall (dets_token_ok 2 2 0) [mk_token 0 SecM [x30]]).
  { apply Forall_cons. split; [|constructor].
    split; [split; [discriminate | repeat constructor] | vm_compute; reflexivity]. }
  split; [|split].
  - apply (proj1 (dets_refuses_malformed_lines
                    (MeasureRecordReaderFormatDets.make
                       ([x73; x68; x6f; x74] ++ dets_tokens_run [mk_token 0 SecM [x30]] 0
                        ++ [x44; x31; x0a]) 2 2 0)
                    [mk_token 0 SecM [x30]] [x44; x31; x0a]
                    ltac:(cbn; lia) ltac:(cbn; lia) ltac:(cbn; lia) ltac:(cbn; lia)
                    eq_refl Hok) x44 [x31; x0a]);
      [reflexivity | reflexivity | discriminate | discriminate].
  - apply (proj1 (proj2 (dets_refuses_malformed_lines
                    (MeasureRecordReaderFormatDets.make
                       ([x73; x68; x6f; x74] ++ dets_tokens_run [mk_token 0 SecM [x30]] 0
                        ++ [x20; x58; x31; x0a]) 2 2 0)
                    [mk_token 0 SecM [x30]] [x20; x58; x31; x0a]
                    ltac:(cbn; lia) ltac:(cbn; lia) ltac:(cbn; lia) ltac:(cbn; lia)
                    eq_refl Hok)) 0%nat x58 [x31; x0a]);
      [reflexivity | discriminate..].
  - apply (proj2 (proj2 (dets_refuses_malformed_lines
                    (MeasureRecordReaderFormatDets.make
                       ([x73; x68; x6f; x74] ++ dets_tokens_run [mk_token 0 SecM [x30]] 0
                        ++ [x20; x44; x0a]) 2 2 0)
                    [mk_token 0 SecM [x30]] [x20; x44; x0a]
                    ltac:(cbn; lia) ltac:(cbn; lia) ltac:(cbn; lia) ltac:(cbn; lia)
                    eq_refl Hok)) 0%nat SecD [x0a]);
      reflexivity.
Defined.

(** ** The default bulk read: an error of [read_bit] inside the range *)

Section DefaultThrows.
Context {T : Type}.
Variable rb : T -> result (bool * T).
Variable ie : T -> result bool.
Variable crt : T -> Z.
Variable rt : Z.

Lemma steps_inside_head st j s :
  steps_inside rb ie crt rt st j s -> ie st = Ok false /\ crt st = rt.
Proof. destruct 1; auto. Qed.

Lemma steps_inside_split a : forall b st s,
  steps_inside rb ie crt rt st (a + b) s ->
  exists mid, steps_inside rb ie crt rt st a mid /\ steps_inside rb ie crt rt mid b s.
Proof.
  induction a as [|a IH]; intros b st s H.
  - exists st. split; [|exact H].
    destruct (steps_inside_head _ _ _ H). now constructor.
  - cbn [Nat.add] in H. destruct (steps_inside_head _ _ _ H) as [He Hc].
    inversion H as [|? bit st1 ? ? _ _ Hrb Hrest]; subst.
    destruct (IH b st1 s Hrest) as (mid & Ha & Hb).
    exists mid. split; [|exact Hb]. now apply (steps_inside_step _ _ _ _ st bit st1).
Qed.

(** The inner loop over bits that are inside: it goes through all of them. *)
Lemma default_bits_loop_runs todo : forall k b n st s,
  steps_inside rb ie crt rt st todo s ->
  exists b' n', default_bits_loop rb ie crt todo rt k b n st = Ok (false, b', n', s).
Proof.
  induction todo as [|todo IH]; intros k b n st s H; cbn [default_bits_loop].
  - inversion H as [? _ _|]; subst. eauto.
  - inversion H as [|? bit st1 ? ? _ _ Hrb Hrest]; subst.
    rewrite Hrb. cbn [mbind result_bind].
    destruct (steps_inside_head _ _ _ Hrest) as [He1 Hc1].
    rewrite He1. cbn [mbind result_bind]. rewrite Hc1, Z.eqb_refl. cbn [negb orb].
    apply IH. exact Hrest.
Qed.

(** The inner loop when [read_bit] throws before its rounds are over. *)
Lemma default_bits_loop_throws todo : forall k b n st j s e,
  steps_inside rb ie crt rt st j s -> rb s = Throw e -> (j < todo)%nat ->
  default_bits_loop rb ie crt todo rt k b n st = Throw e.
Proof.
  induction todo as [|todo IH]; intros k b n st j s e H Hthrow Hj; [lia|].
  cbn [default_bits_loop].
  inversion H as [? _ _|? bit st1 j' ? _ _ Hrb Hrest]; subst.
  - now rewrite Hthrow.
  - rewrite Hrb. cbn [mbind result_bind].
    destruct (steps_inside_head _ _ _ Hrest) as [He1 Hc1].
    rewrite He1. cbn [mbind result_bind]. rewrite Hc1, Z.eqb_refl. cbn [negb orb].
    apply (IH _ _ _ st1 j' s e Hrest Hthrow). lia.
Qed.

Lemma default_bytes_loop_throws out : forall n st j s e,
  steps_inside rb ie crt rt st j s -> rb s = Throw e -> (j < 8 * length out)%nat ->
  default_bytes_loop rb ie crt out rt n st = Throw e.
Proof.
  induction out as [|b0 out IH]; intros n st j s e H Hthrow Hj; cbn [length] in Hj;
    [lia|].
  cbn [default_bytes_loop].
  destruct (Nat.lt_ge_cases j 8) as [Hlt|Hge].
  - now rewrite (default_bits_loop_throws 8 0 0 n st j s e H Hthrow Hlt).
  - replace j with (8 + (j - 8))%nat in H by lia.
    apply steps_inside_split in H as (mid & H8 & Hrest).
    destruct (default_bits_loop_runs 8 0 0 n st mid H8) as (b' & n' & ->).
    cbn [mbind result_bind].
    rewrite (IH n' mid (j - 8)%nat s e Hrest Hthrow) by lia. reflexivity.
Qed.

End DefaultThrows.

(** A bulk read throws what [read_bit] throws inside the record, when its
    range reaches that far. *)
Lemma default_read_throws {T : Type} (rb : T -> result (bool * T))
    (ie : T -> result bool) (crt : T -> Z) st out j s e :
  steps_inside rb ie crt (crt st) st j s -> rb s = Throw e ->
  (j < 8 * length out)%nat ->
  default_read_bits_into_bytes rb ie crt st out = Throw e.
Proof.
  intros H Hthrow Hj. unfold default_read_bits_into_bytes.
  destruct (steps_inside_head _ _ _ _ _ _ _ H) as [He _]. rewrite He.
  cbn [mbind result_bind].
  exact (default_bytes_loop_throws rb ie crt (crt st) out 0 st j s e H Hthrow Hj).
Qed.

Module Format01Syntax.
Import MeasureRecordReaderFormat01.

(** The characters '0' and '1' of a line in front of another character. *)
Lemma f01_steps_inside b rest m bits : forall p,
  0 <= p -> p + Z.of_nat (length bits) < m -> m < 2 ^ 64 ->
  b <> x0a ->
  steps_inside read_bit is_end_of_record default_current_result_type ch_M
    (mk (getc (f01_line bits ++ b :: rest)).2 (getc (f01_line bits ++ b :: rest)).1 p m)
    (length bits)
    (mk rest (byte_val b) (p + Z.of_nat (length bits)) m).
Proof.
  induction bits as [|bit bits IH]; intros p Hp Hlen H64 Hb.
  - cbn [f01_line fmap list_fmap app getc fst snd length Z.of_nat].
    rewrite Z.add_0_r. apply steps_inside_here; [|reflexivity].
    unfold is_end_of_record. cbn [payload position bits_per_record].
    rewrite Format01Skip.not_EOF, Format01Skip.not_newline by exact Hb.
    cbn [length Z.of_nat] in Hlen.
    destruct (Z.geb_spec p m); [lia | reflexivity].
  - change (f01_line (bit :: bits)) with (f01_char bit :: f01_line bits).
    cbn [length] in Hlen |- *. rewrite Nat2Z.inj_succ in Hlen |- *.
    cbn [app getc fst snd].
    replace (p + Z.succ (Z.of_nat (length bits))) with (p + 1 + Z.of_nat (length bits))
      by lia.
    apply (steps_inside_step _ _ _ _ _ bit
             (mk (getc (f01_line bits ++ b :: rest)).2
                 (getc (f01_line bits ++ b :: rest)).1 (p + 1) m)).
    + unfold is_end_of_record. cbn [payload position bits_per_record].
      rewrite Format01Skip.not_EOF.
      destruct (Z.geb_spec p m); [lia|]. now destruct bit.
    + reflexivity.
    + apply Format01Lines.read_bit_char; lia.
    + apply IH; [lia | lia | exact H64 | exact Hb].
Qed.

Lemma f01_steps_read_bits b rest m bits : forall p,
  0 <= p -> p + Z.of_nat (length bits) < m -> m < 2 ^ 64 ->
  read_bits read_bit (length bits)
    (mk (getc (f01_line bits ++ b :: rest)).2 (getc (f01_line bits ++ b :: rest)).1 p m)
  = Ok (bits, mk rest (byte_val b) (p + Z.of_nat (length bits)) m).
Proof.
  induction bits as [|bit bits IH]; intros p Hp Hlen H64.
  - cbn [f01_line fmap list_fmap app getc fst snd length Z.of_nat read_bits].
    now rewrite Z.add_0_r.
  - change (f01_line (bit :: bits)) with (f01_char bit :: f01_line bits).
    cbn [length] in Hlen |- *. rewrite Nat2Z.inj_succ in Hlen |- *.
    cbn [read_bits app getc fst snd].
    rewrite Format01Lines.read_bit_char by lia. cbn [mbind result_bind].
    rewrite IH by lia. cbn [mbind result_bind]. do 3 f_equal. lia.
Qed.

Lemma read_bit_other_character b rest p m :
  b <> x30 -> b <> x31 -> b <> x0a -> p < m ->
  read_bit (mk rest (byte_val b) p m) = Throw ExpectedZeroOrOne.
Proof.
  intros H0 H1 Hn Hp. unfold read_bit. cbn [payload position bits_per_record].
  rewrite Format01Skip.not_EOF, Format01Skip.not_newline by exact Hn.
  destruct (Z.geb_spec p m); [lia|]. cbn [orb].
  destruct (Z.eqb_spec (byte_val b) ch_0) as [He|_];
    [apply (byte_val_inj b x30) in He; contradiction|].
  destruct (Z.eqb_spec (byte_val b) ch_1) as [He|_];
    [apply (byte_val_inj b x31) in He; contradiction|].
  reflexivity.
Qed.

End Format01Syntax.

(** X25. The 01 reader refuses a character other than '0' and '1' inside a
    record. On a line that has such a character (and no newline) where one
    of its m bits must be: [start_record] answers true and [read_bit] gives
    the bits in front of the character, then throws "expected '0' or '1'";
    a bulk read of the record whose range reaches the character throws the
    same, and so does [read_records_into] when the line is the first of the
    stream. *)
Theorem f01_refuses_other_characters
    (bits : list bool) (b : byte) (rest : list byte) (m : Z)
    (st : MeasureRecordReaderFormat01.state) :
  MeasureRecordReaderFormat01.inp st = f01_line bits ++ b :: rest ->
  MeasureRecordReaderFormat01.bits_per_record st = m ->
  Z.of_nat (length bits) < m -> m < 2 ^ 64 ->
  b <> x30 -> b <> x31 -> b <> x0a ->
  exists st0 st1,
    MeasureRecordReaderFormat01.start_record st = Ok (true, st0)
    /\ read_bits MeasureRecordReaderFormat01.read_bit (length bits) st0 = Ok (bits, st1)
    /\ MeasureRecordReaderFormat01.read_bit st1 = Throw ExpectedZeroOrOne
    /\ (forall out,
          (length bits < 8 * length out)%nat ->
          MeasureRecordReaderFormat01.read_bits_into_bytes st0 out
          = Throw ExpectedZeroOrOne)
    /\ (forall row rows max_shots,
          (length bits < 8 * length row)%nat -> 0 < max_shots ->
          read_records_into (row :: rows) max_shots st = Throw ExpectedZeroOrOne).
Proof.
  intros Hinp Hm Hlen H64 H0 H1 Hn.
  exists (MeasureRecordReaderFormat01.mk
            (getc (f01_line bits ++ b :: rest)).2 (getc (f01_line bits ++ b :: rest)).1 0 m),
    (MeasureRecordReaderFormat01.mk rest (byte_val b) (0 + Z.of_nat (length bits)) m).
  assert (Hstart :
    MeasureRecordReaderFormat01.start_record st
    = Ok (true, MeasureRecordReaderFormat01.mk
                  (getc (f01_line bits ++ b :: rest)).2
                  (getc (f01_line bits ++ b :: rest)).1 0 m)).
  { unfold MeasureRecordReaderFormat01.start_record. rewrite Hinp, Hm.
    destruct (f01_line bits ++ b :: rest) as [|c inp1] eqn:E.
    - destruct bits; discriminate.
    - cbn [getc fst snd]. now rewrite Format01Skip.not_EOF. }
  pose proof (Format01Syntax.read_bit_other_character b rest
                (0 + Z.of_nat (length bits)) m H0 H1 Hn ltac:(lia)) as Hthrow.
  pose proof (Format01Syntax.f01_steps_inside b rest m bits 0 ltac:(lia) ltac:(lia)
                H64 Hn) as Hinside.
  assert (Hbulk : forall out,
    (length bits < 8 * length out)%nat ->
    MeasureRecordReaderFormat01.read_bits_into_bytes
      (MeasureRecordReaderFormat01.mk
         (getc (f01_line bits ++ b :: rest)).2 (getc (f01_line bits ++ b :: rest)).1 0 m)
      out
    = Throw ExpectedZeroOrOne).
  { intros out Hout. unfold MeasureRecordReaderFormat01.read_bits_into_bytes.
    exact (default_read_throws _ _ _ _ out _ _ _ Hinside Hthrow Hout). }
  split; [exact Hstart|]. split.
  { apply Format01Syntax.f01_steps_read_bits; lia. }
  split; [exact Hthrow|]. split; [exact Hbulk|].
  intros row rows max_shots Hrow Hmax. unfold read_records_into.
  cbn [read_records_loop length].
  destruct (Z.ltb_spec 0 (Z.min max_shots (Z.of_nat (S (length rows))))); [|lia].
  cbn [negb].
  change (start_record st) with (MeasureRecordReaderFormat01.start_record st).
  rewrite Hstart. cbn [mbind result_bind negb].
  change (read_bits_into_bytes ?s row)
    with (MeasureRecordReaderFormat01.read_bits_into_bytes s row).
  now rewrite Hbulk.
Qed.

(** The text "01x\n" read as records of three bits. *)
Lemma f01_refuses_other_characters_witness :
  read_records_into [[255]; [255]] 2 (MeasureRecordReaderFormat01.make
                                        [x30; x31; x78; x0a] 3)
  = Throw ExpectedZeroOrOne.
Proof.
  destruct (f01_refuses_other_characters [false; true] x78 [x0a] 3
              (MeasureRecordReaderFormat01.make [x30; x31; x78; x0a] 3))
    as (st0 & st1 & _ & _ & _ & _ & Hrecords);
    [reflexivity | reflexivity | cbn; lia | lia | discriminate..|].
  apply Hrecords; [cbn; lia | lia].
Defined.

(** ** [read_records_into] on DETS records of one result type *)

Section WholeRecordInside.
Context {T : Type}.
Variable rb : T -> result (bool * T).
Variable ie : T -> result bool.
Variable crt : T -> Z.

(** A bulk read into a range that has room for it takes the whole record,
    when the result type does not change inside the record. *)
Lemma default_read_whole_record_inside st bits st' out :
  record_bits rb ie st bits st' ->
  (forall j l s, (j <= length bits)%nat -> read_bits rb j st = Ok (l, s) ->
                 crt s = crt st) ->
  row_fits bits out ->
  exists out',
    default_read_bits_into_bytes rb ie crt st out = Ok (Z.of_nat (length bits), out', st')
    /\ packed bits out out'.
Proof.
  intros Hrec Hcrt [Hroom Hsmall].
  destruct (default_read_total rb ie crt st out (record_bits_drains _ _ _ _ _ Hrec))
    as (n & out' & s & Hcall & _).
  destruct (default_read_bits_into_bytes_ok rb ie crt st out n out' s Hcall Hsmall)
    as (bits' & Hbits' & Hn & Hpacked).
  destruct (default_read_between rb ie crt st out n out' s Hcall Hsmall)
    as (_ & _ & _ & Hbetween).
  pose proof (record_bits_read _ _ _ _ _ Hrec) as Hall.
  pose proof (record_bits_final _ _ _ _ _ Hrec) as Hfinal.
  destruct (Nat.lt_trichotomy (length bits') (length bits)) as [Hlt|[Heq|Hgt]].
  - destruct (record_bits_prefix _ _ (length bits') _ _ _ _ _ Hrec ltac:(lia) Hbits')
      as [_ Hmid].
    destruct (default_read_stops rb ie crt st out n out' s Hsmall Hcall ltac:(lia))
      as [He|[_ Hchange]].
    + destruct (drop (length bits') bits) as [|bit l] eqn:Edrop.
      * apply (f_equal length) in Edrop. rewrite length_drop in Edrop. cbn in Edrop. lia.
      * inversion Hmid; subst. congruence.
    + now rewrite (Hcrt (length bits') bits' s ltac:(lia) Hbits') in Hchange.
  - destruct (record_bits_prefix _ _ (length bits') _ _ _ _ _ Hrec ltac:(lia) Hbits')
      as [Htake Hmid].
    rewrite Heq, take_ge in Htake by lia. subst bits'.
    rewrite drop_ge in Hmid by lia.
    assert (s = st') as -> by (inversion Hmid; reflexivity).
    exists out'. rewrite Hn in Hcall. auto.
  - destruct (Hbetween (length bits) bits st' ltac:(lia) Hall) as [He _]. congruence.
Qed.

End WholeRecordInside.

Module DetsFiles.
Import MeasureRecordReaderFormatDets.

Lemma width_sum m d l :
  0 <= m -> 0 <= d -> 0 <= l -> m + d + l < 2 ^ 64 -> width m d l = m + d + l.
Proof.
  intros Hm Hd Hl Hsum. unfold width.
  rewrite (wrap64_small (m + d)) by lia. apply wrap64_small. lia.
Qed.

(** With one section that is not empty, every position has its type. *)
Lemma one_section_type m d l p :
  one_section m d l -> 0 <= p -> result_type_at p m d l = result_type_at 0 m d l.
Proof.
  intros (Hm & Hd & Hl & Hsum & Hone) Hp. unfold result_type_at.
  rewrite (wrap64_small (m + d)) by lia.
  destruct Hone as [[-> ->]|[[-> ->]|[-> ->]]];
    repeat match goal with
           | |- context [?a <? ?b] => destruct (Z.ltb_spec a b)
           | |- context [?a =? 0] => destruct (Z.eqb_spec a 0)
           end; cbn [andb negb]; try reflexivity; lia.
Qed.

(** The buffer from a position on as the record of the reader. *)
Lemma dets_record_bits stream (w : nat) held m d l : forall (todo p : nat),
  length held = w -> (p + todo = w)%nat -> Z.of_nat w < 2 ^ 64 ->
  width m d l = Z.of_nat w ->
  record_bits read_bit (fun s => Ok (is_end_of_record s))
    (mk stream held (Z.of_nat p) m d l) (drop p held)
    (mk stream held (Z.of_nat w) m d l).
Proof.
  induction todo as [|todo IH]; intros p Hlen Hp H64 Hw.
  - rewrite Nat.add_0_r in Hp. subst p. rewrite drop_ge by lia.
    apply record_bits_end. unfold is_end_of_record.
    cbn [position_in_buffer m_bits_per_record d_bits_per_record l_bits_per_record].
    now rewrite Hw, Z.eqb_refl.
  - destruct (lookup_lt_is_Some_2 held p ltac:(lia)) as [bit Hbit].
    rewrite (drop_S _ _ _ Hbit).
    apply (record_bits_bit _ _ _ bit (mk stream held (Z.of_nat (S p)) m d l)).
    + unfold is_end_of_record.
      cbn [position_in_buffer m_bits_per_record d_bits_per_record l_bits_per_record].
      rewrite Hw. destruct (Z.eqb_spec (Z.of_nat p) (Z.of_nat w)); [lia | reflexivity].
    + unfold read_bit.
      cbn [position_in_buffer m_bits_per_record d_bits_per_record l_bits_per_record
           buffer inp].
      rewrite Hw. destruct (Z.geb_spec (Z.of_nat p) (Z.of_nat w)); [lia|].
      unfold buffer_get. rewrite Nat2Z.id, Hbit. cbn [default].
      rewrite wrap64_small by lia. now rewrite Nat2Z.inj_succ.
    + apply IH; [exact Hlen | lia | exact H64 | exact Hw].
Qed.

(** The bulk read that follows [start_record] takes the whole record. *)
Lemma dets_whole_record (st st0 : state) bits st1 row :
  dets_one_section st -> start_record st = Ok (true, st0) ->
  record_bits read_bit (fun s => Ok (is_end_of_record s)) st0 bits st1 ->
  row_fits bits row ->
  dets_one_section st1
  /\ exists row',
       read_bits_into_bytes st0 row = Ok (Z.of_nat (length bits), row', st1)
       /\ packed bits row row'.
Proof.
  intros Hone Hstart Hrec Hrow.
  destruct (DetsRecords.dets_start_record_fields st st0 Hstart) as (Hp0 & Hm0 & Hd0 & Hl0).
  assert (Hfields : forall j bits_j s,
    read_bits read_bit j st0 = Ok (bits_j, s) ->
    position_in_buffer s = Z.of_nat j
    /\ m_bits_per_record s = m_bits_per_record st
    /\ d_bits_per_record s = d_bits_per_record st
    /\ l_bits_per_record s = l_bits_per_record st).
  { intros j bits_j s Hj.
    destruct (DetsSections.dets_read_bits_position j st0 bits_j s Hj ltac:(lia))
      as (Hp & Hm & Hd & Hl).
    rewrite Hp, Hm, Hd, Hl, Hp0, Hm0, Hd0, Hl0. auto. }
  split.
  - destruct (Hfields _ _ _ (record_bits_read _ _ _ _ _ Hrec)) as (_ & Hm & Hd & Hl).
    unfold dets_one_section. now rewrite Hm, Hd, Hl.
  - unfold read_bits_into_bytes.
    apply (default_read_whole_record_inside _ _ current_result_type _ _ _ _ Hrec);
      [|exact Hrow].
    intros j bits_j s _ Hj. destruct (Hfields j bits_j s Hj) as (Hp & Hm & Hd & Hl).
    unfold current_result_type. rewrite Hp, Hm, Hd, Hl, Hp0, Hm0, Hd0, Hl0.
    apply one_section_type; [exact Hone | lia].
Qed.

(** The lines of a text as the records of the reader. *)
Lemma dets_stream_records m d l lines : forall rest st,
  0 <= m -> 0 <= d -> 0 <= l -> m + d + l < 2 ^ 64 ->
  m_bits_per_record st = m -> d_bits_per_record st = d -> l_bits_per_record st = l ->
  length (buffer st) = Z.to_nat (m + d + l) ->
  inp st = dets_text lines ++ rest ->
  Forall (fun line => Forall (dets_token_ok m d l) line.1) lines ->
  exists st_k,
    stream_records st ((fun line => dets_record m d l line.1) <$> lines) st_k
    /\ inp st_k = rest
    /\ m_bits_per_record st_k = m /\ d_bits_per_record st_k = d
    /\ l_bits_per_record st_k = l.
Proof.
  induction lines as [|[tokens trailing] lines IH];
    intros rest st Hm Hd Hl Hsum Em Ed El Hbuf Hinp Hok.
  - exists st. split; [constructor|]. auto.
  - apply Forall_cons in Hok as [Hok Hoks]. cbn [fst] in Hok.
    change (dets_text ((tokens, trailing) :: lines))
      with (dets_line tokens trailing ++ dets_text lines) in Hinp.
    rewrite <- app_assoc in Hinp.
    pose proof (DetsLine.dets_start_record_line st tokens trailing
                  (dets_text lines ++ rest)) as Hstart.
    cbv zeta in Hstart. rewrite Em, Ed, El in Hstart.
    specialize (Hstart Hm Hd Hl Hsum Hinp Hok).
    assert (Hclear : buffer_clear (buffer st) = buffer_new (m + d + l))
      by (unfold buffer_clear, buffer_new; now rewrite Hbuf).
    rewrite Hclear in Hstart. fold (dets_record m d l tokens) in Hstart.
    assert (Hlen : length (dets_record m d l tokens) = Z.to_nat (m + d + l)).
    { unfold dets_record. rewrite HitsFiles.length_toggles. unfold buffer_new.
      now rewrite length_replicate. }
    pose proof (dets_record_bits (dets_text lines ++ rest) (Z.to_nat (m + d + l))
                  (dets_record m d l tokens) m d l (Z.to_nat (m + d + l)) 0 Hlen
                  ltac:(lia) ltac:(lia)
                  ltac:(rewrite width_sum by lia; lia)) as Hrec.
    rewrite drop_0 in Hrec. change (Z.of_nat 0) with 0 in Hrec.
    destruct (IH rest (mk (dets_text lines ++ rest) (dets_record m d l tokens)
                          (Z.of_nat (Z.to_nat (m + d + l))) m d l)
                Hm Hd Hl Hsum eq_refl eq_refl eq_refl Hlen eq_refl Hoks)
      as (st_k & Hstream & Hrest_k).
    exists st_k. split; [|exact Hrest_k]. cbn [fmap list_fmap fst].
    eapply stream_records_cons; [exact Hstart | exact Hrec | exact Hstream].
Qed.

End DetsFiles.

(** X26. [read_records_into] reads a text of the DETS format whose records
    have bits of one result type (at most one of the three sizes is not
    zero): when the stream holds a line "shot", tokens, newline for each
    record, every token a prefix of the section and a numeral below its
    size behind one or more spaces, it fills a row with each of the first
    records, as many as [max_shots] and the rows allow, and leaves the
    stream behind their lines; when the text ends before that, it returns
    the number of its lines. The record of a line is the row of zero bits
    with the bit of each token toggled, packed eight bits to a byte from
    the lowest bit. *)
Theorem dets_read_records_into_reads_one_section
    (lines : list (list dets_token * nat)) (rest : list byte) (m d l : Z)
    (rows : list (list Z)) (max_shots : Z) :
  one_section m d l ->
  Forall (fun line => Forall (dets_token_ok m d l) line.1) lines ->
  Forall2 row_fits ((fun line => dets_record m d l line.1) <$> lines)
          (take (length lines) rows) ->
  Z.of_nat (length rows) < 2 ^ 64 ->
  Z.of_nat (length lines) <= max_shots ->
  exists rows',
    packed_rows ((fun line => dets_record m d l line.1) <$> lines) rows rows'
    /\ (Z.of_nat (length lines) = Z.min max_shots (Z.of_nat (length rows)) ->
        exists st',
          read_records_into rows max_shots
            (MeasureRecordReaderFormatDets.make (dets_text lines ++ rest) m d l)
          = Ok (Z.of_nat (length lines), rows', st')
          /\ MeasureRecordReaderFormatDets.inp st' = rest)
    /\ (Z.of_nat (length lines) < Z.min max_shots (Z.of_nat (length rows)) ->
        rest = [] ->
        exists st',
          read_records_into rows max_shots
            (MeasureRecordReaderFormatDets.make (dets_text lines ++ rest) m d l)
          = Ok (Z.of_nat (length lines), rows', st')
          /\ MeasureRecordReaderFormatDets.inp st' = []).
Proof.
  intros Hone Hok Hfit Hrows Hmax.
  pose proof Hone as (Hm & Hd & Hl & Hsum & _).
  destruct (DetsFiles.dets_stream_records m d l lines rest
              (MeasureRecordReaderFormatDets.make (dets_text lines ++ rest) m d l)
              Hm Hd Hl Hsum eq_refl eq_refl eq_refl)
    as (st_k & Hstream & Hrest & Em & Ed & El); [|reflexivity|exact Hok|].
  { cbn [MeasureRecordReaderFormatDets.make MeasureRecordReaderFormatDets.buffer].
    unfold buffer_new. rewrite length_replicate.
    now rewrite DetsFiles.width_sum by assumption. }
  rewrite <- (length_fmap (fun line => dets_record m d l line.1)) in Hfit, Hmax |- *.
  destruct (@read_records_into_fills _ MeasureRecordReaderFormatDets.reader
              packed dets_one_section DetsFiles.dets_whole_record
              ((fun line => dets_record m d l line.1) <$> lines) rows max_shots
              (MeasureRecordReaderFormatDets.make (dets_text lines ++ rest) m d l)
              st_k Hone Hstream Hfit Hrows Hmax)
    as (rows' & Hfilled & Hfull & Hshort).
  exists rows'. split; [now apply filled_rows_packed|]. split.
  - intros Hk. exists st_k. split; [now apply Hfull | exact Hrest].
  - intros Hk ->.
    exists (MeasureRecordReaderFormatDets.mk
              [] (MeasureRecordReaderFormatDets.buffer st_k)
              (MeasureRecordReaderFormatDets.position_in_buffer st_k) m d l).
    split; [|reflexivity]. apply Hshort; [exact Hk|].
    change (MeasureRecordReaderFormatDets.start_record st_k
            = Ok (false, MeasureRecordReaderFormatDets.mk
                           [] (MeasureRecordReaderFormatDets.buffer st_k)
                           (MeasureRecordReaderFormatDets.position_in_buffer st_k)
                           m d l)).
    unfold MeasureRecordReaderFormatDets.start_record. now rewrite Hrest, Em, Ed, El.
Qed.

(** The text "shot D0 D2\nshot\nshot  D1 \n" of a reader with three
    detectors, read into a table of three rows of one byte. *)
Lemma dets_read_records_into_reads_one_section_witness :
  exists st',
    read_records_into [[255]; [255]; [255]] 3
      (MeasureRecordReaderFormatDets.make
         (dets_text [([mk_token 0 SecD [x30]; mk_token 0 SecD [x32]], 0%nat);
                     ([], 0%nat);
                     ([mk_token 1 SecD [x31]], 1%nat)] ++ []) 0 3 0)
    = Ok (3, [[5]; [0]; [2]], st').
Proof.
  destruct (dets_read_records_into_reads_one_section
              [([mk_token 0 SecD [x30]; mk_token 0 SecD [x32]], 0%nat);
               ([], 0%nat);
               ([mk_token 1 SecD [x31]], 1%nat)] [] 0 3 0
              [[255]; [255]; [255]] 3)
    as (rows' & Hpacked & Hfull & _).
  - unfold one_section. lia.
  - repeat (apply Forall_cons; split); try apply Forall_nil; try exact I;
      (split; [split; [discriminate | repeat constructor] | vm_compute; reflexivity]).
  - repeat constructor; unfold small_range; vm_compute;
      solve [reflexivity | intros Hgt; discriminate Hgt].
  - cbn. lia.
  - cbn. lia.
  - destruct Hfull as (st' & Hrun & _); [reflexivity|].
    exists st'. pose proof Hrun as Hrows. vm_compute in Hrows.
    injection Hrows as Hrows _. rewrite Hrows. exact Hrun.
Defined.

(** ** B8: a stream cut inside a record *)

Module B8Cut.
Import MeasureRecordReaderFormatB8.

Lemma bytes_for_whole k : bytes_for (8 * k) = k.
Proof.
  unfold bytes_for. replace (8 * k + 7)%nat with (7 + k * 8)%nat by lia.
  rewrite Nat.div_add by lia. reflexivity.
Qed.

(** Bits that [read_bit] gives before the end of the record are inside. *)
Lemma b8_steps_inside j : forall st bits s,
  b8_inv st -> read_bits read_bit j st = Ok (bits, s) ->
  position st + Z.of_nat j < bits_per_record st ->
  steps_inside read_bit (fun s => Ok (is_end_of_record s)) default_current_result_type
               ch_M st j s.
Proof.
  induction j as [|j IH]; intros st bits s Hinv H Hj; cbn [read_bits] in H.
  - injection H as _ <-. apply steps_inside_here; [|reflexivity].
    unfold is_end_of_record.
    destruct (Z.geb_spec (position st) (bits_per_record st)); [lia | reflexivity].
  - destruct (read_bit st) as [[bit st1]|] eqn:E; cbn [mbind result_bind] in H;
      [|discriminate].
    destruct (read_bits read_bit j st1) as [[l s1]|] eqn:Ej;
      cbn [mbind result_bind] in H; [|discriminate].
    injection H as _ <-.
    destruct (B8Skip.b8_read_bit_position st bit st1 Hinv E) as (Hp & Hm & Hlt & Hinv1).
    apply (steps_inside_step _ _ _ _ st bit st1); [|reflexivity|exact E|].
    + unfold is_end_of_record.
      destruct (Z.geb_spec (position st) (bits_per_record st)); [lia | reflexivity].
    + apply (IH st1 l s1 Hinv1 Ej). lia.
Qed.

(** The bytes of a record that the stream ends in, bit by bit. *)
Lemma b8_read_cut_record (m : Z) (b0 : byte) (tail : list byte) (st : state) :
  bits_per_record st = m -> inp st = b0 :: tail ->
  8 * Z.of_nat (length (b0 :: tail)) < m -> m < 2 ^ 64 ->
  exists st1,
    read_bits read_bit (8 * length (b0 :: tail))
              (mk tail m (byte_val b0) 8 0)
    = Ok (bytes_to_bits (byte_val <$> b0 :: tail), st1)
    /\ read_bit st1 = Throw PastEndOfFile.
Proof.
  intros Hm Hinp Hcut H64.
  destruct (B8Bulk.read_stream (b0 :: tail) (8 * length (b0 :: tail))
              (mk (b0 :: tail) m 0 0 0))
    as (st1 & Hbits & Hrest & Hpos & Hm1 & Havail);
    cbn [bits_available inp bits_per_record position];
    try (reflexivity || lia).
  { now rewrite bytes_for_whole. }
  exists st1.
  cbn [bits_available inp bits_per_record position] in Hrest, Hpos, Hm1.
  split.
  - cbn [length] in Hbits |- *.
    replace (8 * S (length tail))%nat with (S (7 + 8 * length tail)) in Hbits |- * by lia.
    cbn [read_bits] in Hbits |- *.
    rewrite (B8Bulk.read_bit_loads _ b0 tail) in Hbits by reflexivity.
    cbn [bits_per_record position] in Hbits. rewrite Hbits. do 2 f_equal.
    apply take_ge. rewrite length_bytes_to_bits, length_fmap. cbn [length]. lia.
  - apply MidRecord.b8_read_bit_at_eof.
    + exact (Havail (length (b0 :: tail)) eq_refl).
    + rewrite Hrest, bytes_for_whole. apply drop_all.
    + rewrite Hpos, Hm1. lia.
Qed.

End B8Cut.

(** X27. [read_records_into] refuses a B8 stream that ends inside a record.
    When the stream holds one or more bytes of a record and ends before the
    m bits of the record are complete, [start_record] answers true, and
    both the bulk read that follows it, into a row that has room for more
    than these bytes, and [read_records_into] throw "attempt to read past
    end-of-file": the table is not handed back with a record cut short. *)
Theorem b8_read_records_into_refuses_a_cut_record
    (m : Z) (bytes : list byte) (st : MeasureRecordReaderFormatB8.state) :
  MeasureRecordReaderFormatB8.bits_per_record st = m ->
  MeasureRecordReaderFormatB8.inp st = bytes ->
  bytes <> [] -> 8 * Z.of_nat (length bytes) < m -> m < 2 ^ 64 ->
  exists st0,
    MeasureRecordReaderFormatB8.start_record st = Ok (true, st0)
    /\ (forall row,
          (length bytes < length row)%nat ->
          MeasureRecordReaderFormatB8.read_bits_into_bytes st0 row = Throw PastEndOfFile)
    /\ (forall row rows max_shots,
          (length bytes < length row)%nat -> 0 < max_shots ->
          read_records_into (row :: rows) max_shots st = Throw PastEndOfFile).
Proof.
  intros Hm Hinp Hne Hcut H64.
  destruct bytes as [|b0 tail]; [congruence|].
  pose proof (b8_start_record_byte st b0 tail Hinp) as Hstart. rewrite Hm in Hstart.
  destruct (B8Cut.b8_read_cut_record m b0 tail st Hm Hinp Hcut H64)
    as (st1 & Hbits & Hthrow).
  assert (Hinside :
    steps_inside MeasureRecordReaderFormatB8.read_bit
      (fun s => Ok (MeasureRecordReaderFormatB8.is_end_of_record s))
      default_current_result_type ch_M
      (MeasureRecordReaderFormatB8.mk tail m (byte_val b0) 8 0)
      (8 * length (b0 :: tail)) st1).
  { assert (Hinv : b8_inv (MeasureRecordReaderFormatB8.mk tail m (byte_val b0) 8 0))
      by (split; cbn; lia).
    apply (B8Cut.b8_steps_inside _ _ _ _ Hinv Hbits).
    cbn [MeasureRecordReaderFormatB8.position
         MeasureRecordReaderFormatB8.bits_per_record]. lia. }
  assert (Hbulk : forall row,
    (length (b0 :: tail) < length row)%nat ->
    MeasureRecordReaderFormatB8.read_bits_into_bytes
      (MeasureRecordReaderFormatB8.mk tail m (byte_val b0) 8 0) row
    = Throw PastEndOfFile).
  { intros row Hrow. unfold MeasureRecordReaderFormatB8.read_bits_into_bytes.
    cbn [MeasureRecordReaderFormatB8.position
         MeasureRecordReaderFormatB8.bits_per_record
         MeasureRecordReaderFormatB8.bits_available].
    destruct (Z.geb_spec 0 m); [cbn [length] in Hcut; lia|].
    cbn [Z.gtb Z.compare].
    apply (default_read_throws _ _ _ _ row _ _ _ Hinside Hthrow). lia. }
  eexists. split; [exact Hstart|]. split; [exact Hbulk|].
  intros row rows max_shots Hrow Hmax. unfold read_records_into.
  cbn [read_records_loop length].
  destruct (Z.ltb_spec 0 (Z.min max_shots (Z.of_nat (S (length rows))))); [|lia].
  cbn [negb].
  change (start_record st) with (MeasureRecordReaderFormatB8.start_record st).
  rewrite Hstart. cbn [mbind result_bind negb].
  change (read_bits_into_bytes ?s row)
    with (MeasureRecordReaderFormatB8.read_bits_into_bytes s row).
  now rewrite Hbulk.
Qed.

(** Records of sixteen bits and the stream 2A: one byte of the two. *)
Lemma b8_read_records_into_refuses_a_cut_record_witness :
  read_records_into [[0; 0]; [0; 0]] 2
    (MeasureRecordReaderFormatB8.make Scenarios.b8_half_record 16)
  = Throw PastEndOfFile.
Proof.
  destruct (b8_read_records_into_refuses_a_cut_record 16 Scenarios.b8_half_record
              (MeasureRecordReaderFormatB8.make Scenarios.b8_half_record 16))
    as (st0 & _ & _ & Hrecords);
    [reflexivity | reflexivity | discriminate | cbn; lia | lia |].
  apply Hrecords; [cbn; lia | lia].
Defined.

(** * The bulk reads, call by call *)

(** ** The default bulk read: how many bits a call takes *)

Section DefaultCount.
Context {T : Type}.
Variable rb : T -> result (bool * T).
Variable ie : T -> result bool.
Variable crt : T -> Z.

(** Inside a record of which [k] bits are left in the section of the
    state, a bulk read takes the bits that its range has room for, and not
    more than these [k]. *)
Lemma default_read_count st bits st_end out (k : nat) :
  record_bits rb ie st bits st_end -> small_range out ->
  (k <= length bits)%nat ->
  (forall j l s, (1 <= j < k)%nat -> read_bits rb j st = Ok (l, s) -> crt s = crt st) ->
  (k = length bits \/ exists l s, read_bits rb k st = Ok (l, s) /\ crt s <> crt st) ->
  exists out' s,
    default_read_bits_into_bytes rb ie crt st out
    = Ok (Z.of_nat (Nat.min (8 * length out) k), out', s)
    /\ read_bits rb (Nat.min (8 * length out) k) st
       = Ok (take (Nat.min (8 * length out) k) bits, s)
    /\ packed (take (Nat.min (8 * length out) k) bits) out out'
    /\ record_bits rb ie s (drop (Nat.min (8 * length out) k) bits) st_end.
Proof.
  intros Hrec Hsmall Hk Hin Hend.
  destruct (default_read_total rb ie crt st out (record_bits_drains _ _ _ _ _ Hrec))
    as (n0 & out' & s & Hcall & _).
  destruct (default_read_bits_into_bytes_ok rb ie crt st out n0 out' s Hcall Hsmall)
    as (bits' & Hbits' & Hn & Hpacked).
  destruct (default_read_between rb ie crt st out n0 out' s Hcall Hsmall)
    as (_ & _ & _ & Hbetween).
  rewrite Hn, Nat2Z.id in Hbetween.
  pose proof (packed_bits_bound _ _ _ Hpacked) as Hbound.
  pose proof (record_bits_read _ _ _ _ _ Hrec) as Hall.
  pose proof (record_bits_final _ _ _ _ _ Hrec) as Hfinal.
  assert (Hle : (length bits' <= length bits)%nat).
  { destruct (Nat.le_gt_cases (length bits') (length bits)) as [|Hgt]; [assumption|].
    destruct (Hbetween (length bits) bits st_end Hgt Hall) as [He _]. congruence. }
  destruct (record_bits_prefix _ _ (length bits') _ _ _ _ _ Hrec Hle Hbits')
    as [Htake Hmid].
  assert (Hinside : (length bits' < length bits)%nat -> ie s = Ok false).
  { intros Hlt. destruct (drop (length bits') bits) as [|bit l] eqn:Edrop.
    - apply (f_equal length) in Edrop. rewrite length_drop in Edrop. cbn in Edrop. lia.
    - now inversion Hmid; subst. }
  assert (Hlek : (length bits' <= k)%nat).
  { destruct (Nat.le_gt_cases (length bits') k) as [|Hgt]; [assumption|].
    destruct Hend as [->|(l & s0 & Hs0 & Hchange)]; [lia|].
    destruct (Hbetween k l s0 Hgt Hs0) as [_ Hsame]. contradiction. }
  assert (Hcount : length bits' = Nat.min (8 * length out) k).
  { destruct (Nat.eq_dec (length bits') (8 * length out)%nat) as [|Hne]; [lia|].
    destruct (default_read_stops rb ie crt st out n0 out' s Hsmall Hcall ltac:(lia))
      as [He|[_ Hchange]].
    - destruct (Nat.lt_ge_cases (length bits') (length bits)) as [Hlt|]; [|lia].
      rewrite (Hinside Hlt) in He. discriminate.
    - destruct (Nat.lt_ge_cases (length bits') k) as [Hlt|]; [|lia].
      destruct (length bits') as [|j] eqn:Ej.
      + cbn [read_bits] in Hbits'. injection Hbits' as _ <-. contradiction.
      + rewrite (Hin (S j) bits' s ltac:(lia) Hbits') in Hchange. contradiction. }
  exists out', s. rewrite <- Hcount, <- Hn, <- Htake. auto.
Qed.

(** With one result type the section is the record. *)
Lemma default_read_count_one_type st bits st_end out :
  (forall s s', crt s = crt s') ->
  record_bits rb ie st bits st_end -> small_range out ->
  exists out' s,
    default_read_bits_into_bytes rb ie crt st out
    = Ok (Z.of_nat (Nat.min (8 * length out) (length bits)), out', s)
    /\ read_bits rb (Nat.min (8 * length out) (length bits)) st
       = Ok (take (Nat.min (8 * length out) (length bits)) bits, s)
    /\ packed (take (Nat.min (8 * length out) (length bits)) bits) out out'
    /\ record_bits rb ie s (drop (Nat.min (8 * length out) (length bits)) bits) st_end.
Proof.
  intros Hcrt Hrec Hsmall.
  apply (default_read_count st bits st_end out (length bits) Hrec Hsmall);
    [lia | intros; apply Hcrt | now left].
Qed.

End DefaultCount.

(** ** A sequence of bulk reads: how many bits it takes *)

Lemma rooms_cons out outs : rooms (out :: outs) = (length out + rooms outs)%nat.
Proof. reflexivity. Qed.

Section CallsCount.
Context {T : Type}.
Variable rb : T -> result (bool * T).
Variable ie : T -> result bool.
Variable rbib : T -> list Z -> result (Z * list Z * T).
Variable Inv : T -> Prop.
Hypothesis one_call :
  forall st bits st_end out,
    Inv st -> record_bits rb ie st bits st_end -> small_range out ->
    exists out' s e,
      rbib st out = Ok (Z.of_nat (Nat.min (8 * length out) (length bits)), out', s)
      /\ take (Nat.min (8 * length out) (length bits)) (bytes_to_bits out')
         = take (Nat.min (8 * length out) (length bits)) bits
      /\ Inv s
      /\ record_bits rb ie s (drop (Nat.min (8 * length out) (length bits)) bits) e.

(** The calls take the bits of the record in order, as many as the ranges
    have room for, and leave what is left of the record to be read. *)
Lemma calls_count outs : forall st bits st_end,
  Inv st -> record_bits rb ie st bits st_end -> Forall small_range outs ->
  exists s e,
    read_bits_in_calls rbib outs st
    = Ok (take (Nat.min (length bits) (8 * rooms outs)) bits, s)
    /\ Inv s
    /\ record_bits rb ie s (drop (Nat.min (length bits) (8 * rooms outs)) bits) e.
Proof.
  induction outs as [|out outs IH]; intros st bits st_end Hinv Hrec Hsmall.
  - exists st, st_end. change (rooms []) with 0%nat. cbn [read_bits_in_calls].
    rewrite Nat.mul_0_r, Nat.min_0_r, take_0, drop_0. auto.
  - apply Forall_cons in Hsmall as [Hout Houts].
    destruct (one_call st bits st_end out Hinv Hrec Hout)
      as (out' & s1 & e1 & Hcall & Hbits & Hinv1 & Hrec1).
    destruct (IH s1 _ e1 Hinv1 Hrec1 Houts) as (s & e & Hcalls & Hinv' & Hrec').
    exists s, e. cbn [read_bits_in_calls]. rewrite Hcall. cbn [mbind result_bind].
    rewrite Hcalls. cbn [mbind result_bind]. rewrite Nat2Z.id, Hbits.
    rewrite length_drop in Hcalls, Hrec' |- *.
    rewrite take_take_drop. rewrite drop_drop in Hrec'.
    assert (Hsum : (Nat.min (8 * length out) (length bits)
                    + Nat.min (length bits - Nat.min (8 * length out) (length bits))
                              (8 * rooms outs))%nat
                   = Nat.min (length bits) (8 * rooms (out :: outs))).
    { rewrite rooms_cons. lia. }
    rewrite Hsum in *. auto.
Qed.

End CallsCount.

(** ** R8: how many bits a call takes *)

Module R8Count.
Import MeasureRecordReaderFormatR8 R8Facts.

Lemma r8_read_count st bits st_end out :
  r8_inv st ->
  record_bits read_bit (fun s => Ok (is_end_of_record s)) st bits st_end ->
  small_range out ->
  exists out' s,
    read_bits_into_bytes st out
    = Ok (Z.of_nat (Nat.min (8 * length out) (length bits)), out', s)
    /\ read_bits read_bit (Nat.min (8 * length out) (length bits)) st
       = Ok (take (Nat.min (8 * length out) (length bits)) bits, s)
    /\ take (Nat.min (8 * length out) (length bits)) (bytes_to_bits out')
       = take (Nat.min (8 * length out) (length bits)) bits
    /\ r8_inv s
    /\ record_bits read_bit (fun s => Ok (is_end_of_record s)) s
         (drop (Nat.min (8 * length out) (length bits)) bits) st_end.
Proof.
  intros Hinv Hrec Hsmall.
  pose proof (record_bits_read _ _ _ _ _ Hrec) as Hall.
  pose proof (record_bits_final _ _ _ _ _ Hrec) as Hfinal.
  pose proof (R8Bulk.read_bits_inv _ _ _ _ Hinv Hall) as Hinv_end.
  destruct (R8Drains.bytes_loop_total out 0 st Hinv (record_bits_drains _ _ _ _ _ Hrec))
    as (n0 & out' & s & Hcall & Hinv' & _).
  destruct (R8Shape.bytes_loop_shape out 0 st n0 out' s Hinv Hcall)
    as (bits' & Hbits' & Hn & Hshape); [lia | unfold small_range in Hsmall; lia |].
  rewrite Z.add_0_l in Hn.
  destruct (R8Bulk.r8_one_call st out n0 out' s Hinv Hsmall Hcall) as [_ Hout].
  rewrite Hn, Nat2Z.id, Hbits' in Hout. injection Hout as Hout.
  assert (Hle : (length bits' <= length bits)%nat).
  { destruct (Nat.le_gt_cases (length bits') (length bits)) as [|Hgt]; [assumption|].
    replace (length bits') with (length bits + S (length bits' - length bits - 1))%nat
      in Hbits' by lia.
    apply read_bits_split in Hbits' as (l1 & s1 & l2 & H1 & H2 & _).
    rewrite Hall in H1. injection H1 as <- <-.
    cbn [read_bits] in H2.
    destruct (read_bit st_end) as [[bit s2]|] eqn:E; cbn [mbind result_bind] in H2;
      [|discriminate].
    destruct (R8Files.r8_read_bit_inside st_end bit s2 Hinv_end E) as [Hnot _].
    congruence. }
  destruct (record_bits_prefix _ _ (length bits') _ _ _ _ _ Hrec Hle Hbits')
    as [Htake Hmid].
  assert (Hcount : length bits' = Nat.min (8 * length out) (length bits)).
  { destruct Hshape as [[Hfull _]|(Hshort & Hend & _)]; [lia|].
    destruct (drop (length bits') bits) as [|bit l] eqn:Edrop.
    - apply (f_equal length) in Edrop. rewrite length_drop in Edrop. cbn in Edrop. lia.
    - inversion Hmid; subst. congruence. }
  exists out', s. rewrite <- Hcount, <- Hn, <- Hout, <- Htake. auto.
Qed.

End R8Count.

(** ** B8: how many bits a call takes *)

Module B8Count.
Import MeasureRecordReaderFormatB8.

(** A call takes no more bits than its range has room for, and when it
    takes fewer the record has ended, or the stream has. *)
Lemma b8_call_bounds st out n out' st' :
  b8_inv st -> small_range out ->
  read_bits_into_bytes st out = Ok (n, out', st') ->
  0 <= n <= 8 * Z.of_nat (length out)
  /\ (n < 8 * Z.of_nat (length out) ->
      is_end_of_record st' = true \/ read_bit st' = Throw PastEndOfFile).
Proof.
  intros [Hpos Hm] Hsmall H. unfold read_bits_into_bytes in H.
  destruct (Z.geb_spec (position st) (bits_per_record st)) as [Hge|Hlt].
  - injection H as <- <- <-. split; [lia|]. intros _. left.
    unfold is_end_of_record. destruct (Z.geb_spec (position st) (bits_per_record st));
      [reflexivity | lia].
  - destruct (bits_available st >? 0) eqn:Ha.
    + destruct (default_read_bits_into_bytes_ok _ _ _ _ _ _ _ _ H Hsmall)
        as (bits' & _ & -> & Hpacked).
      pose proof (packed_bits_bound _ _ _ Hpacked). split; [lia|].
      intros Hshort. left.
      destruct (default_read_stops _ _ _ _ _ _ _ _ Hsmall H Hshort) as [He|[_ Hne]];
        [now injection He | now contradiction Hne].
    + unfold small_range in Hsmall. cbv zeta in H.
      rewrite (wrap64_small (8 * _)), (wrap64_small (bits_per_record st - position st))
        in H by lia.
      set (n_bits := Z.min (8 * Z.of_nat (length out)) (bits_per_record st - position st))
        in *.
      assert (Hnb : 0 <= n_bits <= bits_per_record st - position st
                    /\ n_bits <= 8 * Z.of_nat (length out)) by lia.
      rewrite (wrap64_small (n_bits + 7)) in H by lia.
      unfold fread in H. rewrite B8Calls.bytes_for_Z in H by lia.
      set (nb := Z.to_nat n_bits) in *. set (k := bytes_for nb) in *.
      pose proof (B8Calls.bytes_for_bound nb) as Hk. fold k in Hk.
      rewrite length_take in H.
      assert (Hlen_small : Z.of_nat (Nat.min k (length (inp st)))
                           <= Z.of_nat (length out)) by lia.
      rewrite (wrap64_small (8 * _)) in H by lia.
      injection H as <- <- <-.
      set (n := Z.min (8 * Z.of_nat (Nat.min k (length (inp st)))) n_bits).
      assert (Hn : 0 <= n <= n_bits) by lia.
      rewrite (wrap64_small (position st + n)) by lia.
      split; [lia|]. intros Hshort.
      destruct (Z.eq_dec n n_bits) as [Hfull|Hcut].
      * left. unfold is_end_of_record. cbn [position bits_per_record].
        destruct (Z.geb_spec (position st + n) (bits_per_record st)); [reflexivity | lia].
      * right. apply MidRecord.b8_read_bit_at_eof; cbn [bits_available inp position
                                                           bits_per_record].
        -- exact Ha.
        -- apply drop_ge. lia.
        -- lia.
Qed.

(** The record from a state, and from a state that no call tells apart
    from it. *)
Lemma b8_record_bits_equiv s s'' bits e :
  b8_equiv s s'' ->
  record_bits read_bit (fun s => Ok (is_end_of_record s)) s'' bits e ->
  exists e', record_bits read_bit (fun s => Ok (is_end_of_record s)) s bits e'.
Proof.
  intros Heq Hrec.
  assert (Hend : is_end_of_record s = is_end_of_record s'').
  { destruct Heq as (_ & Hm & Hpos & _). unfold is_end_of_record. now rewrite Hm, Hpos. }
  destruct Hrec as [s'' He|s'' bit s1 bits e He Hrb Hrest].
  - exists s. apply record_bits_end. now rewrite Hend.
  - exists e. apply (record_bits_bit _ _ s bit s1); [now rewrite Hend | | exact Hrest].
    now rewrite (B8Calls.read_bit_equiv s s'' Heq).
Qed.

Lemma b8_read_count st bits st_end out :
  b8_inv st ->
  record_bits read_bit (fun s => Ok (is_end_of_record s)) st bits st_end ->
  small_range out ->
  exists out' s e,
    read_bits_into_bytes st out
    = Ok (Z.of_nat (Nat.min (8 * length out) (length bits)), out', s)
    /\ take (Nat.min (8 * length out) (length bits)) (bytes_to_bits out')
       = take (Nat.min (8 * length out) (length bits)) bits
    /\ b8_inv s
    /\ record_bits read_bit (fun s => Ok (is_end_of_record s)) s
         (drop (Nat.min (8 * length out) (length bits)) bits) e.
Proof.
  intros Hinv Hrec Hsmall.
  pose proof (record_bits_read _ _ _ _ _ Hrec) as Hall.
  pose proof (record_bits_final _ _ _ _ _ Hrec) as Hfinal.
  destruct (B8Drains.read_total st out
              (conj Hinv (record_bits_drains _ _ _ _ _ Hrec)) Hsmall)
    as (n0 & out' & s & Hcall & Hinv' & _).
  destruct (B8Calls.b8_one_call st out n0 out' s Hinv Hsmall Hcall)
    as (_ & s'' & Hbits & Heq).
  destruct (b8_call_bounds st out n0 out' s Hinv Hsmall Hcall) as [Hn0 Hstops].
  set (bits' := take (Z.to_nat n0) (bytes_to_bits out')) in *.
  pose proof (read_bits_length _ _ _ _ _ Hbits) as Hlen.
  rewrite <- Hlen in Hbits.
  assert (Hle : (length bits' <= length bits)%nat).
  { destruct (Nat.le_gt_cases (length bits') (length bits)) as [|Hgt]; [assumption|].
    replace (length bits') with (length bits + S (length bits' - length bits - 1))%nat
      in Hbits by lia.
    apply read_bits_split in Hbits as (l1 & s1 & l2 & H1 & H2 & _).
    rewrite Hall in H1. injection H1 as <- <-.
    cbn [read_bits] in H2.
    destruct (read_bit st_end) as [[bit s2]|] eqn:E; cbn [mbind result_bind] in H2;
      [|discriminate].
    destruct (B8Files.b8_read_bit_inside st_end bit s2 E) as [Hnot _].
    injection Hfinal as Hfinal. congruence. }
  destruct (record_bits_prefix _ _ (length bits') _ _ _ _ _ Hrec Hle Hbits)
    as [Htake Hmid].
  assert (Hcount : length bits' = Nat.min (8 * length out) (length bits)).
  { destruct (Nat.eq_dec (length bits') (8 * length out)%nat) as [|Hne]; [lia|].
    destruct (drop (length bits') bits) as [|bit l] eqn:Edrop.
    - apply (f_equal length) in Edrop. rewrite length_drop in Edrop. cbn in Edrop. lia.
    - exfalso. inversion Hmid as [|? ? s1 ? ? He Hrb _]; subst.
      destruct Hstops as [Hend|Hthrow]; [lia| |].
      + destruct Heq as (_ & Hm & Hpos & _). unfold is_end_of_record in Hend, He.
        rewrite Hm, Hpos in Hend. rewrite Hend in He. discriminate.
      + rewrite (B8Calls.read_bit_equiv s s'' Heq) in Hthrow. congruence. }
  destruct (b8_record_bits_equiv s s'' _ _ Heq Hmid) as [e Hrec'].
  exists out', s, e. rewrite <- Hcount.
  replace (Z.of_nat (length bits')) with n0 by lia.
  rewrite <- Htake. split; [exact Hcall|]. split; [|split; [exact Hinv' | exact Hrec']].
  rewrite Hlen. reflexivity.
Qed.

End B8Count.

(** ** DETS: how many bits a call takes *)

Module DetsCount.
Import MeasureRecordReaderFormatDets.

Lemma section_end_bounds m d l p :
  0 <= m -> 0 <= d -> 0 <= l -> 0 <= p <= m + d + l ->
  p <= dets_section_end m d l p <= m + d + l
  /\ (p < m + d + l -> p < dets_section_end m d l p).
Proof.
  intros Hm Hd Hl Hp. unfold dets_section_end.
  destruct (Z.ltb_spec p m), (Z.ltb_spec p (m + d)); lia.
Qed.

(** The positions of a section have its result type, and the position
    behind it has another one, unless the record ends there. *)
Lemma type_in_section m d l p q :
  0 <= m -> 0 <= d -> 0 <= l -> m + d + l < 2 ^ 64 ->
  0 <= p <= q -> q < dets_section_end m d l p ->
  result_type_at q m d l = result_type_at p m d l.
Proof.
  intros Hm Hd Hl Hsum Hp Hq. unfold result_type_at, dets_section_end in *.
  rewrite (wrap64_small (m + d)) by lia.
  destruct (Z.ltb_spec p m), (Z.ltb_spec p (m + d)), (Z.ltb_spec q m),
    (Z.ltb_spec q (m + d)), (Z.eqb_spec m 0), (Z.eqb_spec d 0), (Z.eqb_spec l 0);
    cbn [andb negb]; try reflexivity; lia.
Qed.

Lemma type_changes m d l p :
  0 <= m -> 0 <= d -> 0 <= l -> m + d + l < 2 ^ 64 ->
  0 <= p -> dets_section_end m d l p < m + d + l ->
  result_type_at (dets_section_end m d l p) m d l <> result_type_at p m d l.
Proof.
  intros Hm Hd Hl Hsum Hp Hend. unfold result_type_at, dets_section_end in *.
  rewrite (wrap64_small (m + d)) by lia.
  destruct (Z.ltb_spec p m), (Z.ltb_spec p (m + d)); try lia;
    repeat match goal with
           | |- context [?a <? ?b] => destruct (Z.ltb_spec a b)
           | |- context [?a =? 0] => destruct (Z.eqb_spec a 0)
           end; cbn [andb negb]; try lia; discriminate.
Qed.

Lemma calls_end_bounds m d l outs : forall p,
  0 <= m -> 0 <= d -> 0 <= l -> 0 <= p <= m + d + l ->
  p <= dets_calls_end m d l outs p <= m + d + l.
Proof.
  induction outs as [|out outs IH]; intros p Hm Hd Hl Hp; cbn [dets_calls_end]; [lia|].
  destruct (section_end_bounds m d l p Hm Hd Hl Hp) as [Hend _].
  specialize (IH (Z.min (p + 8 * Z.of_nat (length out)) (dets_section_end m d l p))
                Hm Hd Hl ltac:(lia)).
  lia.
Qed.

(** The bits of a record that are left at a position. *)
Lemma record_length st bits st_end :
  let m := m_bits_per_record st in
  let d := d_bits_per_record st in
  let l := l_bits_per_record st in
  0 <= m -> 0 <= d -> 0 <= l -> m + d + l < 2 ^ 64 ->
  0 <= position_in_buffer st ->
  record_bits read_bit (fun s => Ok (is_end_of_record s)) st bits st_end ->
  position_in_buffer st + Z.of_nat (length bits) = m + d + l.
Proof.
  intros m d l Hm Hd Hl Hsum Hp Hrec.
  pose proof (record_bits_read _ _ _ _ _ Hrec) as Hall.
  pose proof (record_bits_final _ _ _ _ _ Hrec) as Hfinal.
  destruct (DetsSections.dets_read_bits_position _ _ _ _ Hall Hp) as (Hpos & Em & Ed & El).
  injection Hfinal as Hfinal. unfold is_end_of_record in Hfinal.
  apply Z.eqb_eq in Hfinal. rewrite Em, Ed, El in Hfinal. fold m d l in Hfinal.
  rewrite DetsFiles.width_sum in Hfinal by assumption. lia.
Qed.

Lemma dets_read_count st bits st_end out :
  let m := m_bits_per_record st in
  let d := d_bits_per_record st in
  let l := l_bits_per_record st in
  let p := position_in_buffer st in
  let p' := Z.min (p + 8 * Z.of_nat (length out)) (dets_section_end m d l p) in
  0 <= m -> 0 <= d -> 0 <= l -> m + d + l < 2 ^ 64 -> 0 <= p ->
  record_bits read_bit (fun s => Ok (is_end_of_record s)) st bits st_end ->
  small_range out ->
  exists out' s,
    read_bits_into_bytes st out = Ok (p' - p, out', s)
    /\ read_bits read_bit (Z.to_nat (p' - p)) st = Ok (take (Z.to_nat (p' - p)) bits, s)
    /\ packed (take (Z.to_nat (p' - p)) bits) out out'
    /\ record_bits read_bit (fun s => Ok (is_end_of_record s)) s
         (drop (Z.to_nat (p' - p)) bits) st_end
    /\ position_in_buffer s = p'
    /\ m_bits_per_record s = m /\ d_bits_per_record s = d /\ l_bits_per_record s = l.
Proof.
  intros m d l p p' Hm Hd Hl Hsum Hp Hrec Hsmall.
  pose proof (record_length st bits st_end Hm Hd Hl Hsum Hp Hrec) as Hlen.
  fold m d l p in Hlen.
  destruct (section_end_bounds m d l p Hm Hd Hl ltac:(lia)) as [Hend Hnext].
  pose proof (record_bits_read _ _ _ _ _ Hrec) as Hall.
  assert (Hat : forall j bits_j s,
    read_bits read_bit j st = Ok (bits_j, s) ->
    position_in_buffer s = p + Z.of_nat j
    /\ m_bits_per_record s = m /\ d_bits_per_record s = d /\ l_bits_per_record s = l).
  { intros j bits_j s Hj.
    exact (DetsSections.dets_read_bits_position j st bits_j s Hj Hp). }
  assert (Htype : forall j bits_j s,
    read_bits read_bit j st = Ok (bits_j, s) ->
    current_result_type s = result_type_at (p + Z.of_nat j) m d l).
  { intros j bits_j s Hj. destruct (Hat j bits_j s Hj) as (Hpos & Em & Ed & El).
    unfold current_result_type. now rewrite Hpos, Em, Ed, El. }
  destruct (default_read_count read_bit (fun s => Ok (is_end_of_record s))
              current_result_type st bits st_end out
              (Z.to_nat (dets_section_end m d l p - p)) Hrec Hsmall)
    as (out' & s & Hcall & Hbits & Hpacked & Hrest).
  - lia.
  - intros j bits_j s Hj Hread. rewrite (Htype j bits_j s Hread).
    change (current_result_type st) with (result_type_at p m d l).
    apply type_in_section; try assumption; lia.
  - destruct (Z.eq_dec (dets_section_end m d l p) (m + d + l)) as [Hlast|Hmore];
      [left; lia|]. right.
    replace (length bits)
      with (Z.to_nat (dets_section_end m d l p - p)
            + (length bits - Z.to_nat (dets_section_end m d l p - p)))%nat in Hall by lia.
    apply read_bits_split in Hall as (l1 & s1 & _ & H1 & _).
    exists l1, s1. split; [exact H1|].
    rewrite (Htype _ _ _ H1).
    change (current_result_type st) with (result_type_at p m d l).
    replace (p + Z.of_nat (Z.to_nat (dets_section_end m d l p - p)))
      with (dets_section_end m d l p) by lia.
    apply type_changes; try assumption; lia.
  - assert (Hn : Nat.min (8 * length out) (Z.to_nat (dets_section_end m d l p - p))
                 = Z.to_nat (p' - p)) by (unfold p'; lia).
    rewrite Hn in *. exists out', s.
    destruct (Hat _ _ _ Hbits) as (Hpos & Em & Ed & El).
    unfold read_bits_into_bytes.
    replace (p' - p) with (Z.of_nat (Z.to_nat (p' - p))) at 1 by (unfold p'; lia).
    split; [exact Hcall|]. split; [exact Hbits|]. split; [exact Hpacked|].
    split; [exact Hrest|]. split; [unfold p' in *; lia | auto].
Qed.

(** A sequence of calls goes from section to section. *)
Lemma dets_calls_count outs : forall st bits st_end,
  let m := m_bits_per_record st in
  let d := d_bits_per_record st in
  let l := l_bits_per_record st in
  let p := position_in_buffer st in
  0 <= m -> 0 <= d -> 0 <= l -> m + d + l < 2 ^ 64 -> 0 <= p ->
  record_bits read_bit (fun s => Ok (is_end_of_record s)) st bits st_end ->
  Forall small_range outs ->
  exists s,
    read_bits_in_calls read_bits_into_bytes outs st
    = Ok (take (Z.to_nat (dets_calls_end m d l outs p - p)) bits, s)
    /\ read_bits read_bit (Z.to_nat (dets_calls_end m d l outs p - p)) st
       = Ok (take (Z.to_nat (dets_calls_end m d l outs p - p)) bits, s)
    /\ record_bits read_bit (fun s => Ok (is_end_of_record s)) s
         (drop (Z.to_nat (dets_calls_end m d l outs p - p)) bits) st_end
    /\ position_in_buffer s = dets_calls_end m d l outs p.
Proof.
  induction outs as [|out outs IH];
    intros st bits st_end m d l p Hm Hd Hl Hsum Hp Hrec Hsmall.
  - exists st. cbn [dets_calls_end read_bits_in_calls]. rewrite Z.sub_diag.
    cbn [Z.to_nat read_bits]. rewrite take_0, drop_0. auto.
  - apply Forall_cons in Hsmall as [Hout Houts].
    pose proof (record_length st bits st_end Hm Hd Hl Hsum Hp Hrec) as Hlen.
    fold m d l p in Hlen.
    destruct (section_end_bounds m d l p Hm Hd Hl ltac:(lia)) as [Hend _].
    destruct (dets_read_count st bits st_end out Hm Hd Hl Hsum Hp Hrec Hout)
      as (out' & s1 & Hcall & Hbits & Hpacked & Hrec1 & Hp1 & Em & Ed & El).
    fold m d l p in Hcall, Hbits, Hpacked, Hrec1, Hp1, Em, Ed, El.
    set (p1 := Z.min (p + 8 * Z.of_nat (length out)) (dets_section_end m d l p)) in *.
    pose proof (calls_end_bounds m d l outs p1 Hm Hd Hl ltac:(lia)) as Hp1_end.
    specialize (IH s1 (drop (Z.to_nat (p1 - p)) bits) st_end).
    cbv zeta in IH. rewrite Em, Ed, El, Hp1 in IH.
    destruct (IH Hm Hd Hl Hsum ltac:(lia) Hrec1 Houts)
      as (s & Hcalls & Hreads & Hrec' & Hpos').
    exists s. cbn [dets_calls_end read_bits_in_calls]. fold p1.
    rewrite Hcall. cbn [mbind result_bind]. rewrite Hcalls. cbn [mbind result_bind].
    replace (Z.to_nat (dets_calls_end m d l outs p1 - p))
      with (Z.to_nat (p1 - p) + Z.to_nat (dets_calls_end m d l outs p1 - p1))%nat
      by lia.
    pose proof (packed_take _ _ _ Hpacked) as Hout'.
    rewrite length_take in Hout'.
    replace (Nat.min (Z.to_nat (p1 - p)) (length bits)) with (Z.to_nat (p1 - p))
      in Hout' by lia.
    rewrite Hout', take_take_drop.
    split; [reflexivity|]. split; [|split; [|exact Hpos']].
    + rewrite <- take_take_drop. exact (read_bits_app _ _ _ _ _ _ _ _ Hbits Hreads).
    + now rewrite <- drop_drop.
Qed.

End DetsCount.

(** ** Sequences of calls on a record *)

(** The default bulk read of a reader with one result type. *)
Lemma default_calls_exact {T : Type} (rb : T -> result (bool * T))
    (ie : T -> result bool) (crt : T -> Z) outs st bits st_end :
  (forall s s', crt s = crt s') ->
  Forall small_range outs -> record_bits rb ie st bits st_end ->
  exists st',
    read_bits_in_calls (default_read_bits_into_bytes rb ie crt) outs st
    = Ok (take (Nat.min (length bits) (8 * rooms outs)) bits, st')
    /\ read_bits rb (Nat.min (length bits) (8 * rooms outs)) st
       = Ok (take (Nat.min (length bits) (8 * rooms outs)) bits, st')
    /\ ((length bits <= 8 * rooms outs)%nat -> st' = st_end).
Proof.
  intros Hcrt Hsmall Hrec.
  destruct (calls_count rb ie (default_read_bits_into_bytes rb ie crt) (fun _ => True))
    with (outs := outs) (st := st) (bits := bits) (st_end := st_end)
    as (s & e & Hcalls & _ & _); try assumption; try exact I.
  { intros s0 bits0 e0 out _ Hrec0 Hout.
    destruct (default_read_count_one_type rb ie crt s0 bits0 e0 out Hcrt Hrec0 Hout)
      as (out' & s1 & Hcall & _ & Hpacked & Hrest).
    exists out', s1, e0. split; [exact Hcall|]. split; [|split; [exact I | exact Hrest]].
    pose proof (packed_take _ _ _ Hpacked) as Htake.
    rewrite length_take in Htake.
    now replace (Nat.min (Nat.min (8 * length out) (length bits0)) (length bits0))
      with (Nat.min (8 * length out) (length bits0)) in Htake by lia. }
  exists s. split; [exact Hcalls|].
  pose proof (default_calls_ok rb ie crt outs st _ s Hsmall Hcalls) as Hreads.
  rewrite length_take in Hreads.
  replace (Nat.min (Nat.min (length bits) (8 * rooms outs)) (length bits))
    with (Nat.min (length bits) (8 * rooms outs)) in Hreads by lia.
  split; [exact Hreads|]. intros Hroom.
  rewrite Nat.min_l, take_ge in Hreads by lia.
  rewrite (record_bits_read _ _ _ _ _ Hrec) in Hreads. now injection Hreads.
Qed.

Lemma r8_calls_agree outs st bits st' :
  r8_inv st -> Forall small_range outs ->
  read_bits_in_calls MeasureRecordReaderFormatR8.read_bits_into_bytes outs st
  = Ok (bits, st') ->
  read_bits MeasureRecordReaderFormatR8.read_bit (length bits) st = Ok (bits, st')
  /\ r8_inv st'.
Proof.
  intros Hinv Hsmall H.
  destruct (read_bits_in_calls_ok
              MeasureRecordReaderFormatR8.read_bit
              MeasureRecordReaderFormatR8.read_bits_into_bytes r8_inv eq)
    with (outs := outs) (st := st) (bits := bits) (st' := st')
    as (Hinv' & st'' & Hbits & ->); try assumption.
  - reflexivity.
  - congruence.
  - intros k s1 s2 l s -> Hl. eauto.
  - intros s out n out' s1 Hs Hout Hcall.
    destruct (R8Bulk.r8_one_call s out n out' s1 Hs Hout Hcall) as [Hs1 Hbits].
    split; [assumption|]. exists s1. split; [assumption | reflexivity].
  - split; assumption.
Qed.

Lemma r8_calls_exact outs st bits st_end :
  r8_inv st -> Forall small_range outs ->
  record_bits MeasureRecordReaderFormatR8.read_bit
    (fun s => Ok (MeasureRecordReaderFormatR8.is_end_of_record s)) st bits st_end ->
  exists st',
    read_bits_in_calls MeasureRecordReaderFormatR8.read_bits_into_bytes outs st
    = Ok (take (Nat.min (length bits) (8 * rooms outs)) bits, st')
    /\ read_bits MeasureRecordReaderFormatR8.read_bit
         (Nat.min (length bits) (8 * rooms outs)) st
       = Ok (take (Nat.min (length bits) (8 * rooms outs)) bits, st')
    /\ ((length bits <= 8 * rooms outs)%nat -> st' = st_end).
Proof.
  intros Hinv Hsmall Hrec.
  destruct (calls_count MeasureRecordReaderFormatR8.read_bit
              (fun s => Ok (MeasureRecordReaderFormatR8.is_end_of_record s))
              MeasureRecordReaderFormatR8.read_bits_into_bytes r8_inv)
    with (outs := outs) (st := st) (bits := bits) (st_end := st_end)
    as (s & e & Hcalls & _ & _); try assumption.
  { intros s0 bits0 e0 out Hinv0 Hrec0 Hout.
    destruct (R8Count.r8_read_count s0 bits0 e0 out Hinv0 Hrec0 Hout)
      as (out' & s1 & Hcall & _ & Htake & Hinv1 & Hrest).
    exists out', s1, e0. auto. }
  exists s. split; [exact Hcalls|].
  destruct (r8_calls_agree outs st _ s Hinv Hsmall Hcalls) as [Hreads _].
  rewrite length_take in Hreads.
  replace (Nat.min (Nat.min (length bits) (8 * rooms outs)) (length bits))
    with (Nat.min (length bits) (8 * rooms outs)) in Hreads by lia.
  split; [exact Hreads|]. intros Hroom.
  rewrite Nat.min_l, take_ge in Hreads by lia.
  rewrite (record_bits_read _ _ _ _ _ Hrec) in Hreads. now injection Hreads.
Qed.

Lemma b8_calls_agree outs st bits st' :
  b8_inv st -> Forall small_range outs ->
  read_bits_in_calls MeasureRecordReaderFormatB8.read_bits_into_bytes outs st
  = Ok (bits, st') ->
  b8_inv st'
  /\ exists st'',
      read_bits MeasureRecordReaderFormatB8.read_bit (length bits) st = Ok (bits, st'')
      /\ MeasureRecordReaderFormatB8.position st''
         = MeasureRecordReaderFormatB8.position st'
      /\ MeasureRecordReaderFormatB8.is_end_of_record st''
         = MeasureRecordReaderFormatB8.is_end_of_record st'
      /\ MeasureRecordReaderFormatB8.inp st'' = MeasureRecordReaderFormatB8.inp st'.
Proof.
  intros Hinv Hsmall H.
  destruct (read_bits_in_calls_ok
              MeasureRecordReaderFormatB8.read_bit
              MeasureRecordReaderFormatB8.read_bits_into_bytes b8_inv b8_equiv)
    with (outs := outs) (st := st) (bits := bits) (st' := st')
    as (Hinv' & st'' & Hbits & Heq); try assumption.
  - apply B8Calls.b8_equiv_refl.
  - apply B8Calls.b8_equiv_trans.
  - intros k s1 s2 l s. apply B8Calls.read_bits_equiv.
  - apply B8Calls.b8_one_call.
  - split; [assumption|]. exists st''. split; [assumption|].
    destruct Heq as (Hinp & Hm & Hpos & _).
    unfold MeasureRecordReaderFormatB8.is_end_of_record.
    rewrite Hinp, Hm, Hpos. repeat split.
Qed.

Lemma b8_calls_exact outs st bits st_end :
  b8_inv st -> Forall small_range outs ->
  record_bits MeasureRecordReaderFormatB8.read_bit
    (fun s => Ok (MeasureRecordReaderFormatB8.is_end_of_record s)) st bits st_end ->
  exists st' st'',
    read_bits_in_calls MeasureRecordReaderFormatB8.read_bits_into_bytes outs st
    = Ok (take (Nat.min (length bits) (8 * rooms outs)) bits, st')
    /\ read_bits MeasureRecordReaderFormatB8.read_bit
         (Nat.min (length bits) (8 * rooms outs)) st
       = Ok (take (Nat.min (length bits) (8 * rooms outs)) bits, st'')
    /\ MeasureRecordReaderFormatB8.position st''
       = MeasureRecordReaderFormatB8.position st'
    /\ MeasureRecordReaderFormatB8.is_end_of_record st''
       = MeasureRecordReaderFormatB8.is_end_of_record st'
    /\ MeasureRecordReaderFormatB8.inp st'' = MeasureRecordReaderFormatB8.inp st'
    /\ ((length bits <= 8 * rooms outs)%nat -> st'' = st_end).
Proof.
  intros Hinv Hsmall Hrec.
  destruct (calls_count MeasureRecordReaderFormatB8.read_bit
              (fun s => Ok (MeasureRecordReaderFormatB8.is_end_of_record s))
              MeasureRecordReaderFormatB8.read_bits_into_bytes b8_inv
              B8Count.b8_read_count outs st bits st_end Hinv Hrec Hsmall)
    as (s & e & Hcalls & _ & _).
  destruct (b8_calls_agree outs st _ s Hinv Hsmall Hcalls)
    as (_ & st'' & Hreads & Hpos & Hend & Hinp).
  rewrite length_take in Hreads.
  replace (Nat.min (Nat.min (length bits) (8 * rooms outs)) (length bits))
    with (Nat.min (length bits) (8 * rooms outs)) in Hreads by lia.
  exists s, st''. split; [exact Hcalls|]. split; [exact Hreads|].
  split; [exact Hpos|]. split; [exact Hend|]. split; [exact Hinp|].
  intros Hroom. rewrite Nat.min_l, take_ge in Hreads by lia.
  rewrite (record_bits_read _ _ _ _ _ Hrec) in Hreads. now injection Hreads.
Qed.

(** DETS: three calls with room for the record each reach its end. *)
Lemma dets_three_calls m d l out1 out2 out3 p :
  0 <= m -> 0 <= d -> 0 <= l -> 0 <= p <= m + d + l ->
  m + d + l <= 8 * Z.of_nat (length out1) ->
  m + d + l <= 8 * Z.of_nat (length out2) ->
  m + d + l <= 8 * Z.of_nat (length out3) ->
  dets_calls_end m d l [out1; out2; out3] p = m + d + l.
Proof.
  intros Hm Hd Hl Hp H1 H2 H3. cbn [dets_calls_end].
  assert (Hcases : forall q,
    (q < m /\ dets_section_end m d l q = m)
    \/ (m <= q < m + d /\ dets_section_end m d l q = m + d)
    \/ (m + d <= q /\ dets_section_end m d l q = m + d + l)).
  { intros q. unfold dets_section_end.
    destruct (Z.ltb_spec q m), (Z.ltb_spec q (m + d)); lia. }
  destruct (DetsCount.section_end_bounds m d l p Hm Hd Hl Hp) as [Hb1 _].
  rewrite (Z.min_r (p + _)) by lia.
  set (p1 := dets_section_end m d l p) in *.
  destruct (DetsCount.section_end_bounds m d l p1 Hm Hd Hl ltac:(lia)) as [Hb2 _].
  rewrite (Z.min_r (p1 + _)) by lia.
  set (p2 := dets_section_end m d l p1) in *.
  destruct (DetsCount.section_end_bounds m d l p2 Hm Hd Hl ltac:(lia)) as [Hb3 _].
  rewrite (Z.min_r (p2 + _)) by lia.
  pose proof (Hcases p) as C0. pose proof (Hcases p1) as C1. pose proof (Hcases p2) as C2.
  fold p1 in C0. fold p2 in C1. lia.
Qed.

(** ** C4: the bulk reads and [read_bit] *)

(** C4. Draining a record by [read_bits_into_bytes], in any split of calls,
    gives the bits that [read_bit] gives, in the same order, and leaves the
    reader where [read_bit] leaves it.

    Whenever a sequence of calls returns, the bits it has put into the
    output ranges, call after call, are the bits that as many [read_bit]
    calls return from the same state, and the reader is left where those
    [read_bit] calls leave it: in the very same state for 01, HITS, DETS and
    R8; for B8 at the same position, with the same [is_end_of_record] and
    the same input left (the block read does not keep the spare bits of the
    last byte of a record, which nothing reads). The R8 and B8 statements
    are about the states that [start_record] leaves ([r8_inv], [b8_inv]),
    which the bulk reads keep. On a record that [read_bit] reads to its end
    ([drains]) every sequence of calls returns.

    And the calls take what there is room for. One call into a range of
    [length out] bytes takes the smaller of the bits that are left in the
    record and eight times [length out], writes them packed, and leaves the
    rest of the record to be read (a call of the DETS reader stops at the
    end of the section it started in as well). From a state in which
    [read_bit] gives the bits [bits] up to the end of the record
    ([record_bits]), any sequence of calls into the ranges [outs] returns
    the first N of these bits, where N is the smaller of the number of bits
    left and eight times the bytes of [outs], for 01, HITS, R8 and B8: as
    soon as the ranges have room for the bits that are left, the calls have
    drained the record and the reader is at its end. A call of the DETS
    reader stops at the end of the section it started in as well, so there
    the calls reach the position [dets_calls_end]; three calls with room
    for the record each always reach its end. *)
Theorem bulk_reads_agree_with_read_bit :
  (forall outs st bits st',
      Forall small_range outs ->
      read_bits_in_calls MeasureRecordReaderFormat01.read_bits_into_bytes outs st
      = Ok (bits, st') ->
      read_bits MeasureRecordReaderFormat01.read_bit (length bits) st = Ok (bits, st'))
  /\ (forall outs st bits st',
      Forall small_range outs ->
      read_bits_in_calls MeasureRecordReaderFormatHits.read_bits_into_bytes outs st
      = Ok (bits, st') ->
      read_bits MeasureRecordReaderFormatHits.read_bit (length bits) st = Ok (bits, st'))
  /\ (forall outs st bits st',
      Forall small_range outs ->
      read_bits_in_calls MeasureRecordReaderFormatDets.read_bits_into_bytes outs st
      = Ok (bits, st') ->
      read_bits MeasureRecordReaderFormatDets.read_bit (length bits) st = Ok (bits, st'))
  /\ (forall st st0,
      0 <= MeasureRecordReaderFormatR8.bits_per_record st ->
      255 * Z.of_nat (length (MeasureRecordReaderFormatR8.inp st))
      + MeasureRecordReaderFormatR8.bits_per_record st + 1 < 2 ^ 64 ->
      MeasureRecordReaderFormatR8.start_record st = Ok (true, st0) ->
      r8_inv st0)
  /\ (forall outs st bits st',
      r8_inv st -> Forall small_range outs ->
      read_bits_in_calls MeasureRecordReaderFormatR8.read_bits_into_bytes outs st
      = Ok (bits, st') ->
      read_bits MeasureRecordReaderFormatR8.read_bit (length bits) st = Ok (bits, st')
      /\ r8_inv st')
  /\ (forall st st0,
      MeasureRecordReaderFormatB8.bits_per_record st < 2 ^ 64 ->
      MeasureRecordReaderFormatB8.start_record st = Ok (true, st0) ->
      b8_inv st0)
  /\ (forall outs st bits st',
      b8_inv st -> Forall small_range outs ->
      read_bits_in_calls MeasureRecordReaderFormatB8.read_bits_into_bytes outs st
      = Ok (bits, st') ->
      b8_inv st'
      /\ exists st'',
          read_bits MeasureRecordReaderFormatB8.read_bit (length bits) st = Ok (bits, st'')
          /\ MeasureRecordReaderFormatB8.position st''
             = MeasureRecordReaderFormatB8.position st'
          /\ MeasureRecordReaderFormatB8.is_end_of_record st''
             = MeasureRecordReaderFormatB8.is_end_of_record st'
          /\ MeasureRecordReaderFormatB8.inp st'' = MeasureRecordReaderFormatB8.inp st')
  /\ (forall outs st,
      Forall small_range outs ->
      drains MeasureRecordReaderFormat01.read_bit
             MeasureRecordReaderFormat01.is_end_of_record st ->
      exists bits st',
        read_bits_in_calls MeasureRecordReaderFormat01.read_bits_into_bytes outs st
        = Ok (bits, st'))
  /\ (forall outs st,
      Forall small_range outs ->
      drains MeasureRecordReaderFormatHits.read_bit
             (fun st => Ok (MeasureRecordReaderFormatHits.is_end_of_record st)) st ->
      exists bits st',
        read_bits_in_calls MeasureRecordReaderFormatHits.read_bits_into_bytes outs st
        = Ok (bits, st'))
  /\ (forall outs st,
      Forall small_range outs ->
      drains MeasureRecordReaderFormatDets.read_bit
             (fun st => Ok (MeasureRecordReaderFormatDets.is_end_of_record st)) st ->
      exists bits st',
        read_bits_in_calls MeasureRecordReaderFormatDets.read_bits_into_bytes outs st
        = Ok (bits, st'))
  /\ (forall outs st,
      r8_inv st -> Forall small_range outs ->
      drains MeasureRecordReaderFormatR8.read_bit
             (fun st => Ok (MeasureRecordReaderFormatR8.is_end_of_record st)) st ->
      exists bits st',
        read_bits_in_calls MeasureRecordReaderFormatR8.read_bits_into_bytes outs st
        = Ok (bits, st'))
  /\ (forall outs st,
      b8_inv st -> Forall small_range outs ->
      drains MeasureRecordReaderFormatB8.read_bit
             (fun st => Ok (MeasureRecordReaderFormatB8.is_end_of_record st)) st ->
      exists bits st',
        read_bits_in_calls MeasureRecordReaderFormatB8.read_bits_into_bytes outs st
        = Ok (bits, st'))
  (* how many bits the calls take on a record *)
  /\ (forall outs st bits st_end,
      Forall small_range outs ->
      record_bits MeasureRecordReaderFormat01.read_bit
                  MeasureRecordReaderFormat01.is_end_of_record st bits st_end ->
      exists st',
        read_bits_in_calls MeasureRecordReaderFormat01.read_bits_into_bytes outs st
        = Ok (take (Nat.min (length bits) (8 * rooms outs)) bits, st')
        /\ read_bits MeasureRecordReaderFormat01.read_bit
             (Nat.min (length bits) (8 * rooms outs)) st
           = Ok (take (Nat.min (length bits) (8 * rooms outs)) bits, st')
        /\ ((length bits <= 8 * rooms outs)%nat -> st' = st_end))
  /\ (forall outs st bits st_end,
      Forall small_range outs ->
      record_bits MeasureRecordReaderFormatHits.read_bit
                  (fun s => Ok (MeasureRecordReaderFormatHits.is_end_of_record s))
                  st bits st_end ->
      exists st',
        read_bits_in_calls MeasureRecordReaderFormatHits.read_bits_into_bytes outs st
        = Ok (take (Nat.min (length bits) (8 * rooms outs)) bits, st')
        /\ read_bits MeasureRecordReaderFormatHits.read_bit
             (Nat.min (length bits) (8 * rooms outs)) st
           = Ok (take (Nat.min (length bits) (8 * rooms outs)) bits, st')
        /\ ((length bits <= 8 * rooms outs)%nat -> st' = st_end))
  /\ (forall outs st bits st_end,
      r8_inv st -> Forall small_range outs ->
      record_bits MeasureRecordReaderFormatR8.read_bit
                  (fun s => Ok (MeasureRecordReaderFormatR8.is_end_of_record s))
                  st bits st_end ->
      exists st',
        read_bits_in_calls MeasureRecordReaderFormatR8.read_bits_into_bytes outs st
        = Ok (take (Nat.min (length bits) (8 * rooms outs)) bits, st')
        /\ read_bits MeasureRecordReaderFormatR8.read_bit
             (Nat.min (length bits) (8 * rooms outs)) st
           = Ok (take (Nat.min (length bits) (8 * rooms outs)) bits, st')
        /\ ((length bits <= 8 * rooms outs)%nat -> st' = st_end))
  /\ (forall outs st bits st_end,
      b8_inv st -> Forall small_range outs ->
      record_bits MeasureRecordReaderFormatB8.read_bit
                  (fun s => Ok (MeasureRecordReaderFormatB8.is_end_of_record s))
                  st bits st_end ->
      exists st' st'',
        read_bits_in_calls MeasureRecordReaderFormatB8.read_bits_into_bytes outs st
        = Ok (take (Nat.min (length bits) (8 * rooms outs)) bits, st')
        /\ read_bits MeasureRecordReaderFormatB8.read_bit
             (Nat.min (length bits) (8 * rooms outs)) st
           = Ok (take (Nat.min (length bits) (8 * rooms outs)) bits, st'')
        /\ MeasureRecordReaderFormatB8.position st''
           = MeasureRecordReaderFormatB8.position st'
        /\ MeasureRecordReaderFormatB8.is_end_of_record st''
           = MeasureRecordReaderFormatB8.is_end_of_record st'
        /\ MeasureRecordReaderFormatB8.inp st'' = MeasureRecordReaderFormatB8.inp st'
        /\ ((length bits <= 8 * rooms outs)%nat -> st'' = st_end))
  /\ (forall outs st bits st_end,
      let m := MeasureRecordReaderFormatDets.m_bits_per_record st in
      let d := MeasureRecordReaderFormatDets.d_bits_per_record st in
      let l := MeasureRecordReaderFormatDets.l_bits_per_record st in
      let p := MeasureRecordReaderFormatDets.position_in_buffer st in
      0 <= m -> 0 <= d -> 0 <= l -> m + d + l < 2 ^ 64 -> 0 <= p ->
      Forall small_range outs ->
      record_bits MeasureRecordReaderFormatDets.read_bit
                  (fun s => Ok (MeasureRecordReaderFormatDets.is_end_of_record s))
                  st bits st_end ->
      exists st',
        read_bits_in_calls MeasureRecordReaderFormatDets.read_bits_into_bytes outs st
        = Ok (take (Z.to_nat (dets_calls_end m d l outs p - p)) bits, st')
        /\ read_bits MeasureRecordReaderFormatDets.read_bit
             (Z.to_nat (dets_calls_end m d l outs p - p)) st
           = Ok (take (Z.to_nat (dets_calls_end m d l outs p - p)) bits, st')
        /\ MeasureRecordReaderFormatDets.position_in_buffer st'
           = dets_calls_end m d l outs p
        /\ (dets_calls_end m d l outs p = m + d + l -> st' = st_end))
  /\ (forall m d l out1 out2 out3 p,
      0 <= m -> 0 <= d -> 0 <= l -> 0 <= p <= m + d + l ->
      m + d + l <= 8 * Z.of_nat (length out1) ->
      m + d + l <= 8 * Z.of_nat (length out2) ->
      m + d + l <= 8 * Z.of_nat (length out3) ->
      dets_calls_end m d l [out1; out2; out3] p = m + d + l)
  (* how many bits one call takes *)
  /\ (forall st bits st_end out,
      record_bits MeasureRecordReaderFormat01.read_bit
                  MeasureRecordReaderFormat01.is_end_of_record st bits st_end ->
      small_range out ->
      exists out' s,
        MeasureRecordReaderFormat01.read_bits_into_bytes st out
        = Ok (Z.of_nat (Nat.min (8 * length out) (length bits)), out', s)
        /\ packed (take (Nat.min (8 * length out) (length bits)) bits) out out'
        /\ record_bits MeasureRecordReaderFormat01.read_bit
             MeasureRecordReaderFormat01.is_end_of_record s
             (drop (Nat.min (8 * length out) (length bits)) bits) st_end)
  /\ (forall st bits st_end out,
      record_bits MeasureRecordReaderFormatHits.read_bit
                  (fun s => Ok (MeasureRecordReaderFormatHits.is_end_of_record s)) st bits st_end ->
      small_range out ->
      exists out' s,
        MeasureRecordReaderFormatHits.read_bits_into_bytes st out
        = Ok (Z.of_nat (Nat.min (8 * length out) (length bits)), out', s)
        /\ packed (take (Nat.min (8 * length out) (length bits)) bits) out out'
        /\ record_bits MeasureRecordReaderFormatHits.read_bit
             (fun s => Ok (MeasureRecordReaderFormatHits.is_end_of_record s)) s
             (drop (Nat.min (8 * length out) (length bits)) bits) st_end)
  /\ (forall st bits st_end out,
      r8_inv st ->
      record_bits MeasureRecordReaderFormatR8.read_bit
                  (fun s => Ok (MeasureRecordReaderFormatR8.is_end_of_record s)) st bits st_end ->
      small_range out ->
      exists out' s,
        MeasureRecordReaderFormatR8.read_bits_into_bytes st out
        = Ok (Z.of_nat (Nat.min (8 * length out) (length bits)), out', s)
        /\ take (Nat.min (8 * length out) (length bits)) (bytes_to_bits out')
           = take (Nat.min (8 * length out) (length bits)) bits
        /\ record_bits MeasureRecordReaderFormatR8.read_bit
             (fun s => Ok (MeasureRecordReaderFormatR8.is_end_of_record s)) s
             (drop (Nat.min (8 * length out) (length bits)) bits) st_end)
  /\ (forall st bits st_end out,
      b8_inv st ->
      record_bits MeasureRecordReaderFormatB8.read_bit
                  (fun s => Ok (MeasureRecordReaderFormatB8.is_end_of_record s)) st bits st_end ->
      small_range out ->
      exists out' s e,
        MeasureRecordReaderFormatB8.read_bits_into_bytes st out
        = Ok (Z.of_nat (Nat.min (8 * length out) (length bits)), out', s)
        /\ take (Nat.min (8 * length out) (length bits)) (bytes_to_bits out')
           = take (Nat.min (8 * length out) (length bits)) bits
        /\ record_bits MeasureRecordReaderFormatB8.read_bit
             (fun s => Ok (MeasureRecordReaderFormatB8.is_end_of_record s)) s
             (drop (Nat.min (8 * length out) (length bits)) bits) e)
  /\ (forall st bits st_end out,
      let m := MeasureRecordReaderFormatDets.m_bits_per_record st in
      let d := MeasureRecordReaderFormatDets.d_bits_per_record st in
      let l := MeasureRecordReaderFormatDets.l_bits_per_record st in
      let p := MeasureRecordReaderFormatDets.position_in_buffer st in
      let p' := Z.min (p + 8 * Z.of_nat (length out)) (dets_section_end m d l p) in
      0 <= m -> 0 <= d -> 0 <= l -> m + d + l < 2 ^ 64 -> 0 <= p ->
      record_bits MeasureRecordReaderFormatDets.read_bit
                  (fun s => Ok (MeasureRecordReaderFormatDets.is_end_of_record s)) st bits st_end ->
      small_range out ->
      exists out' s,
        MeasureRecordReaderFormatDets.read_bits_into_bytes st out = Ok (p' - p, out', s)
        /\ packed (take (Z.to_nat (p' - p)) bits) out out'
        /\ record_bits MeasureRecordReaderFormatDets.read_bit
             (fun s => Ok (MeasureRecordReaderFormatDets.is_end_of_record s)) s
             (drop (Z.to_nat (p' - p)) bits) st_end
        /\ MeasureRecordReaderFormatDets.position_in_buffer s = p').
Proof.
  conjs.
  - intros outs st bits st'. apply default_calls_ok.
  - intros outs st bits st'. apply default_calls_ok.
  - intros outs st bits st'. apply default_calls_ok.
  - intros st st0. apply R8Facts.start_record_inv.
  - intros outs st bits st'. apply r8_calls_agree.
  - intros st st0 Hm H. unfold MeasureRecordReaderFormatB8.start_record in H.
    injection H as _ <-. unfold b8_inv, MeasureRecordReaderFormatB8.maybe_update_payload.
    cbn. destruct (getc (MeasureRecordReaderFormatB8.inp st)). cbn. lia.
  - intros outs st bits st'. apply b8_calls_agree.
  - intros outs st Hsmall Hd. now apply default_calls_total.
  - intros outs st Hsmall Hd. now apply default_calls_total.
  - intros outs st Hsmall Hd. now apply default_calls_total.
  - intros outs st Hinv Hsmall Hd.
    apply (read_bits_in_calls_total
             MeasureRecordReaderFormatR8.read_bits_into_bytes
             (fun s => r8_inv s
                       /\ drains MeasureRecordReaderFormatR8.read_bit
                             (fun st => Ok (MeasureRecordReaderFormatR8.is_end_of_record st))
                             s)).
    + intros s out [Hs Hds] _.
      destruct (R8Drains.bytes_loop_total out 0 s Hs Hds) as (n & out' & s1 & H & Hs1).
      exists n, out', s1. split; assumption.
    + split; assumption.
    + assumption.
  - intros outs st Hinv Hsmall Hd.
    apply (read_bits_in_calls_total
             MeasureRecordReaderFormatB8.read_bits_into_bytes
             (fun s => b8_inv s
                       /\ drains MeasureRecordReaderFormatB8.read_bit
                             (fun st => Ok (MeasureRecordReaderFormatB8.is_end_of_record st))
                             s)).
    + intros s out Hs Hout.
      destruct (B8Drains.read_total s out Hs Hout) as (n & out' & s1 & H & Hs1).
      exists n, out', s1. split; assumption.
    + split; assumption.
    + assumption.
  - intros outs st bits st_end Hsmall Hrec.
    apply default_calls_exact; [intros; reflexivity | exact Hsmall | exact Hrec].
  - intros outs st bits st_end Hsmall Hrec.
    apply default_calls_exact; [intros; reflexivity | exact Hsmall | exact Hrec].
  - intros outs st bits st_end. apply r8_calls_exact.
  - intros outs st bits st_end. apply b8_calls_exact.
  - intros outs st bits st_end m d l p Hm Hd Hl Hsum Hp Hsmall Hrec.
    destruct (DetsCount.dets_calls_count outs st bits st_end Hm Hd Hl Hsum Hp Hrec Hsmall)
      as (s & Hcalls & Hreads & _ & Hpos).
    fold m d l p in Hcalls, Hreads, Hpos.
    exists s. split; [exact Hcalls|]. split; [exact Hreads|]. split; [exact Hpos|].
    intros Hdrained.
    pose proof (DetsCount.record_length st bits st_end Hm Hd Hl Hsum Hp Hrec) as Hlen.
    fold m d l p in Hlen.
    rewrite take_ge in Hreads by lia.
    replace (Z.to_nat (dets_calls_end m d l outs p - p)) with (length bits) in Hreads
      by lia.
    rewrite (record_bits_read _ _ _ _ _ Hrec) in Hreads. now injection Hreads.
  - intros m d l out1 out2 out3 p. apply dets_three_calls.
  - intros st bits st_end out Hrec Hsmall.
    destruct (default_read_count_one_type
                MeasureRecordReaderFormat01.read_bit
                MeasureRecordReaderFormat01.is_end_of_record
                default_current_result_type st bits st_end out)
      as (out' & s & Hcall & _ & Hpacked & Hrest);
      [intros; reflexivity | exact Hrec | exact Hsmall |].
    exists out', s. split; [exact Hcall|]. split; [exact Hpacked | exact Hrest].
  - intros st bits st_end out Hrec Hsmall.
    destruct (default_read_count_one_type
                MeasureRecordReaderFormatHits.read_bit
                (fun s => Ok (MeasureRecordReaderFormatHits.is_end_of_record s))
                default_current_result_type st bits st_end out)
      as (out' & s & Hcall & _ & Hpacked & Hrest);
      [intros; reflexivity | exact Hrec | exact Hsmall |].
    exists out', s. split; [exact Hcall|]. split; [exact Hpacked | exact Hrest].
  - intros st bits st_end out Hinv Hrec Hsmall.
    destruct (R8Count.r8_read_count st bits st_end out Hinv Hrec Hsmall)
      as (out' & s & Hcall & _ & Htake & _ & Hrest).
    exists out', s. split; [exact Hcall|]. split; [exact Htake | exact Hrest].
  - intros st bits st_end out Hinv Hrec Hsmall.
    destruct (B8Count.b8_read_count st bits st_end out Hinv Hrec Hsmall)
      as (out' & s & e & Hcall & Htake & _ & Hrest).
    exists out', s, e. split; [exact Hcall|]. split; [exact Htake | exact Hrest].
  - intros st bits st_end out m d l p p' Hm Hd Hl Hsum Hp Hrec Hsmall.
    destruct (DetsCount.dets_read_count st bits st_end out Hm Hd Hl Hsum Hp Hrec Hsmall)
      as (out' & s & Hcall & _ & Hpacked & Hrest & Hpos & _).
    exists out', s. split; [exact Hcall|]. split; [exact Hpacked|].
    split; [exact Hrest | exact Hpos].
Qed.

(** The first record of the B8 scenario, m = 10, drained in two calls of one
    byte each: the default loop takes the byte that [start_record] buffered,
    the block read takes the two bits that are left. The two calls return
    the ten bits of the record and leave the reader at its end. *)
Lemma bulk_reads_agree_with_read_bit_witness :
  exists st',
    read_bits_in_calls MeasureRecordReaderFormatB8.read_bits_into_bytes
                       [[0]; [0]] Scenarios.b8_two_records_started
    = Ok ([false; true; false; true; false; true; false; false; true; true], st')
    /\ MeasureRecordReaderFormatB8.is_end_of_record st' = true.
Proof.
  assert (Hinv : b8_inv Scenarios.b8_two_records_started)
    by (unfold b8_inv; cbn; lia).
  assert (Hsmall : Forall small_range [[0]; [0]])
    by (repeat constructor; unfold small_range; cbn; lia).
  assert (Hreads :
    read_bits MeasureRecordReaderFormatB8.read_bit 10 Scenarios.b8_two_records_started
    = Ok ([false; true; false; true; false; true; false; false; true; true],
          MeasureRecordReaderFormatB8.mk [xff; x00] 10 0 6 10))
    by (vm_compute; reflexivity).
  assert (Hrec :
    record_bits MeasureRecordReaderFormatB8.read_bit
      (fun s => Ok (MeasureRecordReaderFormatB8.is_end_of_record s))
      Scenarios.b8_two_records_started
      [false; true; false; true; false; true; false; false; true; true]
      (MeasureRecordReaderFormatB8.mk [xff; x00] 10 0 6 10)).
  { apply (read_bits_record_bits MeasureRecordReaderFormatB8.read_bit
             (fun s => Ok (MeasureRecordReaderFormatB8.is_end_of_record s))
             (fun _ => True)) with (k := 10%nat);
      [|exact I|exact Hreads|reflexivity].
    intros s bit s1 _ Hs. split; [|exact I].
    now rewrite (proj1 (B8Files.b8_read_bit_inside s bit s1 Hs)). }
  pose proof bulk_reads_agree_with_read_bit
    as (_ & _ & _ & _ & _ & _ & _ & _ & _ & _ & _ & _ & _ & _ & _ & Hexact & _).
  destruct (Hexact _ _ _ _ Hinv Hsmall Hrec)
    as (st' & st'' & Hcalls & _ & _ & Hend & _ & Hlast).
  exists st'. split; [exact Hcalls|].
  rewrite <- Hend, (Hlast ltac:(cbn; lia)). reflexivity.
Defined.

(** * The R8 reader on a stream that ends inside a record *)

Module R8Cut.
Import MeasureRecordReaderFormatR8 R8Facts R8Records.

(** The stream ends on bytes 0xFF, or between two runs of a record. *)
Lemma buffer_cut_run st k :
  buffered_0s st = 0 -> buffered_1s st = 0 -> is_end_of_record st = false ->
  inp st = replicate k xff -> 255 * Z.of_nat k < 2 ^ 64 ->
  (0 < k)%nat \/ position st <> 0 ->
  maybe_buffer_data st = Throw R8EndedOnContinuation.
Proof.
  intros E0 E1 Hend Hinp Hfit Hcut. unfold maybe_buffer_data.
  rewrite E0, E1, Hend, Hinp. cbn [Z.eqb negb].
  rewrite <- (app_nil_r (replicate k xff)), count_zeroes_ff by lia.
  cbn [count_zeroes].
  destruct (Z.eqb_spec (0 + 255 * Z.of_nat k) 0) as [Hk|_];
    [|reflexivity].
  destruct (Z.eqb_spec (position st) 0) as [Hp|_]; [|reflexivity].
  exfalso. destruct Hcut; [lia | contradiction].
Qed.

(** The run that ends the record is there, the byte 00 behind it is not. *)
Lemma buffer_no_terminator st n :
  buffered_0s st = 0 -> buffered_1s st = 0 ->
  inp st = r8_run n -> 0 <= position st ->
  position st + Z.of_nat n + 1 = bits_per_record st ->
  bits_per_record st + 1 < 2 ^ 64 ->
  maybe_buffer_data st = Throw R8NoTerminatorAtEof.
Proof.
  intros E0 E1 Hinp Hp Hlast Hfit. unfold maybe_buffer_data, is_end_of_record.
  rewrite E0, E1, Hinp. cbn [Z.eqb negb].
  destruct (Z.eqb_spec (position st) (bits_per_record st)) as [|_]; [lia|].
  cbn [andb].
  rewrite <- (app_nil_r (r8_run n)), count_zeroes_run by lia.
  cbn [mbind result_bind]. rewrite Z.add_0_l.
  rewrite (wrap64_small (position st + Z.of_nat n)),
    (wrap64_small (position st + Z.of_nat n + 1)) by lia.
  rewrite Hlast, Z.eqb_refl. reflexivity.
Qed.

(** What [read_bit] and the bulk read do when [maybe_buffer_data] throws. *)
Lemma read_bit_throws st e :
  buffered_0s st = 0 -> buffered_1s st = 0 ->
  maybe_buffer_data st = Throw e ->
  read_bit st = Throw e.
Proof.
  intros E0 E1 H. unfold read_bit, assert_maybe_buffer_data.
  rewrite E0, E1, H. reflexivity.
Qed.

Lemma bulk_read_throws st e out :
  buffered_0s st = 0 -> buffered_1s st = 0 -> is_end_of_record st = false ->
  maybe_buffer_data st = Throw e ->
  out <> [] ->
  read_bits_into_bytes st out = Throw e.
Proof.
  intros E0 E1 Hend H Hout. destruct out as [|b out]; [contradiction|].
  unfold read_bits_into_bytes. cbn [bytes_loop]. rewrite E0.
  change (0 >=? 8) with false. cbv iota.
  cbn [bits_loop]. rewrite E0, E1. cbn [Z.eqb andb].
  destruct (have_seen_terminal_1 st); cbn [negb].
  - cbn [mbind result_bind]. rewrite Hend.
    now rewrite (read_bit_throws st e E0 E1 H).
  - unfold assert_maybe_buffer_data. rewrite H. reflexivity.
Qed.

(** Whole runs that do not fill the record, read bit by bit. *)
Lemma read_whole_runs runs : forall p rest m,
  0 <= p -> p + Z.of_nat (length (r8_bits runs)) < m ->
  255 * Z.of_nat (length (r8_stream runs ++ rest)) + m + 1 < 2 ^ 64 ->
  read_bits read_bit (length (r8_bits runs))
            (mk (r8_stream runs ++ rest) m p false 0 0)
  = Ok (r8_bits runs,
        mk rest m (p + Z.of_nat (length (r8_bits runs))) false 0 0).
Proof.
  induction runs as [|n runs IH]; intros p rest m Hp Hlen Hfit.
  - change (r8_bits []) with (@nil bool).
    change (r8_stream [] ++ rest) with rest.
    cbn [length read_bits Z.of_nat]. now rewrite Z.add_0_r.
  - pose proof (length_r8_run n) as Hrun1.
    rewrite length_r8_bits_cons in Hlen |- *.
    rewrite r8_stream_cons, <- app_assoc in Hfit |- *.
    rewrite (length_app (r8_run n)) in Hfit.
    set (st := mk (r8_run n ++ r8_stream runs ++ rest) m p false 0 0).
    set (st0 := mk (r8_stream runs ++ rest) m p false (Z.of_nat n) 1).
    assert (Hbuf : maybe_buffer_data st = Ok (true, st0)).
    { unfold st. rewrite buffer_run by lia.
      destruct (Z.eqb_spec (p + Z.of_nat n + 1) m) as [|_]; [lia|].
      destruct (Z.eqb_spec (p + Z.of_nat n + 1) (m + 1)) as [|_]; [lia|].
      reflexivity. }
    assert (Hinv : r8_inv st)
      by (unfold r8_inv, st;
          cbn [inp bits_per_record position have_seen_terminal_1 buffered_0s
               buffered_1s]; rewrite length_app; conjs; lia).
    assert (Hinv0 : r8_inv st0)
      by (unfold r8_inv, st0;
          cbn [inp bits_per_record position have_seen_terminal_1 buffered_0s
               buffered_1s]; conjs; lia).
    assert (Hassert : assert_maybe_buffer_data st = Ok st0)
      by (unfold assert_maybe_buffer_data; now rewrite Hbuf).
    destruct (buffer_then_read st st0 Hinv eq_refl eq_refl eq_refl Hassert)
      as (_ & _ & Hsame).
    pose proof (read_run n st0 Hinv0 eq_refl eq_refl) as Hrun.
    unfold st0 in Hrun at 2.
    cbn [inp bits_per_record position have_seen_terminal_1 buffered_0s buffered_1s]
      in Hrun.
    assert (Hrun' : read_bits read_bit (n + 1) st
                    = Ok (replicate n false ++ [true],
                          mk (r8_stream runs ++ rest) m (p + Z.of_nat n + 1) false 0 0)).
    { rewrite Nat.add_1_r in Hrun |- *. cbn [read_bits] in Hrun |- *.
      now rewrite <- Hsame. }
    rewrite r8_bits_cons.
    eapply read_bits_app; [exact Hrun'|].
    rewrite IH by lia. do 2 f_equal. f_equal. lia.
Qed.

(** The same from any state that has nothing buffered. *)
Lemma read_whole_runs_from st runs rest :
  buffered_0s st = 0 -> buffered_1s st = 0 -> have_seen_terminal_1 st = false ->
  inp st = r8_stream runs ++ rest -> 0 <= position st ->
  position st + Z.of_nat (length (r8_bits runs)) < bits_per_record st ->
  255 * Z.of_nat (length (inp st)) + bits_per_record st + 1 < 2 ^ 64 ->
  read_bits read_bit (length (r8_bits runs)) st
  = Ok (r8_bits runs,
        mk rest (bits_per_record st)
           (position st + Z.of_nat (length (r8_bits runs))) false 0 0).
Proof.
  destruct st as [i m p h b0 b1].
  cbn [inp bits_per_record position have_seen_terminal_1 buffered_0s buffered_1s].
  intros -> -> -> -> Hp Hlen Hfit. now apply read_whole_runs.
Qed.

(** [start_record] buffers the first run and changes nothing that
    [read_bit] would not have done. *)
Lemma start_then_read st runs rest :
  buffered_0s st = 0 -> buffered_1s st = 0 ->
  inp st = r8_stream runs ++ rest -> runs <> [] ->
  Z.of_nat (length (r8_bits runs)) < bits_per_record st ->
  255 * Z.of_nat (length (inp st)) + bits_per_record st + 1 < 2 ^ 64 ->
  exists st0,
    start_record st = Ok (true, st0)
    /\ read_bits read_bit (length (r8_bits runs)) st0
       = Ok (r8_bits runs,
             mk rest (bits_per_record st) (Z.of_nat (length (r8_bits runs)))
                false 0 0).
Proof.
  intros E0 E1 Hinp Hne Hlen Hfit.
  destruct runs as [|n runs]; [contradiction|].
  set (st_reset := mk (inp st) (bits_per_record st) 0 false (buffered_0s st)
                      (buffered_1s st)).
  assert (Hreads : read_bits read_bit (length (r8_bits (n :: runs))) st_reset
                   = Ok (r8_bits (n :: runs),
                         mk rest (bits_per_record st)
                            (Z.of_nat (length (r8_bits (n :: runs)))) false 0 0)).
  { rewrite (read_whole_runs_from st_reset (n :: runs) rest);
      unfold st_reset;
      cbn [inp bits_per_record position have_seen_terminal_1 buffered_0s buffered_1s];
      try assumption; try reflexivity; lia. }
  assert (Hinv : r8_inv st_reset).
  { unfold r8_inv, st_reset.
    cbn [inp bits_per_record position have_seen_terminal_1 buffered_0s buffered_1s].
    rewrite E0, E1. conjs; lia. }
  rewrite length_r8_bits_cons in Hreads, Hlen |- *.
  replace (n + 1 + length (r8_bits runs))%nat with (S (n + length (r8_bits runs)))
    in Hreads |- * by lia.
  cbn [read_bits] in Hreads.
  destruct (read_bit st_reset) as [[bit s1]|] eqn:Ebit;
    cbn [mbind result_bind] in Hreads; [|discriminate].
  pose proof Ebit as Ebit0.
  assert (E0' : buffered_0s st_reset = 0) by exact E0.
  assert (E1' : buffered_1s st_reset = 0) by exact E1.
  unfold read_bit in Ebit. rewrite E0', E1' in Ebit.
  cbn [Z.eqb andb] in Ebit.
  destruct (assert_maybe_buffer_data st_reset) as [st0|] eqn:Eassert;
    cbn [mbind result_bind] in Ebit; [|discriminate].
  destruct (buffer_then_read st_reset st0 Hinv E0 E1 eq_refl Eassert)
    as (_ & _ & Hsame).
  exists st0. split.
  - unfold start_record. fold st_reset.
    unfold assert_maybe_buffer_data in Eassert.
    destruct (maybe_buffer_data st_reset) as [[[|] s]|];
      cbn [mbind result_bind] in Eassert; try discriminate.
    now injection Eassert as ->.
  - cbn [read_bits]. rewrite Hsame, Ebit0. exact Hreads.
Qed.

End R8Cut.

(** ** C3: the end of the stream inside a record *)

(** C3 (amended). The end of the stream is clean only where a record would
    start: in every reader [start_record] answers false only when it finds
    no byte to read. Once a record has begun, the end of the stream is an
    error in the 01 reader ([read_bit], [is_end_of_record] and the bulk read
    throw while bits are missing), in the B8 reader's [read_bit], in the HITS
    reader (a line cut before its newline makes [start_record] throw) and in
    the R8 reader. There, on a stream that ends on bytes 0xFF or between
    two runs of a record, [read_bit] and the bulk read throw, and so do
    [start_record] and [next_record] when the first run of a record is cut;
    when the run that ends the record is there and the byte 00 behind it is
    not, all four throw as well; and on a stream of whole runs that do not
    fill the record, cut in either way, [start_record] and [read_bit] deliver
    the bits of the whole runs and the next [read_bit] throws. A bulk read
    of the 01, HITS, DETS or R8 reader, or of the B8 reader with a byte
    buffered, that returns fewer bits than its output range holds has
    reached the end of the record (DETS: or of the section). The DETS reader
    throws when the stream ends inside the keyword, and takes the end of the
    stream after the keyword, a token or a space for the end of the line. *)
Theorem end_of_stream_inside_a_record :
  (* the clean end *)
  ((forall st st', MeasureRecordReaderFormat01.start_record st = Ok (false, st') ->
                   MeasureRecordReaderFormat01.inp st = [])
   /\ (forall st st', MeasureRecordReaderFormatB8.start_record st = Ok (false, st') ->
                      MeasureRecordReaderFormatB8.inp st = [])
   /\ (forall st st', MeasureRecordReaderFormatHits.start_record st = Ok (false, st') ->
                      MeasureRecordReaderFormatHits.inp st = [])
   /\ (forall st st', MeasureRecordReaderFormatDets.start_record st = Ok (false, st') ->
                      MeasureRecordReaderFormatDets.inp st = [])
   /\ (forall st st',
         255 * Z.of_nat (length (MeasureRecordReaderFormatR8.inp st)) < 2 ^ 64 ->
         MeasureRecordReaderFormatR8.start_record st = Ok (false, st') ->
         MeasureRecordReaderFormatR8.inp st = []))
  (* 01 *)
  /\ (forall st out,
        MeasureRecordReaderFormat01.payload st = EOF ->
        MeasureRecordReaderFormat01.position st
        < MeasureRecordReaderFormat01.bits_per_record st ->
        MeasureRecordReaderFormat01.read_bit st = Throw PastEndOfFile
        /\ MeasureRecordReaderFormat01.is_end_of_record st = Throw RecordEndedEarly
        /\ MeasureRecordReaderFormat01.read_bits_into_bytes st out
           = Throw RecordEndedEarly)
  /\ (forall st out n out' st',
        small_range out ->
        MeasureRecordReaderFormat01.read_bits_into_bytes st out = Ok (n, out', st') ->
        n < 8 * Z.of_nat (length out) ->
        MeasureRecordReaderFormat01.is_end_of_record st' = Ok true)
  (* B8 *)
  /\ (forall st,
        (MeasureRecordReaderFormatB8.bits_available st >? 0) = false ->
        MeasureRecordReaderFormatB8.inp st = [] ->
        MeasureRecordReaderFormatB8.position st
        < MeasureRecordReaderFormatB8.bits_per_record st ->
        MeasureRecordReaderFormatB8.read_bit st = Throw PastEndOfFile)
  /\ (forall st out n out' st',
        (MeasureRecordReaderFormatB8.bits_available st >? 0) = true ->
        small_range out ->
        MeasureRecordReaderFormatB8.read_bits_into_bytes st out = Ok (n, out', st') ->
        n < 8 * Z.of_nat (length out) ->
        MeasureRecordReaderFormatB8.is_end_of_record st' = true)
  (* HITS *)
  /\ (forall st,
        MeasureRecordReaderFormatHits.inp st <> [] ->
        ~ In x0a (MeasureRecordReaderFormatHits.inp st) ->
        exists e, MeasureRecordReaderFormatHits.start_record st = Throw e
                  /\ e <> LoopBudgetExhausted)
  /\ (forall st out n out' st',
        small_range out ->
        MeasureRecordReaderFormatHits.read_bits_into_bytes st out = Ok (n, out', st') ->
        n < 8 * Z.of_nat (length out) ->
        MeasureRecordReaderFormatHits.is_end_of_record st' = true)
  (* R8 *)
  /\ (forall st,
        MeasureRecordReaderFormatR8.buffered_0s st = 0 ->
        MeasureRecordReaderFormatR8.buffered_1s st = 0 ->
        MeasureRecordReaderFormatR8.inp st = [] ->
        exists e, MeasureRecordReaderFormatR8.read_bit st = Throw e)
  /\ (forall st k out,
        MeasureRecordReaderFormatR8.buffered_0s st = 0 ->
        MeasureRecordReaderFormatR8.buffered_1s st = 0 ->
        MeasureRecordReaderFormatR8.is_end_of_record st = false ->
        MeasureRecordReaderFormatR8.inp st = replicate k xff ->
        255 * Z.of_nat k < 2 ^ 64 ->
        (0 < k)%nat \/ MeasureRecordReaderFormatR8.position st <> 0 ->
        MeasureRecordReaderFormatR8.read_bit st = Throw R8EndedOnContinuation
        /\ (out <> [] ->
            MeasureRecordReaderFormatR8.read_bits_into_bytes st out
            = Throw R8EndedOnContinuation))
  /\ (forall st k,
        MeasureRecordReaderFormatR8.buffered_0s st = 0 ->
        MeasureRecordReaderFormatR8.buffered_1s st = 0 ->
        MeasureRecordReaderFormatR8.inp st = replicate k xff ->
        (0 < k)%nat -> 255 * Z.of_nat k < 2 ^ 64 ->
        MeasureRecordReaderFormatR8.start_record st = Throw R8EndedOnContinuation
        /\ (MeasureRecordReaderFormatR8.is_end_of_record st = true ->
            MeasureRecordReaderFormatR8.next_record st
            = Throw R8EndedOnContinuation))
  /\ (forall st n out,
        MeasureRecordReaderFormatR8.buffered_0s st = 0 ->
        MeasureRecordReaderFormatR8.buffered_1s st = 0 ->
        MeasureRecordReaderFormatR8.inp st = r8_run n ->
        0 <= MeasureRecordReaderFormatR8.position st ->
        MeasureRecordReaderFormatR8.position st + Z.of_nat n + 1
        = MeasureRecordReaderFormatR8.bits_per_record st ->
        MeasureRecordReaderFormatR8.bits_per_record st + 1 < 2 ^ 64 ->
        MeasureRecordReaderFormatR8.read_bit st = Throw R8NoTerminatorAtEof
        /\ (out <> [] ->
            MeasureRecordReaderFormatR8.read_bits_into_bytes st out
            = Throw R8NoTerminatorAtEof))
  /\ (forall st n,
        MeasureRecordReaderFormatR8.buffered_0s st = 0 ->
        MeasureRecordReaderFormatR8.buffered_1s st = 0 ->
        MeasureRecordReaderFormatR8.inp st = r8_run n ->
        Z.of_nat n + 1 = MeasureRecordReaderFormatR8.bits_per_record st ->
        MeasureRecordReaderFormatR8.bits_per_record st + 1 < 2 ^ 64 ->
        MeasureRecordReaderFormatR8.start_record st = Throw R8NoTerminatorAtEof
        /\ (MeasureRecordReaderFormatR8.is_end_of_record st = true ->
            MeasureRecordReaderFormatR8.next_record st
            = Throw R8NoTerminatorAtEof))
  /\ (forall st runs k,
        MeasureRecordReaderFormatR8.buffered_0s st = 0 ->
        MeasureRecordReaderFormatR8.buffered_1s st = 0 ->
        MeasureRecordReaderFormatR8.have_seen_terminal_1 st = false ->
        MeasureRecordReaderFormatR8.inp st = r8_stream runs ++ replicate k xff ->
        0 <= MeasureRecordReaderFormatR8.position st ->
        MeasureRecordReaderFormatR8.position st + Z.of_nat (length (r8_bits runs))
        < MeasureRecordReaderFormatR8.bits_per_record st ->
        255 * Z.of_nat (length (MeasureRecordReaderFormatR8.inp st))
        + MeasureRecordReaderFormatR8.bits_per_record st + 1 < 2 ^ 64 ->
        runs <> [] \/ (0 < k)%nat \/ MeasureRecordReaderFormatR8.position st <> 0 ->
        exists s,
          read_bits MeasureRecordReaderFormatR8.read_bit (length (r8_bits runs)) st
          = Ok (r8_bits runs, s)
          /\ MeasureRecordReaderFormatR8.read_bit s = Throw R8EndedOnContinuation)
  /\ (forall st runs k,
        MeasureRecordReaderFormatR8.buffered_0s st = 0 ->
        MeasureRecordReaderFormatR8.buffered_1s st = 0 ->
        MeasureRecordReaderFormatR8.inp st = r8_stream runs ++ replicate k xff ->
        runs <> [] ->
        Z.of_nat (length (r8_bits runs))
        < MeasureRecordReaderFormatR8.bits_per_record st ->
        255 * Z.of_nat (length (MeasureRecordReaderFormatR8.inp st))
        + MeasureRecordReaderFormatR8.bits_per_record st + 1 < 2 ^ 64 ->
        exists st0 s,
          MeasureRecordReaderFormatR8.start_record st = Ok (true, st0)
          /\ read_bits MeasureRecordReaderFormatR8.read_bit (length (r8_bits runs)) st0
             = Ok (r8_bits runs, s)
          /\ MeasureRecordReaderFormatR8.read_bit s = Throw R8EndedOnContinuation)
  /\ (forall st runs n,
        MeasureRecordReaderFormatR8.buffered_0s st = 0 ->
        MeasureRecordReaderFormatR8.buffered_1s st = 0 ->
        MeasureRecordReaderFormatR8.inp st = r8_stream runs ++ r8_run n ->
        runs <> [] ->
        Z.of_nat (length (r8_bits runs)) + Z.of_nat n + 1
        = MeasureRecordReaderFormatR8.bits_per_record st ->
        255 * Z.of_nat (length (MeasureRecordReaderFormatR8.inp st))
        + MeasureRecordReaderFormatR8.bits_per_record st + 1 < 2 ^ 64 ->
        exists st0 s,
          MeasureRecordReaderFormatR8.start_record st = Ok (true, st0)
          /\ read_bits MeasureRecordReaderFormatR8.read_bit (length (r8_bits runs)) st0
             = Ok (r8_bits runs, s)
          /\ MeasureRecordReaderFormatR8.read_bit s = Throw R8NoTerminatorAtEof)
  /\ (forall st out n out' st',
        r8_inv st -> small_range out ->
        MeasureRecordReaderFormatR8.read_bits_into_bytes st out = Ok (n, out', st') ->
        n < 8 * Z.of_nat (length out) ->
        MeasureRecordReaderFormatR8.is_end_of_record st' = true)
  (* DETS *)
  /\ (forall st out n out' st',
        small_range out ->
        MeasureRecordReaderFormatDets.read_bits_into_bytes st out = Ok (n, out', st') ->
        n < 8 * Z.of_nat (length out) ->
        MeasureRecordReaderFormatDets.is_end_of_record st' = true
        \/ MeasureRecordReaderFormatDets.current_result_type st'
           <> MeasureRecordReaderFormatDets.current_result_type st)
  /\ (forall st,
        In (MeasureRecordReaderFormatDets.inp st) [[x73]; [x73; x68]; [x73; x68; x6f]] ->
        MeasureRecordReaderFormatDets.start_record st = Throw KeywordNotFound)
  /\ (forall st tokens trailing,
        let m := MeasureRecordReaderFormatDets.m_bits_per_record st in
        let d := MeasureRecordReaderFormatDets.d_bits_per_record st in
        let l := MeasureRecordReaderFormatDets.l_bits_per_record st in
        0 <= m -> 0 <= d -> 0 <= l -> m + d + l < 2 ^ 64 ->
        MeasureRecordReaderFormatDets.inp st = dets_line_at_eof tokens trailing ->
        Forall (dets_token_ok m d l) tokens ->
        MeasureRecordReaderFormatDets.start_record st
        = Ok (true,
              MeasureRecordReaderFormatDets.mk
                [] (fold_left buffer_toggle (dets_position m d <$> tokens)
                              (buffer_clear (MeasureRecordReaderFormatDets.buffer st)))
                0 m d l)).
Proof.
  split; [|conjs].
  - conjs.
    + intros st st' H. now apply (proj1 (EndOfStream.f01_start_record_false st) st').
    + intros st st' H. now apply (proj1 (EndOfStream.b8_start_record_false st) st').
    + intros st st' H. now apply (proj1 (EndOfStream.hits_start_record_false st) st').
    + intros st st' H. now apply (proj1 (EndOfStream.dets_start_record_false st) st').
    + intros st st' Hfit H.
      now apply (proj1 (EndOfStream.r8_start_record_false st Hfit) st').
  - exact MidRecord.f01_at_eof.
  - intros st out n out' st' Hsmall H Hshort.
    destruct (default_read_stops _ _ _ _ _ _ _ _ Hsmall H Hshort) as [He|[_ Hne]];
      [assumption | now contradiction Hne].
  - exact MidRecord.b8_read_bit_at_eof.
  - intros st out n out' st' Ha Hsmall H Hshort.
    unfold MeasureRecordReaderFormatB8.read_bits_into_bytes in H. rewrite Ha in H.
    destruct (MeasureRecordReaderFormatB8.position st
              >=? MeasureRecordReaderFormatB8.bits_per_record st) eqn:Epos.
    + injection H as <- <- <-. exact Epos.
    + destruct (default_read_stops _ _ _ _ _ _ _ _ Hsmall H Hshort) as [He|[_ Hne]];
        [now injection He | now contradiction Hne].
  - exact HitsEnd.start_record_cut_line.
  - intros st out n out' st' Hsmall H Hshort.
    destruct (default_read_stops _ _ _ _ _ _ _ _ Hsmall H Hshort) as [He|[_ Hne]];
      [now injection He | now contradiction Hne].
  - intros st E0 E1 Einp. eexists. now apply MidRecord.r8_read_bit_at_eof.
  - (* the stream ends on bytes 0xFF *)
    intros st k out E0 E1 Hend Hinp Hfit Hcut.
    pose proof (R8Cut.buffer_cut_run st k E0 E1 Hend Hinp Hfit Hcut) as Hbuf.
    split; [now apply R8Cut.read_bit_throws|].
    intros Hout. now apply R8Cut.bulk_read_throws.
  - intros st k E0 E1 Hinp Hk Hfit.
    assert (Hstart : MeasureRecordReaderFormatR8.start_record st
                     = Throw R8EndedOnContinuation).
    { unfold MeasureRecordReaderFormatR8.start_record.
      apply (R8Cut.buffer_cut_run _ k); try assumption.
      - unfold MeasureRecordReaderFormatR8.is_end_of_record.
        cbn [MeasureRecordReaderFormatR8.have_seen_terminal_1]. apply andb_false_r.
      - now left. }
    split; [exact Hstart|]. intros Hend.
    unfold MeasureRecordReaderFormatR8.next_record.
    assert (Hskip : forall budget, MeasureRecordReaderFormatR8.skip_bits budget st = Ok st)
      by (intros [|budget]; cbn [MeasureRecordReaderFormatR8.skip_bits];
          now rewrite Hend).
    rewrite Hskip. exact Hstart.
  - (* the byte 00 behind the record is missing *)
    intros st n out E0 E1 Hinp Hp Hlast Hfit.
    pose proof (R8Cut.buffer_no_terminator st n E0 E1 Hinp Hp Hlast Hfit) as Hbuf.
    split; [now apply R8Cut.read_bit_throws|].
    intros Hout. apply R8Cut.bulk_read_throws; try assumption.
    unfold MeasureRecordReaderFormatR8.is_end_of_record.
    destruct (Z.eqb_spec (MeasureRecordReaderFormatR8.position st)
                         (MeasureRecordReaderFormatR8.bits_per_record st));
      [lia | reflexivity].
  - intros st n E0 E1 Hinp Hlast Hfit.
    assert (Hstart : MeasureRecordReaderFormatR8.start_record st
                     = Throw R8NoTerminatorAtEof).
    { unfold MeasureRecordReaderFormatR8.start_record.
      apply (R8Cut.buffer_no_terminator _ n); try assumption;
        cbn [MeasureRecordReaderFormatR8.position
               MeasureRecordReaderFormatR8.bits_per_record]; lia. }
    split; [exact Hstart|]. intros Hend.
    unfold MeasureRecordReaderFormatR8.next_record.
    assert (Hskip : forall budget, MeasureRecordReaderFormatR8.skip_bits budget st = Ok st)
      by (intros [|budget]; cbn [MeasureRecordReaderFormatR8.skip_bits];
          now rewrite Hend).
    rewrite Hskip. exact Hstart.
  - (* whole runs, then the cut *)
    intros st runs k E0 E1 Eseen Hinp Hp Hlen Hfit Hcut.
    eexists. split;
      [now apply (R8Cut.read_whole_runs_from st runs (replicate k xff))|].
    apply R8Cut.read_bit_throws; [reflexivity..|].
    apply (R8Cut.buffer_cut_run _ k); try reflexivity.
    + unfold MeasureRecordReaderFormatR8.is_end_of_record.
      cbn [MeasureRecordReaderFormatR8.have_seen_terminal_1]. apply andb_false_r.
    + rewrite Hinp, length_app, length_replicate in Hfit. lia.
    + cbn [MeasureRecordReaderFormatR8.position].
      destruct Hcut as [Hruns|[Hk|Hpos]]; [|now left|right; lia].
      right. destruct runs as [|n runs]; [contradiction|].
      rewrite R8Records.length_r8_bits_cons. lia.
  - intros st runs k E0 E1 Hinp Hne Hlen Hfit.
    destruct (R8Cut.start_then_read st runs (replicate k xff) E0 E1 Hinp Hne Hlen Hfit)
      as (st0 & Hstart & Hreads).
    eexists st0, _. split; [exact Hstart|]. split; [exact Hreads|].
    apply R8Cut.read_bit_throws; [reflexivity..|].
    apply (R8Cut.buffer_cut_run _ k); try reflexivity.
    + unfold MeasureRecordReaderFormatR8.is_end_of_record.
      cbn [MeasureRecordReaderFormatR8.have_seen_terminal_1]. apply andb_false_r.
    + rewrite Hinp, length_app, length_replicate in Hfit. lia.
    + cbn [MeasureRecordReaderFormatR8.position]. right.
      destruct runs as [|n runs]; [contradiction|].
      rewrite R8Records.length_r8_bits_cons. lia.
  - intros st runs n E0 E1 Hinp Hne Hlen Hfit.
    destruct (R8Cut.start_then_read st runs (r8_run n) E0 E1 Hinp Hne ltac:(lia) Hfit)
      as (st0 & Hstart & Hreads).
    eexists st0, _. split; [exact Hstart|]. split; [exact Hreads|].
    apply R8Cut.read_bit_throws; [reflexivity..|].
    apply (R8Cut.buffer_no_terminator _ n); try reflexivity;
      cbn [MeasureRecordReaderFormatR8.position
             MeasureRecordReaderFormatR8.bits_per_record]; lia.
  - intros st out n out' st' Hinv Hsmall H Hshort.
    unfold MeasureRecordReaderFormatR8.read_bits_into_bytes in H.
    unfold small_range in Hsmall.
    eapply MidRecord.r8_bytes_loop_stop; [exact Hinv | exact H | lia..].
  - intros st out n out' st' Hsmall H Hshort.
    destruct (default_read_stops _ _ _ _ _ _ _ _ Hsmall H Hshort) as [He|[_ Hne]];
      [left; now injection He | now right].
  - exact MidRecord.dets_keyword_cut.
  - intros st tokens trailing m d l Hm Hd Hl Hsum Hinp Hok.
    apply (DetsLine.dets_start_record_run st tokens trailing []); try assumption.
    + now left.
    + rewrite Hinp. unfold dets_line_at_eof. now rewrite app_nil_r.
Qed.

(** The 01 reader on a stream cut after two bits of a record of three, and
    the R8 reader on a stream whose first run is cut after a byte 0xFF. *)
Lemma end_of_stream_inside_a_record_witness :
  MeasureRecordReaderFormat01.read_bit (MeasureRecordReaderFormat01.mk [] EOF 2 3)
  = Throw PastEndOfFile
  /\ MeasureRecordReaderFormatR8.start_record (MeasureRecordReaderFormatR8.make [xff] 300)
     = Throw R8EndedOnContinuation.
Proof.
  pose proof end_of_stream_inside_a_record
    as (_ & H01 & _ & _ & _ & _ & _ & _ & _ & Hr8 & _).
  split.
  - refine (proj1 (H01 (MeasureRecordReaderFormat01.mk [] EOF 2 3) [] _ _));
      [reflexivity | cbn; lia].
  - refine (proj1 (Hr8 (MeasureRecordReaderFormatR8.make [xff] 300) 1%nat _ _ _ _ _));
      [reflexivity | reflexivity | reflexivity | lia | cbn; lia].
Defined.
